(** * Obsidian CC: the local control-plane server

    A shallow embedding of the security core of the MCP server
    (PathValidator, AuditLogger, OperationGuard, MCPServer), of the
    task adapter and of the text output of the search client, and the
    properties of the specification checked against it.

    Strings are JavaScript strings restricted to code units below 256
    (Rocq's [string]); on that alphabet Unicode normalisation (NFC) is the
    identity.  The lines of tasks and the output of the search tool,
    which hold emoji, are lists of UTF-16 code units ([Utf16.text]).
    The clock ([Date.now()]), the random correlation ids and the replies
    of the external collaborators are inputs of the model, and so is what
    the platform makes of a request: the path name that the URL
    constructor finds in its target, or the error it throws, and the JSON
    value of its body.  A thrown value is an error object of one of the
    standard constructors, so that [String(error)] is its name, a colon
    and its message.  The name of the vault, which comes from outside,
    is a list of code units, so that [encodeURIComponent] can meet a
    lone surrogate in it and throw; on the paths of this alphabet it
    never throws. *)

From Stdlib Require Import ZArith NArith Ascii String Bool List Lia.
From Stdlib Require Import DecimalString DecimalPos.
From stdpp Require Import base option list gmap strings sorting.

Local Open Scope string_scope.
Local Open Scope list_scope.

(** ** JavaScript string primitives used by the code *)

Module Js.

Definition chr (n : nat) : ascii := ascii_of_nat n.

(** [s.startsWith(p)] *)
Fixpoint startsWith (p s : string) : bool :=
  match p, s with
  | EmptyString, _ => true
  | String a p', String b s' => Ascii.eqb a b && startsWith p' s'
  | String _ _, EmptyString => false
  end.

(** [s.includes(sub)], also [/sub/.test(s)] for a literal pattern *)
Fixpoint includes (sub s : string) : bool :=
  startsWith sub s ||
  match s with
  | EmptyString => false
  | String _ s' => includes sub s'
  end.

Definition rev (s : string) : string :=
  string_of_list_ascii (List.rev (list_ascii_of_string s)).

(** [s.endsWith(p)] *)
Definition endsWith (p s : string) : bool := startsWith (rev p) (rev s).

(** White space and line terminators below code unit 256
    (TAB, LF, VT, FF, CR, SP, NBSP), as removed by [trim]. *)
Definition isWhiteSpace (c : ascii) : bool :=
  let n := nat_of_ascii c in
  (((9 <=? n) && (n <=? 13)) || (n =? 32) || (n =? 160))%nat.

Fixpoint trimStart (s : string) : string :=
  match s with
  | EmptyString => EmptyString
  | String c s' => if isWhiteSpace c then trimStart s' else s
  end.

Definition trimEnd (s : string) : string := rev (trimStart (rev s)).

(** [s.trim()] *)
Definition trim (s : string) : string := trimEnd (trimStart s).

(** One character of [toLowerCase] below code unit 256:
    A-Z, and the Latin-1 capitals U+00C0..U+00DE except U+00D7. *)
Definition lowerChar (c : ascii) : ascii :=
  let n := nat_of_ascii c in
  if (((65 <=? n) && (n <=? 90))
      || ((192 <=? n) && (n <=? 222) && negb (n =? 215)))%nat
  then ascii_of_nat (n + 32) else c.

(** [s.toLowerCase()] *)
Fixpoint toLowerCase (s : string) : string :=
  match s with
  | EmptyString => EmptyString
  | String c s' => String (lowerChar c) (toLowerCase s')
  end.

(** [/sub/i.test(s)] for a literal lower-case pattern [sub] *)
Definition includes_i (sub s : string) : bool :=
  includes sub (toLowerCase s).

(** [s.split(sep)] for a one-character separator *)
Fixpoint split (sep : ascii) (s : string) : list string :=
  match s with
  | EmptyString => [EmptyString]
  | String c s' =>
      if Ascii.eqb c sep then EmptyString :: split sep s'
      else match split sep s' with
           | h :: t => String c h :: t
           | [] => [String c EmptyString]
           end
  end.

(** [parts.join(sep)] *)
Fixpoint join (sep : string) (parts : list string) : string :=
  match parts with
  | [] => EmptyString
  | [p] => p
  | p :: rest => p +:+ sep +:+ join sep rest
  end.

Definition isAsciiLetter (c : ascii) : bool :=
  let n := nat_of_ascii c in
  (((65 <=? n) && (n <=? 90)) || ((97 <=? n) && (n <=? 122)))%nat.

(** The JavaScript values that reach the server in the JSON arguments of
    a tool call; numbers are integers here. *)
Inductive value :=
| Undefined
| Null
| Bool (b : bool)
| Number (n : Z)
| Str (s : string)
| Object.

(** [!v] is [negb (truthy v)] *)
Definition truthy (v : value) : bool :=
  match v with
  | Undefined | Null => false
  | Bool b => b
  | Number n => negb (n =? 0)%Z
  | Str s => negb (String.eqb s EmptyString)
  | Object => true
  end.

(** A parameter with a default value: the default replaces [undefined]. *)
Definition orDefault (v default : value) : value :=
  match v with
  | Undefined => default
  | _ => v
  end.

(** [v === s] for a string literal [s] *)
Definition isStr (s : string) (v : value) : bool :=
  match v with
  | Str s' => String.eqb s s'
  | _ => false
  end.

(** [s.lastIndexOf(c)], -1 when [c] does not occur *)
Fixpoint lastIndexOfFrom (c : ascii) (s : string) (i : Z) (found : Z) : Z :=
  match s with
  | EmptyString => found
  | String a s' => lastIndexOfFrom c s' (i + 1) (if Ascii.eqb a c then i else found)
  end.

Definition lastIndexOf (c : ascii) (s : string) : Z := lastIndexOfFrom c s 0 (-1).

(** [s.substring(0, e)]; a negative [e] counts as 0 *)
Definition substringTo (e : Z) (s : string) : string :=
  String.substring 0 (Z.to_nat e) s.

(** [s.slice(b)] for [b >= 0] *)
Definition sliceFrom (b : nat) (s : string) : string :=
  String.substring b (String.length s - b) s.

(** [arr.slice(-n)] for [n > 0]: the last [n] elements *)
Definition sliceLast {A} (n : nat) (arr : list A) : list A :=
  skipn (List.length arr - n) arr.

(** [arr.slice(start)]: a negative [start] counts from the end. *)
Definition slice {A} (start : Z) (arr : list A) : list A :=
  let len := Z.of_nat (List.length arr) in
  let k := if (start <? 0)%Z then Z.max (len + start) 0 else Z.min start len in
  skipn (Z.to_nat k) arr.

(** A thrown value: an object made by one of the error constructors of
    the language, [new Error(message)], [new TypeError(message)] and so
    on. *)
Inductive error :=
| Error (message : string)
| TypeError (message : string)
| RangeError (message : string)
| SyntaxError (message : string)
| ReferenceError (message : string)
| URIError (message : string).

(** [error.name] *)
Definition name (e : error) : string :=
  match e with
  | Error _ => "Error"
  | TypeError _ => "TypeError"
  | RangeError _ => "RangeError"
  | SyntaxError _ => "SyntaxError"
  | ReferenceError _ => "ReferenceError"
  | URIError _ => "URIError"
  end.

(** [error.message] *)
Definition message (e : error) : string :=
  match e with
  | Error m | TypeError m | RangeError m | SyntaxError m | ReferenceError m
  | URIError m => m
  end.

(** [String(error)], that is [Error.prototype.toString]: the name alone
    when the message is empty, else the name, a colon, a space and the
    message. *)
Definition errorString (e : error) : string :=
  if String.eqb (message e) EmptyString then name e
  else name e +:+ ": " +:+ message e.

Definition hexDigit (n : nat) : ascii :=
  if (n <? 10)%nat then ascii_of_nat (48 + n) else ascii_of_nat (55 + n).

(** A byte as a percent sign and two hexadecimal digits in upper case *)
Definition percent (byte : nat) : string :=
  String "%" (String (hexDigit (byte / 16)) (String (hexDigit (byte mod 16)) EmptyString)).

(** The code units that [encodeURIComponent] leaves as they are: letters,
    digits, and the marks hyphen, underscore, full stop, exclamation mark,
    tilde, asterisk, apostrophe and the two round brackets. *)
Definition isUnreserved (c : ascii) : bool :=
  let n := nat_of_ascii c in
  isAsciiLetter c || ((48 <=? n) && (n <=? 57))%nat
  || existsb (Nat.eqb n) [45; 95; 46; 33; 126; 42; 39; 40; 41]%nat.

(** One code unit below 256 in [encodeURIComponent]: the bytes of its
    UTF-8 form, percent-encoded, unless it is left as it is. *)
Definition encodeUnit (c : ascii) : string :=
  let n := nat_of_ascii c in
  if isUnreserved c then String c EmptyString
  else if (n <? 128)%nat then percent n
  else percent (192 + n / 64) +:+ percent (128 + n mod 64).

(** [encodeURIComponent(s)].  It throws [URIError] on a lone surrogate
    only, which a string of code units below 256 does not hold. *)
Fixpoint encodeURIComponent (s : string) : string :=
  match s with
  | EmptyString => EmptyString
  | String c s' => encodeUnit c +:+ encodeURIComponent s'
  end.

(** [s.replace(/suffix$/, '')] for a literal [suffix] *)
Definition withoutSuffix (suffix s : string) : string :=
  if endsWith suffix s
  then String.substring 0 (String.length s - String.length suffix) s
  else s.

End Js.

(** ** Node's [path] module (POSIX flavour)

    [path.resolve] and [path.extname] are library functions; they are
    written here after Node's [lib/path.js], the normalisation of a path
    segment by segment instead of character by character. *)

Module NodePath.

(** One step of [normalizeString]: a path segment applied to the stack of
    segments kept so far (most recent first).  Empty segments and [.] are
    dropped; [..] removes the last kept segment, and above the root it is
    dropped or kept according to [allowAboveRoot]. *)
Definition pushSegment (allowAboveRoot : bool) (stack : list string)
    (seg : string) : list string :=
  if String.eqb seg EmptyString || String.eqb seg "." then stack
  else if String.eqb seg ".." then
    match stack with
    | [] => if allowAboveRoot then [".."] else []
    | top :: below =>
        if String.eqb top ".." then ".." :: stack else below
    end
  else seg :: stack.

Definition normalizeString (path : string) (allowAboveRoot : bool) : string :=
  Js.join "/"
    (List.rev (fold_left (pushSegment allowAboveRoot) (Js.split "/" path) [])).

(** The right-to-left loop of [path.resolve]: arguments are prepended
    until an absolute one has been seen; empty arguments are skipped. *)
Fixpoint resolveLoop (revArgs : list string) (resolvedPath : string)
    (resolvedAbsolute : bool) : string * bool :=
  if resolvedAbsolute then (resolvedPath, resolvedAbsolute)
  else match revArgs with
       | [] => (resolvedPath, resolvedAbsolute)
       | p :: rest =>
           if String.eqb p EmptyString then resolveLoop rest resolvedPath resolvedAbsolute
           else resolveLoop rest (p +:+ "/" +:+ resolvedPath) (Js.startsWith "/" p)
       end.

(** [path.resolve(...args)]; [cwd] is [process.cwd()]. *)
Definition resolve (cwd : string) (args : list string) : string :=
  let '(resolvedPath, resolvedAbsolute) :=
    resolveLoop (List.rev (cwd :: args)) EmptyString false in
  let normalized := normalizeString resolvedPath (negb resolvedAbsolute) in
  if resolvedAbsolute then "/" +:+ normalized
  else if String.eqb normalized EmptyString then "." else normalized.

(** State of the backward scan of [path.extname]. *)
Record extScan := {
  startDot : option nat;
  startPart : nat;
  scanEnd : option nat;
  matchedSlash : bool;
  preDotState : Z;
  stopped : bool;
}.

Definition extInit : extScan :=
  {| startDot := None; startPart := 0; scanEnd := None;
     matchedSlash := true; preDotState := 0; stopped := false |}.

(** Loop body of [extname] at index [i] with character [c]. *)
Definition extStep (st : extScan) (ic : nat * ascii) : extScan :=
  let '(i, c) := ic in
  if stopped st then st
  else if Ascii.eqb c "/" then
    if negb (matchedSlash st) then
      {| startDot := startDot st; startPart := i + 1; scanEnd := scanEnd st;
         matchedSlash := matchedSlash st; preDotState := preDotState st;
         stopped := true |}
    else st
  else
    let st1 :=
      match scanEnd st with
      | None =>
          {| startDot := startDot st; startPart := startPart st;
             scanEnd := Some (i + 1); matchedSlash := false;
             preDotState := preDotState st; stopped := false |}
      | Some _ => st
      end in
    if Ascii.eqb c "." then
      match startDot st1 with
      | None =>
          {| startDot := Some i; startPart := startPart st1;
             scanEnd := scanEnd st1; matchedSlash := matchedSlash st1;
             preDotState := preDotState st1; stopped := false |}
      | Some _ =>
          {| startDot := startDot st1; startPart := startPart st1;
             scanEnd := scanEnd st1; matchedSlash := matchedSlash st1;
             preDotState := 1; stopped := false |}
      end
    else
      match startDot st1 with
      | Some _ =>
          {| startDot := startDot st1; startPart := startPart st1;
             scanEnd := scanEnd st1; matchedSlash := matchedSlash st1;
             preDotState := (-1); stopped := false |}
      | None => st1
      end.

Definition indexed (s : string) : list (nat * ascii) :=
  let cs := list_ascii_of_string s in
  combine (seq 0 (List.length cs)) cs.

(** [path.extname(path)] *)
Definition extname (path : string) : string :=
  let st := fold_left extStep (List.rev (indexed path)) extInit in
  match startDot st, scanEnd st with
  | Some sd, Some e =>
      if (preDotState st =? 0)%Z
         || ((preDotState st =? 1)%Z && (sd =? e - 1)%nat
             && (sd =? startPart st + 1)%nat)
      then EmptyString
      else String.substring sd (e - sd) path
  | _, _ => EmptyString
  end.

(** [path.normalize(path)] *)
Definition normalize (path : string) : string :=
  if String.eqb path EmptyString then "."
  else
    let isAbsolute := Js.startsWith "/" path in
    let trailingSeparator := Js.endsWith "/" path in
    let normalized := normalizeString path (negb isAbsolute) in
    if String.eqb normalized EmptyString then
      if isAbsolute then "/" else if trailingSeparator then "./" else "."
    else
      let normalized := if trailingSeparator then normalized +:+ "/" else normalized in
      if isAbsolute then "/" +:+ normalized else normalized.

(** [path.join(...args)]: the non-empty arguments, joined by [/] and
    normalised. *)
Definition join (args : list string) : string :=
  match List.filter (fun arg => negb (String.eqb arg EmptyString)) args with
  | [] => "."
  | parts => normalize (Js.join "/" parts)
  end.

End NodePath.

(** ** Obsidian's [normalizePath]

    A function of the Obsidian API: it turns every run of slashes and
    backslashes into one slash, strips the slashes at both ends, returns
    [/] for what is left empty, and replaces non-breaking spaces by
    spaces (then normalises to NFC, the identity on the strings modelled
    here).  It does not remove [.] or [..] segments. *)

Module Obsidian.

Definition isSlash (c : ascii) : bool := Ascii.eqb c "/" || Ascii.eqb c "\".

(** [path.replace(/([\\/])+/g, '/')]: every run of slashes and
    backslashes becomes one forward slash. *)
Fixpoint collapseSlashes (inRun : bool) (s : string) : string :=
  match s with
  | EmptyString => EmptyString
  | String c s' =>
      if isSlash c then
        if inRun then collapseSlashes true s'
        else String "/" (collapseSlashes true s')
      else String c (collapseSlashes false s')
  end.

Fixpoint stripLeadingSlashes (s : string) : string :=
  match s with
  | String c s' => if Ascii.eqb c "/" then stripLeadingSlashes s' else s
  | EmptyString => EmptyString
  end.

(** [path.replace(/(^\/+|\/+$)/g, '')] *)
Definition stripSlashes (s : string) : string :=
  Js.rev (stripLeadingSlashes (Js.rev (stripLeadingSlashes s))).

(** [path.replace(/\u00A0|\u202F/g, ' ')] on code units below 256 *)
Fixpoint replaceNbsp (s : string) : string :=
  match s with
  | EmptyString => EmptyString
  | String c s' =>
      String (if (nat_of_ascii c =? 160)%nat then " "%char else c) (replaceNbsp s')
  end.

Definition normalizePath (path : string) : string :=
  let cleaned := stripSlashes (collapseSlashes false path) in
  let cleaned := if String.eqb cleaned EmptyString then "/" else cleaned in
  replaceNbsp cleaned.

End Obsidian.

(** ** PathValidator (mcp/security/PathValidator.ts) *)

Module PathValidator.

(** [PathValidationResult]: [valid] with [sanitizedPath], or [error]. *)
Inductive PathValidationResult :=
| Valid (sanitizedPath : string)
| Invalid (error : string).

Definition dquote : string := String (Js.chr 34) EmptyString.

Definition ALLOWED_EXTENSIONS : list string :=
  [".md"; ".txt"; ".json"; ".yaml"; ".yml"; ".csv"].

(** The regular expressions of [DANGEROUS_PATTERNS], in order, each as
    its test on a string. *)
Definition DANGEROUS_PATTERNS : list (string -> bool) :=
  [ Js.includes "..";
    Js.startsWith "~/";
    Js.startsWith "$";
    Js.includes_i "%2e%2e";
    Js.includes_i "%252e%252e";
    Js.includes (String (Js.chr 0) EmptyString) ].

(** [/^[A-Za-z]:/.test(path)] *)
Definition driveLetter (path : string) : bool :=
  match path with
  | String a (String b _) => Js.isAsciiLetter a && Ascii.eqb b ":"
  | _ => false
  end.

Definition isHidden (part : string) : bool :=
  Js.startsWith "." part && negb (String.eqb part ".").

Section WithRoot.
(** [cwd] is [process.cwd()], which [path.resolve] reads when the vault
    path is relative. *)
Variable cwd : string.
Variable vaultPath : string.

Definition vaultWithSep : string :=
  if Js.endsWith "/" vaultPath then vaultPath else vaultPath +:+ "/".

(** The test of line 71, negated: the resolved path is the vault path
    or lies below it. *)
Definition withinVault (absolutePath : string) : bool :=
  String.eqb absolutePath vaultPath || Js.startsWith vaultWithSep absolutePath.

(** [validate(requestedPath)] on a string; for a string the test of
    line 41 is the test for the empty string. *)
Definition validate (requestedPath : string) : PathValidationResult :=
  if String.eqb requestedPath EmptyString then Invalid "Path is required"
  else if String.eqb (Js.trim requestedPath) EmptyString then Invalid "Path cannot be empty"
  else if existsb (fun pattern => pattern requestedPath) DANGEROUS_PATTERNS
  then Invalid "Path contains dangerous pattern"
  else if Js.startsWith "/" requestedPath || driveLetter requestedPath
  then Invalid "Absolute paths are not allowed"
  else
    let normalized := Obsidian.normalizePath requestedPath in
    let absolutePath := NodePath.resolve cwd [vaultPath; normalized] in
    if negb (withinVault absolutePath)
    then Invalid "Path escapes vault directory"
    else if existsb isHidden (Js.split "/" normalized)
    then Invalid "Hidden files/folders are not allowed"
    else Valid normalized.

Definition validateWithExtension (requestedPath : string)
    (requireExtension : bool) : PathValidationResult :=
  match validate requestedPath with
  | Invalid e => Invalid e
  | Valid sanitized =>
      let ext := Js.toLowerCase (NodePath.extname requestedPath) in
      if String.eqb ext EmptyString && requireExtension then
        Valid (Obsidian.normalizePath (requestedPath +:+ ".md"))
      else if negb (String.eqb ext EmptyString)
              && negb (existsb (String.eqb ext) ALLOWED_EXTENSIONS)
      then Invalid ("Extension " +:+ dquote +:+ ext +:+ dquote +:+ " is not allowed")
      else Valid sanitized
  end.

Fixpoint stripTrailingSlashesRev (r : string) : string :=
  match r with
  | String c r' => if Ascii.eqb c "/" then stripTrailingSlashesRev r' else r
  | EmptyString => EmptyString
  end.

(** [validateFolder]; the falsy test of its first line is an empty
    string for a string argument. *)
Definition validateFolder (folderPath : string) : PathValidationResult :=
  if String.eqb folderPath EmptyString then Valid EmptyString
  else match validate folderPath with
       | Invalid e => Invalid e
       | Valid sanitized =>
           Valid (Js.rev (stripTrailingSlashesRev (Js.rev sanitized)))
       end.

(** The same methods on an argument taken from the JSON of a tool
    call: line 41 rejects what is falsy or not a string, and the first
    line of [validateFolder] accepts what is falsy. *)
Definition validateWithExtensionValue (requestedPath : Js.value)
    : PathValidationResult :=
  match requestedPath with
  | Js.Str p => validateWithExtension p true
  | _ => Invalid "Path is required"
  end.

Definition validateFolderValue (folderPath : Js.value) : PathValidationResult :=
  if negb (Js.truthy folderPath) then Valid EmptyString
  else match folderPath with
       | Js.Str p => validateFolder p
       | _ => Invalid "Path is required"
       end.

(** [resolveSafe(relativePath)], [None] for [null] *)
Definition resolveSafe (relativePath : string) : option string :=
  match validate relativePath with
  | Invalid _ => None
  | Valid sanitizedPath =>
      if String.eqb sanitizedPath EmptyString then None
      else Some (NodePath.join [vaultPath; sanitizedPath])
  end.

(** [isWithinVault(absolutePath)] *)
Definition isWithinVault (absolutePath : string) : bool :=
  Js.startsWith vaultPath (NodePath.resolve cwd [absolutePath]).

End WithRoot.

End PathValidator.

(** ** AuditLogger (mcp/security/AuditLogger.ts) *)

Module AuditLogger.

Inductive EntryType :=
| tool_call
| resource_read
| approval_request
| approval_response.

(** [AuditEntry]; [timestamp] is the instant that [toISOString] prints,
    [details] is the [approved] flag of an approval response. *)
Record AuditEntry := {
  timestamp : Z;
  type : EntryType;
  tool : option string;
  path : Js.value;
  clientId : option string;
  success : bool;
  error : option string;
  details : option bool;
}.

(** An entry without its time stamp: [Omit<AuditEntry, 'timestamp'>]. *)
Record Event := {
  ev_type : EntryType;
  ev_tool : option string;
  ev_path : Js.value;
  ev_clientId : option string;
  ev_success : bool;
  ev_error : option string;
  ev_details : option bool;
}.

(** The logger object: the two settings it reads, its buffer, and the
    diagnostic stream written in debug mode. *)
Record t := {
  auditLogging : bool;
  debugMode : bool;
  logs : list AuditEntry;
  console : list AuditEntry;
}.

Definition maxLogSize : nat := 1000.

Definition create (auditLogging debugMode : bool) : t :=
  {| auditLogging := auditLogging; debugMode := debugMode;
     logs := []; console := [] |}.

Definition stamp (now : Z) (event : Event) : AuditEntry :=
  {| timestamp := now; type := ev_type event; tool := ev_tool event;
     path := ev_path event; clientId := ev_clientId event;
     success := ev_success event; error := ev_error event;
     details := ev_details event |}.

(** [log(event)]; [now] is the clock read by [new Date()]. *)
Definition log (now : Z) (event : Event) (a : t) : t :=
  if negb (auditLogging a) then a
  else
    let entry := stamp now event in
    let pushed := logs a ++ [entry] in
    let trimmed :=
      if (maxLogSize <? List.length pushed)%nat
      then Js.sliceLast maxLogSize pushed else pushed in
    {| auditLogging := auditLogging a; debugMode := debugMode a;
       logs := trimmed;
       console := if debugMode a then console a ++ [entry] else console a |}.

Definition logToolCall (now : Z) (tool : string) (path : Js.value)
    (success : bool) (error : option string) (a : t) : t :=
  log now {| ev_type := tool_call; ev_tool := Some tool; ev_path := path;
             ev_clientId := None; ev_success := success; ev_error := error;
             ev_details := None |} a.

Definition logResourceRead (now : Z) (path : string) (success : bool)
    (error : option string) (clientId : option string) (a : t) : t :=
  log now {| ev_type := resource_read; ev_tool := None; ev_path := Js.Str path;
             ev_clientId := clientId; ev_success := success; ev_error := error;
             ev_details := None |} a.

Definition logApprovalRequest (now : Z) (tool : string) (path : Js.value)
    (clientId : option string) (a : t) : t :=
  log now {| ev_type := approval_request; ev_tool := Some tool; ev_path := path;
             ev_clientId := clientId; ev_success := true; ev_error := None;
             ev_details := None |} a.

Definition logApprovalResponse (now : Z) (tool : string) (path : Js.value)
    (approved : bool) (clientId : option string) (a : t) : t :=
  log now {| ev_type := approval_response; ev_tool := Some tool; ev_path := path;
             ev_clientId := clientId; ev_success := approved; ev_error := None;
             ev_details := Some approved |} a.

Definition clearLogs (a : t) : t :=
  {| auditLogging := auditLogging a; debugMode := debugMode a;
     logs := []; console := console a |}.

Definition updateSettings (auditLogging' debugMode' : bool) (a : t) : t :=
  {| auditLogging := auditLogging'; debugMode := debugMode';
     logs := logs a; console := console a |}.

(** The calls that reach a logger from outside. *)
Inductive Call :=
| CallLog (now : Z) (event : Event)
| CallClearLogs
| CallUpdateSettings (auditLogging debugMode : bool).

Definition call (a : t) (c : Call) : t :=
  match c with
  | CallLog now event => log now event a
  | CallClearLogs => clearLogs a
  | CallUpdateSettings al dm => updateSettings al dm a
  end.

Definition run (cs : list Call) (a : t) : t := fold_left call cs a.

(** [getRecentLogs(count = 50)] *)
Definition getRecentLogs (count : option Z) (a : t) : list AuditEntry :=
  Js.slice (- default 50%Z count) (logs a).

(** [getLogsForTool(tool, count = 50)] *)
Definition getLogsForTool (tool' : string) (count : option Z) (a : t)
    : list AuditEntry :=
  Js.slice (- default 50%Z count)
    (List.filter (fun entry => bool_decide (tool entry = Some tool')) (logs a)).

(** The approval decisions that a list of entries records: the
    [success] flags of its approval responses, oldest first. *)
Definition loggedDecisions (entries : list AuditEntry) : list bool :=
  map success
    (List.filter (fun entry => match type entry with
                               | approval_response => true
                               | _ => false
                               end) entries).

(** The approval requests that a list of entries records. *)
Definition loggedRequests (entries : list AuditEntry) : list AuditEntry :=
  List.filter (fun entry => match type entry with
                            | approval_request => true
                            | _ => false
                            end) entries.

(** [everything] lists the entries logged so far, and the buffer holds
    the last of them: all of them while there are fewer than
    [maxLogSize]. *)
Definition Logged (everything : list AuditEntry) (a : t) : Prop :=
  auditLogging a = true
  /\ exists dropped,
      everything = dropped ++ logs a
      /\ (List.length (logs a) < maxLogSize -> dropped = []).

End AuditLogger.

(** ** OperationGuard (mcp/security/OperationGuard.ts) *)

Module OperationGuard.

Definition WRITE_TOOLS : list string :=
  ["write_note"; "add_task"; "complete_task"].

(** [approvalTimeout], in milliseconds *)
Definition approvalTimeout : Z := 30000.

Record MCPOperation := {
  op_tool : string;
  op_path : Js.value;
  op_action : Js.value;
  op_timestamp : Z;
  op_clientId : option string;
}.

(** An entry of [pendingApprovals].  The n-th call of [requestApproval]
    creates promise n and arms timer n; the [resolve] closure of the
    entry captures both, so the handle [pa_timeout] names the timer to
    clear and the promise to resolve.  [pa_seq] is the place of the entry
    in the insertion order of the [Map], in which the map is iterated:
    [set] on a key that is present keeps its place. *)
Record PendingApproval := {
  pa_id : string;
  pa_operation : MCPOperation;
  pa_timeout : nat;
  pa_seq : nat;
}.

(** A timer armed by [setTimeout]: what its callback captured, and when
    it is due. *)
Record Timer := {
  tm_id : string;
  tm_operation : MCPOperation;
  tm_deadline : Z;
}.

(** Which line called the promise's [resolve]: the timer callback
    (line 60) or the entry's [resolve] closure (line 72). *)
Inductive Path := ByTimeout | ByResolve.

Record Settlement := {
  st_promise : nat;
  st_value : bool;
  st_by : Path;
}.

(** The guard object.  [auditLogger] is the logger it shares with the
    server; [timers] holds the timers armed so far and [cleared] the
    handles given to [clearTimeout]; [settlements] lists every call of a
    promise's [resolve] function, oldest first; [created] counts the
    promises created. *)
Record t := {
  requireApproval : bool;
  auditLogger : AuditLogger.t;
  pendingApprovals : gmap string PendingApproval;
  timers : gmap nat Timer;
  cleared : gset nat;
  settlements : list Settlement;
  created : nat;
}.

Definition create (requireApproval : bool) (auditLogger : AuditLogger.t) : t :=
  {| requireApproval := requireApproval; auditLogger := auditLogger;
     pendingApprovals := ∅; timers := ∅; cleared := ∅; settlements := [];
     created := 0 |}.

Definition withLogger (f : AuditLogger.t -> AuditLogger.t) (g : t) : t :=
  {| requireApproval := requireApproval g; auditLogger := f (auditLogger g);
     pendingApprovals := pendingApprovals g; timers := timers g;
     cleared := cleared g; settlements := settlements g; created := created g |}.

Definition withPending
    (f : gmap string PendingApproval -> gmap string PendingApproval) (g : t) : t :=
  {| requireApproval := requireApproval g; auditLogger := auditLogger g;
     pendingApprovals := f (pendingApprovals g); timers := timers g;
     cleared := cleared g; settlements := settlements g; created := created g |}.

(** A call [resolve(value)] of the resolve function of promise [h]. *)
Definition resolvePromise (h : nat) (value : bool) (by_ : Path) (g : t) : t :=
  {| requireApproval := requireApproval g; auditLogger := auditLogger g;
     pendingApprovals := pendingApprovals g; timers := timers g;
     cleared := cleared g;
     settlements := settlements g ++ [{| st_promise := h; st_value := value;
                                         st_by := by_ |}];
     created := created g |}.

(** [clearTimeout(h)] *)
Definition clearTimeout (h : nat) (g : t) : t :=
  {| requireApproval := requireApproval g; auditLogger := auditLogger g;
     pendingApprovals := pendingApprovals g; timers := timers g;
     cleared := {[h]} ∪ cleared g; settlements := settlements g;
     created := created g |}.

Definition updateSettings (requireApproval' : bool) (g : t) : t :=
  {| requireApproval := requireApproval'; auditLogger := auditLogger g;
     pendingApprovals := pendingApprovals g; timers := timers g;
     cleared := cleared g; settlements := settlements g; created := created g |}.

Definition requiresApproval (g : t) (operation : MCPOperation) : bool :=
  if negb (requireApproval g) then false
  else existsb (String.eqb (op_tool operation)) WRITE_TOOLS.

Definition logResponse (now : Z) (operation : MCPOperation) (approved : bool)
    (g : t) : t :=
  withLogger (AuditLogger.logApprovalResponse now (op_tool operation)
                (op_path operation) approved (op_clientId operation)) g.

(** The callback given to [setTimeout] (lines 55-62), for timer [h]. *)
Definition onTimeout (now : Z) (h : nat) (tm : Timer) (g : t) : t :=
  match pendingApprovals g !! tm_id tm with
  | Some _ =>
      let g := withPending (delete (tm_id tm)) g in
      let g := logResponse now (tm_operation tm) false g in
      resolvePromise h false ByTimeout g
  | None => g
  end.

(** The [resolve] closure stored in a pending entry (lines 68-73). *)
Definition resolve (now : Z) (pending : PendingApproval) (approved : bool)
    (g : t) : t :=
  let g := clearTimeout (pa_timeout pending) g in
  let g := withPending (delete (pa_id pending)) g in
  let g := logResponse now (pa_operation pending) approved g in
  resolvePromise (pa_timeout pending) approved ByResolve g.

(** The callback given to the approval modal (lines 81-86). *)
Definition onRespond (now : Z) (id : string) (approved : bool) (g : t) : t :=
  match pendingApprovals g !! id with
  | Some pending => resolve now pending approved g
  | None => g
  end.

(** [requestApproval(operation)] up to the point where it returns its
    promise; [id] is the correlation id it generated.  The result is the
    new state and the handle of the promise. *)
Definition requestApproval (now : Z) (id : string) (operation : MCPOperation)
    (g : t) : t * nat :=
  let h := created g in
  let g := withLogger (AuditLogger.logApprovalRequest now (op_tool operation)
                         (op_path operation) (op_clientId operation)) g in
  ({| requireApproval := requireApproval g; auditLogger := auditLogger g;
      pendingApprovals :=
        <[id := {| pa_id := id; pa_operation := operation; pa_timeout := h;
                   pa_seq := match pendingApprovals g !! id with
                             | Some present => pa_seq present
                             | None => h
                             end |}]>
          (pendingApprovals g);
      timers :=
        <[h := {| tm_id := id; tm_operation := operation;
                  tm_deadline := (now + approvalTimeout)%Z |}]> (timers g);
      cleared := cleared g; settlements := settlements g; created := S h |}, h).

(** One iteration of the loop of [cancelAll]. *)
Definition cancelOne (now : Z) (g : t) (entry : string * PendingApproval) : t :=
  resolve now entry.2 false (clearTimeout (pa_timeout entry.2) g).

(** The entry [x] was inserted no later than [y]. *)
Definition insertedBefore (x y : string * PendingApproval) : Prop :=
  pa_seq x.2 <= pa_seq y.2.

#[global] Instance insertedBefore_dec : RelDecision insertedBefore :=
  fun x y => decide (pa_seq x.2 <= pa_seq y.2).

(** The entries of the map in the order in which [for ... of] visits
    them, that of their insertion. *)
Definition entries (g : t) : list (string * PendingApproval) :=
  merge_sort insertedBefore (map_to_list (pendingApprovals g)).

(** [cancelAll()]: the loop visits the entries that are pending when it
    starts, each once; every iteration removes only its own entry. *)
Definition cancelAll (now : Z) (g : t) : t :=
  withPending (fun _ => ∅) (fold_left (cancelOne now) (entries g) g).

(** What can happen to a guard: a request arrives, the user answers the
    modal of request [id], the runtime runs the callback of timer [h],
    the server stops.  A timer never runs before it is due; it may run
    although [clearTimeout] was called on it, so that the properties
    below do not rest on [clearTimeout] winning the race. *)
Inductive event :=
| Request (now : Z) (id : string) (operation : MCPOperation)
| Respond (now : Z) (id : string) (approved : bool)
| TimerFires (now : Z) (h : nat)
| CancelAll (now : Z).

(** The time at which an event happens. *)
Definition timeOf (ev : event) : Z :=
  match ev with
  | Request now _ _ | Respond now _ _ | TimerFires now _ | CancelAll now => now
  end.

Definition step (g : t) (ev : event) : t :=
  match ev with
  | Request now id operation => (requestApproval now id operation g).1
  | Respond now id approved => onRespond now id approved g
  | TimerFires now h =>
      match timers g !! h with
      | Some tm => if (tm_deadline tm <=? now)%Z then onTimeout now h tm g else g
      | None => g
      end
  | CancelAll now => cancelAll now g
  end.

Definition run (evs : list event) (g : t) : t := fold_left step evs g.

(** The calls of [resolve] made on promise [h]. *)
Definition settlementsOf (h : nat) (g : t) : list Settlement :=
  filter (fun s => st_promise s = h) (settlements g).

(** The value a promise has: that of the first call of its [resolve]. *)
Definition promiseValue (h : nat) (g : t) : option bool :=
  st_value <$> head (settlementsOf h g).

(** What the caller of [requestApproval] observes. *)
Inductive Observed := Approved | Denied | TimedOut.

Definition observed (s : Settlement) : Observed :=
  match st_by s, st_value s with
  | ByTimeout, _ => TimedOut
  | ByResolve, true => Approved
  | ByResolve, false => Denied
  end.

(** The correlation ids generated along a sequence of events. *)
Definition requestIds (evs : list event) : list string :=
  omap (fun ev => match ev with Request _ id _ => Some id | _ => None end) evs.

Definition respondsTo (id : string) (ev : event) : bool :=
  match ev with
  | Respond _ id' _ => String.eqb id id'
  | _ => false
  end.

(** The promise of handle [h] belongs to an entry that is still in the
    map. *)
Definition pendingHandle (h : nat) (g : t) : Prop :=
  exists id pending,
    pendingApprovals g !! id = Some pending /\ pa_timeout pending = h.

(** How the map, the timers and the settlements hang together. *)
Record Consistent (g : t) : Prop := {
  c_pending : forall id pending,
    pendingApprovals g !! id = Some pending ->
    pa_id pending = id
    /\ exists tm, timers g !! pa_timeout pending = Some tm /\ tm_id tm = id;
  c_created : forall h, is_Some (timers g !! h) <-> h < created g;
  c_ids : forall h1 h2 tm1 tm2,
    timers g !! h1 = Some tm1 -> timers g !! h2 = Some tm2 ->
    tm_id tm1 = tm_id tm2 -> h1 = h2;
  c_once : forall h tm,
    timers g !! h = Some tm ->
    match pendingApprovals g !! tm_id tm with
    | Some _ => settlementsOf h g = []
    | None => exists r, settlementsOf h g = [r]
    end;
  c_none : forall h, created g <= h -> settlementsOf h g = [];
}.

(** The correlation id [id] has not been generated before. *)
Definition unused (id : string) (g : t) : Prop :=
  forall h tm, timers g !! h = Some tm -> tm_id tm <> id.

(** A new call of [resolve] passes [false], unless the event is the
    user's approval of an entry that is in the map. *)
Definition newSettlement (g : t) (ev : event) (s : Settlement) : Prop :=
  st_value s = false
  \/ exists now id pending,
       ev = Respond now id true
       /\ pendingApprovals g !! id = Some pending
       /\ st_promise s = pa_timeout pending.

(** Every call of [resolve] on promise [h] passed [false]. *)
Definition onlyDenied (h : nat) (g : t) : Prop :=
  Forall (fun s => st_promise s = h -> st_value s = false) (settlements g).

(** The guard's decisions and requests against what it has logged: the
    values passed to the promises' [resolve] functions are the decisions
    logged, in order, and every promise created has its request logged. *)
Definition Trail (g : t) : Prop :=
  exists everything,
    AuditLogger.Logged everything (auditLogger g)
    /\ map st_value (settlements g) = AuditLogger.loggedDecisions everything
    /\ created g = List.length (AuditLogger.loggedRequests everything).

(** The result of an asynchronous call: a value, a thrown error, or a
    call still waiting on a promise that has no value. *)
Inductive outcome (T : Type) :=
| Returned (v : T)
| Thrown (error : Js.error)
| Waiting.
Arguments Returned {T} v.
Arguments Thrown {T} error.
Arguments Waiting {T}.

Section ExecuteWithApproval.
(** The executor closes over the state [S] of the server, of which the
    guard is a part. *)
Context {S T : Type}.
Variable getGuard : S -> t.
Variable setGuard : t -> S -> S.

(** [executeWithApproval(operation, executor)].  [during] lists what
    happens to the guard while the call awaits the promise. *)
Definition executeWithApproval (now : Z) (id : string) (during : list event)
    (operation : MCPOperation) (executor : S -> outcome T * S) (s : S)
    : outcome T * S :=
  if requiresApproval (getGuard s) operation then
    let '(g, h) := requestApproval now id operation (getGuard s) in
    let g := run during g in
    match promiseValue h g with
    | Some true => executor (setGuard g s)
    | Some false => (Thrown (Js.Error "Operation denied by user"), setGuard g s)
    | None => (Waiting, setGuard g s)
    end
  else executor s.
End ExecuteWithApproval.

End OperationGuard.

(** ** ApprovalModal (mcp/security/OperationGuard.ts) *)

Module ApprovalModal.

(** The modal: its [responded] flag, and the arguments with which it has
    called its callback so far, oldest first. *)
Record t := {
  responded : bool;
  callbacks : list bool;
}.

(** A modal as its constructor leaves it. *)
Definition create : t := {| responded := false; callbacks := [] |}.

(** [onClose()]: a modal closed without an answer denies. *)
Definition onClose (m : t) : t :=
  if negb (responded m)
  then {| responded := true; callbacks := callbacks m ++ [false] |}
  else m.

(** [close()] of Obsidian's [Modal], which calls [onClose]. *)
Definition close (m : t) : t := onClose m.

(** [respond(approved)] *)
Definition respond (approved : bool) (m : t) : t :=
  if responded m then m
  else close {| responded := true; callbacks := callbacks m ++ [approved] |}.

(** What the user does with the modal: a click on one of its two
    buttons, or closing it in another way. *)
Inductive event :=
| ClickAllow
| ClickDeny
| Dismiss.

Definition step (m : t) (ev : event) : t :=
  match ev with
  | ClickAllow => respond true m
  | ClickDeny => respond false m
  | Dismiss => close m
  end.

Definition run (evs : list event) (m : t) : t := fold_left step evs m.

(** The callback of the modal that [requestApproval] opens for the
    request [id] is [onRespond]: what the modal's life sends to the
    guard. *)
Definition answers (now : Z) (id : string) (evs : list event)
    : list OperationGuard.event :=
  map (OperationGuard.Respond now id) (callbacks (run evs create)).

End ApprovalModal.

(** ** Strings with all their code units *)

Module Utf16.

(** A string as its UTF-16 code units.  The lines of tasks hold emoji,
    which need more than the eight bits of [ascii]. *)
Abbreviation text := (list N).

(** A literal of the source without characters beyond ASCII. *)
Definition lit (s : string) : text := map N_of_ascii (list_ascii_of_string s).

Definition inRange (c : N) (range : N * N) : bool :=
  ((range.1 <=? c) && (c <=? range.2))%N.

Definition inRanges (ranges : list (N * N)) (c : N) : bool :=
  existsb (inRange c) ranges.

(** The line terminators: LF, CR, LS and PS. *)
Definition lineTerminators : list (N * N) :=
  [(10, 10); (13, 13); (8232, 8233)]%N.

(** White space and line terminators, as [\s] matches and [trim]
    removes them: TAB, LF, VT, FF, CR, SP, NBSP, U+1680, U+2000 to
    U+200A, LS, PS, U+202F, U+205F, U+3000 and U+FEFF. *)
Definition whiteSpace : list (N * N) :=
  [(9, 13); (32, 32); (160, 160); (5760, 5760); (8192, 8202); (8232, 8233);
   (8239, 8239); (8287, 8287); (12288, 12288); (65279, 65279)]%N.

Definition isWhiteSpace (c : N) : bool := inRanges whiteSpace c.

Definition isLineTerminator (c : N) : bool := inRanges lineTerminators c.

(** A text of white space, and a text without line terminators. *)
Definition blank (s : text) : Prop := Forall (fun c => isWhiteSpace c = true) s.
Definition oneLine (s : text) : Prop := Forall (fun c => isLineTerminator c = false) s.

Fixpoint trimStart (s : text) : text :=
  match s with
  | [] => []
  | c :: s' => if isWhiteSpace c then trimStart s' else s
  end.

Definition trimEnd (s : text) : text := rev (trimStart (rev s)).

(** [s.trim()] *)
Definition trim (s : text) : text := trimEnd (trimStart s).

(** [s.startsWith(p)] *)
Fixpoint startsWith (p s : text) : bool :=
  match p, s with
  | [], _ => true
  | a :: p', b :: s' => (a =? b)%N && startsWith p' s'
  | _ :: _, [] => false
  end.

(** [s.endsWith(p)] *)
Definition endsWith (p s : text) : bool := startsWith (rev p) (rev s).

(** [s.includes(sub)] *)
Fixpoint includes (sub s : text) : bool :=
  startsWith sub s ||
  match s with
  | [] => false
  | _ :: s' => includes sub s'
  end.

(** [s.replace(sub, by)] for a string [sub]: the first occurrence. *)
Fixpoint replace (sub by_ s : text) : text :=
  if startsWith sub s then by_ ++ skipn (List.length sub) s
  else match s with
       | [] => []
       | c :: s' => c :: replace sub by_ s'
       end.

(** [s.split(sep)] for a separator of one code unit *)
Fixpoint split (sep : N) (s : text) : list text :=
  match s with
  | [] => [[]]
  | c :: s' =>
      if (c =? sep)%N then [] :: split sep s'
      else match split sep s' with
           | h :: t => (c :: h) :: t
           | [] => [[c]]
           end
  end.

(** [parts.join(sep)] *)
Fixpoint join (sep : text) (parts : list text) : text :=
  match parts with
  | [] => []
  | [p] => p
  | p :: rest => p ++ sep ++ join sep rest
  end.

(** The longest prefix of [s] whose code units are in [ranges]. *)
Fixpoint leading (ranges : list (N * N)) (s : text) : text :=
  match s with
  | c :: s' => if inRanges ranges c then c :: leading ranges s' else []
  | [] => []
  end.

(** [a < b]: the order of strings by code units *)
Fixpoint ltb (a b : text) : bool :=
  match a, b with
  | _, [] => false
  | [], _ :: _ => true
  | x :: a', y :: b' => (x <? y)%N || ((x =? y)%N && ltb a' b')
  end.

(** One code unit of [toLowerCase] on ASCII. *)
Definition lowerUnit (c : N) : N :=
  if ((65 <=? c) && (c <=? 90))%N then (c + 32)%N else c.

(** [s.toLowerCase()] for a string of ASCII. *)
Definition toLowerCase (s : text) : text := map lowerUnit s.

(** [String(n)] for an integer [n] *)
Definition ofZ (n : Z) : text := lit (NilZero.string_of_int (Z.to_int n)).

Definition isHighSurrogate (c : N) : bool := ((55296 <=? c) && (c <=? 56319))%N.

Definition isLowSurrogate (c : N) : bool := ((56320 <=? c) && (c <=? 57343))%N.

(** The bytes of the UTF-8 form of a code point, percent-encoded. *)
Definition percentUtf8 (cp : N) : string :=
  let byte (n : N) := Js.percent (N.to_nat n) in
  if (cp <? 128)%N then byte cp
  else if (cp <? 2048)%N then byte (192 + cp / 64)%N +:+ byte (128 + cp mod 64)%N
  else if (cp <? 65536)%N
  then byte (224 + cp / 4096)%N +:+ byte (128 + (cp / 64) mod 64)%N
       +:+ byte (128 + cp mod 64)%N
  else byte (240 + cp / 262144)%N +:+ byte (128 + (cp / 4096) mod 64)%N
       +:+ byte (128 + (cp / 64) mod 64)%N +:+ byte (128 + cp mod 64)%N.

(** One code point in [encodeURIComponent]. *)
Definition encodePoint (cp : N) : string :=
  if (cp <? 128)%N && Js.isUnreserved (ascii_of_N cp)
  then String (ascii_of_N cp) EmptyString
  else percentUtf8 cp.

(** [encodeURIComponent(s)]: the code points of [s], each left as it is
    or as the percent-encoded bytes of its UTF-8 form; [None] when [s]
    holds a surrogate that is not half of a pair, on which the function
    throws a [URIError]. *)
Fixpoint encodeURIComponent (s : text) : option string :=
  match s with
  | [] => Some EmptyString
  | c :: rest =>
      if isHighSurrogate c then
        match rest with
        | d :: rest' =>
            if isLowSurrogate d
            then
              let cp := (65536 + (c - 55296) * 1024 + (d - 56320))%N in
              option_map (String.append (encodePoint cp)) (encodeURIComponent rest')
            else None
        | [] => None
        end
      else if isLowSurrogate c then None
      else option_map (String.append (encodePoint c)) (encodeURIComponent rest)
  end.

End Utf16.

(** ** Regular expressions *)

Module RegExp.
Import Utf16.

(** The patterns of the program, without the [u] flag: they match code
    unit by code unit. *)
Inductive regex :=
| Empty
| Char (c : N)
| Class (negated : bool) (ranges : list (N * N))
| Seq (r1 r2 : regex)
| Alt (r1 r2 : regex)
| Star (r : regex)
| Group (n : nat) (r : regex)
| Bol
| Eol.

(** [r+], [r?] and [r{n}] for an [r] that matches no empty string *)
Definition Plus (r : regex) : regex := Seq r (Star r).
Definition Opt (r : regex) : regex := Alt r Empty.
Fixpoint Times (n : nat) (r : regex) : regex :=
  match n with
  | 0 => Empty
  | S n' => Seq r (Times n' r)
  end.

Definition seq (rs : list regex) : regex := foldr Seq Empty rs.

(** The characters of a literal, one after the other. *)
Definition Lit (s : text) : regex := seq (map Char s).

(** [.], [\s], [\d] and [\w] *)
Definition any : regex := Class true lineTerminators.
Definition space : regex := Class false whiteSpace.
Definition digits : list (N * N) := [(48, 57)]%N.
Definition digit : regex := Class false digits.
Definition wordChars : list (N * N) := [(48, 57); (65, 90); (95, 95); (97, 122)]%N.
Definition word : regex := Class false wordChars.

(** The capture groups in a pattern. *)
Fixpoint groups (r : regex) : list nat :=
  match r with
  | Seq r1 r2 | Alt r1 r2 => groups r1 ++ groups r2
  | Star r1 => groups r1
  | Group n r1 => n :: groups r1
  | _ => []
  end.

(** The other case of an ASCII letter.  Under the [i] flag two code
    units match when they have the same canonical form; for the code
    units that the patterns of the program name (ASCII, and symbols
    without case) these are the unit itself and, for a letter of ASCII,
    its other case. *)
Definition swapCase (c : N) : N :=
  if ((65 <=? c) && (c <=? 90))%N then (c + 32)%N
  else if ((97 <=? c) && (c <=? 122))%N then (c - 32)%N
  else c.

Definition sameUnit (ignoreCase : bool) (a b : N) : bool :=
  (a =? b)%N || (ignoreCase && (swapCase a =? b)%N).

Definition inClass (ignoreCase : bool) (ranges : list (N * N)) (c : N) : bool :=
  inRanges ranges c || (ignoreCase && inRanges ranges (swapCase c)).

(** The captures of a match, by the number of the group. *)
Abbreviation Captures := (gmap nat text).

Section Matcher.

Context {R : Type}.
Variable ignoreCase : bool.
(** The whole input, of which the matcher sees what is left. *)
Variable input : text.

(** The matcher of [r] on what is left of the input, with the captures
    so far and the continuation [k]: the first way to match [r] that
    [k] accepts, in the order of the language (the left alternative
    first, more repetitions first). *)
Fixpoint matcher (r : regex) (s : text) (caps : Captures)
    (k : text -> Captures -> option R) {struct r} : option R :=
  match r with
  | Empty => k s caps
  | Char c =>
      match s with
      | x :: s' => if sameUnit ignoreCase c x then k s' caps else None
      | [] => None
      end
  | Class negated ranges =>
      match s with
      | x :: s' =>
          if xorb negated (inClass ignoreCase ranges x) then k s' caps else None
      | [] => None
      end
  | Seq r1 r2 => matcher r1 s caps (fun s' caps' => matcher r2 s' caps' k)
  | Alt r1 r2 =>
      match matcher r1 s caps k with
      | Some result => Some result
      | None => matcher r2 s caps k
      end
  | Star r1 =>
      (fix repeat (fuel : nat) (s : text) (caps : Captures) : option R :=
         match fuel with
         | 0 => k s caps
         | S fuel' =>
             match
               matcher r1 s (foldr delete caps (groups r1))
                 (fun s' caps' =>
                    if (List.length s' <? List.length s)%nat then repeat fuel' s' caps'
                    else None)
             with
             | Some result => Some result
             | None => k s caps
             end
         end) (List.length s) s caps
  | Group n r1 =>
      matcher r1 s caps
        (fun s' caps' =>
           k s' (<[n := firstn (List.length s - List.length s') s]> caps'))
  | Bol => if (List.length s =? List.length input)%nat then k s caps else None
  | Eol =>
      match s with
      | [] => k s caps
      | _ :: _ => None
      end
  end.

End Matcher.

(** A match: what is before it in the input, what it matched, its
    captures, and what is after it. *)
Record Match := {
  before : text;
  matched : text;
  captures : Captures;
  after : text;
}.

Section Exec.

Variable ignoreCase : bool.
Variable r : regex.

(** The search for the first match at or after a position: [done] is
    the input before the position and [s] the input from there. *)
Fixpoint search (input : text) (done s : text) : option Match :=
  match
    matcher ignoreCase input r s ∅ (fun s' caps => Some (s', caps))
  with
  | Some (s', caps) =>
      Some {| before := done;
              matched := firstn (List.length s - List.length s') s;
              captures := caps; after := s' |}
  | None =>
      match s with
      | [] => None
      | c :: s' => search input (done ++ [c]) s'
      end
  end.

(** [r.exec(s)] for a pattern without the [g] flag *)
Definition exec (s : text) : option Match := search s [] s.

(** [s.match(r)?.[n]] *)
Definition capture (n : nat) (s : text) : option text :=
  mt ← exec s; captures mt !! n.

(** [s.replace(r, by)] without the [g] flag, for a replacement without
    [$] *)
Definition replace (by_ s : text) : text :=
  match exec s with
  | Some mt => before mt ++ by_ ++ after mt
  | None => s
  end.

(** The successive matches of a pattern with the [g] flag; after an
    empty match the search goes on one code unit further. *)
Fixpoint matchesFrom (fuel : nat) (input done s : text) : list Match :=
  match fuel with
  | 0 => []
  | S fuel' =>
      match search input done s with
      | Some mt =>
          mt :: match matched mt, after mt with
                | [], [] => []
                | [], c :: s' => matchesFrom fuel' input (before mt ++ [c]) s'
                | _ :: _, s' => matchesFrom fuel' input (before mt ++ matched mt) s'
                end
      | None => []
      end
  end.

(** [s.match(r) || []] with the [g] flag *)
Definition matchAll (s : text) : list text :=
  map matched (matchesFrom (S (List.length s)) s [] s).

(** [s.replace(r, by)] with the [g] flag, for a replacement without
    [$]: from a position on. *)
Fixpoint replaceFrom (by_ : text) (fuel : nat) (input done s : text) : text :=
  match fuel with
  | 0 => s
  | S fuel' =>
      match search input done s with
      | Some mt =>
          skipn (List.length done) (before mt) ++ by_
          ++ match matched mt, after mt with
             | [], [] => []
             | [], c :: s' => c :: replaceFrom by_ fuel' input (before mt ++ [c]) s'
             | _ :: _, s' => replaceFrom by_ fuel' input (before mt ++ matched mt) s'
             end
      | None => s
      end
  end.

Definition replaceAll (by_ s : text) : text :=
  replaceFrom by_ (S (List.length s)) s [] s.

End Exec.

End RegExp.

(** ** TasksAdapter (mcp/integrations/TasksAdapter.ts) *)

Module TasksAdapter.
Import Utf16 RegExp.

(** [const [filePath, lineStr] = taskId.split(':')]: the file that
    [completeTask] looks up in the vault. *)
Definition taskFilePath (taskId : string) : string :=
  hd EmptyString (Js.split ":" taskId).

(** The emoji of the task format, as code units. *)
Definition highestEmoji : text := [55357; 56634]%N.   (* U+1F53A *)
Definition highEmoji : text := [9195]%N.              (* U+23EB *)
Definition mediumEmoji : text := [55357; 56636]%N.    (* U+1F53C *)
Definition lowEmoji : text := [55357; 56637]%N.       (* U+1F53D *)
Definition lowestEmoji : text := [9196]%N.            (* U+23EC *)
Definition dueEmoji : text := [55357; 56517]%N.       (* U+1F4C5 *)
Definition scheduledEmoji : text := [9203]%N.         (* U+23F3 *)
Definition startEmoji : text := [55357; 57067]%N.     (* U+1F6EB *)
Definition doneEmoji : text := [9989]%N.              (* U+2705 *)
Definition createdEmoji : text := [10133]%N.          (* U+2795 *)
Definition recurrenceEmoji : text := [55357; 56577]%N. (* U+1F501 *)

Inductive Priority := highest | high | medium | low | lowest.

Definition priorityName (p : Priority) : text :=
  match p with
  | highest => lit "highest"
  | high => lit "high"
  | medium => lit "medium"
  | low => lit "low"
  | lowest => lit "lowest"
  end.

(** [PRIORITY_EMOJI] *)
Definition PRIORITY_EMOJI (p : Priority) : text :=
  match p with
  | highest => highestEmoji
  | high => highEmoji
  | medium => mediumEmoji
  | low => lowEmoji
  | lowest => lowestEmoji
  end.

(** [EMOJI_TO_PRIORITY], in the order of its keys *)
Definition EMOJI_TO_PRIORITY : list (text * text) :=
  map (fun p => (PRIORITY_EMOJI p, priorityName p)) [highest; high; medium; low; lowest].

(** [TASK_PATTERNS]: the three formats have the same pattern, with the
    groups of the indentation, of the character in the checkbox and of
    the content. *)
Definition TASK_PATTERN : regex :=
  seq [Bol; Group 1 (Star space); Char 45; Star space; Char 91;
       Group 2 (Class false [(32, 32); (120, 120); (88, 88)]%N); Char 93;
       Star space; Group 3 (Plus any); Eol].

(** [\d{4}-\d{2}-\d{2}] *)
Definition date : regex :=
  seq [Times 4 digit; Char 45; Times 2 digit; Char 45; Times 2 digit].

(** A pattern of [DATE_PATTERNS]: the emoji, or the name of the field
    with one or two colons and white space, and then the date. *)
Definition datePattern (emoji : text) (name : string) : regex :=
  seq [Alt (Lit emoji) (seq [Lit (lit name); Char 58; Opt (Char 58); Star space]);
       Group 1 date].

(** [DATE_PATTERNS] *)
Definition DATE_due : regex := datePattern dueEmoji "due".
Definition DATE_scheduled : regex := datePattern scheduledEmoji "scheduled".
Definition DATE_start : regex := datePattern startEmoji "start".
Definition DATE_done : regex := datePattern doneEmoji "done".
Definition DATE_created : regex := datePattern createdEmoji "created".

(** The code units that end a recurrence: those of the emoji of the
    format, and the two brackets. *)
Definition recurrenceEnd : list (N * N) :=
  map (fun c => (c, c))
    (dueEmoji ++ scheduledEmoji ++ startEmoji ++ doneEmoji ++ createdEmoji
     ++ highestEmoji ++ highEmoji ++ mediumEmoji ++ lowEmoji ++ lowestEmoji
     ++ [91; 93]%N).

(** [RECURRENCE_PATTERN], with the [i] flag *)
Definition RECURRENCE_PATTERN : regex :=
  seq [Alt (Lit recurrenceEmoji)
         (seq [Lit (lit "recurrence"); Char 58; Opt (Char 58); Star space]);
       Group 1 (Plus (Class true recurrenceEnd))].

(** [TAG_PATTERN]: [/#[\w\-/]+/g] *)
Definition TAG_PATTERN : regex :=
  seq [Char 35; Plus (Class false (wordChars ++ [(45, 45); (47, 47)]%N))].

(** The pattern of the priority as an inline field (line 657) *)
Definition PRIORITY_PATTERN : regex :=
  seq [Lit (lit "priority"); Char 58; Opt (Char 58); Star space;
       Group 1 (Alt (Lit (lit "highest"))
                  (Alt (Lit (lit "high"))
                     (Alt (Lit (lit "medium"))
                        (Alt (Lit (lit "low")) (Lit (lit "lowest"))))))].

(** The pattern of the priority field that is removed from the
    description (line 676) *)
Definition PRIORITY_FIELD : regex :=
  seq [Char 91; Lit (lit "priority::"); Star space; Plus word; Char 93].

(** [ParsedTask] (mcp/types.ts) *)
Record ParsedTask := {
  id : text;
  description : text;
  completed : bool;
  dueDate : option text;
  scheduledDate : option text;
  startDate : option text;
  doneDate : option text;
  priority : option text;
  recurrence : option text;
  tags : list text;
  filePath : text;
  lineNumber : Z;
  rawLine : text;
}.

(** The priority that the emoji of a line give: that of the first key
    of [EMOJI_TO_PRIORITY] that the line includes. *)
Definition emojiPriority (content : text) : option text :=
  snd <$> List.find (fun entry => includes entry.1 content) EMOJI_TO_PRIORITY.

(** The task of a line that [TASK_PATTERN] matches with the groups
    [checkbox] and [content] (lines 639-699). *)
Definition taskOf (line filePath : text) (lineNumber : Z) (checkbox content : text)
    : ParsedTask :=
  let priority :=
    match capture true PRIORITY_PATTERN 1 content with
    | Some name => Some (toLowerCase name)
    | None => emojiPriority content
    end in
  let description :=
    replaceAll true PRIORITY_FIELD []
      (replace true RECURRENCE_PATTERN []
         (replace true DATE_created []
            (replace true DATE_done []
               (replace true DATE_start []
                  (replace true DATE_scheduled []
                     (replace true DATE_due [] content)))))) in
  let description :=
    fold_left (fun d entry => Utf16.replace entry.1 [] d) EMOJI_TO_PRIORITY
      description in
  {| id := filePath ++ lit ":" ++ ofZ lineNumber;
     description := trim description;
     completed := bool_decide (toLowerCase checkbox = lit "x");
     dueDate := capture true DATE_due 1 content;
     scheduledDate := capture true DATE_scheduled 1 content;
     startDate := capture true DATE_start 1 content;
     doneDate := capture true DATE_done 1 content;
     priority := priority;
     recurrence := trim <$> capture true RECURRENCE_PATTERN 1 content;
     tags := map (skipn 1) (matchAll false TAG_PATTERN content);
     filePath := filePath;
     lineNumber := lineNumber;
     rawLine := line |}.

(** [parseTask(line, filePath, lineNumber)] *)
Definition parseTask (line filePath : text) (lineNumber : Z) : option ParsedTask :=
  match exec false TASK_PATTERN line with
  | None => None
  | Some mt =>
      Some (taskOf line filePath lineNumber (default [] (captures mt !! 2))
              (default [] (captures mt !! 3)))
  end.

(** [TaskData] (mcp/types.ts) *)
Record TaskData := {
  t_description : text;
  t_dueDate : option text;
  t_scheduledDate : option text;
  t_startDate : option text;
  t_priority : option Priority;
  t_recurrence : option text;
  t_tags : option (list text);
}.

(** An optional string in a condition: [undefined] and the empty string
    are falsy. *)
Definition given (o : option text) : bool :=
  match o with
  | Some (_ :: _) => true
  | _ => false
  end.

(** [formatTask(task, completed)] *)
Definition formatTask (task : TaskData) (completed : bool) : text :=
  let field (emoji : text) (o : option text) : list text :=
    if given o then [emoji ++ lit " " ++ default [] o] else [] in
  join (lit " ")
    ([if completed then lit "- [x]" else lit "- [ ]"; t_description task]
     ++ match t_tags task with
        | Some (t :: ts) => [join (lit " ") (map (fun t => lit "#" ++ t) (t :: ts))]
        | _ => []
        end
     ++ match t_priority task with
        | Some p => [PRIORITY_EMOJI p]
        | None => []
        end
     ++ field dueEmoji (t_dueDate task)
     ++ field scheduledEmoji (t_scheduledDate task)
     ++ field startEmoji (t_startDate task)
     ++ field recurrenceEmoji (t_recurrence task)).

(** [TaskQuery]; [status], [overdue] and [limit] reach [queryTasks] from
    the arguments of a tool call as they are. *)
Record TaskQuery := {
  q_status : Js.value;
  q_dueBefore : option text;
  q_dueAfter : option text;
  q_overdue : Js.value;
  q_priority : option text;
  q_tags : option (list text);
  q_inNote : option text;
  q_limit : Js.value;
}.

(** The query [{}] *)
Definition anyTask : TaskQuery :=
  {| q_status := Js.Undefined; q_dueBefore := None; q_dueAfter := None;
     q_overdue := Js.Undefined; q_priority := None; q_tags := None;
     q_inNote := None; q_limit := Js.Undefined |}.

(** [a < b] on two optional strings that are both given: the order of
    strings by code units. *)
Definition before (a b : option text) : bool :=
  match a, b with
  | Some a, Some b => ltb a b
  | _, _ => false
  end.

(** [t.replace(/^#/, '')] *)
Definition stripHash (t : text) : text :=
  match t with
  | 35%N :: rest => rest
  | _ => t
  end.

(** [matchesQuery(task, query, today)] *)
Definition matchesQuery (task : ParsedTask) (query : TaskQuery) (today : text)
    : bool :=
  if Js.isStr "incomplete" (q_status query) && completed task then false
  else if Js.isStr "complete" (q_status query) && negb (completed task) then false
  else if Js.truthy (q_overdue query)
          && (negb (given (dueDate task))
              || negb (before (dueDate task) (Some today))
              || completed task)
  then false
  else if given (q_dueBefore query) && given (dueDate task)
          && before (q_dueBefore query) (dueDate task)
  then false
  else if given (q_dueAfter query) && given (dueDate task)
          && before (dueDate task) (q_dueAfter query)
  then false
  else if given (q_priority query)
          && negb (bool_decide (priority task = q_priority query))
  then false
  else
    match q_tags query with
    | Some (t :: ts) =>
        existsb (fun t => existsb (fun tag => bool_decide (tag = stripHash t)) (tags task))
          (t :: ts)
    | _ => true
    end.

(** A text of ASCII without colon and without line break. *)
Definition plainUnit (c : N) : bool :=
  ((c <? 128) && negb (c =? 58) && negb (isLineTerminator c))%N.
Definition plain (s : text) : Prop := Forall (fun c => plainUnit c = true) s.

(** A task whose texts are plain. *)
Definition plainTask (task : TaskData) : Prop :=
  plain (t_description task)
  /\ plain (default [] (t_dueDate task))
  /\ plain (default [] (t_scheduledDate task))
  /\ plain (default [] (t_startDate task))
  /\ plain (default [] (t_recurrence task))
  /\ Forall plain (default [] (t_tags task)).

(** A text without colon in which no digit follows a code unit beyond
    ASCII. *)
Fixpoint tidy (s : text) : bool :=
  match s with
  | [] => true
  | x :: s' =>
      negb (x =? 58)%N
      && match s' with
         | y :: _ => negb ((128 <=? x)%N && inRanges digits y)
         | [] => true
         end
      && tidy s'
  end.

(** A text of the form of a date: four digits, two digits and two
    digits, with hyphens between them. *)
Definition dateShaped (d : text) : bool :=
  match d with
  | [y1; y2; y3; y4; 45; m1; m2; 45; d1; d2]%N =>
      forallb (inRanges digits) [y1; y2; y3; y4; m1; m2; d1; d2]
  | _ => false
  end.

(** [parseInt(s, 10)]: the digits after white space and a sign;
    [None] is [NaN].  The argument [undefined] prints as a word.  The
    result is the integer that the digits denote; JavaScript rounds it
    to a double, which is the same number up to 2^53. *)
Definition parseInt (s : option text) : option Z :=
  match s with
  | None => None
  | Some s =>
      let s := trimStart s in
      let '(negative, s) :=
        match s with
        | 45 :: s' => (true, s')
        | 43 :: s' => (false, s')
        | _ => (false, s)
        end%N in
      match leading digits s with
      | [] => None
      | ds =>
          let n := fold_left (fun n d => 10 * n + Z.of_N (d - 48)) ds 0 in
          Some (if negative then - n else n)
      end%Z
  end.

(** What the adapter throws. *)
Inductive Failure :=
| NoteNotFound (path : text)
| InvalidLineNumber (lineNumber : Z)
| NoTaskFound (lineNumber : Z)
| TypeError.

(** What a call does once the vault has answered its lookup and its
    read: it throws, before any write; or it calls
    [vault.modify(file, data)] on the file at [path] and then returns
    [value]. *)
Inductive Result :=
| Throws (failure : Failure)
| Writes (path data : text) (value : option ParsedTask).

(** [addTask(task, notePath)]; [isFile] tells whether the vault has a
    file at [notePath], and [content] is what it reads there. *)
Definition addTask (isFile : bool) (content : text) (task : TaskData)
    (notePath : text) : Result :=
  if negb isFile then Throws (NoteNotFound notePath)
  else
    let taskLine := formatTask task false in
    let newContent := content ++ [10%N] ++ taskLine in
    let lineNumber := Z.of_nat (List.length (split 10 newContent)) in
    Writes notePath newContent (parseTask taskLine notePath lineNumber).

(** The line of a task as [completeTask] rewrites it (lines 881-888);
    [today] is the date of the day. *)
Definition completeLine (today line : text) : text :=
  let line := RegExp.replace false (Lit (lit "- [ ]")) (lit "- [x]") line in
  if negb (includes doneEmoji line) then line ++ lit " " ++ doneEmoji ++ lit " " ++ today
  else line.

(** [completeTask(taskId)]; [isFile] tells whether the vault has a file
    at the path of the id, and [content] is what it reads there. *)
Definition completeTask (isFile : bool) (content today taskId : text) : Result :=
  let parts := split 58 taskId in
  let filePath := hd [] parts in
  let lineNumber := parseInt (parts !! 1) in
  if negb isFile then Throws (NoteNotFound filePath)
  else
    let lines := split 10 content in
    match lineNumber with
    | None => Throws TypeError
    | Some lineNumber =>
        let lineIndex := (lineNumber - 1)%Z in
        if ((lineIndex <? 0) || (Z.of_nat (List.length lines) <=? lineIndex))%Z
        then Throws (InvalidLineNumber lineNumber)
        else
          let line := default [] (lines !! Z.to_nat lineIndex) in
          match parseTask line filePath lineNumber with
          | None => Throws (NoTaskFound lineNumber)
          | Some _ =>
              let line := completeLine today line in
              Writes filePath (join [10%N] (<[Z.to_nat lineIndex := line]> lines))
                (parseTask line filePath lineNumber)
          end
    end.

End TasksAdapter.

(** ** QMDClient (mcp/integrations/QMDClient.ts) *)

Module QMDClient.
Import Utf16 RegExp.

(** [filename.replace(/\.md$/, '')] *)
Definition stripMd (filename : text) : text :=
  if endsWith (lit ".md") filename
  then firstn (List.length filename - 3) filename
  else filename.

(** [extractTitle(filePath)] *)
Definition extractTitle (filePath : text) : text :=
  match filePath with
  | [] => []
  | _ :: _ => stripMd (List.last (split 47 filePath) [])
  end.

(** [SearchResult] (mcp/types.ts), as the fallback fills it *)
Record SearchResult := {
  path : text;
  score : Z;
  snippet : text;
  title : text;
}.

(** The pattern of a line of the text output (line 244): a path that
    ends in [.md], an optional colon, white space, and the snippet. *)
Definition LINE_PATTERN : regex :=
  seq [Bol; Group 1 (seq [Plus any; Lit (lit ".md")]); Opt (Char 58); Star space;
       Group 2 (Star any); Eol].

(** The result of one line of the text output (lines 244-252). *)
Definition resultOf (line : text) : option SearchResult :=
  match exec false LINE_PATTERN line with
  | None => None
  | Some mt =>
      let path := default [] (captures mt !! 1) in
      Some {| path := path; score := 1; snippet := default [] (captures mt !! 2);
              title := extractTitle path |}
  end.

(** [parseTextOutput(stdout)] *)
Definition parseTextOutput (stdout : text) : list SearchResult :=
  omap resultOf
    (List.filter (fun line => negb (bool_decide (trim line = [])))
       (split 10 (trim stdout))).

End QMDClient.

(** ** MCPServer (mcp/MCPServer.ts) *)

Module MCPServer.

Import OperationGuard.

Inductive AbstractFile := TFile | TFolder.

(** Text handed to [vault.modify] and [vault.create]: the [content]
    argument, or in append mode the existing text, a line feed and the
    argument. *)
Inductive Content :=
| Given (content : Js.value)
| Appended (existing : string) (content : Js.value).

(** The invocations of the external collaborators: the note store
    ([app.vault], [app.metadataCache]), the search client and the task
    store. *)
Inductive Call :=
| VaultGetAbstractFileByPath (path : string)
| VaultRead (path : string)
| VaultModify (path : string) (content : Content)
| VaultCreate (path : string) (content : Content)
| VaultCreateFolder (path : string)
| VaultGetMarkdownFiles
| VaultGetName
| MetadataGetFileCache (path : string)
| QmdIsAvailable
| QmdSearch (query mode limit : Js.value)
| TasksQueryTasks (status overdue dueToday limit : Js.value)
| TasksAddTask (description dueDate priority tags : Js.value) (notePath : string)
| TasksCompleteTask (taskId : Js.value).

Inductive Reply (A : Type) :=
| Ok (a : A)
| Throws (error : Js.error).
Arguments Ok {A} a.
Arguments Throws {A} error.

(** What the collaborators answer, given the invocations made so far. *)
Record Collaborators := {
  vault_getAbstractFileByPath : list Call -> string -> option AbstractFile;
  vault_read : list Call -> string -> Reply string;
  vault_modify : list Call -> string -> Content -> Reply unit;
  vault_create : list Call -> string -> Content -> Reply unit;
  vault_createFolder : list Call -> string -> Reply unit;
  vault_getMarkdownFiles : list Call -> list string;
  vault_getName : list Call -> Utf16.text;
  qmd_isAvailable : list Call -> Reply bool;
  qmd_search : list Call -> Js.value -> Js.value -> Js.value -> Reply string;
  tasks_queryTasks : list Call -> Js.value -> Js.value -> Js.value -> Js.value
               -> Reply string;
  tasks_addTask : list Call -> Js.value -> Js.value -> Js.value -> Js.value -> string
            -> Reply string;
  tasks_completeTask : list Call -> Js.value -> Reply string;
}.

Record RateRecord := {
  count : Z;
  resetTime : Z;
}.

(** The server object.  The validator is its root [vaultPath] (with the
    process's [cwd]); the logger is the one inside [operationGuard],
    which the server and the guard share; [clock] is what [Date.now()]
    returns: it moves when a request is handled and when a call goes on
    after it awaited an approval, and stands still while a collaborator
    answers; [calls] records the collaborator invocations made so far. *)
Record t := {
  cwd : string;
  vaultPath : string;
  operationGuard : OperationGuard.t;
  authToken : string;
  requestCounts : gmap string RateRecord;
  clock : Z;
  calls : list Call;
}.

Definition rateLimit : Z := 100.

Definition ALLOWED_ORIGINS : list string :=
  ["http://localhost"; "http://127.0.0.1"; "https://localhost";
   "https://127.0.0.1"; "app://obsidian.md"].

Definition getGuard (s : t) : OperationGuard.t := operationGuard s.

Definition setGuard (g : OperationGuard.t) (s : t) : t :=
  {| cwd := cwd s; vaultPath := vaultPath s; operationGuard := g;
     authToken := authToken s; requestCounts := requestCounts s;
     clock := clock s; calls := calls s |}.

Definition setRequestCounts (m : gmap string RateRecord) (s : t) : t :=
  {| cwd := cwd s; vaultPath := vaultPath s; operationGuard := operationGuard s;
     authToken := authToken s; requestCounts := m;
     clock := clock s; calls := calls s |}.

Definition addCall (c : Call) (s : t) : t :=
  {| cwd := cwd s; vaultPath := vaultPath s; operationGuard := operationGuard s;
     authToken := authToken s; requestCounts := requestCounts s;
     clock := clock s; calls := calls s ++ [c] |}.

Definition auditLog (s : t) : list AuditLogger.AuditEntry :=
  AuditLogger.logs (auditLogger (operationGuard s)).

(** [checkRateLimit(clientId)] *)
Definition checkRateLimit (clientId : string) (s : t) : bool * t :=
  let now := clock s in
  let fresh := {| count := 1; resetTime := (now + 60000)%Z |} in
  match requestCounts s !! clientId with
  | None => (true, setRequestCounts (<[clientId := fresh]> (requestCounts s)) s)
  | Some record =>
      if (resetTime record <? now)%Z
      then (true, setRequestCounts (<[clientId := fresh]> (requestCounts s)) s)
      else if (rateLimit <=? count record)%Z then (false, s)
      else (true,
            setRequestCounts
              (<[clientId := {| count := (count record + 1)%Z;
                                resetTime := resetTime record |}]>
                 (requestCounts s)) s)
  end.

(** The clock moves to [now]. *)
Definition setClock (now : Z) (s : t) : t :=
  {| cwd := cwd s; vaultPath := vaultPath s; operationGuard := operationGuard s;
     authToken := authToken s; requestCounts := requestCounts s;
     clock := now; calls := calls s |}.

(** At time [now] the client has no window open: it has no record, or
    the window of its record has elapsed. *)
Definition noOpenWindow (client : string) (now : Z) (s : t) : Prop :=
  match requestCounts s !! client with
  | None => True
  | Some record => (resetTime record < now)%Z
  end.

(** *** Asynchronous methods: state, exceptions, and waiting *)

Definition M (A : Type) : Type := t -> outcome A * t.

Definition ret {A} (a : A) : M A := fun s => (Returned a, s).

Definition bind {A B} (m : M A) (k : A -> M B) : M B :=
  fun s =>
    match m s with
    | (Returned a, s') => k a s'
    | (Thrown e, s') => (Thrown e, s')
    | (Waiting, s') => (Waiting, s')
    end.

(** [throw error] *)
Definition throw {A} (error : Js.error) : M A := fun s => (Thrown error, s).

(** [try { m } catch (error) { handler }] *)
Definition tryCatch {A} (m : M A) (handler : Js.error -> M A) : M A :=
  fun s =>
    match m s with
    | (Thrown e, s') => handler e s'
    | r => r
    end.

Notation "x <- m ;; k" := (bind m (fun x => k))
  (at level 100, m at next level, right associativity).
Notation "m ;;; k" := (bind m (fun _ => k))
  (at level 100, right associativity).

(** [String(error)] *)
Definition errorString (error : Js.error) : string := Js.errorString error.

(** The text of a tool response, by the shape of the JSON it prints. *)
Inductive Payload :=
| ErrorText (error : string)
| QmdUnavailable
| NoteContent (content : string) (withMetadata : bool)
| NoteWritten (path : string) (mode : Js.value) (uri : string)
| SearchResults (results : string)
| Notes (paths : list string) (withMetadata : bool)
| Tasks (tasks : string)
| TaskAdded (task : string) (uri : string)
| TaskCompleted (task : string).

Record ToolResponse := {
  content : Payload;
  isError : bool;
}.

Section WithCollaborators.
Variable env : Collaborators.

Definition answer {A} (c : Call) (reply : list Call -> Reply A) : M A :=
  fun s =>
    match reply (calls s) with
    | Ok a => (Returned a, addCall c s)
    | Throws e => (Thrown e, addCall c s)
    end.

Definition vaultGetAbstractFileByPath (path : string) : M (option AbstractFile) :=
  fun s => (Returned (vault_getAbstractFileByPath env (calls s) path),
            addCall (VaultGetAbstractFileByPath path) s).

Definition vaultGetMarkdownFiles : M (list string) :=
  fun s => (Returned (vault_getMarkdownFiles env (calls s)), addCall VaultGetMarkdownFiles s).

Definition vaultGetName : M Utf16.text :=
  fun s => (Returned (vault_getName env (calls s)), addCall VaultGetName s).

Definition metadataGetFileCache (path : string) : M unit :=
  fun s => (Returned tt, addCall (MetadataGetFileCache path) s).

(** [this.auditLogger.logToolCall(tool, path, success, error)] *)
Definition logToolCall (tool : string) (path : Js.value) (success : bool)
    (error : option string) : M unit :=
  fun s =>
    (Returned tt,
     setGuard (withLogger (AuditLogger.logToolCall (clock s) tool path success error)
                 (operationGuard s)) s).

Definition validated (r : t -> PathValidator.PathValidationResult) : M string :=
  fun s =>
    match r s with
    | PathValidator.Valid sanitized => (Returned sanitized, s)
    | PathValidator.Invalid e => (Thrown (Js.Error e), s)
    end.

Definition validateWithExtension (path : Js.value) : M string :=
  validated (fun s => PathValidator.validateWithExtensionValue (cwd s) (vaultPath s) path).

Definition validateFolder (path : Js.value) : M string :=
  validated (fun s => PathValidator.validateFolderValue (cwd s) (vaultPath s) path).

(** The text of [path] in a message; the argument is a string wherever
    the code gets that far. *)
Definition text (v : Js.value) : string :=
  match v with
  | Js.Str p => p
  | _ => "undefined"
  end.

(** The link that [writeNote] and [addTask] return: the name of the
    vault and the path without its final [.md], each through
    [encodeURIComponent], which throws when the name of the vault holds a
    lone surrogate. *)
Definition openUri (path : string) : M string :=
  vaultName <- vaultGetName ;;
  match Utf16.encodeURIComponent vaultName with
  | Some vault =>
      ret ("obsidian://open?vault=" +:+ vault +:+ "&file="
           +:+ Js.encodeURIComponent (Js.withoutSuffix ".md" path))
  | None => throw (Js.URIError "URI malformed")
  end.

Definition readNote (path includeMetadata : Js.value) : M ToolResponse :=
  sanitized <- validateWithExtension path ;;
  file <- vaultGetAbstractFileByPath sanitized ;;
  match file with
  | Some TFile =>
      content <- answer (VaultRead sanitized) (fun h => vault_read env h sanitized) ;;
      logToolCall "read_note" path true None ;;;
      (if Js.truthy includeMetadata then metadataGetFileCache sanitized else ret tt) ;;;
      ret {| content := NoteContent content (Js.truthy includeMetadata);
             isError := false |}
  | _ => throw (Js.Error ("Note not found: " +:+ text path))
  end.

Definition ensureFolder (path : string) : M unit :=
  sanitized <- validateFolder (Js.Str path) ;;
  existing <- vaultGetAbstractFileByPath sanitized ;;
  match existing with
  | Some _ => ret tt
  | None => answer (VaultCreateFolder sanitized) (fun h => vault_createFolder env h sanitized)
  end.

Definition writeNote (path content mode : Js.value) : M ToolResponse :=
  let mode := Js.orDefault mode (Js.Str "replace") in
  normalizedPath <- validateWithExtension path ;;
  existingFile <- vaultGetAbstractFileByPath normalizedPath ;;
  if Js.isStr "create" mode && bool_decide (is_Some existingFile)
  then throw (Js.Error ("Note already exists: " +:+ text path))
  else
    content <-
      (if Js.isStr "append" mode then
         match existingFile with
         | Some TFile =>
             existing <- answer (VaultRead normalizedPath)
                           (fun h => vault_read env h normalizedPath) ;;
             ret (Appended existing content)
         | _ => throw (Js.Error ("Note not found for append: " +:+ text path))
         end
       else ret (Given content)) ;;
    let folderPath :=
      Js.substringTo (Js.lastIndexOf "/" normalizedPath) normalizedPath in
    (if negb (String.eqb folderPath EmptyString) then ensureFolder folderPath
     else ret tt) ;;;
    match existingFile with
    | Some TFile =>
        answer (VaultModify normalizedPath content)
          (fun h => vault_modify env h normalizedPath content)
    | _ =>
        answer (VaultCreate normalizedPath content)
          (fun h => vault_create env h normalizedPath content)
    end ;;;
    logToolCall "write_note" path true None ;;;
    uri <- openUri normalizedPath ;;
    ret {| content := NoteWritten normalizedPath mode uri; isError := false |}.

Definition searchVault (query mode limit : Js.value) : M ToolResponse :=
  let mode := Js.orDefault mode (Js.Str "hybrid") in
  let limit := Js.orDefault limit (Js.Number 10) in
  available <- answer QmdIsAvailable (qmd_isAvailable env) ;;
  if negb available
  then ret {| content := QmdUnavailable; isError := true |}
  else
    results <- answer (QmdSearch query mode limit)
                 (fun h => qmd_search env h query mode limit) ;;
    logToolCall "search_vault" Js.Undefined true None ;;;
    ret {| content := SearchResults results; isError := false |}.

(** The filter of [listNotes] on the path of one markdown file. *)
Definition inFolder (folderPath : string) (recursive : bool) (filePath : string)
    : bool :=
  if String.eqb folderPath EmptyString
  then recursive || negb (Js.includes "/" filePath)
  else if recursive then Js.startsWith (folderPath +:+ "/") filePath
  else
    let relativePath := Js.sliceFrom (String.length folderPath + 1) filePath in
    Js.startsWith (folderPath +:+ "/") filePath
    && negb (Js.includes "/" relativePath).

Definition listNotes (folder recursive includeMetadata : Js.value)
    : M ToolResponse :=
  let folder := Js.orDefault folder (Js.Str EmptyString) in
  folderPath <- validateFolder folder ;;
  files <- vaultGetMarkdownFiles ;;
  let filtered := List.filter (inFolder folderPath (Js.truthy recursive)) files in
  logToolCall "list_notes" folder true None ;;;
  ret {| content := Notes filtered (Js.truthy includeMetadata); isError := false |}.

Definition arg (args : gmap string Js.value) (name : string) : Js.value :=
  default Js.Undefined (args !! name).

Definition listTasks (args : gmap string Js.value) : M ToolResponse :=
  let call := TasksQueryTasks (arg args "status") (arg args "overdue")
                (arg args "dueToday") (arg args "limit") in
  tasks <- answer call
             (fun h => tasks_queryTasks env h (arg args "status") (arg args "overdue")
                         (arg args "dueToday") (arg args "limit")) ;;
  logToolCall "list_tasks" Js.Undefined true None ;;;
  ret {| content := Tasks tasks; isError := false |}.

Definition addTask (args : gmap string Js.value) : M ToolResponse :=
  sanitized <- validateWithExtension (arg args "notePath") ;;
  task <- answer (TasksAddTask (arg args "description") (arg args "dueDate")
                    (arg args "priority") (arg args "tags") sanitized)
            (fun h => tasks_addTask env h (arg args "description") (arg args "dueDate")
                        (arg args "priority") (arg args "tags") sanitized) ;;
  logToolCall "add_task" (arg args "notePath") true None ;;;
  uri <- openUri sanitized ;;
  ret {| content := TaskAdded task uri; isError := false |}.

Definition completeTask (taskId : Js.value) : M ToolResponse :=
  task <- answer (TasksCompleteTask taskId) (fun h => tasks_completeTask env h taskId) ;;
  logToolCall "complete_task" taskId true None ;;;
  ret {| content := TaskCompleted task; isError := false |}.

(** What the environment contributes to one tool call that asks for
    approval: the correlation id that [requestApproval] generates, and
    what happens to the guard while the call awaits. *)
Record Approval := {
  approvalId : string;
  during : list OperationGuard.event;
}.

(** The time at which a call that awaited an approval goes on: that of
    the last event of the wait. *)
Definition resumedAt (a : Approval) (now : Z) : Z :=
  List.last (map timeOf (during a)) now.

(** The server when the call goes on: the guard as the wait left it, and
    the clock at that time. *)
Definition resume (a : Approval) (g : OperationGuard.t) (s : t) : t :=
  setClock (resumedAt a (clock s)) (setGuard g s).

Definition withApproval (a : Approval) (operation : MCPOperation)
    (executor : M ToolResponse) : M ToolResponse :=
  fun s =>
    executeWithApproval getGuard (resume a) (clock s) (approvalId a) (during a)
      operation executor s.

(** [executeTool(tool, args)] *)
Definition executeTool (a : Approval) (tool : string)
    (args : gmap string Js.value) : M ToolResponse :=
  fun s =>
    let operation :=
      {| op_tool := tool; op_path := arg args "path";
         op_action := arg args "mode"; op_timestamp := clock s;
         op_clientId := None |} in
    tryCatch
      (if String.eqb tool "read_note" then
         readNote (arg args "path") (arg args "includeMetadata")
       else if String.eqb tool "write_note" then
         withApproval a operation
           (writeNote (arg args "path") (arg args "content") (arg args "mode"))
       else if String.eqb tool "search_vault" then
         searchVault (arg args "query") (arg args "mode") (arg args "limit")
       else if String.eqb tool "list_notes" then
         listNotes (arg args "folder") (arg args "recursive")
           (arg args "includeMetadata")
       else if String.eqb tool "list_tasks" then listTasks args
       else if String.eqb tool "add_task" then
         withApproval a operation (addTask args)
       else if String.eqb tool "complete_task" then
         withApproval a operation (completeTask (arg args "taskId"))
       else
         ret {| content := ErrorText ("Unknown tool: " +:+ tool); isError := true |})
      (fun error =>
         logToolCall tool (arg args "path") false (Some (errorString error)) ;;;
         ret {| content := ErrorText (errorString error); isError := true |})
      s.

(** *** The HTTP front *)

(** The body of a POST as [readBody] and [JSON.parse] see it: the stream
    never ends, or [readBody] rejects, or the text read is not JSON, or it
    is the JSON [null], or any other JSON value, of which the code reads
    the properties [tool] and [arguments]. *)
Inductive Body :=
| BodyPending
| BodyFails (error : Js.error)
| NotJson
| JsonNull
| Json (tool : Js.value) (arguments : gmap string Js.value).

(** An incoming request: the [Origin] header, the method, the remote
    address of the socket, the [Authorization] header, the body, and what
    [new URL(req.url || '/', 'http://127.0.0.1')] makes of the request
    target: a URL with its path name, or the [TypeError] that the
    constructor throws on a target that is no URL, such as [//]. *)
Record Request := {
  origin : option string;
  method : string;
  remoteAddress : option string;
  url : Reply string;
  authorization : option string;
  body : Body;
}.

Inductive ResponseBody :=
| NoBody
| ErrorBody (error : string)
| Unauthorized
| Health (vault : Utf16.text)
| Token (token : string)
| ToolList (names : list string)
| ToolResult (result : ToolResponse).

Record Response := {
  status : Z;
  allowOrigin : option string;
  payload : ResponseBody;
}.

Definition toolNames : list string :=
  ["read_note"; "write_note"; "search_vault"; "list_notes"; "list_tasks";
   "add_task"; "complete_task"].

Definition isLoopback (clientIp : string) : bool :=
  String.eqb clientIp "127.0.0.1" || String.eqb clientIp "::1"
  || String.eqb clientIp "::ffff:127.0.0.1".

Definition authorized (s : t) (req : Request) : bool :=
  match authorization req with
  | Some authHeader =>
      negb (String.eqb authHeader EmptyString)
      && String.eqb authHeader ("Bearer " +:+ authToken s)
  | None => false
  end.

Definition missingTool : string :=
  "Missing or invalid " +:+ PathValidator.dquote +:+ "tool"
  +:+ PathValidator.dquote +:+ " parameter".

(** [req.socket.remoteAddress || 'unknown'] *)
Definition clientIp (req : Request) : string :=
  match remoteAddress req with
  | Some ip => if String.eqb ip EmptyString then "unknown" else ip
  | None => "unknown"
  end.

(** The CORS header that [handleRequest] sets first: the origin, when
    it is present and begins with an allowed origin. *)
Definition corsOrigin (req : Request) : option string :=
  let originHeader := default EmptyString (origin req) in
  let isAllowedOrigin :=
    String.eqb originHeader EmptyString
    || existsb (fun allowed => Js.startsWith allowed originHeader) ALLOWED_ORIGINS in
  if isAllowedOrigin && negb (String.eqb originHeader EmptyString)
  then Some originHeader else None.

(** [await this.readBody(req)] and [JSON.parse(body)] (lines 207-217):
    the call waits while the stream has not ended, and a rejection of
    [readBody] is thrown; [None] is the text that is not JSON, for which
    the inner [catch] answers. *)
Definition readJson (req : Request)
    : M (option (option (Js.value * gmap string Js.value))) :=
  match body req with
  | BodyPending => fun s => (Waiting, s)
  | BodyFails e => throw e
  | NotJson => ret None
  | JsonNull => ret (Some None)
  | Json tool arguments => ret (Some (Some (tool, arguments)))
  end.

(** The [try] block of [handleRequest] (lines 166-233), for a request
    that passed the preflight, rate-limit and method gates and whose
    target gave the path name [pathname]. *)
Definition route (a : Approval) (clientIp : string) (cors : option string)
    (pathname : string) (req : Request) : M Response :=
  let respond st b := ret {| status := st; allowOrigin := cors; payload := b |} in
  if String.eqb pathname "/health"
  then vaultName <- vaultGetName ;; respond 200%Z (Health vaultName)
  else if String.eqb pathname "/auth/token" && String.eqb (method req) "GET"
  then
    if isLoopback clientIp
    then fun s => respond 200%Z (Token (authToken s)) s
    else respond 403%Z (ErrorBody "Forbidden")
  else fun s =>
    if negb (authorized s req) then respond 401%Z Unauthorized s
    else if String.eqb pathname "/mcp/tools" && String.eqb (method req) "GET"
    then respond 200%Z (ToolList toolNames) s
    else if String.eqb pathname "/mcp/call" && String.eqb (method req) "POST"
    then
      (parsed <- readJson req ;;
       match parsed with
       | None => respond 400%Z (ErrorBody "Invalid JSON body")
       | Some None =>
           throw (Js.TypeError "Cannot read properties of null (reading 'tool')")
       | Some (Some (Js.Str tool, arguments)) =>
           if String.eqb tool EmptyString
           then respond 400%Z (ErrorBody missingTool)
           else result <- executeTool a tool arguments ;;
                respond 200%Z (ToolResult result)
       | Some (Some _) => respond 400%Z (ErrorBody missingTool)
       end) s
    else respond 404%Z (ErrorBody "Not found") s.

(** [new URL(req.url || '/', 'http://127.0.0.1').pathname] (lines 163-164) *)
Definition parseUrl (req : Request) : M string :=
  match url req with
  | Ok pathname => ret pathname
  | Throws e => throw e
  end.

(** Lines 162-238 of [handleRequest]: the URL is parsed, then the [try]
    block runs, whose [catch] answers 500.  The URL is parsed before the
    [try] block, so that what the constructor throws is thrown by
    [handleRequest], which then writes no response. *)
Definition routed (a : Approval) (clientIp : string) (cors : option string)
    (req : Request) : M Response :=
  pathname <- parseUrl req ;;
  tryCatch (route a clientIp cors pathname req)
    (fun error =>
       ret {| status := 500; allowOrigin := cors;
              payload := ErrorBody (errorString error) |}).

(** [handleRequest(req, res)]: the response written, and the state. *)
Definition handleRequest (a : Approval) (req : Request) : M Response :=
  let cors := corsOrigin req in
  let respond st b := ret {| status := st; allowOrigin := cors; payload := b |} in
  if String.eqb (method req) "OPTIONS" then respond 204%Z NoBody
  else
    let clientIp := clientIp req in
    fun s =>
      let '(admitted, s) := checkRateLimit clientIp s in
      if negb admitted then respond 429%Z (ErrorBody "Too many requests") s
      else if negb (String.eqb (method req) "POST")
              && negb (String.eqb (method req) "GET")
      then respond 405%Z (ErrorBody "Method not allowed") s
      else
        routed a clientIp cors req s.

(** The response to a request over the budget. *)
Definition tooMany (req : Request) : Response :=
  {| status := 429; allowOrigin := corsOrigin req;
     payload := ErrorBody "Too many requests" |}.

(** One request as the server meets it: the time at which it is handled,
    the request, and what the environment contributes if it asks for
    approval. *)
Record Arrival := {
  arrivedAt : Z;
  request : Request;
  approval : Approval;
}.

(** The server handles a sequence of requests, one after the other. *)
Fixpoint serve (arrs : list Arrival) (s : t) : list (outcome Response) * t :=
  match arrs with
  | [] => ([], s)
  | ar :: rest =>
      let '(o, s) := handleRequest (approval ar) (request ar) (setClock (arrivedAt ar) s) in
      let '(os, s) := serve rest s in
      (o :: os, s)
  end.

(** The requests that reach the rate limiter: all but the preflights. *)
Definition reachesLimiter (req : Request) : bool :=
  negb (String.eqb (method req) "OPTIONS").

(** How many of the first [i] requests come from [client] and reach the
    rate limiter. *)
Definition earlier (client : string) (i : nat) (arrs : list Arrival) : nat :=
  List.length
    (List.filter
       (fun ar => reachesLimiter (request ar)
                  && String.eqb (clientIp (request ar)) client)
       (take i arrs)).

End WithCollaborators.

(** Tool execution and routing leave the rate table, the session token
    and the configuration of the validator alone. *)
Definition sameFront (s s' : t) : Prop :=
  requestCounts s' = requestCounts s /\ authToken s' = authToken s
  /\ cwd s' = cwd s /\ vaultPath s' = vaultPath s.

Definition Framed {A} (m : M A) : Prop := forall s, sameFront s (m s).2.

(** The path that an invocation hands to a collaborator, if it hands one. *)
Definition pathOf (c : Call) : option Js.value :=
  match c with
  | VaultGetAbstractFileByPath p
  | VaultRead p
  | VaultModify p _
  | VaultCreate p _
  | VaultCreateFolder p
  | MetadataGetFileCache p
  | TasksAddTask _ _ _ _ p => Some (Js.Str p)
  | TasksCompleteTask taskId => Some taskId
  | VaultGetMarkdownFiles | VaultGetName | QmdIsAvailable | QmdSearch _ _ _
  | TasksQueryTasks _ _ _ _ => None
  end.

(** [p] is a sanitized path: a result of [validateWithExtension] or of
    [validateFolder] for the root [vaultPath]. *)
Definition sanitized (cwd vaultPath : string) (p : Js.value) : Prop :=
  exists sp v,
    p = Js.Str sp
    /\ (PathValidator.validateWithExtensionValue cwd vaultPath v = PathValidator.Valid sp
        \/ PathValidator.validateFolderValue cwd vaultPath v = PathValidator.Valid sp).

(** An invocation that hands over a path hands over a sanitized one. *)
Definition handsSanitized (cwd vaultPath : string) (c : Call) : Prop :=
  forall p, pathOf c = Some p -> sanitized cwd vaultPath p.

(** From a state of the server with the given root, [m] leaves the root
    in place and makes only invocations that satisfy [P]. *)
Definition Emits {A} (cwd0 vaultPath0 : string) (P : Call -> Prop) (m : M A) : Prop :=
  forall s, cwd s = cwd0 -> vaultPath s = vaultPath0 ->
    cwd (m s).2 = cwd0 /\ vaultPath (m s).2 = vaultPath0
    /\ exists new, calls (m s).2 = calls s ++ new /\ Forall P new.

(** The invocations that change the vault. *)
Definition mutating (c : Call) : bool :=
  match c with
  | VaultModify _ _ | VaultCreate _ _ | VaultCreateFolder _
  | TasksAddTask _ _ _ _ _ | TasksCompleteTask _ => true
  | VaultGetAbstractFileByPath _ | VaultRead _ | VaultGetMarkdownFiles
  | VaultGetName | MetadataGetFileCache _ | QmdIsAvailable | QmdSearch _ _ _
  | TasksQueryTasks _ _ _ _ => false
  end.

(** The guard [g'] differs from [g] in its audit log at most. *)
Definition sameApprovals (g g' : OperationGuard.t) : Prop :=
  requireApproval g' = requireApproval g
  /\ pendingApprovals g' = pendingApprovals g
  /\ timers g' = timers g /\ cleared g' = cleared g
  /\ settlements g' = settlements g /\ created g' = created g.

(** From [s] to [s'] the server made no invocation that changes the
    vault and asked for no approval. *)
Definition onlyRead (s s' : t) : Prop :=
  (exists new, calls s' = calls s ++ new /\ Forall (fun c => mutating c = false) new)
  /\ sameApprovals (operationGuard s) (operationGuard s').

(** [m] reads only, and never waits. *)
Definition ReadOnly {A} (m : M A) : Prop :=
  forall s, onlyRead s (m s).2 /\ (m s).1 <> OperationGuard.Waiting.

(** [m] never waits on a promise that has no value. *)
Definition Settles {A} (m : M A) : Prop :=
  forall s, (m s).1 <> OperationGuard.Waiting.

(** The request [req] sent with another [Origin] header. *)
Definition withOrigin (o : option string) (req : Request) : Request :=
  {| origin := o; method := method req; remoteAddress := remoteAddress req;
     url := url req; authorization := authorization req;
     body := body req |}.

(** The response [r] with another [Access-Control-Allow-Origin] header. *)
Definition withAllowOrigin (cors : option string) (r : Response) : Response :=
  {| status := status r; allowOrigin := cors; payload := payload r |}.

Definition mapOutcome {A B} (f : A -> B) (o : outcome A) : outcome B :=
  match o with
  | Returned x => Returned (f x)
  | Thrown e => Thrown e
  | Waiting => Waiting
  end.

(** [c] is no write to a note, or it is the write [w]. *)
Definition writes (w : Call) (c : Call) : Prop :=
  match c with
  | VaultModify _ _ | VaultCreate _ _ => c = w
  | _ => True
  end.

(** The write of [writeNote] for the sanitized path [sp]: [vault.modify]
    when the path holds a note, [vault.create] when it does not. *)
Definition writeOf (sp : string) (existingFile : option AbstractFile)
    (written : Content) : Call :=
  match existingFile with
  | Some TFile => VaultModify sp written
  | _ => VaultCreate sp written
  end.

(** Whatever [m] returns satisfies [Q]. *)
Definition Returns {A} (Q : A -> Prop) (m : M A) : Prop :=
  forall s x, (m s).1 = Returned x -> Q x.

(** The response [r] is not the error of the [default] branch of the
    dispatch. *)
Definition known (r : ToolResponse) : Prop :=
  forall tool, content r <> ErrorText ("Unknown tool: " +:+ tool).

(** Every record of the rate table counts between one request and the
    limit. *)
Definition counted (s : t) : Prop :=
  forall client record,
    requestCounts s !! client = Some record -> (1 <= count record <= rateLimit)%Z.

(** *** [readBody] *)

(** [maxSize], in code units of the body *)
Definition maxSize : Z := 10 * 1024 * 1024.

(** The events of the request stream. *)
Inductive StreamEvent :=
| Data (chunk : string)
| End
| StreamError (error : Js.error).

(** The closure of [readBody]: the body so far, the [rejected] flag,
    whether [req.destroy()] was called, and the state of the promise. *)
Record Reader := {
  rb_body : string;
  rb_rejected : bool;
  rb_destroyed : bool;
  rb_promise : option (Reply string);
}.

Definition reader : Reader :=
  {| rb_body := EmptyString; rb_rejected := false; rb_destroyed := false;
     rb_promise := None |}.

(** [resolve] and [reject] of the promise: the first call settles it, a
    later call does nothing. *)
Definition settle (r : Reply string) (rd : Reader) : Reader :=
  match rb_promise rd with
  | Some _ => rd
  | None =>
      {| rb_body := rb_body rd; rb_rejected := rb_rejected rd;
         rb_destroyed := rb_destroyed rd; rb_promise := Some r |}
  end.

(** The listener of [data]. *)
Definition onData (chunk : string) (rd : Reader) : Reader :=
  if rb_rejected rd then rd
  else
    let body := rb_body rd +:+ chunk in
    if (maxSize <? Z.of_nat (String.length body))%Z then
      settle (Throws (Js.Error "Request body too large"))
        {| rb_body := body; rb_rejected := true; rb_destroyed := true;
           rb_promise := rb_promise rd |}
    else
      {| rb_body := body; rb_rejected := rb_rejected rd;
         rb_destroyed := rb_destroyed rd; rb_promise := rb_promise rd |}.

(** The listener of [end]. *)
Definition onEnd (rd : Reader) : Reader :=
  if negb (rb_rejected rd) then settle (Ok (rb_body rd)) rd else rd.

(** The listener of [error]. *)
Definition onError (e : Js.error) (rd : Reader) : Reader :=
  if negb (rb_rejected rd) then settle (Throws e) rd else rd.

Definition onStream (rd : Reader) (ev : StreamEvent) : Reader :=
  match ev with
  | Data chunk => onData chunk rd
  | End => onEnd rd
  | StreamError e => onError e rd
  end.

(** The chunks of a stream, one after the other. *)
Fixpoint received (chunks : list string) : string :=
  match chunks with
  | [] => EmptyString
  | chunk :: rest => chunk +:+ received rest
  end.

(** The closure while it reads, with [body] received so far. *)
Definition reading (body : string) : Reader :=
  {| rb_body := body; rb_rejected := false; rb_destroyed := false;
     rb_promise := None |}.

(** [readBody(req)] along the events of the stream: the state of the
    promise it returned. *)
Definition readBody (evs : list StreamEvent) : option (Reply string) :=
  rb_promise (fold_left onStream evs reader).

(** *** The audit of tool calls *)

(** What was passed to [log] for an entry. *)
Definition eventOf (entry : AuditLogger.AuditEntry) : AuditLogger.Event :=
  {| AuditLogger.ev_type := AuditLogger.type entry;
     AuditLogger.ev_tool := AuditLogger.tool entry;
     AuditLogger.ev_path := AuditLogger.path entry;
     AuditLogger.ev_clientId := AuditLogger.clientId entry;
     AuditLogger.ev_success := AuditLogger.success entry;
     AuditLogger.ev_error := AuditLogger.error entry;
     AuditLogger.ev_details := AuditLogger.details entry |}.

(** The tool calls among [entries], without their time stamps. *)
Definition toolCalls (entries : list AuditLogger.AuditEntry)
    : list AuditLogger.Event :=
  map eventOf
    (List.filter (fun entry => match AuditLogger.type entry with
                               | AuditLogger.tool_call => true
                               | _ => false
                               end) entries).

(** From [g] to [g'] the logger was handed the entries [new], in order. *)
Definition handed (new : list AuditLogger.AuditEntry) (g g' : OperationGuard.t) : Prop :=
  forall everything,
    AuditLogger.Logged everything (auditLogger g) ->
    AuditLogger.Logged (everything ++ new) (auditLogger g').

(** From [s] to [s'] the server logged no tool call. *)
Definition quiet (s s' : t) : Prop :=
  exists new, handed new (operationGuard s) (operationGuard s') /\ toolCalls new = [].

(** What [logToolCall] passes to [log]. *)
Definition toolCallEvent (tool : string) (path : Js.value) (success : bool)
    (error : option string) : AuditLogger.Event :=
  {| AuditLogger.ev_type := AuditLogger.tool_call; AuditLogger.ev_tool := Some tool;
     AuditLogger.ev_path := path; AuditLogger.ev_clientId := None;
     AuditLogger.ev_success := success; AuditLogger.ev_error := error;
     AuditLogger.ev_details := None |}.

(** The result of [searchVault] without its search tool. *)
Definition unavailable (r : ToolResponse) : bool :=
  match content r with
  | QmdUnavailable => true
  | _ => false
  end.

(** The error message in a result. *)
Definition errorOf (r : ToolResponse) : option string :=
  match content r with
  | ErrorText e => Some e
  | _ => None
  end.

(** The argument that a tool logs with its success. *)
Definition successPath (tool : string) (args : gmap string Js.value) : Js.value :=
  if String.eqb tool "read_note" || String.eqb tool "write_note" then arg args "path"
  else if String.eqb tool "list_notes"
  then Js.orDefault (arg args "folder") (Js.Str EmptyString)
  else if String.eqb tool "add_task" then arg args "notePath"
  else if String.eqb tool "complete_task" then arg args "taskId"
  else Js.Undefined.

(** A handler of [tool] that logs [path] with its success: when it
    returns it has logged that one tool call, unless its result is that
    of the missing search tool; when it throws it has logged none, or
    that one if it throws after its success; while it waits it has logged
    none. *)
Definition Audited (tool : string) (path : Js.value) (m : M ToolResponse) : Prop :=
  forall s,
    exists new,
      handed new (operationGuard s) (operationGuard (m s).2)
      /\ match (m s).1 with
         | Returned r =>
             toolCalls new
             = (if unavailable r then [] else [toolCallEvent tool path true None])
             /\ (unavailable r = false -> isError r = false /\ errorOf r = None)
         | Thrown _ =>
             toolCalls new = [] \/ toolCalls new = [toolCallEvent tool path true None]
         | Waiting => toolCalls new = []
         end.

(** What a handler does after it has logged its success: it logs no
    tool call and does not wait, and what it returns is no error. *)
Definition Final (k : M ToolResponse) : Prop :=
  forall s,
    quiet s (k s).2
    /\ match (k s).1 with
       | Returned r => unavailable r = false /\ isError r = false /\ errorOf r = None
       | Thrown _ => True
       | Waiting => False
       end.

(** [m] logs no tool call. *)
Definition Quiet {A} (m : M A) : Prop := forall s, quiet s (m s).2.

End MCPServer.

(** ** Vocabulary of the specification *)

Module Spec.

(** [sub] occurs in [s]. *)
Definition contains (sub s : string) : Prop :=
  exists pre post, s = pre +:+ sub +:+ post.

(** [s] begins with [p]. *)
Definition beginsWith (p s : string) : Prop :=
  exists rest, s = p +:+ rest.

(** [sub], written in lower case, occurs in [s] in some mix of cases. *)
Definition containsAnyCase (sub s : string) : Prop :=
  contains sub (Js.toLowerCase s).

Definition hasDrivePrefix (s : string) : Prop :=
  exists a rest, s = String a (String ":" rest) /\ Js.isAsciiLetter a = true.

Definition nul : string := String (Js.chr 0) EmptyString.

(** The sequences that the path-containment property names. *)
Definition forbidden (s : string) : Prop :=
  contains ".." s \/ beginsWith "/" s \/ beginsWith "~/" s \/ beginsWith "$" s
  \/ hasDrivePrefix s \/ contains nul s
  \/ containsAnyCase "%2e%2e" s \/ containsAnyCase "%252e%252e" s.

(** The absolute path that [s] denotes under the root. *)
Definition denoted (cwd root s : string) : string :=
  NodePath.resolve cwd [root; Obsidian.normalizePath s].

(** [abs] is the root or lies below it. *)
Definition inside (root abs : string) : Prop :=
  abs = root \/ beginsWith (PathValidator.vaultWithSep root) abs.

Definition strictlyInside (root abs : string) : Prop :=
  abs <> root /\ beginsWith (PathValidator.vaultWithSep root) abs.

(** A segment of the normalised path begins with a dot and is not [.]. *)
Definition hasHiddenSegment (s : string) : Prop :=
  exists part, In part (Js.split "/" (Obsidian.normalizePath s))
               /\ beginsWith "." part /\ part <> ".".

(** [s] is empty or consists of white space only. *)
Definition blank (s : string) : Prop :=
  forall c, In c (list_ascii_of_string s) -> Js.isWhiteSpace c = true.

(** A name that a segment of a normalised path can have. *)
Definition name (seg : string) : Prop :=
  seg <> EmptyString /\ seg <> "." /\ seg <> ".." /\ ~ contains "/" seg.

(** The normalised absolute path with the given segments. *)
Definition absolute (segs : list string) : string := "/" +:+ Js.join "/" segs.

End Spec.

(** ** Sample inputs *)

Module Sample.

Definition operation : OperationGuard.MCPOperation :=
  {| OperationGuard.op_tool := "write_note";
     OperationGuard.op_path := Js.Str "Projects/a.md";
     OperationGuard.op_action := Js.Str "create";
     OperationGuard.op_timestamp := 1000;
     OperationGuard.op_clientId := None |}.

(** Collaborators of an empty vault without the search tool: every
    lookup finds nothing, reads and writes succeed, [qmd] is not
    available. *)
Definition collaborators : MCPServer.Collaborators :=
  {| MCPServer.vault_getAbstractFileByPath := fun _ _ => None;
     MCPServer.vault_read := fun _ _ => MCPServer.Ok EmptyString;
     MCPServer.vault_modify := fun _ _ _ => MCPServer.Ok tt;
     MCPServer.vault_create := fun _ _ _ => MCPServer.Ok tt;
     MCPServer.vault_createFolder := fun _ _ => MCPServer.Ok tt;
     MCPServer.vault_getMarkdownFiles := fun _ => [];
     MCPServer.vault_getName := fun _ => Utf16.lit "vault";
     MCPServer.qmd_isAvailable := fun _ => MCPServer.Ok false;
     MCPServer.qmd_search := fun _ _ _ _ => MCPServer.Ok EmptyString;
     MCPServer.tasks_queryTasks := fun _ _ _ _ _ => MCPServer.Ok EmptyString;
     MCPServer.tasks_addTask := fun _ _ _ _ _ _ => MCPServer.Ok EmptyString;
     MCPServer.tasks_completeTask := fun _ _ => MCPServer.Ok EmptyString |}.

(** The same collaborators for a vault whose name is one code unit, a
    high surrogate without its pair, on which [encodeURIComponent]
    throws. *)
Definition unpaired : MCPServer.Collaborators :=
  {| MCPServer.vault_getAbstractFileByPath := fun _ _ => None;
     MCPServer.vault_read := fun _ _ => MCPServer.Ok EmptyString;
     MCPServer.vault_modify := fun _ _ _ => MCPServer.Ok tt;
     MCPServer.vault_create := fun _ _ _ => MCPServer.Ok tt;
     MCPServer.vault_createFolder := fun _ _ => MCPServer.Ok tt;
     MCPServer.vault_getMarkdownFiles := fun _ => [];
     MCPServer.vault_getName := fun _ => [55296%N];
     MCPServer.qmd_isAvailable := fun _ => MCPServer.Ok false;
     MCPServer.qmd_search := fun _ _ _ _ => MCPServer.Ok EmptyString;
     MCPServer.tasks_queryTasks := fun _ _ _ _ _ => MCPServer.Ok EmptyString;
     MCPServer.tasks_addTask := fun _ _ _ _ _ _ => MCPServer.Ok EmptyString;
     MCPServer.tasks_completeTask := fun _ _ => MCPServer.Ok EmptyString |}.

(** A server on the vault [/vault] at time 1000, with the given
    settings, nothing logged and nothing pending. *)
Definition server (auditLogging requireApproval : bool) : MCPServer.t :=
  {| MCPServer.cwd := "/";
     MCPServer.vaultPath := "/vault";
     MCPServer.operationGuard :=
       OperationGuard.create requireApproval (AuditLogger.create auditLogging false);
     MCPServer.authToken := "3f2c9a1e-token";
     MCPServer.requestCounts := ∅;
     MCPServer.clock := 1000;
     MCPServer.calls := [] |}.

(** The user answers [approved] to the request [1000-k3x9]. *)
Definition answered (approved : bool) : MCPServer.Approval :=
  {| MCPServer.approvalId := "1000-k3x9";
     MCPServer.during := [OperationGuard.Respond 2000 "1000-k3x9" approved] |}.

(** A request without an [Origin] header whose target is the path
    [pathname] and whose body is not JSON. *)
Definition request (method pathname : string) (remoteAddress authorization : option string)
    : MCPServer.Request :=
  {| MCPServer.origin := None; MCPServer.method := method;
     MCPServer.remoteAddress := remoteAddress; MCPServer.url := MCPServer.Ok pathname;
     MCPServer.authorization := authorization; MCPServer.body := MCPServer.NotJson |}.

(** A GET from the loopback address whose target is no URL: for the
    target [//] the URL constructor throws [TypeError: Invalid URL]. *)
Definition noUrl : MCPServer.Request :=
  {| MCPServer.origin := None; MCPServer.method := "GET";
     MCPServer.remoteAddress := Some "127.0.0.1";
     MCPServer.url := MCPServer.Throws (Js.TypeError "Invalid URL");
     MCPServer.authorization := None; MCPServer.body := MCPServer.NotJson |}.

End Sample.

(** * Properties *)

(** ** Strings *)

Section StringFacts.

Lemma startsWith_spec p s :
  Js.startsWith p s = true <-> Spec.beginsWith p s.
Proof.
  unfold Spec.beginsWith. revert s.
  induction p as [|a p IH]; intros s; simpl.
  - split; [intros _; exists s; reflexivity | reflexivity].
  - destruct s as [|b s].
    + split; [discriminate | intros [r H]; discriminate].
    + rewrite andb_true_iff, Ascii.eqb_eq, IH. split.
      * intros [-> [r ->]]. exists r. reflexivity.
      * intros [r H]. injection H as -> ->. split; [reflexivity | eauto].
Qed.

Lemma includes_spec sub s :
  Js.includes sub s = true <-> Spec.contains sub s.
Proof.
  unfold Spec.contains.
  induction s as [|a s IH]; simpl.
  - rewrite orb_false_r, startsWith_spec. split.
    + intros [r H]. exists EmptyString, r. exact H.
    + intros [pre [post H]]. destruct pre; [|discriminate]. exists post. exact H.
  - rewrite orb_true_iff, startsWith_spec, IH. split.
    + intros [[r H] | [pre [post H]]].
      * exists EmptyString, r. exact H.
      * exists (String a pre), post. simpl. rewrite H. reflexivity.
    + intros [pre [post H]]. destruct pre as [|b pre].
      * left. exists post. exact H.
      * right. simpl in H. injection H as _ H. eauto.
Qed.

Lemma driveLetter_spec s :
  PathValidator.driveLetter s = true <-> Spec.hasDrivePrefix s.
Proof.
  unfold Spec.hasDrivePrefix. destruct s as [|a [|b r]]; simpl.
  - split; [discriminate | intros (? & ? & H & _); discriminate].
  - split; [discriminate | intros (? & ? & H & _); discriminate].
  - rewrite andb_true_iff, Ascii.eqb_eq. split.
    + intros [Ha ->]. eauto.
    + intros (a' & r' & H & Ha). injection H as -> -> ->. auto.
Qed.

Lemma rev_involutive s : Js.rev (Js.rev s) = s.
Proof.
  unfold Js.rev. rewrite list_ascii_of_string_of_list_ascii, List.rev_involutive.
  apply string_of_list_ascii_of_string.
Qed.

Lemma rev_empty s : Js.rev s = EmptyString -> s = EmptyString.
Proof.
  intros H. rewrite <- (rev_involutive s), H. reflexivity.
Qed.

Lemma blank_rev s : Spec.blank (Js.rev s) -> Spec.blank s.
Proof.
  unfold Spec.blank, Js.rev. intros H c Hc. apply H.
  rewrite list_ascii_of_string_of_list_ascii. apply -> in_rev. exact Hc.
Qed.

Lemma trimStart_empty s : Js.trimStart s = EmptyString <-> Spec.blank s.
Proof.
  unfold Spec.blank. induction s as [|a s IH]; simpl.
  - split; [intros _ c [] | reflexivity].
  - destruct (Js.isWhiteSpace a) eqn:Ha.
    + rewrite IH. split.
      * intros H c [<- | Hc]; auto.
      * intros H c Hc. apply H. right. exact Hc.
    + split; [discriminate |].
      intros H. specialize (H a (or_introl eq_refl)). congruence.
Qed.

Lemma trimStart_head s :
  Js.trimStart s = EmptyString
  \/ exists c r, Js.trimStart s = String c r /\ Js.isWhiteSpace c = false.
Proof.
  induction s as [|a s IH]; simpl; [left; reflexivity |].
  destruct (Js.isWhiteSpace a) eqn:Ha; [exact IH | right; eauto].
Qed.

Lemma trim_empty s : Js.trim s = EmptyString <-> Spec.blank s.
Proof.
  unfold Js.trim, Js.trimEnd. split.
  - intros H. apply rev_empty in H. apply trimStart_empty, blank_rev in H.
    destruct (trimStart_head s) as [E | (c & r & E & Hc)].
    + apply trimStart_empty. exact E.
    + rewrite E in H. specialize (H c (or_introl eq_refl)). congruence.
  - intros H. apply trimStart_empty in H. rewrite H. reflexivity.
Qed.

End StringFacts.

(** ** PathValidator *)

Section PathValidatorFacts.

Import PathValidator.

Lemma forbidden_spec s :
  Spec.forbidden s <->
  existsb (fun pattern => pattern s) DANGEROUS_PATTERNS
  || (Js.startsWith "/" s || driveLetter s) = true.
Proof.
  unfold Spec.forbidden, Spec.containsAnyCase, DANGEROUS_PATTERNS, Js.includes_i.
  cbn [existsb].
  rewrite !orb_true_iff, !includes_spec, !startsWith_spec, driveLetter_spec.
  unfold Spec.nul. intuition discriminate.
Qed.

Lemma isHidden_spec part :
  isHidden part = true <-> Spec.beginsWith "." part /\ part <> ".".
Proof.
  unfold isHidden.
  rewrite andb_true_iff, negb_true_iff, startsWith_spec, String.eqb_neq.
  reflexivity.
Qed.

Lemma hidden_spec s :
  Spec.hasHiddenSegment s <->
  existsb isHidden (Js.split "/" (Obsidian.normalizePath s)) = true.
Proof.
  unfold Spec.hasHiddenSegment. rewrite existsb_exists.
  split; intros (part & Hin & H); exists part; (split; [exact Hin |]);
    apply isHidden_spec; exact H.
Qed.

Lemma withinVault_spec root abs :
  withinVault root abs = true <-> Spec.inside root abs.
Proof.
  unfold withinVault, Spec.inside.
  rewrite orb_true_iff, String.eqb_eq, startsWith_spec. reflexivity.
Qed.

(** Whatever [validate] accepts passed each of its checks, and its
    result is the normalised input. *)
Lemma validate_valid_inv cwd root s sp :
  validate cwd root s = Valid sp ->
  ~ Spec.blank s /\ ~ Spec.forbidden s
  /\ Spec.inside root (Spec.denoted cwd root s)
  /\ ~ Spec.hasHiddenSegment s
  /\ sp = Obsidian.normalizePath s.
Proof.
  unfold validate. intros H.
  destruct (String.eqb s EmptyString) eqn:E0; [discriminate |].
  destruct (String.eqb (Js.trim s) EmptyString) eqn:E1; [discriminate |].
  destruct (existsb _ DANGEROUS_PATTERNS) eqn:E2; [discriminate |].
  destruct (Js.startsWith "/" s || driveLetter s) eqn:E3; [discriminate |].
  destruct (withinVault _ _) eqn:E4; [| discriminate]. cbn [negb] in H.
  destruct (existsb isHidden _) eqn:E5; [discriminate |].
  injection H as <-. repeat split.
  - rewrite <- trim_empty. apply String.eqb_neq. exact E1.
  - rewrite forbidden_spec, E2, E3. discriminate.
  - apply withinVault_spec. exact E4.
  - rewrite hidden_spec, E5. discriminate.
Qed.

Lemma validate_forbidden cwd root s :
  Spec.forbidden s -> exists e, validate cwd root s = Invalid e.
Proof.
  rewrite forbidden_spec. intros H. unfold validate.
  destruct (String.eqb s EmptyString); [eauto |].
  destruct (String.eqb (Js.trim s) EmptyString); [eauto |].
  destruct (existsb _ DANGEROUS_PATTERNS); [eauto |].
  cbn [orb] in H. rewrite H. eauto.
Qed.

Lemma validate_accepts cwd root s :
  ~ Spec.blank s -> ~ Spec.forbidden s ->
  Spec.inside root (Spec.denoted cwd root s) ->
  ~ Spec.hasHiddenSegment s ->
  validate cwd root s = Valid (Obsidian.normalizePath s).
Proof.
  intros Hb Hf Hin Hh. unfold validate.
  assert (E1 : String.eqb (Js.trim s) EmptyString = false).
  { apply String.eqb_neq. rewrite trim_empty. exact Hb. }
  assert (E0 : String.eqb s EmptyString = false).
  { apply String.eqb_neq. intros ->. apply Hb. intros c []. }
  rewrite E0, E1.
  rewrite forbidden_spec in Hf. apply not_true_is_false in Hf.
  apply orb_false_iff in Hf as [E2 E3]. rewrite E2, E3.
  apply withinVault_spec in Hin. unfold Spec.denoted in Hin. rewrite Hin.
  cbn [negb].
  rewrite hidden_spec in Hh. apply not_true_is_false in Hh. rewrite Hh.
  reflexivity.
Qed.

End PathValidatorFacts.

(** ** Resolution under a normalised root *)

Section ResolveFacts.

Lemma append_cons c (x y : string) : String c x +:+ y = String c (x +:+ y).
Proof. reflexivity. Qed.

Lemma append_assoc (x y z : string) : (x +:+ y) +:+ z = x +:+ (y +:+ z).
Proof.
  induction x as [|c x IH]; [reflexivity |].
  rewrite !append_cons, IH. reflexivity.
Qed.

Lemma append_empty_r (x : string) : x +:+ EmptyString = x.
Proof.
  induction x as [|c x IH]; [reflexivity |].
  rewrite append_cons, IH. reflexivity.
Qed.

Lemma list_ascii_append x y :
  list_ascii_of_string (x +:+ y) = list_ascii_of_string x ++ list_ascii_of_string y.
Proof.
  induction x as [|c x IH]; [reflexivity |].
  rewrite append_cons. simpl. rewrite IH. reflexivity.
Qed.

Lemma string_of_list_app l1 l2 :
  string_of_list_ascii (l1 ++ l2) = string_of_list_ascii l1 +:+ string_of_list_ascii l2.
Proof.
  induction l1 as [|c l IH]; [reflexivity |].
  simpl. rewrite IH. reflexivity.
Qed.

Lemma rev_append x y : Js.rev (x +:+ y) = Js.rev y +:+ Js.rev x.
Proof.
  unfold Js.rev. rewrite list_ascii_append, rev_app_distr, string_of_list_app.
  reflexivity.
Qed.

Lemma contains_rev sub s : Spec.contains sub (Js.rev s) -> Spec.contains (Js.rev sub) s.
Proof.
  intros (pre & post & H). exists (Js.rev post), (Js.rev pre).
  rewrite <- (rev_involutive s), H, !rev_append, append_assoc. reflexivity.
Qed.

Lemma contains_suffix sub pre s : Spec.contains sub s -> Spec.contains sub (pre +:+ s).
Proof.
  intros (p & q & ->). exists (pre +:+ p), q. rewrite append_assoc. reflexivity.
Qed.

(** *** Segments *)

Lemma split_head sep s : exists h t, Js.split sep s = h :: t.
Proof.
  induction s as [|c s IH]; simpl; [eauto |].
  destruct (Ascii.eqb c sep); [eauto |].
  destruct IH as (h & t & ->). eauto.
Qed.

Lemma split_append sep x y :
  Js.split sep (x +:+ String sep y) = Js.split sep x ++ Js.split sep y.
Proof.
  induction x as [|c x IH]; simpl.
  - rewrite Ascii.eqb_refl. reflexivity.
  - destruct (Ascii.eqb c sep).
    + rewrite IH. reflexivity.
    + rewrite IH. destruct (split_head sep x) as (h & t & ->). reflexivity.
Qed.

Lemma split_whole s : ~ Spec.contains "/" s -> Js.split "/" s = [s].
Proof.
  induction s as [|c s IH]; intros H; simpl; [reflexivity |].
  destruct (Ascii.eqb_spec c "/") as [-> | Hc].
  - destruct H. exists EmptyString, s. reflexivity.
  - rewrite IH; [reflexivity |].
    intros (pre & post & ->). apply H. exists (String c pre), post. reflexivity.
Qed.

Lemma split_prefix sep s h t : Js.split sep s = h :: t -> Spec.beginsWith h s.
Proof.
  revert h t. induction s as [|c s IH]; simpl; intros h t H.
  - injection H as <- <-. exists EmptyString. reflexivity.
  - destruct (Ascii.eqb c sep).
    + injection H as <- <-. exists (String c s). reflexivity.
    + destruct (split_head sep s) as (h' & t' & E). rewrite E in H.
      injection H as <- <-. destruct (IH _ _ E) as [rest ->].
      exists rest. reflexivity.
Qed.

Lemma split_contains sep s seg : In seg (Js.split sep s) -> Spec.contains seg s.
Proof.
  revert seg. induction s as [|c s IH]; simpl; intros seg H.
  - destruct H as [<- | []]. exists EmptyString, EmptyString. reflexivity.
  - destruct (Ascii.eqb c sep).
    + destruct H as [<- | H].
      * exists EmptyString, (String c s). reflexivity.
      * apply (contains_suffix seg (String c EmptyString) s). auto.
    + destruct (split_head sep s) as (h & t & E). rewrite E in H, IH.
      destruct H as [<- | H].
      * destruct (split_prefix _ _ _ _ E) as [rest ->].
        exists EmptyString, rest. reflexivity.
      * apply (contains_suffix seg (String c EmptyString) s). apply IH. right. exact H.
Qed.

Lemma pushSegment_name b st seg : Spec.name seg -> NodePath.pushSegment b st seg = seg :: st.
Proof.
  intros (H0 & H1 & H2 & _). unfold NodePath.pushSegment.
  apply String.eqb_neq in H0, H1, H2. rewrite H0, H1, H2. reflexivity.
Qed.

Lemma pushSegment_empty b st : NodePath.pushSegment b st EmptyString = st.
Proof. reflexivity. Qed.

(** The segments of a path without [..] only add to the stack. *)
Lemma push_grows b l st :
  (forall seg, In seg l -> seg <> "..") ->
  exists kept, fold_left (NodePath.pushSegment b) l st = kept ++ st.
Proof.
  revert st. induction l as [|seg l IH]; intros st H; simpl.
  - exists []. reflexivity.
  - assert (Hseg : seg <> "..") by (apply H; left; reflexivity).
    assert (Hl : forall x, In x l -> x <> "..") by (intros x Hx; apply H; right; exact Hx).
    unfold NodePath.pushSegment at 2.
    destruct (String.eqb seg EmptyString || String.eqb seg "."); [apply IH, Hl |].
    apply String.eqb_neq in Hseg. rewrite Hseg.
    destruct (IH (seg :: st) Hl) as [kept ->].
    exists (kept ++ [seg]). rewrite <- app_assoc. reflexivity.
Qed.

Lemma push_names b segs st :
  Forall Spec.name segs ->
  fold_left (NodePath.pushSegment b) (Js.split "/" (Js.join "/" segs)) st
  = List.rev segs ++ st.
Proof.
  intros H. revert st. induction H as [|p rest Hp Hrest IH]; intros st.
  - reflexivity.
  - destruct rest as [|q rest].
    + cbn [Js.join]. rewrite split_whole by apply Hp. cbn [fold_left].
      rewrite pushSegment_name by exact Hp. reflexivity.
    + change (Js.join "/" (p :: q :: rest))
        with (p +:+ String "/" (Js.join "/" (q :: rest))).
      rewrite split_append, fold_left_app.
      rewrite (split_whole p) by apply Hp.
      cbn [fold_left]. rewrite pushSegment_name by exact Hp.
      rewrite IH. cbn [List.rev]. rewrite <- !app_assoc. reflexivity.
Qed.

Lemma join_app sep (l1 l2 : list string) :
  l1 <> [] -> l2 <> [] ->
  Js.join sep (l1 ++ l2) = Js.join sep l1 +:+ sep +:+ Js.join sep l2.
Proof.
  intros H1 H2. induction l1 as [|p l1 IH]; [contradiction |].
  destruct l1 as [|q l1].
  - destruct l2; [contradiction | reflexivity].
  - change (Js.join sep ((p :: q :: l1) ++ l2))
      with (p +:+ sep +:+ Js.join sep ((q :: l1) ++ l2)).
    rewrite IH by discriminate.
    change (Js.join sep (p :: q :: l1)) with (p +:+ sep +:+ Js.join sep (q :: l1)).
    rewrite !append_assoc. reflexivity.
Qed.

(** *** [normalizePath] *)

Lemma strip_suffix s : exists pre, s = pre +:+ Obsidian.stripLeadingSlashes s.
Proof.
  induction s as [|c s IH]; simpl; [exists EmptyString; reflexivity |].
  destruct (Ascii.eqb c "/").
  - destruct IH as [pre IH]. exists (String c pre).
    rewrite append_cons, <- IH. reflexivity.
  - exists EmptyString. reflexivity.
Qed.

Lemma strip_head s : Js.startsWith "/" (Obsidian.stripLeadingSlashes s) = false.
Proof.
  induction s as [|c s IH]; simpl; [reflexivity |].
  destruct (Ascii.eqb c "/") eqn:E; [exact IH |].
  change (Ascii.eqb "/" c && true = false).
  rewrite andb_true_r, Ascii.eqb_sym. exact E.
Qed.

Lemma stripSlashes_contains sub s :
  Spec.contains sub (Obsidian.stripSlashes s) -> Spec.contains (Js.rev (Js.rev sub)) s.
Proof.
  unfold Obsidian.stripSlashes. intros H.
  apply contains_rev in H.
  destruct (strip_suffix (Js.rev (Obsidian.stripLeadingSlashes s))) as [pre E].
  apply (contains_suffix _ pre) in H. rewrite <- E in H.
  apply contains_rev in H.
  destruct (strip_suffix s) as [pre' E']. rewrite E'. apply contains_suffix. exact H.
Qed.

Lemma stripSlashes_head s :
  Obsidian.stripSlashes s <> EmptyString ->
  Js.startsWith "/" (Obsidian.stripSlashes s) = false.
Proof.
  unfold Obsidian.stripSlashes. set (z := Obsidian.stripLeadingSlashes s).
  intros H.
  destruct (strip_suffix (Js.rev z)) as [pre E].
  assert (Ez : z = Js.rev (Obsidian.stripLeadingSlashes (Js.rev z)) +:+ Js.rev pre).
  { rewrite <- rev_append, <- E, rev_involutive. reflexivity. }
  pose proof (strip_head s) as Hz. fold z in Hz.
  destruct (Js.rev (Obsidian.stripLeadingSlashes (Js.rev z))) as [|c r]; [contradiction |].
  rewrite Ez in Hz. exact Hz.
Qed.

Lemma collapse_head s :
  Js.startsWith "." (Obsidian.collapseSlashes false s) = Js.startsWith "." s.
Proof.
  destruct s as [|c s]; [reflexivity |]. simpl.
  unfold Obsidian.isSlash.
  destruct (Ascii.eqb_spec c "/") as [-> | H1]; [reflexivity |].
  destruct (Ascii.eqb_spec c "\") as [-> | H2]; reflexivity.
Qed.

Lemma collapse_dots b s :
  Js.includes ".." (Obsidian.collapseSlashes b s) = true -> Js.includes ".." s = true.
Proof.
  revert b. induction s as [|c s IH]; intros b; [simpl; auto |].
  cbn [Obsidian.collapseSlashes].
  destruct (Obsidian.isSlash c) eqn:E.
  - intros H. cbn [Js.includes]. apply orb_true_iff. right.
    destruct b; [exact (IH _ H) |].
    cbn [Js.includes] in H. apply orb_true_iff in H as [H | H]; [discriminate |].
    exact (IH _ H).
  - intros H. cbn [Js.includes] in H |- *.
    apply orb_true_iff in H as [H | H]; apply orb_true_iff.
    + left. cbn [Js.startsWith] in H |- *.
      apply andb_true_iff in H as [Hc H]. rewrite Hc. cbn [andb].
      change (Js.startsWith "." (Obsidian.collapseSlashes false s) = true) in H.
      rewrite collapse_head in H. exact H.
    + right. exact (IH _ H).
Qed.

Lemma replaceNbsp_char c :
  Ascii.eqb "." (if (nat_of_ascii c =? 160)%nat then " "%char else c) = Ascii.eqb "." c.
Proof.
  destruct (Nat.eqb_spec (nat_of_ascii c) 160) as [H | H]; [| reflexivity].
  rewrite <- (ascii_nat_embedding c), H. reflexivity.
Qed.

Lemma replaceNbsp_dots s :
  Js.includes ".." (Obsidian.replaceNbsp s) = Js.includes ".." s.
Proof.
  induction s as [|c s IH]; [reflexivity |].
  cbn [Obsidian.replaceNbsp Js.includes]. rewrite IH. f_equal.
  cbn [Js.startsWith]. rewrite replaceNbsp_char. f_equal.
  destruct s as [|d s]; [reflexivity |].
  cbn [Obsidian.replaceNbsp Js.startsWith]. rewrite replaceNbsp_char. reflexivity.
Qed.

Lemma replaceNbsp_head s :
  Js.startsWith "/" s = false -> Js.startsWith "/" (Obsidian.replaceNbsp s) = false.
Proof.
  destruct s as [|c s]; [reflexivity |].
  cbn [Obsidian.replaceNbsp Js.startsWith]. rewrite !andb_true_r.
  destruct (Nat.eqb_spec (nat_of_ascii c) 160) as [H | H]; [reflexivity | auto].
Qed.

Lemma normalizePath_dots s :
  ~ Spec.contains ".." s -> ~ Spec.contains ".." (Obsidian.normalizePath s).
Proof.
  intros H Hn. apply H. apply includes_spec. apply includes_spec in Hn.
  unfold Obsidian.normalizePath in Hn. cbv zeta in Hn.
  rewrite replaceNbsp_dots in Hn.
  destruct (String.eqb _ EmptyString); [discriminate |].
  apply includes_spec, stripSlashes_contains, includes_spec in Hn.
  exact (collapse_dots _ _ Hn).
Qed.

Lemma normalizePath_relative s :
  Obsidian.normalizePath s <> "/" ->
  Obsidian.normalizePath s <> EmptyString
  /\ Js.startsWith "/" (Obsidian.normalizePath s) = false.
Proof.
  unfold Obsidian.normalizePath. cbv zeta.
  destruct (String.eqb_spec (Obsidian.stripSlashes (Obsidian.collapseSlashes false s))
              EmptyString) as [E | E]; [intros []; reflexivity |].
  intros _. split.
  - destruct (Obsidian.stripSlashes _); [contradiction | discriminate].
  - apply replaceNbsp_head, stripSlashes_head, E.
Qed.

(** *** [path.resolve] under a normalised root *)

Lemma resolve_relative cwd root n :
  Js.startsWith "/" root = true -> n <> EmptyString -> Js.startsWith "/" n = false ->
  NodePath.resolve cwd [root; n]
  = "/" +:+ NodePath.normalizeString (root +:+ String "/" (n +:+ String "/" EmptyString)) false.
Proof.
  intros Hroot Hn Hrel. unfold NodePath.resolve.
  cbn [List.rev app NodePath.resolveLoop].
  apply String.eqb_neq in Hn. rewrite Hn, Hrel.
  assert (E : String.eqb root EmptyString = false) by (destruct root; [discriminate | reflexivity]).
  rewrite E, Hroot. reflexivity.
Qed.

Lemma inside_below segs kept :
  Spec.inside (Spec.absolute segs) (Spec.absolute (segs ++ kept)).
Proof.
  unfold Spec.inside, Spec.absolute.
  destruct kept as [|k kept]; [left; rewrite app_nil_r; reflexivity |].
  right. unfold PathValidator.vaultWithSep.
  destruct segs as [|p segs].
  - exists (Js.join "/" (k :: kept)). reflexivity.
  - rewrite join_app by discriminate.
    destruct (Js.endsWith "/" _).
    + exists ("/" +:+ Js.join "/" (k :: kept)). rewrite !append_assoc. reflexivity.
    + exists (Js.join "/" (k :: kept)). rewrite !append_assoc. reflexivity.
Qed.

(** Under a normalised absolute root, a relative path without [..] stays
    inside the root. *)
Lemma resolve_inside cwd segs n :
  Forall Spec.name segs ->
  n <> EmptyString -> Js.startsWith "/" n = false -> ~ Spec.contains ".." n ->
  Spec.inside (Spec.absolute segs) (NodePath.resolve cwd [Spec.absolute segs; n]).
Proof.
  intros Hsegs Hn Hrel Hdots.
  rewrite resolve_relative by auto.
  unfold NodePath.normalizeString.
  rewrite !split_append.
  change (Js.split "/" (Spec.absolute segs))
    with (EmptyString :: Js.split "/" (Js.join "/" segs)).
  change (Js.split "/" EmptyString) with [EmptyString].
  rewrite !fold_left_app.
  cbn [fold_left]. rewrite !pushSegment_empty.
  rewrite push_names by exact Hsegs.
  destruct (push_grows false (Js.split "/" n) (List.rev segs ++ [])) as [kept ->].
  { intros seg Hin ->. apply Hdots. exact (split_contains _ _ _ Hin). }
  rewrite app_nil_r, rev_app_distr, List.rev_involutive.
  apply inside_below.
Qed.

(** Under a normalised absolute root, the containment check of line 71
    refuses no relative path without [..]: [validate] accepts whatever
    passes its other checks, unless the path normalises to [/]. *)
Lemma validate_complete cwd segs s :
  Forall Spec.name segs ->
  ~ Spec.blank s -> ~ Spec.forbidden s -> ~ Spec.hasHiddenSegment s ->
  Obsidian.normalizePath s <> "/" ->
  PathValidator.validate cwd (Spec.absolute segs) s
  = PathValidator.Valid (Obsidian.normalizePath s)
  /\ Spec.inside (Spec.absolute segs)
       (NodePath.resolve cwd [Spec.absolute segs; Obsidian.normalizePath s]).
Proof.
  intros Hsegs Hb Hf Hh Hn.
  assert (Hdots : ~ Spec.contains ".." s) by (intros H; apply Hf; left; exact H).
  destruct (normalizePath_relative s Hn) as [Hne Hrel].
  assert (Hin : Spec.inside (Spec.absolute segs)
                  (NodePath.resolve cwd [Spec.absolute segs; Obsidian.normalizePath s])).
  { apply resolve_inside; auto. apply normalizePath_dots, Hdots. }
  split; [| exact Hin].
  apply validate_accepts; auto.
Qed.

End ResolveFacts.

(** C1, as the claim states it, fails on a blank string: the string [" "]
    contains none of the forbidden sequences, has no hidden segment and
    denotes [/vault/ ], strictly inside the root [/vault], and [validate]
    refuses it as empty. *)
Lemma path_containment_blank_rejected :
  ~ Spec.forbidden " "
  /\ ~ Spec.hasHiddenSegment " "
  /\ Spec.strictlyInside "/vault" (Spec.denoted "/" "/vault" " ")
  /\ PathValidator.validate "/" "/vault" " "
     = PathValidator.Invalid "Path cannot be empty".
Proof.
  split; [| split; [| split]].
  - rewrite forbidden_spec. vm_compute. discriminate.
  - rewrite hidden_spec. vm_compute. discriminate.
  - split.
    + vm_compute. discriminate.
    + exists " ". vm_compute. reflexivity.
  - vm_compute. reflexivity.
Qed.

(** C1 (amended): every string that contains [..], begins with [/], [~/],
    [$] or a drive-letter prefix, contains a NUL, or contains [%2e%2e] or
    [%252e%252e] in any mix of cases is refused by [validate]; and every
    string that is not blank, contains none of these, has no hidden
    segment and denotes a location strictly inside the root is accepted,
    with a sanitized path that resolves, under the root, strictly inside
    the root.  When the root is a normalised absolute path, every string
    that is not blank, contains none of these, has no hidden segment and
    does not normalise to [/] is accepted, and its sanitized path resolves
    to the root or below it. *)
Theorem path_containment cwd root s :
  (Spec.forbidden s -> exists e, PathValidator.validate cwd root s = PathValidator.Invalid e)
  /\ (~ Spec.blank s -> ~ Spec.forbidden s -> ~ Spec.hasHiddenSegment s ->
      Spec.strictlyInside root (Spec.denoted cwd root s) ->
      exists sanitized,
        PathValidator.validate cwd root s = PathValidator.Valid sanitized
        /\ Spec.strictlyInside root (NodePath.resolve cwd [root; sanitized]))
  /\ (forall segs,
        root = Spec.absolute segs -> Forall Spec.name segs ->
        ~ Spec.blank s -> ~ Spec.forbidden s -> ~ Spec.hasHiddenSegment s ->
        Obsidian.normalizePath s <> "/" ->
        exists sanitized,
          PathValidator.validate cwd root s = PathValidator.Valid sanitized
          /\ Spec.inside root (NodePath.resolve cwd [root; sanitized])).
Proof.
  split; [| split].
  - apply validate_forbidden.
  - intros Hb Hf Hh Hin. exists (Obsidian.normalizePath s). split.
    + apply validate_accepts; auto. right. apply Hin.
    + exact Hin.
  - intros segs -> Hsegs Hb Hf Hh Hn. exists (Obsidian.normalizePath s).
    apply validate_complete; auto.
Qed.

Lemma path_containment_witness :
  (exists e, PathValidator.validate "/" "/vault" "../../etc/passwd"
             = PathValidator.Invalid e)
  /\ (exists sanitized,
        PathValidator.validate "/" "/vault" "Projects/a.md"
        = PathValidator.Valid sanitized
        /\ Spec.strictlyInside "/vault"
             (NodePath.resolve "/" ["/vault"; sanitized]))
  /\ (exists sanitized,
        PathValidator.validate "/home/me" "/vault" "Inbox\today"
        = PathValidator.Valid sanitized
        /\ Spec.inside "/vault" (NodePath.resolve "/home/me" ["/vault"; sanitized])).
Proof.
  split; [| split].
  - apply (path_containment "/" "/vault" "../../etc/passwd").
    left. exists EmptyString, "/../etc/passwd". reflexivity.
  - apply (path_containment "/" "/vault" "Projects/a.md").
    + rewrite <- trim_empty. vm_compute. discriminate.
    + rewrite forbidden_spec. vm_compute. discriminate.
    + rewrite hidden_spec. vm_compute. discriminate.
    + split; [vm_compute; discriminate | exists "Projects/a.md"; vm_compute; reflexivity].
  - apply (path_containment "/home/me" "/vault" "Inbox\today") with (segs := ["vault"]).
    + reflexivity.
    + constructor; [| constructor].
      split; [discriminate |]. split; [discriminate |]. split; [discriminate |].
      rewrite <- includes_spec. vm_compute. discriminate.
    + rewrite <- trim_empty. vm_compute. discriminate.
    + rewrite forbidden_spec. vm_compute. discriminate.
    + rewrite hidden_spec. vm_compute. discriminate.
    + vm_compute. discriminate.
Defined.

(** C2: whatever [validate] accepts resolves to the root itself or to a
    path that begins with the root followed by a separator; for the root
    [/vault], an input that resolves to [/vault-evil/x] is refused, although
    [/vault-evil/x] begins with [/vault]. *)
Theorem root_boundary :
  (forall cwd root s sanitized,
      PathValidator.validate cwd root s = PathValidator.Valid sanitized ->
      Spec.denoted cwd root s = root
      \/ Spec.beginsWith (PathValidator.vaultWithSep root) (Spec.denoted cwd root s))
  /\ PathValidator.vaultWithSep "/vault" = "/vault/"
  /\ Spec.beginsWith "/vault" "/vault-evil/x"
  /\ PathValidator.withinVault "/vault" "/vault-evil/x" = false
  /\ (forall cwd s,
        Spec.denoted cwd "/vault" s = "/vault-evil/x" ->
        exists e, PathValidator.validate cwd "/vault" s = PathValidator.Invalid e).
Proof.
  split; [| split; [| split; [| split]]].
  - intros cwd root s sanitized H.
    apply validate_valid_inv in H as (_ & _ & H & _). exact H.
  - reflexivity.
  - exists "-evil/x". reflexivity.
  - vm_compute. reflexivity.
  - intros cwd s H.
    destruct (PathValidator.validate cwd "/vault" s) as [sanitized | e] eqn:E; [| eauto].
    apply validate_valid_inv in E as (_ & _ & Hin & _).
    rewrite H in Hin. apply withinVault_spec in Hin. vm_compute in Hin. discriminate.
Qed.

Lemma root_boundary_witness :
  (Spec.denoted "/" "/vault" "Projects/a.md" = "/vault"
   \/ Spec.beginsWith "/vault/" (Spec.denoted "/" "/vault" "Projects/a.md"))
  /\ (exists e, PathValidator.validate "/" "/vault" "../vault-evil/x"
                = PathValidator.Invalid e).
Proof.
  destruct root_boundary as (Hacc & _ & _ & _ & Hrej). split.
  - apply (Hacc "/" "/vault" "Projects/a.md" "Projects/a.md"). vm_compute. reflexivity.
  - apply (Hrej "/" "../vault-evil/x"). vm_compute. reflexivity.
Defined.

(** C10: [validateWithExtension] accepts [folder/] and returns
    [folder/.md], whose last segment is hidden, so that [validate] refuses
    the returned path. *)
Theorem extension_result_not_revalidated :
  exists x sanitized,
    PathValidator.validateWithExtension "/" "/vault" x true
    = PathValidator.Valid sanitized
    /\ x = "folder/" /\ sanitized = "folder/.md"
    /\ Spec.hasHiddenSegment sanitized
    /\ PathValidator.validate "/" "/vault" sanitized
       = PathValidator.Invalid "Hidden files/folders are not allowed".
Proof.
  exists "folder/", "folder/.md". split; [| split; [| split; [| split]]].
  - vm_compute. reflexivity.
  - reflexivity.
  - reflexivity.
  - rewrite hidden_spec. vm_compute. reflexivity.
  - vm_compute. reflexivity.
Qed.

(** ** AuditLogger *)

Section AuditLoggerFacts.

Import AuditLogger.

Lemma sliceLast_suffix {A} (n : nat) (l : list A) :
  exists dropped,
    l = dropped ++ Js.sliceLast n l
    /\ List.length dropped = List.length l - n.
Proof.
  unfold Js.sliceLast. exists (firstn (List.length l - n) l). split.
  - symmetry. apply firstn_skipn.
  - rewrite List.length_firstn. lia.
Qed.

Lemma log_bounded now event a :
  List.length (logs a) <= maxLogSize ->
  List.length (logs (log now event a)) <= maxLogSize.
Proof.
  intros H. unfold log. destruct (auditLogging a); cbn [negb]; [| exact H].
  cbn [logs].
  destruct (Nat.ltb_spec maxLogSize (List.length (logs a ++ [stamp now event]))) as [Hlt | Hle].
  - unfold Js.sliceLast. rewrite List.length_skipn. lia.
  - exact Hle.
Qed.

Lemma call_bounded a c :
  List.length (logs a) <= maxLogSize ->
  List.length (logs (call a c)) <= maxLogSize.
Proof.
  destruct c; cbn [call].
  - apply log_bounded.
  - intros _. cbn. lia.
  - intros H. exact H.
Qed.

Lemma run_bounded cs a :
  List.length (logs a) <= maxLogSize ->
  List.length (logs (run cs a)) <= maxLogSize.
Proof.
  unfold run. revert a. induction cs as [|c cs IH]; intros a H; cbn [fold_left].
  - exact H.
  - apply IH, call_bounded, H.
Qed.

(** With logging enabled, [log] appends the stamped entry and keeps the
    newest [maxLogSize] entries, in order. *)
Lemma log_fifo now event a :
  auditLogging a = true ->
  exists dropped,
    logs a ++ [stamp now event] = dropped ++ logs (log now event a)
    /\ List.length dropped = List.length (logs a) + 1 - maxLogSize.
Proof.
  intros Hon. unfold log. rewrite Hon. cbn [negb logs].
  destruct (Nat.ltb_spec maxLogSize (List.length (logs a ++ [stamp now event]))) as [Hlt | Hle].
  - destruct (sliceLast_suffix maxLogSize (logs a ++ [stamp now event]))
      as (dropped & Heq & Hlen).
    exists dropped. split; [exact Heq |].
    rewrite Hlen, List.length_app. cbn. lia.
  - exists []. split; [reflexivity |].
    rewrite List.length_app in Hle. cbn in *. lia.
Qed.

End AuditLoggerFacts.

(** C8: a logger that starts empty holds at most 1000 entries after every
    call; a [log] call with logging enabled appends the new entry and
    drops entries from the front only (at most one, the oldest), so that
    the survivors keep their insertion order; with logging disabled the
    buffer is unchanged. *)
Theorem audit_buffer_bounded auditLogging debugMode cs now event :
  let a := AuditLogger.run cs (AuditLogger.create auditLogging debugMode) in
  let a' := AuditLogger.log now event a in
  AuditLogger.maxLogSize = 1000
  /\ List.length (AuditLogger.logs a) <= 1000
  /\ List.length (AuditLogger.logs a') <= 1000
  /\ if AuditLogger.auditLogging a
     then exists dropped,
         AuditLogger.logs a ++ [AuditLogger.stamp now event]
         = dropped ++ AuditLogger.logs a'
         /\ List.length dropped = List.length (AuditLogger.logs a) + 1 - 1000
         /\ List.length dropped <= 1
     else AuditLogger.logs a' = AuditLogger.logs a.
Proof.
  intros a a'.
  assert (Ha : List.length (AuditLogger.logs a) <= AuditLogger.maxLogSize).
  { apply run_bounded. cbn. lia. }
  split; [reflexivity |]. split; [exact Ha |].
  split; [apply log_bounded; exact Ha |].
  destruct (AuditLogger.auditLogging a) eqn:Hon.
  - destruct (log_fifo now event a Hon) as (dropped & Heq & Hlen).
    exists dropped. split; [exact Heq |]. split; [exact Hlen |].
    unfold AuditLogger.maxLogSize in *. lia.
  - subst a'. unfold AuditLogger.log. rewrite Hon. reflexivity.
Qed.

(** ** OperationGuard *)

Section OperationGuardFacts.

Import OperationGuard.

Lemma settlementsOf_app h g (new : list Settlement) g' :
  settlements g' = settlements g ++ new ->
  settlementsOf h g' = settlementsOf h g ++ filter (fun s => st_promise s = h) new.
Proof.
  unfold settlementsOf. intros ->. apply filter_app.
Qed.

Lemma create_consistent ra logger : Consistent (create ra logger).
Proof.
  split; cbn.
  - intros id p H. rewrite lookup_empty in H. discriminate.
  - intros h. rewrite lookup_empty. split; [intros [? H]; discriminate | lia].
  - intros h1 h2 tm1 tm2 H. rewrite lookup_empty in H. discriminate.
  - intros h tm H. rewrite lookup_empty in H. discriminate.
  - reflexivity.
Qed.

(** Removing the entry [id] and resolving its promise keeps the state
    consistent. *)
Lemma settle_consistent g g' id pending value by_ :
  Consistent g ->
  pendingApprovals g !! id = Some pending ->
  pendingApprovals g' = delete id (pendingApprovals g) ->
  timers g' = timers g ->
  created g' = created g ->
  settlements g' = settlements g ++ [{| st_promise := pa_timeout pending;
                                        st_value := value; st_by := by_ |}] ->
  Consistent g'.
Proof.
  intros C Hp Hpend Htm Hcr Hset.
  destruct (c_pending g C id pending Hp) as (Hid & tm0 & Htm0 & Hid0).
  assert (Hs : forall h, settlementsOf h g' = settlementsOf h g ++
            (if decide (pa_timeout pending = h)
             then [{| st_promise := pa_timeout pending; st_value := value; st_by := by_ |}]
             else [])).
  { intros h. rewrite (settlementsOf_app h g _ g' Hset).
    f_equal. }
  split.
  - intros id' p'. rewrite Hpend, Htm. intros H.
    apply lookup_delete_Some in H as [Hne H]. apply (c_pending g C id' p' H).
  - intros h. rewrite Htm, Hcr. apply (c_created g C).
  - rewrite Htm. apply (c_ids g C).
  - intros h tm. rewrite Htm, Hpend, Hs. intros H.
    destruct (decide (tm_id tm = id)) as [E | E].
    + assert (pa_timeout pending = h) as Hh.
      { apply (c_ids g C _ _ tm0 tm Htm0 H). congruence. }
      rewrite E, lookup_delete_eq. rewrite decide_True by exact Hh.
      pose proof (c_once g C h tm H) as Ho. rewrite E, Hp in Ho.
      rewrite Ho. eauto.
    + rewrite lookup_delete_ne by congruence.
      rewrite decide_False.
      * rewrite app_nil_r. apply (c_once g C h tm H).
      * intros Hh. apply E. rewrite Hh in Htm0. congruence.
  - intros h. rewrite Hcr, Hs. intros Hle.
    rewrite decide_False.
    + rewrite app_nil_r. apply (c_none g C h Hle).
    + intros Hh. assert (pa_timeout pending < created g).
      { apply (c_created g C). eauto. }
      lia.
Qed.

Lemma resolve_consistent now g id pending approved :
  Consistent g ->
  pendingApprovals g !! id = Some pending ->
  Consistent (resolve now pending approved g)
  /\ pendingApprovals (resolve now pending approved g) = delete id (pendingApprovals g).
Proof.
  intros C Hp.
  destruct (c_pending g C id pending Hp) as (Hid & _).
  assert (E : pendingApprovals (resolve now pending approved g)
              = delete id (pendingApprovals g)).
  { rewrite <- Hid. reflexivity. }
  split; [| exact E].
  eapply settle_consistent; eauto; reflexivity.
Qed.

Lemma onTimeout_consistent now g h tm :
  Consistent g -> timers g !! h = Some tm -> Consistent (onTimeout now h tm g).
Proof.
  intros C Htm. unfold onTimeout.
  destruct (pendingApprovals g !! tm_id tm) as [pending |] eqn:Hp; [| exact C].
  destruct (c_pending g C _ pending Hp) as (_ & tm' & Htm' & Hid').
  assert (pa_timeout pending = h) as Hh by (eapply (c_ids g C); eauto).
  eapply settle_consistent; eauto; try reflexivity.
  cbn. rewrite Hh. reflexivity.
Qed.

Lemma request_consistent now id operation g :
  Consistent g -> unused id g ->
  Consistent (requestApproval now id operation g).1.
Proof.
  intros C Hun.
  assert (Hfree : pendingApprovals g !! id = None).
  { destruct (pendingApprovals g !! id) as [p |] eqn:Hp; [| reflexivity].
    destruct (c_pending g C id p Hp) as (_ & tm & Htm & Hid).
    exfalso. exact (Hun _ _ Htm Hid). }
  assert (Hnew : timers g !! created g = None).
  { destruct (timers g !! created g) eqn:E; [| reflexivity].
    assert (created g < created g) by (apply (c_created g C); eauto). lia. }
  split; cbn.
  - intros id' p'. destruct (decide (id = id')) as [<- | Hne].
    + rewrite lookup_insert_eq. intros [= <-]. cbn. split; [reflexivity |].
      rewrite lookup_insert_eq. eauto.
    + rewrite lookup_insert_ne by exact Hne. intros Hp.
      destruct (c_pending g C id' p' Hp) as (Hid & tm & Htm & Hid').
      split; [exact Hid |]. exists tm. split; [| exact Hid'].
      rewrite lookup_insert_ne; [exact Htm |]. intros E. rewrite <- E, Hnew in Htm.
      discriminate.
  - intros h. destruct (decide (created g = h)) as [<- | Hne].
    + rewrite lookup_insert_eq. split; [lia | eauto].
    + rewrite lookup_insert_ne by exact Hne.
      rewrite (c_created g C h). lia.
  - intros h1 h2 tm1 tm2.
    destruct (decide (created g = h1)) as [<- | Hne1];
      destruct (decide (created g = h2)) as [<- | Hne2];
      rewrite ?lookup_insert_eq, ?lookup_insert_ne by assumption.
    + reflexivity.
    + intros [= <-] H2 E. cbn in E. exfalso. exact (Hun _ _ H2 (eq_sym E)).
    + intros H1 [= <-] E. cbn in E. exfalso. exact (Hun _ _ H1 E).
    + apply (c_ids g C).
  - intros h tm. change (settlementsOf h _) with (settlementsOf h g).
    destruct (decide (created g = h)) as [<- | Hne].
    + rewrite lookup_insert_eq. intros [= <-]. cbn.
      rewrite lookup_insert_eq. apply (c_none g C). lia.
    + rewrite lookup_insert_ne by exact Hne. intros Htm.
      rewrite lookup_insert_ne.
      * apply (c_once g C h tm Htm).
      * intros E. exact (Hun _ _ Htm (eq_sym E)).
  - intros h Hle. change (settlementsOf h _) with (settlementsOf h g).
    apply (c_none g C). lia.
Qed.

(** The loop of [cancelAll] over entries that are pending. *)
Lemma cancelLoop_spec now l : forall g,
  Consistent g ->
  NoDup l.*1 ->
  (forall i p, (i, p) ∈ l -> pendingApprovals g !! i = Some p) ->
  let g' := fold_left (cancelOne now) l g in
  Consistent g'
  /\ timers g' = timers g
  /\ created g' = created g
  /\ (forall i, pendingApprovals g' !! i
                = if decide (i ∈ l.*1) then None else pendingApprovals g !! i)
  /\ exists new, settlements g' = settlements g ++ new
                 /\ Forall (fun s => st_value s = false /\ st_by s = ByResolve) new.
Proof.
  induction l as [| [i p] l IH]; intros g C Hnd Hin; cbn [fold_left]; cbv zeta.
  - split; [exact C |]. split; [reflexivity |]. split; [reflexivity |]. split.
    + intros i. rewrite decide_False; [reflexivity |]. cbn. apply not_elem_of_nil.
    + exists []. rewrite app_nil_r. split; [reflexivity | constructor].
  - cbn in Hnd. apply NoDup_cons in Hnd as [Hni Hnd].
    assert (Hp : pendingApprovals g !! i = Some p).
    { apply Hin. left. }
    assert (C0 : Consistent (clearTimeout (pa_timeout p) g)).
    { destruct C. split; assumption. }
    destruct (resolve_consistent now (clearTimeout (pa_timeout p) g) i p false C0 Hp)
      as [C1' Hp1'].
    assert (C1 : Consistent (cancelOne now g (i, p))) by exact C1'.
    assert (Hp1 : pendingApprovals (cancelOne now g (i, p))
                  = delete i (pendingApprovals g)) by exact Hp1'.
    clear C1' Hp1'.
    destruct (IH (cancelOne now g (i, p)) C1 Hnd)
      as (C' & Htm & Hcr & Hpend & new & Hset & Hnew).
    { intros i' p' Hin'. rewrite Hp1. rewrite lookup_delete_ne.
      - apply Hin. right. exact Hin'.
      - intros <-. apply Hni. apply list_elem_of_fmap. exists (i, p'). eauto. }
    split; [exact C' |]. split; [rewrite Htm; reflexivity |].
    split; [rewrite Hcr; reflexivity |]. split.
    + intros i'. rewrite Hpend, Hp1. cbn [fmap list_fmap fst].
      destruct (decide (i' ∈ l.*1)) as [Hi | Hi].
      * rewrite decide_True by (right; exact Hi). reflexivity.
      * destruct (decide (i = i')) as [<- | Hne].
        -- rewrite lookup_delete_eq. rewrite decide_True by left. reflexivity.
        -- rewrite lookup_delete_ne by exact Hne.
           rewrite decide_False; [reflexivity |].
           intros H. apply elem_of_cons in H as [-> | H]; auto.
    + exists ({| st_promise := pa_timeout p; st_value := false; st_by := ByResolve |} :: new).
      split.
      * rewrite Hset. cbn. rewrite <- app_assoc. reflexivity.
      * constructor; [split; reflexivity | exact Hnew].
Qed.

Lemma cancelAll_spec now g :
  Consistent g ->
  Consistent (cancelAll now g)
  /\ timers (cancelAll now g) = timers g
  /\ created (cancelAll now g) = created g
  /\ pendingApprovals (cancelAll now g) = ∅
  /\ exists new, settlements (cancelAll now g) = settlements g ++ new
                 /\ Forall (fun s => st_value s = false /\ st_by s = ByResolve) new.
Proof.
  intros C.
  destruct (cancelLoop_spec now (entries g) g C)
    as (C' & Htm & Hcr & Hpend & Hnew).
  { unfold entries. rewrite merge_sort_Permutation. apply NoDup_fst_map_to_list. }
  { intros i p H. apply elem_of_map_to_list. unfold entries in H.
    rewrite merge_sort_Permutation in H. exact H. }
  set (g' := fold_left (cancelOne now) (entries g) g) in *.
  assert (E : pendingApprovals g' = ∅).
  { apply map_eq. intros i. rewrite Hpend, lookup_empty.
    destruct (decide _) as [_ | Hni]; [reflexivity |].
    destruct (pendingApprovals g !! i) as [p |] eqn:Hp; [| reflexivity].
    exfalso. apply Hni. apply list_elem_of_fmap. exists (i, p).
    split; [reflexivity |]. unfold entries. rewrite merge_sort_Permutation.
    apply elem_of_map_to_list. exact Hp. }
  assert (Eg : cancelAll now g = g').
  { unfold cancelAll. fold g'. unfold withPending. rewrite <- E.
    destruct g'. reflexivity. }
  rewrite Eg. split; [exact C' |]. split; [exact Htm |]. split; [exact Hcr |].
  split; [exact E | exact Hnew].
Qed.

Lemma step_spec g ev :
  Consistent g ->
  (forall now id operation, ev = Request now id operation -> unused id g) ->
  Consistent (step g ev)
  /\ (forall h tm, timers g !! h = Some tm -> timers (step g ev) !! h = Some tm)
  /\ (forall i, unused i g -> i ∉ requestIds [ev] -> unused i (step g ev))
  /\ created g <= created (step g ev)
  /\ exists new, settlements (step g ev) = settlements g ++ new
                 /\ Forall (newSettlement g ev) new.
Proof.
  intros C Hfresh. destruct ev as [now id operation | now id approved | now h | now].
  - (* Request *)
    specialize (Hfresh now id operation eq_refl).
    split; [apply request_consistent; assumption |].
    cbn [step requestApproval fst timers created settlements withLogger].
    split; [| split; [| split]].
    + intros h tm Htm. rewrite lookup_insert_ne; [exact Htm |].
      intros <-. assert (created g < created g) by (apply (c_created g C); eauto). lia.
    + intros i Hi Hni h tm. cbn [timers].
      destruct (decide (created g = h)) as [<- | Hne].
      * rewrite lookup_insert_eq. intros [= <-]. cbn. intros ->.
        apply Hni. cbn. left.
      * rewrite lookup_insert_ne by exact Hne. apply Hi.
    + lia.
    + exists []. rewrite app_nil_r. split; [reflexivity | constructor].
  - (* Respond *)
    cbn [step]. unfold onRespond.
    destruct (pendingApprovals g !! id) as [pending |] eqn:Hp.
    + destruct (resolve_consistent now g id pending approved C Hp) as [C' _].
      split; [exact C' |]. split; [intros h tm H; exact H |].
      split; [intros i Hi _; exact Hi |]. split; [reflexivity |].
      eexists. split; [reflexivity |]. constructor; [| constructor].
      destruct approved; [right | left; reflexivity].
      exists now, id, pending. auto.
    + split; [exact C |]. split; [auto |]. split; [auto |]. split; [lia |].
      exists []. rewrite app_nil_r. split; [reflexivity | constructor].
  - (* TimerFires *)
    cbn [step].
    assert (Hsame : Consistent g
      /\ (forall h tm, timers g !! h = Some tm -> timers g !! h = Some tm)
      /\ (forall i, unused i g -> i ∉ requestIds [TimerFires now h] -> unused i g)
      /\ created g <= created g
      /\ exists new, settlements g = settlements g ++ new
            /\ Forall (newSettlement g (TimerFires now h)) new).
    { split; [exact C |]. split; [auto |]. split; [auto |]. split; [lia |].
      exists []. rewrite app_nil_r. split; [reflexivity | constructor]. }
    destruct (timers g !! h) as [tm |] eqn:Htm; [| exact Hsame].
    destruct (tm_deadline tm <=? now)%Z; [| exact Hsame].
    split; [apply onTimeout_consistent; assumption |].
    unfold onTimeout.
    destruct (pendingApprovals g !! tm_id tm) as [pending |] eqn:Hp;
      [| apply Hsame].
    split; [intros h' tm' H; exact H |].
    split; [intros i Hi _; exact Hi |]. split; [reflexivity |].
    eexists. split; [reflexivity |]. constructor; [| constructor].
    left. reflexivity.
  - (* CancelAll *)
    cbn [step].
    destruct (cancelAll_spec now g C) as (C' & Htm & Hcr & _ & new & Hset & Hnew).
    split; [exact C' |]. rewrite Htm, Hcr.
    split; [auto |]. split; [| split; [lia |]].
    + intros i Hi _ h tm. rewrite Htm. apply Hi.
    + exists new. split; [exact Hset |].
      eapply Forall_impl; [exact Hnew |]. intros s [Hs _]. left. exact Hs.
Qed.

Lemma requestIds_cons ev evs :
  requestIds (ev :: evs) = requestIds [ev] ++ requestIds evs.
Proof. destruct ev; reflexivity. Qed.

Lemma requestIds_app evs1 evs2 :
  requestIds (evs1 ++ evs2) = requestIds evs1 ++ requestIds evs2.
Proof. apply omap_app. Qed.

Lemma run_app evs1 evs2 g : run (evs1 ++ evs2) g = run evs2 (run evs1 g).
Proof. apply fold_left_app. Qed.

Lemma run_spec evs : forall g,
  Consistent g ->
  NoDup (requestIds evs) ->
  (forall i, i ∈ requestIds evs -> unused i g) ->
  Consistent (run evs g)
  /\ (forall h tm, timers g !! h = Some tm -> timers (run evs g) !! h = Some tm)
  /\ (forall i, unused i g -> i ∉ requestIds evs -> unused i (run evs g))
  /\ created g <= created (run evs g)
  /\ exists new, settlements (run evs g) = settlements g ++ new.
Proof.
  induction evs as [| ev evs IH]; intros g C Hnd Hun.
  - cbn. split; [exact C |]. split; [auto |]. split; [auto |]. split; [lia |].
    exists []. rewrite app_nil_r. reflexivity.
  - rewrite requestIds_cons in Hnd, Hun.
    apply NoDup_app in Hnd as (Hnd1 & Hdisj & Hnd2).
    destruct (step_spec g ev C) as (C1 & Htm1 & Hun1 & Hcr1 & new1 & Hset1 & _).
    { intros now id operation ->. apply Hun. cbn. left. }
    destruct (IH (step g ev) C1 Hnd2) as (C2 & Htm2 & Hun2 & Hcr2 & new2 & Hset2).
    { intros i Hi. apply Hun1.
      - apply Hun. apply elem_of_app. right. exact Hi.
      - intros Hi'. exact (Hdisj i Hi' Hi). }
    change (run (ev :: evs) g) with (run evs (step g ev)).
    split; [exact C2 |]. split; [auto |]. split; [| split; [lia |]].
    + intros i Hi Hni. apply Hun2.
      * apply Hun1; [exact Hi |]. intros H. apply Hni.
        rewrite requestIds_cons. apply elem_of_app. left. exact H.
      * intros H. apply Hni. rewrite requestIds_cons. apply elem_of_app. right. exact H.
    + exists (new1 ++ new2). rewrite Hset2, Hset1, app_assoc. reflexivity.
Qed.

Lemma unused_create ra logger i : unused i (create ra logger).
Proof. intros h tm H. cbn in H. rewrite lookup_empty in H. discriminate. Qed.

(** In a consistent state, each promise created so far is either still
    pending and unresolved, or gone from the map and resolved once. *)
Lemma consistent_once g h :
  Consistent g -> h < created g ->
  (pendingHandle h g /\ settlementsOf h g = [])
  \/ (~ pendingHandle h g /\ exists r, settlementsOf h g = [r]).
Proof.
  intros C Hh. apply (c_created g C) in Hh as [tm Htm].
  pose proof (c_once g C h tm Htm) as Ho.
  destruct (pendingApprovals g !! tm_id tm) as [pending |] eqn:Hp.
  - left. split; [| exact Ho]. exists (tm_id tm), pending. split; [exact Hp |].
    destruct (c_pending g C _ _ Hp) as (_ & tm' & Htm' & Hid).
    eapply (c_ids g C); eauto.
  - right. split; [| exact Ho]. intros (id & pending & Hp' & Hh).
    destruct (c_pending g C _ _ Hp') as (_ & tm' & Htm' & Hid).
    rewrite Hh, Htm in Htm'. injection Htm' as <-. congruence.
Qed.

(** [cancelAll] resolves the promise of an entry that is pending, once,
    by the [resolve] closure of the entry and with [false]. *)
Lemma cancelAll_pending now g id pending :
  Consistent g ->
  pendingApprovals g !! id = Some pending ->
  settlementsOf (pa_timeout pending) (cancelAll now g)
  = [{| st_promise := pa_timeout pending; st_value := false; st_by := ByResolve |}].
Proof.
  intros C Hp.
  destruct (cancelAll_spec now g C) as (C' & Htimers & _ & Hpending & new & Hnew & Hfalse).
  destruct (c_pending g C id pending Hp) as (_ & tm & Htm & Htid).
  pose proof (c_once g C _ tm Htm) as Hbefore. rewrite Htid, Hp in Hbefore.
  assert (Htm' : timers (cancelAll now g) !! pa_timeout pending = Some tm)
    by (rewrite Htimers; exact Htm).
  pose proof (c_once _ C' _ tm Htm') as Hafter.
  rewrite Htid, Hpending, lookup_empty in Hafter. destruct Hafter as [r Hr].
  rewrite Hr. f_equal.
  rewrite (settlementsOf_app _ g new _ Hnew), Hbefore in Hr. cbn [app] in Hr.
  assert (Hin : r ∈ filter (fun s => st_promise s = pa_timeout pending) new)
    by (rewrite Hr; apply list_elem_of_singleton; reflexivity).
  apply list_elem_of_filter in Hin as [Hpr Hin].
  rewrite Forall_forall in Hfalse. destruct (Hfalse r Hin) as [Hv Hby].
  destruct r as [p v b]. cbn in *. subst. reflexivity.
Qed.

Lemma cancelOne_cleared now g entry h :
  h ∈ cleared (cancelOne now g entry) <-> h = pa_timeout entry.2 \/ h ∈ cleared g.
Proof.
  unfold cancelOne, resolve. cbn. rewrite !elem_of_union, !elem_of_singleton. tauto.
Qed.

Lemma cancelLoop_cleared now l : forall g h,
  h ∈ cleared (fold_left (cancelOne now) l g)
  <-> h ∈ cleared g \/ exists entry, entry ∈ l /\ h = pa_timeout entry.2.
Proof.
  induction l as [| e l IH]; intros g h; cbn [fold_left].
  - split; [auto |]. intros [H | (e & He & _)]; [exact H |].
    apply not_elem_of_nil in He. destruct He.
  - rewrite IH, cancelOne_cleared. split.
    + intros [[-> | H] | (e' & He' & ->)].
      * right. exists e. split; [left | reflexivity].
      * left. exact H.
      * right. exists e'. split; [right; exact He' | reflexivity].
    + intros [H | (e' & He' & ->)]; [left; right; exact H |].
      apply elem_of_cons in He' as [-> | He']; [left; left; reflexivity |].
      right. eauto.
Qed.

(** [cancelAll] calls [clearTimeout] on the timer of every entry that is
    pending. *)
Lemma cancelAll_clears now g id pending :
  pendingApprovals g !! id = Some pending ->
  pa_timeout pending ∈ cleared (cancelAll now g).
Proof.
  intros Hp. unfold cancelAll. cbn [cleared withPending].
  apply cancelLoop_cleared. right. exists (id, pending). split; [| reflexivity].
  unfold entries. rewrite merge_sort_Permutation. apply elem_of_map_to_list. exact Hp.
Qed.

Lemma no_response_run evs : forall g h tm id,
  Consistent g ->
  timers g !! h = Some tm -> tm_id tm = id ->
  NoDup (requestIds evs) ->
  (forall i, i ∈ requestIds evs -> unused i g) ->
  forallb (fun ev => negb (respondsTo id ev)) evs = true ->
  onlyDenied h g ->
  onlyDenied h (run evs g).
Proof.
  induction evs as [| ev evs IH]; intros g h tm id C Htm Hid Hnd Hun Hno Hden.
  - exact Hden.
  - rewrite requestIds_cons in Hnd, Hun.
    apply NoDup_app in Hnd as (Hnd1 & Hdisj & Hnd2).
    cbn [forallb] in Hno. apply andb_true_iff in Hno as [Hev Hno].
    destruct (step_spec g ev C) as (C1 & Htm1 & Hun1 & Hcr1 & new & Hset & Hnew).
    { intros now id' operation ->. apply Hun. cbn. left. }
    change (run (ev :: evs) g) with (run evs (step g ev)).
    apply (IH (step g ev) h tm id); auto.
    + intros i Hi. apply Hun1.
      * apply Hun. apply elem_of_app. right. exact Hi.
      * intros Hi'. exact (Hdisj i Hi' Hi).
    + unfold onlyDenied. rewrite Hset. apply Forall_app. split; [exact Hden |].
      eapply Forall_impl; [exact Hnew |]. intros s [Hs | Hs] Hh; [exact Hs |].
      destruct Hs as (now & id' & pending & -> & Hp & Hpr).
      destruct (c_pending g C _ _ Hp) as (_ & tm' & Htm' & Hid').
      rewrite <- Hpr, Hh, Htm in Htm'. injection Htm' as <-.
      cbn in Hev. rewrite <- Hid', Hid, String.eqb_refl in Hev. discriminate.
Qed.

End OperationGuardFacts.

(** C5: along any sequence of requests, answers, timer callbacks and
    cancellations in which the generated ids are distinct, every promise
    created is either still pending and unresolved, or its entry has left
    the map and its [resolve] has been called exactly once, and no later
    event calls it again.  Whoever finds the entry in the map removes it
    and resolves the promise: the user's answer with that answer, the timer
    callback with [false] as a timeout, and [cancelAll] with [false] as a
    denial, for every entry that is pending, leaving the map empty.  An
    answer, a timer callback or a cancellation that finds no entry changes
    nothing. *)
Theorem approval_exactly_once requireApproval logger evs :
  NoDup (OperationGuard.requestIds evs) ->
  let g := OperationGuard.run evs (OperationGuard.create requireApproval logger) in
  (forall h, h < OperationGuard.created g ->
     (OperationGuard.pendingHandle h g
      /\ OperationGuard.settlementsOf h g = []
      /\ OperationGuard.promiseValue h g = None)
     \/ (~ OperationGuard.pendingHandle h g
         /\ exists r,
             OperationGuard.settlementsOf h g = [r]
             /\ OperationGuard.promiseValue h g = Some (OperationGuard.st_value r)
             /\ forall more,
                 NoDup (OperationGuard.requestIds (evs ++ more)) ->
                 OperationGuard.settlementsOf h (OperationGuard.run more g) = [r]))
  /\ (forall now id pending approved,
        OperationGuard.pendingApprovals g !! id = Some pending ->
        let g' := OperationGuard.step g (OperationGuard.Respond now id approved) in
        OperationGuard.pendingApprovals g' !! id = None
        /\ OperationGuard.settlementsOf (OperationGuard.pa_timeout pending) g'
           = [{| OperationGuard.st_promise := OperationGuard.pa_timeout pending;
                 OperationGuard.st_value := approved;
                 OperationGuard.st_by := OperationGuard.ByResolve |}])
  /\ (forall now id pending tm,
        OperationGuard.pendingApprovals g !! id = Some pending ->
        OperationGuard.timers g !! OperationGuard.pa_timeout pending = Some tm ->
        (OperationGuard.tm_deadline tm <= now)%Z ->
        let h := OperationGuard.pa_timeout pending in
        let g' := OperationGuard.step g (OperationGuard.TimerFires now h) in
        OperationGuard.pendingApprovals g' !! id = None
        /\ OperationGuard.settlementsOf h g'
           = [{| OperationGuard.st_promise := h;
                 OperationGuard.st_value := false;
                 OperationGuard.st_by := OperationGuard.ByTimeout |}])
  /\ (forall now id pending,
        OperationGuard.pendingApprovals g !! id = Some pending ->
        let h := OperationGuard.pa_timeout pending in
        let g' := OperationGuard.step g (OperationGuard.CancelAll now) in
        OperationGuard.pendingApprovals g' = ∅
        /\ OperationGuard.settlementsOf h g'
           = [{| OperationGuard.st_promise := h;
                 OperationGuard.st_value := false;
                 OperationGuard.st_by := OperationGuard.ByResolve |}]
        /\ OperationGuard.promiseValue h g' = Some false
        /\ h ∈ OperationGuard.cleared g')
  /\ (forall now id approved,
        OperationGuard.pendingApprovals g !! id = None ->
        OperationGuard.step g (OperationGuard.Respond now id approved) = g)
  /\ (forall now h tm,
        OperationGuard.timers g !! h = Some tm ->
        OperationGuard.pendingApprovals g !! OperationGuard.tm_id tm = None ->
        OperationGuard.step g (OperationGuard.TimerFires now h) = g)
  /\ (forall now,
        OperationGuard.pendingApprovals g = ∅ ->
        OperationGuard.step g (OperationGuard.CancelAll now) = g).
Proof.
  intros Hnd g.
  destruct (run_spec evs (OperationGuard.create requireApproval logger))
    as (C & _ & Hun & _ & _);
    [apply create_consistent | exact Hnd | intros; apply unused_create |].
  fold g in C, Hun.
  split; [| split; [| split; [| split; [| split; [| split]]]]].
  - intros h Hh. destruct (consistent_once g h C Hh) as [[Hp Hs] | [Hp [r Hs]]].
    + left. split; [exact Hp |]. split; [exact Hs |].
      unfold OperationGuard.promiseValue. rewrite Hs. reflexivity.
    + right. split; [exact Hp |]. exists r. split; [exact Hs |]. split.
      * unfold OperationGuard.promiseValue. rewrite Hs. reflexivity.
      * intros more Hnd'. rewrite requestIds_app in Hnd'.
        apply NoDup_app in Hnd' as (_ & Hdisj & Hnd2).
        destruct (run_spec more g C Hnd2) as (C' & _ & _ & Hcr & new & Hset).
        { intros i Hi. apply Hun; [apply unused_create |].
          intros Hi'. exact (Hdisj i Hi' Hi). }
        rewrite (settlementsOf_app h g new _ Hset), Hs.
        destruct (consistent_once (OperationGuard.run more g) h C') as [[_ Hs'] | [_ [r' Hs']]];
          [lia | |];
          rewrite (settlementsOf_app h g new _ Hset), Hs in Hs'.
        -- discriminate.
        -- injection Hs' as -> E. rewrite E. reflexivity.
  - intros now id pending approved Hp. cbv zeta. cbn [OperationGuard.step].
    unfold OperationGuard.onRespond. rewrite Hp.
    destruct (resolve_consistent now g id pending approved C Hp) as [_ E].
    split; [rewrite E; apply lookup_delete_eq |].
    destruct (OperationGuard.c_pending g C id pending Hp) as (_ & tm & Htm & Hid).
    pose proof (OperationGuard.c_once g C _ tm Htm) as Ho. rewrite Hid, Hp in Ho.
    match goal with
    | |- OperationGuard.settlementsOf ?h ?g' = _ =>
        rewrite (settlementsOf_app h g
                   [{| OperationGuard.st_promise := OperationGuard.pa_timeout pending;
                       OperationGuard.st_value := approved;
                       OperationGuard.st_by := OperationGuard.ByResolve |}] g' eq_refl)
    end.
    rewrite Ho. cbn. rewrite decide_True by reflexivity. reflexivity.
  - intros now id pending tm Hp Htm Hdue. cbv zeta. cbn [OperationGuard.step].
    rewrite Htm. apply Z.leb_le in Hdue. rewrite Hdue.
    destruct (OperationGuard.c_pending g C id pending Hp) as (_ & tm' & Htm' & Hid).
    rewrite Htm in Htm'. injection Htm' as <-.
    unfold OperationGuard.onTimeout. rewrite Hid, Hp.
    split; [cbn; apply lookup_delete_eq |].
    pose proof (OperationGuard.c_once g C _ tm Htm) as Ho. rewrite Hid, Hp in Ho.
    match goal with
    | |- OperationGuard.settlementsOf ?h ?g' = _ =>
        rewrite (settlementsOf_app h g
                   [{| OperationGuard.st_promise := OperationGuard.pa_timeout pending;
                       OperationGuard.st_value := false;
                       OperationGuard.st_by := OperationGuard.ByTimeout |}] g' eq_refl)
    end.
    rewrite Ho. cbn. rewrite decide_True by reflexivity. reflexivity.
  - intros now id pending Hp h g'. subst h g'. cbn [OperationGuard.step].
    destruct (cancelAll_spec now g C) as (_ & _ & _ & Hempty & _).
    pose proof (cancelAll_pending now g id pending C Hp) as Hs.
    split; [exact Hempty |]. split; [exact Hs |]. split.
    + unfold OperationGuard.promiseValue. rewrite Hs. reflexivity.
    + apply (cancelAll_clears now g id pending Hp).
  - intros now id approved Hp. cbn. unfold OperationGuard.onRespond.
    rewrite Hp. reflexivity.
  - intros now h tm Htm Hp. cbn. rewrite Htm. unfold OperationGuard.onTimeout.
    rewrite Hp. destruct (_ <=? _)%Z; reflexivity.
  - intros now Hp. cbn [OperationGuard.step].
    unfold OperationGuard.cancelAll, OperationGuard.entries. rewrite Hp.
    rewrite map_to_list_empty. cbn. unfold OperationGuard.withPending.
    rewrite <- Hp. destruct g. reflexivity.
Qed.

Lemma approval_exactly_once_witness :
  let evs := [OperationGuard.Request 1000 "1000-k3x9" Sample.operation;
              OperationGuard.Request 1500 "1500-p0q2" Sample.operation;
              OperationGuard.Respond 2000 "1000-k3x9" true;
              OperationGuard.TimerFires 31000 0] in
  let g := OperationGuard.run evs (OperationGuard.create true (AuditLogger.create true false)) in
  let cancelled := OperationGuard.step g (OperationGuard.CancelAll 31200) in
  NoDup (OperationGuard.requestIds evs)
  /\ OperationGuard.promiseValue 0 g = Some true
  /\ OperationGuard.step g (OperationGuard.Respond 32000 "1000-k3x9" false) = g
  /\ OperationGuard.promiseValue 1 g = None
  /\ OperationGuard.pendingApprovals cancelled = ∅
  /\ OperationGuard.settlementsOf 1 cancelled
     = [{| OperationGuard.st_promise := 1; OperationGuard.st_value := false;
           OperationGuard.st_by := OperationGuard.ByResolve |}]
  /\ OperationGuard.step cancelled (OperationGuard.TimerFires 31500 1) = cancelled.
Proof.
  intros evs g cancelled. subst g.
  assert (Hnd : NoDup (OperationGuard.requestIds evs)).
  { vm_compute. repeat constructor; [| apply not_elem_of_nil].
    intros H. apply list_elem_of_singleton in H. discriminate. }
  destruct (approval_exactly_once true (AuditLogger.create true false) evs Hnd)
    as (Honce & _ & _ & Hcancel & Hnoop & _).
  assert (Hnd' : NoDup (OperationGuard.requestIds (evs ++ [OperationGuard.CancelAll 31200])))
    by exact Hnd.
  destruct (approval_exactly_once true (AuditLogger.create true false)
              (evs ++ [OperationGuard.CancelAll 31200]) Hnd')
    as (_ & _ & _ & _ & _ & Hlate & _).
  destruct (Hcancel 31200%Z "1500-p0q2"
              {| OperationGuard.pa_id := "1500-p0q2";
                 OperationGuard.pa_operation := Sample.operation;
                 OperationGuard.pa_timeout := 1; OperationGuard.pa_seq := 1 |})
    as (Hempty & Hsettled & _); [vm_compute; reflexivity |].
  split; [exact Hnd |]. split; [| split; [| split; [| split; [| split]]]].
  - destruct (Honce 0) as [(_ & _ & E) | (_ & r & _ & E & _)].
    + vm_compute. lia.
    + vm_compute in E. discriminate.
    + rewrite E. vm_compute in E. symmetry. exact E.
  - apply Hnoop. vm_compute. reflexivity.
  - destruct (Honce 1) as [(_ & _ & E) | (_ & r & E & _)].
    + vm_compute. lia.
    + exact E.
    + vm_compute in E. discriminate.
  - exact Hempty.
  - exact Hsettled.
  - change cancelled
      with (OperationGuard.run (evs ++ [OperationGuard.CancelAll 31200])
              (OperationGuard.create true (AuditLogger.create true false))).
    eapply Hlate; vm_compute; reflexivity.
Defined.

(** C4: a request that gets no answer from the user is resolved to
    [false] once its timer, due 30000 ms after the request, has run; and
    when the promise that [executeWithApproval] awaits has the value
    [false], the call throws "Operation denied by user" and leaves the
    state as the wait left it, whatever the executor is. *)
Theorem approval_timeout_denies {S T : Type}
    (getGuard : S -> OperationGuard.t) (setGuard : OperationGuard.t -> S -> S)
    (executor : S -> OperationGuard.outcome T * S) (s : S)
    requireApproval logger evs0 now id operation evs t :
  getGuard s = OperationGuard.run evs0 (OperationGuard.create requireApproval logger) ->
  NoDup (OperationGuard.requestIds (evs0 ++ OperationGuard.Request now id operation :: evs)) ->
  forallb (fun ev => negb (OperationGuard.respondsTo id ev)) evs = true ->
  (now + 30000 <= t)%Z ->
  OperationGuard.requiresApproval (getGuard s) operation = true ->
  let h := OperationGuard.created (getGuard s) in
  let requested := (OperationGuard.requestApproval now id operation (getGuard s)).1 in
  let g := OperationGuard.run (evs ++ [OperationGuard.TimerFires t h]) requested in
  OperationGuard.promiseValue h g = Some false
  /\ (exists r, OperationGuard.settlementsOf h g = [r]
                /\ OperationGuard.st_value r = false)
  /\ OperationGuard.executeWithApproval getGuard setGuard now id
       (evs ++ [OperationGuard.TimerFires t h]) operation executor s
     = (OperationGuard.Thrown (Js.Error "Operation denied by user"), setGuard g s)
  /\ (forall during,
        OperationGuard.promiseValue h (OperationGuard.run during requested) = Some false ->
        OperationGuard.executeWithApproval getGuard setGuard now id during operation
          executor s
        = (OperationGuard.Thrown (Js.Error "Operation denied by user"),
           setGuard (OperationGuard.run during requested) s)).
Proof.
  intros Hg Hnd Hno Hdue Hreq h requested g.
  assert (Hexec : forall during,
    OperationGuard.promiseValue h (OperationGuard.run during requested) = Some false ->
    OperationGuard.executeWithApproval getGuard setGuard now id during operation
      executor s
    = (OperationGuard.Thrown (Js.Error "Operation denied by user"),
       setGuard (OperationGuard.run during requested) s)).
  { intros during Hv. subst h requested.
    unfold OperationGuard.executeWithApproval. rewrite Hreq.
    unfold OperationGuard.requestApproval in *. cbn [fst] in Hv.
    rewrite Hv. reflexivity. }
  rewrite requestIds_app, requestIds_cons in Hnd. cbn [OperationGuard.requestIds omap] in Hnd.
  apply NoDup_app in Hnd as (Hnd0 & Hdisj & Hnd1).
  cbn in Hnd1. apply NoDup_cons in Hnd1 as [Hid Hnd1].
  destruct (run_spec evs0 (OperationGuard.create requireApproval logger))
    as (C0 & _ & Hun0 & _ & _);
    [apply create_consistent | exact Hnd0 | intros; apply unused_create |].
  rewrite <- Hg in C0, Hun0.
  assert (Hfresh : forall i, i = id \/ i ∈ OperationGuard.requestIds evs ->
                             OperationGuard.unused i (getGuard s)).
  { intros i Hi. apply Hun0; [apply unused_create |]. intros Hi'.
    apply (Hdisj i Hi'). cbn. destruct Hi as [-> | Hi]; [left | right; exact Hi]. }
  destruct (step_spec (getGuard s) (OperationGuard.Request now id operation) C0)
    as (C1 & _ & Hun1 & _ & new1 & Hset1 & Hnew1).
  { intros ? ? ? [= <- <- <-]. apply Hfresh. left. reflexivity. }
  change (OperationGuard.step (getGuard s) (OperationGuard.Request now id operation))
    with requested in *.
  set (tm := {| OperationGuard.tm_id := id; OperationGuard.tm_operation := operation;
                OperationGuard.tm_deadline := (now + OperationGuard.approvalTimeout)%Z |}).
  assert (Htm1 : OperationGuard.timers requested !! h = Some tm).
  { subst requested h. cbn. apply lookup_insert_eq. }
  assert (Hden1 : OperationGuard.onlyDenied h requested).
  { unfold OperationGuard.onlyDenied.
    assert (E : OperationGuard.settlements requested
                = OperationGuard.settlements (getGuard s)) by reflexivity.
    rewrite E. apply Forall_forall. intros r Hr Hh. exfalso.
    assert (Hin : r ∈ OperationGuard.settlementsOf h (getGuard s)).
    { apply list_elem_of_filter. split; [exact Hh | exact Hr]. }
    rewrite (OperationGuard.c_none _ C0 h) in Hin by (subst h; lia).
    apply not_elem_of_nil in Hin. exact Hin. }
  assert (Hnd2 : NoDup (OperationGuard.requestIds (evs ++ [OperationGuard.TimerFires t h]))).
  { rewrite requestIds_app. cbn. rewrite app_nil_r. exact Hnd1. }
  assert (Hun2 : forall i,
            i ∈ OperationGuard.requestIds (evs ++ [OperationGuard.TimerFires t h]) ->
            OperationGuard.unused i requested).
  { intros i Hi. rewrite requestIds_app in Hi. cbn in Hi. rewrite app_nil_r in Hi.
    apply Hun1.
    - apply Hfresh. right. exact Hi.
    - cbn. intros Hi'. apply list_elem_of_singleton in Hi'. subst i. exact (Hid Hi). }
  assert (Hno2 : forallb (fun ev => negb (OperationGuard.respondsTo id ev))
                   (evs ++ [OperationGuard.TimerFires t h]) = true).
  { rewrite forallb_app, Hno. reflexivity. }
  pose proof (no_response_run _ requested h tm id C1 Htm1 eq_refl Hnd2 Hun2 Hno2 Hden1)
    as Hden.
  fold g in Hden.
  (* the state before the timer runs *)
  destruct (run_spec evs requested C1 Hnd1) as (C2 & Htm2 & _ & Hcr2 & _).
  { intros i Hi. apply Hun2. rewrite requestIds_app. apply elem_of_app. left. exact Hi. }
  specialize (Htm2 h tm Htm1).
  set (g2 := OperationGuard.run evs requested) in *.
  assert (Eg : g = OperationGuard.step g2 (OperationGuard.TimerFires t h)).
  { subst g g2. rewrite run_app. reflexivity. }
  destruct (step_spec g2 (OperationGuard.TimerFires t h) C2) as (C3 & _ & _ & Hcr3 & _);
    [discriminate |].
  rewrite <- Eg in C3, Hcr3.
  assert (Hne : OperationGuard.settlementsOf h g <> []).
  { rewrite Eg. cbn [OperationGuard.step]. rewrite Htm2.
    assert (Hleb : (OperationGuard.tm_deadline tm <=? t)%Z = true).
    { apply Z.leb_le. cbn. unfold OperationGuard.approvalTimeout. lia. }
    rewrite Hleb. unfold OperationGuard.onTimeout.
    pose proof (OperationGuard.c_once g2 C2 h tm Htm2) as Ho.
    destruct (OperationGuard.pendingApprovals g2 !! OperationGuard.tm_id tm).
    - match goal with
      | |- OperationGuard.settlementsOf ?h ?g' <> _ =>
          rewrite (settlementsOf_app h g2
                     [{| OperationGuard.st_promise := h;
                         OperationGuard.st_value := false;
                         OperationGuard.st_by := OperationGuard.ByTimeout |}] g' eq_refl)
      end.
      cbn. rewrite decide_True by reflexivity. intros E.
      apply app_eq_nil in E as [_ E]. discriminate.
    - destruct Ho as [r ->]. discriminate. }
  assert (Hh : h < OperationGuard.created g).
  { assert (h < OperationGuard.created requested) by (subst requested h; cbn; lia). lia. }
  destruct (consistent_once g h C3 Hh) as [[_ Hs] | [_ [r Hs]]]; [contradiction |].
  assert (Hr : OperationGuard.st_value r = false).
  { assert (Hin : r ∈ OperationGuard.settlementsOf h g) by (rewrite Hs; left).
    apply list_elem_of_filter in Hin as [Hp Hin].
    unfold OperationGuard.onlyDenied in Hden. rewrite Forall_forall in Hden.
    apply Hden; [exact Hin | exact Hp]. }
  assert (Hv : OperationGuard.promiseValue h g = Some false).
  { unfold OperationGuard.promiseValue. rewrite Hs. cbn. rewrite Hr. reflexivity. }
  split; [exact Hv |]. split; [eauto |]. split; [| exact Hexec].
  apply Hexec. exact Hv.
Qed.

Lemma approval_timeout_denies_witness :
  let guard := OperationGuard.create true (AuditLogger.create true false) in
  let executor := fun g : OperationGuard.t =>
    (OperationGuard.Returned true, OperationGuard.updateSettings false g) in
  exists g,
    OperationGuard.executeWithApproval (fun g => g) (fun g _ => g) 1000 "1000-k3x9"
      [OperationGuard.TimerFires 31000 0] Sample.operation executor guard
    = (OperationGuard.Thrown (Js.Error "Operation denied by user"), g)
    /\ OperationGuard.promiseValue 0 g = Some false
    /\ OperationGuard.requireApproval g = true.
Proof.
  intros guard executor.
  destruct (approval_timeout_denies (fun g => g) (fun g _ => g) executor guard
              true (AuditLogger.create true false) [] 1000 "1000-k3x9"
              Sample.operation [] 31000)
    as (Hv & _ & Hexec & _).
  - reflexivity.
  - apply NoDup_singleton.
  - reflexivity.
  - lia.
  - reflexivity.
  - eexists. split; [exact Hexec |]. split; [exact Hv | reflexivity].
Defined.

(** ** MCPServer: rate limit and authentication *)

Section RateLimitFacts.

Import MCPServer.

Lemma checkRateLimit_other c d s :
  d <> c -> requestCounts (checkRateLimit c s).2 !! d = requestCounts s !! d.
Proof.
  intros Hne. unfold checkRateLimit.
  destruct (requestCounts s !! c) as [record |].
  - destruct (resetTime record <? clock s)%Z; cbn.
    + apply lookup_insert_ne. congruence.
    + destruct (rateLimit <=? count record)%Z; cbn; [reflexivity |].
      apply lookup_insert_ne. congruence.
  - cbn. apply lookup_insert_ne. congruence.
Qed.

(** Inside the window of its record, a client is admitted exactly while
    its count is below the limit, and an admission adds one to the count. *)
Lemma checkRateLimit_in_window c s k R :
  requestCounts s !! c = Some {| count := k; resetTime := R |} ->
  (clock s <= R)%Z ->
  (checkRateLimit c s).1 = bool_decide (k < rateLimit)%Z
  /\ requestCounts (checkRateLimit c s).2 !! c
     = Some {| count := if bool_decide (k < rateLimit)%Z then (k + 1)%Z else k;
               resetTime := R |}.
Proof.
  intros Hrec Hclock. unfold checkRateLimit. rewrite Hrec. cbn [resetTime count].
  destruct (Z.ltb_spec R (clock s)) as [Hlt | _]; [lia |].
  destruct (Z.leb_spec rateLimit k) as [Hle | Hlt].
  - rewrite bool_decide_false by lia. cbn. auto.
  - rewrite bool_decide_true by lia. cbn. rewrite lookup_insert_eq. auto.
Qed.

Lemma checkRateLimit_opens c s :
  noOpenWindow c (clock s) s ->
  (checkRateLimit c s).1 = true
  /\ requestCounts (checkRateLimit c s).2 !! c
     = Some {| count := 1; resetTime := (clock s + 60000)%Z |}.
Proof.
  unfold noOpenWindow, checkRateLimit.
  destruct (requestCounts s !! c) as [record |].
  - intros Hlt. apply Z.ltb_lt in Hlt. rewrite Hlt. cbn.
    rewrite lookup_insert_eq. auto.
  - intros _. cbn. rewrite lookup_insert_eq. auto.
Qed.

Lemma checkRateLimit_rejected c s :
  (checkRateLimit c s).1 = false -> (checkRateLimit c s).2 = s.
Proof.
  unfold checkRateLimit. destruct (requestCounts s !! c) as [record |].
  - destruct (resetTime record <? clock s)%Z; [discriminate |].
    destruct (rateLimit <=? count record)%Z; [reflexivity | discriminate].
  - discriminate.
Qed.

(** The rate limiter touches nothing but the table of counts. *)
Lemma checkRateLimit_frame c s :
  let s' := (checkRateLimit c s).2 in
  authToken s' = authToken s /\ calls s' = calls s
  /\ operationGuard s' = operationGuard s /\ clock s' = clock s.
Proof.
  unfold checkRateLimit. destruct (requestCounts s !! c) as [record |].
  - destruct (resetTime record <? clock s)%Z; [cbn; auto |].
    destruct (rateLimit <=? count record)%Z; cbn; auto.
  - cbn. auto.
Qed.

Lemma authorized_spec s req :
  authorized s req = true <-> authorization req = Some ("Bearer " +:+ authToken s).
Proof.
  unfold authorized. destruct (authorization req) as [authHeader |].
  - rewrite andb_true_iff, negb_true_iff, String.eqb_eq, String.eqb_neq. split.
    + intros [_ ->]. reflexivity.
    + intros [= ->]. split; [discriminate | reflexivity].
  - split; discriminate.
Qed.

Section Front.

Variable env : Collaborators.
Variable a : Approval.

Lemma handleRequest_preflight req s :
  method req = "OPTIONS" ->
  handleRequest env a req s
  = (OperationGuard.Returned
       {| status := 204; allowOrigin := corsOrigin req; payload := NoBody |}, s).
Proof. intros Hm. unfold handleRequest. rewrite Hm. reflexivity. Qed.

Lemma handleRequest_rate_limited req s :
  method req <> "OPTIONS" ->
  (checkRateLimit (clientIp req) s).1 = false ->
  handleRequest env a req s
  = (OperationGuard.Returned
       {| status := 429; allowOrigin := corsOrigin req;
          payload := ErrorBody "Too many requests" |}, s).
Proof.
  intros Hm Hrej. unfold handleRequest.
  apply String.eqb_neq in Hm. rewrite Hm.
  pose proof (checkRateLimit_rejected _ _ Hrej) as Hs.
  destruct (checkRateLimit (clientIp req) s) as [admitted s'].
  cbn [fst snd] in Hrej, Hs. subst. reflexivity.
Qed.

Lemma handleRequest_method req s :
  method req <> "OPTIONS" ->
  (checkRateLimit (clientIp req) s).1 = true ->
  method req <> "GET" -> method req <> "POST" ->
  handleRequest env a req s
  = (OperationGuard.Returned
       {| status := 405; allowOrigin := corsOrigin req;
          payload := ErrorBody "Method not allowed" |},
     (checkRateLimit (clientIp req) s).2).
Proof.
  intros Hm Hadm Hg Hp. unfold handleRequest.
  apply String.eqb_neq in Hm, Hg, Hp. rewrite Hm.
  destruct (checkRateLimit (clientIp req) s) as [admitted s'].
  cbn [fst snd] in *. subst admitted. rewrite Hg, Hp. reflexivity.
Qed.

(** A GET or POST that the rate limiter admits has its target parsed. *)
Lemma handleRequest_parses req s :
  (checkRateLimit (clientIp req) s).1 = true ->
  method req = "GET" \/ method req = "POST" ->
  handleRequest env a req s
  = routed env a (clientIp req) (corsOrigin req) req (checkRateLimit (clientIp req) s).2.
Proof.
  intros Hadm Hgp. unfold handleRequest.
  assert (Em : String.eqb (method req) "OPTIONS" = false)
    by (destruct Hgp as [-> | ->]; reflexivity).
  assert (Egp : negb (String.eqb (method req) "POST")
                && negb (String.eqb (method req) "GET") = false)
    by (destruct Hgp as [-> | ->]; reflexivity).
  rewrite Em.
  destruct (checkRateLimit (clientIp req) s) as [admitted s'].
  cbn [fst snd] in *. subst admitted. cbn [negb]. rewrite Egp. reflexivity.
Qed.

(** When the target is no URL, what the constructor throws leaves
    [handleRequest]. *)
Lemma handleRequest_invalid_url req s e :
  (checkRateLimit (clientIp req) s).1 = true ->
  method req = "GET" \/ method req = "POST" ->
  url req = Throws e ->
  handleRequest env a req s
  = (OperationGuard.Thrown e, (checkRateLimit (clientIp req) s).2).
Proof.
  intros Hadm Hgp Hu. rewrite (handleRequest_parses req s Hadm Hgp).
  unfold routed, bind, parseUrl. rewrite Hu. reflexivity.
Qed.

(** When it is one, the request reaches the routes. *)
Lemma handleRequest_routes req s pathname :
  (checkRateLimit (clientIp req) s).1 = true ->
  method req = "GET" \/ method req = "POST" ->
  url req = Ok pathname ->
  handleRequest env a req s
  = tryCatch (route env a (clientIp req) (corsOrigin req) pathname req)
      (fun error =>
         ret {| status := 500; allowOrigin := corsOrigin req;
                payload := ErrorBody (errorString error) |})
      (checkRateLimit (clientIp req) s).2.
Proof.
  intros Hadm Hgp Hu. rewrite (handleRequest_parses req s Hadm Hgp).
  unfold routed, bind, parseUrl. rewrite Hu. reflexivity.
Qed.

Lemma route_health ip cors req s :
  route env a ip cors "/health" req s
  = (OperationGuard.Returned
       {| status := 200; allowOrigin := cors;
          payload := Health (vault_getName env (calls s)) |},
     addCall VaultGetName s).
Proof. reflexivity. Qed.

Lemma route_token ip cors req s :
  method req = "GET" ->
  route env a ip cors "/auth/token" req s
  = (OperationGuard.Returned
       (if isLoopback ip
        then {| status := 200; allowOrigin := cors; payload := Token (authToken s) |}
        else {| status := 403; allowOrigin := cors; payload := ErrorBody "Forbidden" |}),
     s).
Proof.
  intros Hm. unfold route. rewrite Hm. cbn. destruct (isLoopback ip); reflexivity.
Qed.

Lemma route_unauthorized ip cors pathname req s :
  pathname <> "/health" ->
  ~ (pathname = "/auth/token" /\ method req = "GET") ->
  authorized s req = false ->
  route env a ip cors pathname req s
  = (OperationGuard.Returned
       {| status := 401; allowOrigin := cors; payload := Unauthorized |}, s).
Proof.
  intros Hh Ht Hauth. unfold route.
  apply String.eqb_neq in Hh. rewrite Hh.
  assert (E : String.eqb pathname "/auth/token" && String.eqb (method req) "GET"
              = false).
  { apply not_true_is_false. rewrite andb_true_iff, !String.eqb_eq. exact Ht. }
  rewrite E, Hauth. reflexivity.
Qed.

End Front.

End RateLimitFacts.




(** ** MCPServer: tool dispatch *)

Section ToolFacts.

Import MCPServer.

Variable env : Collaborators.

Lemma bind_thrown {A B} (m : M A) (k : A -> M B) s e s' :
  m s = (OperationGuard.Thrown e, s') -> bind m k s = (OperationGuard.Thrown e, s').
Proof. unfold bind. intros ->. reflexivity. Qed.

Lemma validated_invalid r e s :
  r s = PathValidator.Invalid e ->
  validated r s = (OperationGuard.Thrown (Js.Error e), s).
Proof. unfold validated. intros ->. reflexivity. Qed.

(** The handler of the [catch] in [executeTool] makes no collaborator call. *)
Lemma tryCatch_calls {A} (m : M A) (handler : Js.error -> M A) s :
  (forall e s', calls (handler e s').2 = calls s') ->
  calls (tryCatch m handler s).2 = calls (m s).2.
Proof.
  intros H. unfold tryCatch. destruct (m s) as [[v | e |] s']; cbn; auto.
Qed.

Lemma catch_calls tool path (error : Js.error) s' :
  calls ((logToolCall tool path false (Some (errorString error)) ;;;
          ret {| content := ErrorText (errorString error); isError := true |}) s').2
  = calls s'.
Proof. reflexivity. Qed.

(** Asking for approval makes no collaborator call by itself. *)
Lemma withApproval_calls a operation (executor : M ToolResponse) s :
  (forall s', calls s' = calls s -> cwd s' = cwd s -> vaultPath s' = vaultPath s ->
              calls (executor s').2 = calls s) ->
  calls (withApproval a operation executor s).2 = calls s.
Proof.
  intros H. unfold withApproval, OperationGuard.executeWithApproval.
  destruct (OperationGuard.requiresApproval _ _); [| apply H; reflexivity].
  destruct (OperationGuard.requestApproval _ _ _ _) as [g h].
  destruct (OperationGuard.promiseValue _ _) as [[|] |]; cbn; auto.
Qed.

Lemma readNote_invalid path includeMetadata s e :
  PathValidator.validateWithExtensionValue (cwd s) (vaultPath s) path
  = PathValidator.Invalid e ->
  readNote env path includeMetadata s = (OperationGuard.Thrown (Js.Error e), s).
Proof.
  intros H. unfold readNote. apply bind_thrown. apply validated_invalid. exact H.
Qed.

Lemma writeNote_invalid path content mode s e :
  PathValidator.validateWithExtensionValue (cwd s) (vaultPath s) path
  = PathValidator.Invalid e ->
  writeNote env path content mode s = (OperationGuard.Thrown (Js.Error e), s).
Proof.
  intros H. unfold writeNote. apply bind_thrown. apply validated_invalid. exact H.
Qed.

Lemma addTask_invalid args s e :
  PathValidator.validateWithExtensionValue (cwd s) (vaultPath s) (arg args "notePath")
  = PathValidator.Invalid e ->
  addTask env args s = (OperationGuard.Thrown (Js.Error e), s).
Proof.
  intros H. unfold addTask. apply bind_thrown. apply validated_invalid. exact H.
Qed.

Lemma listNotes_invalid folder recursive includeMetadata s e :
  PathValidator.validateFolderValue (cwd s) (vaultPath s)
    (Js.orDefault folder (Js.Str EmptyString))
  = PathValidator.Invalid e ->
  listNotes env folder recursive includeMetadata s = (OperationGuard.Thrown (Js.Error e), s).
Proof.
  intros H. unfold listNotes. apply bind_thrown. apply validated_invalid. exact H.
Qed.

(** [completeTask] hands its argument to the task store first, as it is. *)
Lemma completeTask_calls taskId s :
  calls (completeTask env taskId s).2 = calls s ++ [TasksCompleteTask taskId].
Proof.
  unfold completeTask, bind, answer.
  destruct (tasks_completeTask env (calls s) taskId); reflexivity.
Qed.

End ToolFacts.

(** ** MCPServer: the paths that reach the collaborators *)

Section EmitFacts.

Import MCPServer.

Variables (cwd0 vaultPath0 : string) (P : Call -> Prop).

Local Abbreviation Emits := (MCPServer.Emits cwd0 vaultPath0 P).

Lemma emits_ret {A} (x : A) : Emits (ret x).
Proof.
  intros s Hc Hv. cbn. repeat split; auto. exists []. rewrite app_nil_r. auto.
Qed.

Lemma emits_throw {A} e : Emits (@throw A e).
Proof.
  intros s Hc Hv. cbn. repeat split; auto. exists []. rewrite app_nil_r. auto.
Qed.

Lemma emits_then s s1 s2 :
  (cwd s1 = cwd0 /\ vaultPath s1 = vaultPath0
   /\ exists new, calls s1 = calls s ++ new /\ Forall P new) ->
  (cwd s1 = cwd0 -> vaultPath s1 = vaultPath0 ->
   cwd s2 = cwd0 /\ vaultPath s2 = vaultPath0
   /\ exists new, calls s2 = calls s1 ++ new /\ Forall P new) ->
  cwd s2 = cwd0 /\ vaultPath s2 = vaultPath0
  /\ exists new, calls s2 = calls s ++ new /\ Forall P new.
Proof.
  intros (Hc & Hv & new1 & E1 & F1) H.
  destruct (H Hc Hv) as (Hc2 & Hv2 & new2 & E2 & F2).
  repeat split; auto. exists (new1 ++ new2). split.
  - rewrite E2, E1, app_assoc. reflexivity.
  - apply Forall_app. auto.
Qed.

Lemma emits_bind {A B} (m : M A) (k : A -> M B) :
  Emits m -> (forall x, Emits (k x)) -> Emits (bind m k).
Proof.
  intros Hm Hk s Hc Hv. unfold bind. specialize (Hm s Hc Hv).
  destruct (m s) as [[x | e |] s1]; cbn in *; try exact Hm.
  apply (emits_then s s1); [exact Hm | apply Hk].
Qed.

Lemma emits_tryCatch {A} (m : M A) (handler : Js.error -> M A) :
  Emits m -> (forall e, Emits (handler e)) -> Emits (tryCatch m handler).
Proof.
  intros Hm Hh s Hc Hv. unfold tryCatch. specialize (Hm s Hc Hv).
  destruct (m s) as [[x | e |] s1]; cbn in *; try exact Hm.
  apply (emits_then s s1); [exact Hm | apply Hh].
Qed.

(** What follows a validation runs with a result of the validator. *)
Lemma emits_validated {B} r (Q : string -> Prop) (k : string -> M B) :
  (forall s sp, cwd s = cwd0 -> vaultPath s = vaultPath0 ->
                r s = PathValidator.Valid sp -> Q sp) ->
  (forall sp, Q sp -> Emits (k sp)) ->
  Emits (bind (validated r) k).
Proof.
  intros Hr Hk s Hc Hv. unfold bind, validated.
  destruct (r s) as [sp | e] eqn:E.
  - apply Hk; eauto.
  - cbn. repeat split; auto. exists []. rewrite app_nil_r. auto.
Qed.

Lemma emits_one s c :
  P c -> cwd s = cwd0 -> vaultPath s = vaultPath0 ->
  cwd (addCall c s) = cwd0 /\ vaultPath (addCall c s) = vaultPath0
  /\ exists new, calls (addCall c s) = calls s ++ new /\ Forall P new.
Proof.
  intros Hp Hc Hv. repeat split; auto. exists [c]. split; [reflexivity |].
  constructor; [exact Hp | constructor].
Qed.

Variable env : Collaborators.

Lemma emits_answer {A} c (reply : list Call -> Reply A) : P c -> Emits (answer c reply).
Proof.
  intros Hp s Hc Hv. unfold answer. destruct (reply (calls s)); apply emits_one; auto.
Qed.

Lemma emits_lookup p :
  P (VaultGetAbstractFileByPath p) -> Emits (vaultGetAbstractFileByPath env p).
Proof. intros Hp s Hc Hv. apply emits_one; auto. Qed.

Lemma emits_files : P VaultGetMarkdownFiles -> Emits (vaultGetMarkdownFiles env).
Proof. intros Hp s Hc Hv. apply emits_one; auto. Qed.

Lemma emits_cache p : P (MetadataGetFileCache p) -> Emits (metadataGetFileCache p).
Proof. intros Hp s Hc Hv. apply emits_one; auto. Qed.

Lemma emits_name : P VaultGetName -> Emits (vaultGetName env).
Proof. intros Hp s Hc Hv. apply emits_one; auto. Qed.

Lemma emits_openUri path : P VaultGetName -> Emits (openUri env path).
Proof.
  intros Hp. unfold openUri. apply emits_bind; [apply emits_name, Hp |].
  intros vaultName.
  destruct (Utf16.encodeURIComponent vaultName); [apply emits_ret | apply emits_throw].
Qed.

Lemma emits_log tool path success error : Emits (logToolCall tool path success error).
Proof.
  intros s Hc Hv. cbn. repeat split; auto. exists []. rewrite app_nil_r. auto.
Qed.

Lemma emits_withApproval a operation executor :
  Emits executor -> Emits (withApproval a operation executor).
Proof.
  intros H s Hc Hv. unfold withApproval, OperationGuard.executeWithApproval.
  destruct (OperationGuard.requiresApproval _ _); [| apply H; auto].
  destruct (OperationGuard.requestApproval _ _ _ _) as [g h].
  destruct (OperationGuard.promiseValue _ _) as [[|] |]; cbn;
    try (repeat split; auto; exists []; rewrite app_nil_r; auto).
  apply (emits_then s (resume a (OperationGuard.run (during a) g) s)).
  - repeat split; auto. exists []. rewrite app_nil_r. auto.
  - intros _ _. apply H; auto.
Qed.

End EmitFacts.

Section SanitizedFacts.

Import MCPServer.

Variables (cwd0 vaultPath0 : string).
Variable env : Collaborators.

Local Abbreviation Sane := (MCPServer.Emits cwd0 vaultPath0 (handsSanitized cwd0 vaultPath0)).

Lemma handsSanitized_none c : pathOf c = None -> handsSanitized cwd0 vaultPath0 c.
Proof. intros H p Hp. congruence. Qed.

Lemma handsSanitized_some c sp :
  pathOf c = Some (Js.Str sp) -> sanitized cwd0 vaultPath0 (Js.Str sp) ->
  handsSanitized cwd0 vaultPath0 c.
Proof. intros H Hs p Hp. rewrite H in Hp. injection Hp as <-. exact Hs. Qed.

Lemma sanitized_extension path s sp :
  cwd s = cwd0 -> vaultPath s = vaultPath0 ->
  PathValidator.validateWithExtensionValue (cwd s) (vaultPath s) path
  = PathValidator.Valid sp ->
  sanitized cwd0 vaultPath0 (Js.Str sp).
Proof. intros <- <- H. exists sp, path. auto. Qed.

Lemma sanitized_folder path s sp :
  cwd s = cwd0 -> vaultPath s = vaultPath0 ->
  PathValidator.validateFolderValue (cwd s) (vaultPath s) path
  = PathValidator.Valid sp ->
  sanitized cwd0 vaultPath0 (Js.Str sp).
Proof. intros <- <- H. exists sp, path. auto. Qed.

Ltac handed :=
  first [ apply handsSanitized_none; reflexivity
        | eapply handsSanitized_some; [reflexivity | eassumption] ].

Ltac emits :=
  repeat first
    [ match goal with
      | |- MCPServer.Emits _ _ _ (ensureFolder _ _) => fail 2
      end
    | apply emits_ret | apply emits_throw | apply emits_log
    | apply emits_openUri; handed
    | apply emits_answer; handed
    | apply emits_lookup; handed
    | apply emits_files; handed
    | apply emits_cache; handed
    | apply emits_bind; [| intros ?]
    | match goal with
      | |- MCPServer.Emits _ _ _ (match ?x with _ => _ end) => destruct x
      | |- MCPServer.Emits _ _ _ (if ?b then _ else _) => destruct b
      end ].

Lemma emits_readNote path includeMetadata : Sane (readNote env path includeMetadata).
Proof.
  unfold readNote, validateWithExtension.
  eapply emits_validated; [intros s sp; apply sanitized_extension |].
  intros sp Hsp. emits.
Qed.

Lemma emits_ensureFolder path : Sane (ensureFolder env path).
Proof.
  unfold ensureFolder, validateFolder.
  eapply emits_validated; [intros s sp; apply sanitized_folder |].
  intros sp Hsp. emits.
Qed.

Lemma emits_writeNote path content mode : Sane (writeNote env path content mode).
Proof.
  unfold writeNote, validateWithExtension. cbv zeta.
  eapply emits_validated; [intros s sp; apply sanitized_extension |].
  intros sp Hsp. emits; apply emits_ensureFolder.
Qed.

Lemma emits_searchVault query mode limit : Sane (searchVault env query mode limit).
Proof. unfold searchVault. cbv zeta. emits. Qed.

Lemma emits_listNotes folder recursive includeMetadata :
  Sane (listNotes env folder recursive includeMetadata).
Proof.
  unfold listNotes, validateFolder. cbv zeta.
  eapply emits_validated; [intros s sp; apply sanitized_folder |].
  intros sp Hsp. emits.
Qed.

Lemma emits_listTasks args : Sane (listTasks env args).
Proof. unfold listTasks. cbv zeta. emits. Qed.

Lemma emits_addTask args : Sane (addTask env args).
Proof.
  unfold addTask, validateWithExtension.
  eapply emits_validated; [intros s sp; apply sanitized_extension |].
  intros sp Hsp. emits.
Qed.

(** Every tool but [complete_task] hands sanitized paths only. *)
Lemma emits_executeTool a tool args :
  tool <> "complete_task" -> Sane (executeTool env a tool args).
Proof.
  intros Htool s. unfold executeTool.
  apply emits_tryCatch; [| intros e; emits].
  repeat match goal with
         | |- MCPServer.Emits _ _ _ (if String.eqb ?t ?n then _ else _) =>
             destruct (String.eqb_spec t n)
         end;
    try contradiction;
    first [ apply emits_readNote | apply emits_searchVault | apply emits_listNotes
          | apply emits_listTasks | apply emits_ret
          | apply emits_withApproval;
            first [apply emits_writeNote | apply emits_addTask] ].
Qed.

End SanitizedFacts.

(** C9: the handler of [complete_task] passes its [taskId] to the task
    store as it is, with no call of the validator, and so does the dispatch
    whenever it runs the handler, that is unless approval is required and
    not given; a task id whose file part is [../../etc/passwd], which
    [validate] refuses, reaches the task store.
    The other tools that take a path ([read_note], [write_note],
    [add_task], [list_notes]) call no collaborator when the validation of
    their path argument fails; and whatever the tool, if it is not
    [complete_task], every path that the dispatch hands to a collaborator
    is a result of the validator. *)
Theorem complete_task_unvalidated env a args s :
  (forall taskId st,
      MCPServer.calls (MCPServer.completeTask env taskId st).2
      = MCPServer.calls st ++ [MCPServer.TasksCompleteTask taskId])
  /\ (let handed :=
        MCPServer.calls s ++ [MCPServer.TasksCompleteTask (MCPServer.arg args "taskId")] in
      let after :=
        MCPServer.calls (MCPServer.executeTool env a "complete_task" args s).2 in
      if OperationGuard.requireApproval (MCPServer.operationGuard s)
      then
        let asked :=
          OperationGuard.requestApproval (MCPServer.clock s) (MCPServer.approvalId a)
            {| OperationGuard.op_tool := "complete_task";
               OperationGuard.op_path := MCPServer.arg args "path";
               OperationGuard.op_action := MCPServer.arg args "mode";
               OperationGuard.op_timestamp := MCPServer.clock s;
               OperationGuard.op_clientId := None |} (MCPServer.operationGuard s) in
        match OperationGuard.promiseValue asked.2
                (OperationGuard.run (MCPServer.during a) asked.1) with
        | Some true => after = handed
        | _ => after = MCPServer.calls s
        end
      else after = handed)
  /\ (TasksAdapter.taskFilePath "../../etc/passwd:1" = "../../etc/passwd"
      /\ PathValidator.validate "/" "/vault" "../../etc/passwd"
         = PathValidator.Invalid "Path contains dangerous pattern"
      /\ PathValidator.validate "/" "/vault" "../../etc/passwd:1"
         = PathValidator.Invalid "Path contains dangerous pattern"
      /\ MCPServer.calls
           (MCPServer.executeTool Sample.collaborators (Sample.answered true)
              "complete_task" {[ "taskId" := Js.Str "../../etc/passwd:1" ]}
              (Sample.server true true)).2
         = [MCPServer.TasksCompleteTask (Js.Str "../../etc/passwd:1")])
  /\ (forall e,
        PathValidator.validateWithExtensionValue (MCPServer.cwd s) (MCPServer.vaultPath s)
          (MCPServer.arg args "path") = PathValidator.Invalid e ->
        MCPServer.calls (MCPServer.executeTool env a "read_note" args s).2
        = MCPServer.calls s
        /\ MCPServer.calls (MCPServer.executeTool env a "write_note" args s).2
           = MCPServer.calls s)
  /\ (forall e,
        PathValidator.validateWithExtensionValue (MCPServer.cwd s) (MCPServer.vaultPath s)
          (MCPServer.arg args "notePath") = PathValidator.Invalid e ->
        MCPServer.calls (MCPServer.executeTool env a "add_task" args s).2
        = MCPServer.calls s)
  /\ (forall e,
        PathValidator.validateFolderValue (MCPServer.cwd s) (MCPServer.vaultPath s)
          (Js.orDefault (MCPServer.arg args "folder") (Js.Str EmptyString))
        = PathValidator.Invalid e ->
        MCPServer.calls (MCPServer.executeTool env a "list_notes" args s).2
        = MCPServer.calls s)
  /\ (forall tool,
        tool <> "complete_task" ->
        exists new,
          MCPServer.calls (MCPServer.executeTool env a tool args s).2
          = MCPServer.calls s ++ new
          /\ Forall (MCPServer.handsSanitized (MCPServer.cwd s) (MCPServer.vaultPath s))
               new).
Proof.
  split; [apply completeTask_calls |].
  split; [| split; [| split; [| split; [| split]]]].
  - cbv zeta.
    change (MCPServer.executeTool env a "complete_task" args s)
      with (MCPServer.tryCatch
              (MCPServer.withApproval a
                 {| OperationGuard.op_tool := "complete_task";
                    OperationGuard.op_path := MCPServer.arg args "path";
                    OperationGuard.op_action := MCPServer.arg args "mode";
                    OperationGuard.op_timestamp := MCPServer.clock s;
                    OperationGuard.op_clientId := None |}
                 (MCPServer.completeTask env (MCPServer.arg args "taskId")))
              (fun error =>
                 MCPServer.bind
                   (MCPServer.logToolCall "complete_task" (MCPServer.arg args "path")
                      false (Some (MCPServer.errorString error)))
                   (fun _ => MCPServer.ret
                      {| MCPServer.content := MCPServer.ErrorText (MCPServer.errorString error);
                         MCPServer.isError := true |})) s).
    rewrite tryCatch_calls by (intros; reflexivity).
    unfold MCPServer.withApproval, OperationGuard.executeWithApproval,
      OperationGuard.requiresApproval.
    unfold MCPServer.getGuard. cbn [OperationGuard.op_tool].
    destruct (OperationGuard.requireApproval (MCPServer.operationGuard s));
      cbn [negb]; [| apply completeTask_calls].
    change (existsb (String.eqb "complete_task") OperationGuard.WRITE_TOOLS) with true.
    cbv iota.
    destruct (OperationGuard.requestApproval _ _ _ _) as [g h]. cbn [fst snd].
    destruct (OperationGuard.promiseValue h _) as [[|] |]; cbn [snd]; try reflexivity.
    apply (completeTask_calls env _ (MCPServer.resume a _ s)).
  - split; [reflexivity |]. split; [vm_compute; reflexivity |].
    split; vm_compute; reflexivity.
  - intros e He. split.
    + change (MCPServer.executeTool env a "read_note" args s)
        with (MCPServer.tryCatch
                (MCPServer.readNote env (MCPServer.arg args "path")
                   (MCPServer.arg args "includeMetadata"))
                (fun error =>
                   MCPServer.bind
                     (MCPServer.logToolCall "read_note" (MCPServer.arg args "path")
                        false (Some (MCPServer.errorString error)))
                     (fun _ => MCPServer.ret
                        {| MCPServer.content := MCPServer.ErrorText (MCPServer.errorString error);
                           MCPServer.isError := true |})) s).
      rewrite tryCatch_calls by (intros; reflexivity).
      rewrite (readNote_invalid env _ _ s e He). reflexivity.
    + change (MCPServer.executeTool env a "write_note" args s)
        with (MCPServer.tryCatch
                (MCPServer.withApproval a
                   {| OperationGuard.op_tool := "write_note";
                      OperationGuard.op_path := MCPServer.arg args "path";
                      OperationGuard.op_action := MCPServer.arg args "mode";
                      OperationGuard.op_timestamp := MCPServer.clock s;
                      OperationGuard.op_clientId := None |}
                   (MCPServer.writeNote env (MCPServer.arg args "path")
                      (MCPServer.arg args "content") (MCPServer.arg args "mode")))
                (fun error =>
                   MCPServer.bind
                     (MCPServer.logToolCall "write_note" (MCPServer.arg args "path")
                        false (Some (MCPServer.errorString error)))
                     (fun _ => MCPServer.ret
                        {| MCPServer.content := MCPServer.ErrorText (MCPServer.errorString error);
                           MCPServer.isError := true |})) s).
      rewrite tryCatch_calls by (intros; reflexivity).
      apply withApproval_calls. intros s' Hc Hw Hv.
      rewrite (writeNote_invalid env _ _ _ s' e); [exact Hc |].
      rewrite Hw, Hv. exact He.
  - intros e He.
    change (MCPServer.executeTool env a "add_task" args s)
      with (MCPServer.tryCatch
              (MCPServer.withApproval a
                 {| OperationGuard.op_tool := "add_task";
                    OperationGuard.op_path := MCPServer.arg args "path";
                    OperationGuard.op_action := MCPServer.arg args "mode";
                    OperationGuard.op_timestamp := MCPServer.clock s;
                    OperationGuard.op_clientId := None |}
                 (MCPServer.addTask env args))
              (fun error =>
                 MCPServer.bind
                   (MCPServer.logToolCall "add_task" (MCPServer.arg args "path")
                      false (Some (MCPServer.errorString error)))
                   (fun _ => MCPServer.ret
                      {| MCPServer.content := MCPServer.ErrorText (MCPServer.errorString error);
                         MCPServer.isError := true |})) s).
    rewrite tryCatch_calls by (intros; reflexivity).
    apply withApproval_calls. intros s' Hc Hw Hv.
    rewrite (addTask_invalid env _ s' e); [exact Hc |].
    rewrite Hw, Hv. exact He.
  - intros e He.
    change (MCPServer.executeTool env a "list_notes" args s)
      with (MCPServer.tryCatch
              (MCPServer.listNotes env (MCPServer.arg args "folder")
                 (MCPServer.arg args "recursive") (MCPServer.arg args "includeMetadata"))
              (fun error =>
                 MCPServer.bind
                   (MCPServer.logToolCall "list_notes" (MCPServer.arg args "path")
                      false (Some (MCPServer.errorString error)))
                   (fun _ => MCPServer.ret
                      {| MCPServer.content := MCPServer.ErrorText (MCPServer.errorString error);
                         MCPServer.isError := true |})) s).
    rewrite tryCatch_calls by (intros; reflexivity).
    rewrite (listNotes_invalid env _ _ _ s e He). reflexivity.
  - intros tool Htool.
    destruct (emits_executeTool (MCPServer.cwd s) (MCPServer.vaultPath s) env a tool args
                Htool s eq_refl eq_refl) as (_ & _ & H).
    exact H.
Qed.

Lemma complete_task_unvalidated_witness :
  let args : gmap string Js.value :=
    {[ "taskId" := Js.Str "../../etc/passwd:1"; "path" := Js.Str "../x" ]} in
  let s := Sample.server true false in
  MCPServer.calls
    (MCPServer.executeTool Sample.collaborators (Sample.answered true)
       "complete_task" args s).2
  = [MCPServer.TasksCompleteTask (Js.Str "../../etc/passwd:1")]
  /\ MCPServer.calls
       (MCPServer.executeTool Sample.collaborators (Sample.answered true)
          "read_note" args s).2
     = [].
Proof.
  intros args s.
  destruct (complete_task_unvalidated Sample.collaborators (Sample.answered true) args s)
    as (_ & Hcomplete & _ & Hpath & _).
  split.
  - cbv zeta in Hcomplete.
    change (OperationGuard.requireApproval (MCPServer.operationGuard s)) with false
      in Hcomplete.
    cbv iota in Hcomplete. rewrite Hcomplete. vm_compute. reflexivity.
  - destruct (Hpath "Path contains dangerous pattern") as [Hread _].
    + vm_compute. reflexivity.
    + rewrite Hread. reflexivity.
Defined.

(** C6, evaluated where the code leaves a call without its audit entry
    although audit logging is enabled: a call of an unknown tool returns
    its error and leaves the whole state, the audit buffer included,
    unchanged; a [search_vault] call with the search tool unavailable
    returns its error and logs nothing; a failing [add_task] call logs one
    entry whose path is [undefined], not the [notePath] that failed.  For
    comparison: a successful [add_task] logs its [notePath], and a failing
    [read_note] logs the path that failed. *)
Theorem audit_entries_missing :
  (forall env a args s,
      MCPServer.executeTool env a "delete_note" args s
      = (OperationGuard.Returned
           {| MCPServer.content := MCPServer.ErrorText "Unknown tool: delete_note";
              MCPServer.isError := true |}, s))
  /\ (forall a args s,
        let out := MCPServer.executeTool Sample.collaborators a "search_vault" args s in
        out.1 = OperationGuard.Returned
                  {| MCPServer.content := MCPServer.QmdUnavailable;
                     MCPServer.isError := true |}
        /\ MCPServer.auditLog out.2 = MCPServer.auditLog s)
  /\ (let out :=
        MCPServer.executeTool Sample.collaborators (Sample.answered true)
          "add_task" {[ "notePath" := Js.Str "../secret" ]} (Sample.server true false) in
      out.1 = OperationGuard.Returned
                {| MCPServer.content :=
                     MCPServer.ErrorText "Error: Path contains dangerous pattern";
                   MCPServer.isError := true |}
      /\ MCPServer.auditLog out.2
         = [{| AuditLogger.timestamp := 1000;
               AuditLogger.type := AuditLogger.tool_call;
               AuditLogger.tool := Some "add_task";
               AuditLogger.path := Js.Undefined;
               AuditLogger.clientId := None;
               AuditLogger.success := false;
               AuditLogger.error := Some "Error: Path contains dangerous pattern";
               AuditLogger.details := None |}])
  /\ (let out :=
        MCPServer.executeTool Sample.collaborators (Sample.answered true)
          "add_task" {[ "notePath" := Js.Str "Inbox.md" ]} (Sample.server true false) in
      MCPServer.auditLog out.2
      = [{| AuditLogger.timestamp := 1000;
            AuditLogger.type := AuditLogger.tool_call;
            AuditLogger.tool := Some "add_task";
            AuditLogger.path := Js.Str "Inbox.md";
            AuditLogger.clientId := None;
            AuditLogger.success := true;
            AuditLogger.error := None;
            AuditLogger.details := None |}])
  /\ (let out :=
        MCPServer.executeTool Sample.collaborators (Sample.answered true)
          "read_note" {[ "path" := Js.Str "../secret" ]} (Sample.server true false) in
      MCPServer.auditLog out.2
      = [{| AuditLogger.timestamp := 1000;
            AuditLogger.type := AuditLogger.tool_call;
            AuditLogger.tool := Some "read_note";
            AuditLogger.path := Js.Str "../secret";
            AuditLogger.clientId := None;
            AuditLogger.success := false;
            AuditLogger.error := Some "Error: Path contains dangerous pattern";
            AuditLogger.details := None |}]).
Proof.
  split; [reflexivity |].
  split; [intros a args s; split; reflexivity |].
  split; [split; vm_compute; reflexivity |].
  split; vm_compute; reflexivity.
Qed.

(** ** MCPServer: the rate limit along a sequence of requests *)

Section FrameFacts.

Import MCPServer.

Lemma sameFront_refl s : sameFront s s.
Proof. repeat split. Qed.

Lemma sameFront_trans s1 s2 s3 : sameFront s1 s2 -> sameFront s2 s3 -> sameFront s1 s3.
Proof.
  unfold sameFront. intros (? & ? & ? & ?) (? & ? & ? & ?).
  repeat split; congruence.
Qed.

Ltac front := repeat split; reflexivity.

Lemma framed_ret {A} (x : A) : Framed (ret x).
Proof. intros s. apply sameFront_refl. Qed.

Lemma framed_throw {A} e : Framed (@throw A e).
Proof. intros s. apply sameFront_refl. Qed.

Lemma framed_bind {A B} (m : M A) (k : A -> M B) :
  Framed m -> (forall x, Framed (k x)) -> Framed (bind m k).
Proof.
  intros Hm Hk s. unfold bind. specialize (Hm s).
  destruct (m s) as [[x | e |] s1]; cbn in *; try exact Hm.
  eapply sameFront_trans; [exact Hm | apply Hk].
Qed.

Lemma framed_tryCatch {A} (m : M A) (handler : Js.error -> M A) :
  Framed m -> (forall e, Framed (handler e)) -> Framed (tryCatch m handler).
Proof.
  intros Hm Hh s. unfold tryCatch. specialize (Hm s).
  destruct (m s) as [[x | e |] s1]; cbn in *; try exact Hm.
  eapply sameFront_trans; [exact Hm | apply Hh].
Qed.

Variable env : Collaborators.

Lemma framed_answer {A} c (reply : list Call -> Reply A) : Framed (answer c reply).
Proof.
  intros s. unfold answer. destruct (reply (calls s)); front.
Qed.

Lemma framed_lookup p : Framed (vaultGetAbstractFileByPath env p).
Proof. intros s. front. Qed.

Lemma framed_files : Framed (vaultGetMarkdownFiles env).
Proof. intros s. front. Qed.

Lemma framed_cache p : Framed (metadataGetFileCache p).
Proof. intros s. front. Qed.

Lemma framed_name : Framed (vaultGetName env).
Proof. intros s. front. Qed.

Lemma framed_openUri path : Framed (openUri env path).
Proof.
  unfold openUri. apply framed_bind; [apply framed_name |].
  intros vaultName.
  destruct (Utf16.encodeURIComponent vaultName); [apply framed_ret | apply framed_throw].
Qed.

Lemma framed_log tool path success error : Framed (logToolCall tool path success error).
Proof. intros s. front. Qed.

Lemma framed_validated r : Framed (validated r).
Proof. intros s. unfold validated. destruct (r s); apply sameFront_refl. Qed.

Lemma framed_withApproval a operation executor :
  Framed executor -> Framed (withApproval a operation executor).
Proof.
  intros H s. unfold withApproval, OperationGuard.executeWithApproval.
  destruct (OperationGuard.requiresApproval _ _); [| apply H].
  destruct (OperationGuard.requestApproval _ _ _ _) as [g h].
  destruct (OperationGuard.promiseValue _ _) as [[|] |]; cbn; try front.
  eapply sameFront_trans; [| apply H]. front.
Qed.

Ltac framed :=
  repeat first
    [ apply framed_ret | apply framed_throw | apply framed_answer
    | apply framed_openUri | apply framed_name
    | apply framed_lookup | apply framed_files | apply framed_cache
    | apply framed_log | apply framed_validated
    | apply framed_bind; [| intros ?]
    | match goal with
      | |- Framed (match ?x with _ => _ end) => destruct x
      | |- Framed (if ?b then _ else _) => destruct b
      end ].

Lemma framed_readNote path includeMetadata : Framed (readNote env path includeMetadata).
Proof. unfold readNote, validateWithExtension. framed. Qed.

Lemma framed_ensureFolder path : Framed (ensureFolder env path).
Proof. unfold ensureFolder, validateFolder. framed. Qed.

Lemma framed_writeNote path content mode : Framed (writeNote env path content mode).
Proof.
  unfold writeNote, validateWithExtension. cbv zeta.
  framed; apply framed_ensureFolder.
Qed.

Lemma framed_searchVault query mode limit : Framed (searchVault env query mode limit).
Proof. unfold searchVault. cbv zeta. framed. Qed.

Lemma framed_listNotes folder recursive includeMetadata :
  Framed (listNotes env folder recursive includeMetadata).
Proof. unfold listNotes, validateFolder. cbv zeta. framed. Qed.

Lemma framed_listTasks args : Framed (listTasks env args).
Proof. unfold listTasks. cbv zeta. framed. Qed.

Lemma framed_addTask args : Framed (addTask env args).
Proof. unfold addTask, validateWithExtension. framed. Qed.

Lemma framed_completeTask taskId : Framed (completeTask env taskId).
Proof. unfold completeTask. framed. Qed.

Lemma framed_executeTool a tool args : Framed (executeTool env a tool args).
Proof.
  intros s. unfold executeTool.
  apply framed_tryCatch; [| intros e; framed].
  repeat match goal with
         | |- Framed (if ?b then _ else _) => destruct b
         end;
    first [ apply framed_readNote | apply framed_searchVault | apply framed_listNotes
          | apply framed_listTasks | apply framed_ret
          | apply framed_withApproval;
            first [apply framed_writeNote | apply framed_addTask | apply framed_completeTask] ].
Qed.

Lemma framed_readJson req : Framed (readJson req).
Proof. intros s. unfold readJson. destruct (body req); front. Qed.

Lemma framed_route a ip cors pathname req : Framed (route env a ip cors pathname req).
Proof.
  intros s. unfold route.
  destruct (String.eqb pathname "/health").
  { apply framed_bind; [apply framed_name | intros ?; apply framed_ret]. }
  destruct (_ && _); [destruct (isLoopback ip); front |].
  destruct (negb _); [front |].
  destruct (_ && _); [front |].
  destruct (_ && _); [| front].
  apply framed_bind; [apply framed_readJson |].
  intros [[[tool arguments] |] |]; try (intros ?; front).
  destruct tool; try (intros ?; front).
  destruct (String.eqb _ _); [intros ?; front |].
  apply framed_bind; [apply framed_executeTool | intros r; apply framed_ret].
Qed.

(** The rate limiter looks at the table and the clock only. *)
Lemma checkRateLimit_depends c s s' :
  requestCounts s = requestCounts s' -> clock s = clock s' ->
  (checkRateLimit c s).1 = (checkRateLimit c s').1
  /\ requestCounts (checkRateLimit c s).2 = requestCounts (checkRateLimit c s').2.
Proof.
  intros Hc Hk. unfold checkRateLimit. rewrite Hc, Hk.
  destruct (requestCounts s' !! c) as [record |]; cbn; [| auto].
  destruct (resetTime record <? clock s')%Z; cbn; [auto |].
  destruct (rateLimit <=? count record)%Z; cbn; auto.
Qed.

Lemma framed_routed a ip cors req : Framed (routed env a ip cors req).
Proof.
  unfold routed. apply framed_bind.
  - intros s. unfold parseUrl. destruct (url req); front.
  - intros pathname.
    apply framed_tryCatch; [apply framed_route | intros e; apply framed_ret].
Qed.

(** A request that is not a preflight leaves the rate table as the rate
    limiter left it. *)
Lemma handleRequest_counts a req s :
  method req <> "OPTIONS" ->
  requestCounts (handleRequest env a req s).2
  = requestCounts (checkRateLimit (clientIp req) s).2.
Proof.
  intros Hm. unfold handleRequest. apply String.eqb_neq in Hm. rewrite Hm.
  destruct (checkRateLimit (clientIp req) s) as [admitted s1]. cbn [snd].
  destruct admitted; cbn [negb]; [| reflexivity].
  destruct (negb (String.eqb (method req) "POST") && negb (String.eqb (method req) "GET"));
    [reflexivity |].
  apply (framed_routed a (clientIp req) (corsOrigin req) req s1).
Qed.

Lemma route_status a ip cors pathname req s r s' :
  route env a ip cors pathname req s = (OperationGuard.Returned r, s') ->
  status r <> 429%Z.
Proof.
  unfold route.
  destruct (String.eqb pathname "/health"); [intros [= <- _]; cbn; discriminate |].
  destruct (_ && _).
  { destruct (isLoopback ip); intros [= <- _]; cbn; discriminate. }
  destruct (negb _); [intros [= <- _]; cbn; discriminate |].
  destruct (_ && _); [intros [= <- _]; cbn; discriminate |].
  destruct (_ && _); [| intros [= <- _]; cbn; discriminate].
  unfold bind, readJson.
  destruct (body req) as [| e | | | tool arguments]; try discriminate;
    try (intros [= <- _]; cbn; discriminate).
  cbn. destruct tool; try (intros [= <- _]; cbn; discriminate).
  destruct (String.eqb _ _); [intros [= <- _]; cbn; discriminate |].
  destruct (executeTool _ _ _ _ _) as [[x | e |] s1]; try discriminate.
  intros [= <- _]. cbn. discriminate.
Qed.

(** An admitted request is never answered 429. *)
Lemma handleRequest_admitted a req s r s' :
  method req <> "OPTIONS" ->
  (checkRateLimit (clientIp req) s).1 = true ->
  handleRequest env a req s = (OperationGuard.Returned r, s') ->
  status r <> 429%Z.
Proof.
  intros Hm Hadm. unfold handleRequest. apply String.eqb_neq in Hm. rewrite Hm.
  destruct (checkRateLimit (clientIp req) s) as [admitted s1]. cbn [fst] in Hadm.
  subst admitted. cbn [negb].
  destruct (negb (String.eqb (method req) "POST") && negb (String.eqb (method req) "GET")).
  - unfold ret. intros [= <- _]. cbn. discriminate.
  - unfold routed, bind, parseUrl. destruct (url req) as [pathname | e];
      [| discriminate].
    cbn. unfold tryCatch.
    destruct (route env a (clientIp req) (corsOrigin req) pathname req s1)
      as [[x | e |] s2] eqn:E.
    + intros [= <- _]. eapply route_status. exact E.
    + unfold ret. intros [= <- _]. cbn. discriminate.
    + discriminate.
Qed.

Lemma earlier_cons c ar i arrs :
  earlier c (S i) (ar :: arrs)
  = (if reachesLimiter (request ar) && String.eqb (clientIp (request ar)) c
     then 1 else 0) + earlier c i arrs.
Proof.
  unfold earlier. cbn [take List.filter]. destruct (_ && _); reflexivity.
Qed.

(** The requests of other clients and the preflights leave the record of
    a client alone. *)
Lemma serve_other d : forall arrs s,
  (forall ar, ar ∈ arrs -> method (request ar) <> "OPTIONS" ->
              clientIp (request ar) <> d) ->
  requestCounts (serve env arrs s).2 !! d = requestCounts s !! d.
Proof.
  induction arrs as [| ar arrs IH]; intros s Hnone; [reflexivity |].
  cbn [serve].
  assert (Hstep : requestCounts
                    (handleRequest env (approval ar) (request ar)
                       (setClock (arrivedAt ar) s)).2 !! d
                  = requestCounts s !! d).
  { destruct (String.eqb_spec (method (request ar)) "OPTIONS") as [Hm | Hm].
    - rewrite (handleRequest_preflight env (approval ar) _ _ Hm). reflexivity.
    - rewrite (handleRequest_counts _ _ _ Hm).
      rewrite checkRateLimit_other; [reflexivity |].
      intros E. apply (Hnone ar); [left | exact Hm | symmetry; exact E]. }
  destruct (handleRequest env (approval ar) (request ar) (setClock (arrivedAt ar) s))
    as [o s1].
  specialize (IH s1). destruct (serve env arrs s1) as [os s2]. cbn [snd] in *.
  rewrite IH; [exact Hstep |].
  intros ar' Hin. apply Hnone. right. exact Hin.
Qed.

(** Inside the window of a client's record, of its requests that reach
    the rate limiter those are admitted that find the count below the
    limit. *)
Lemma serve_window c R : forall arrs s k,
  requestCounts s !! c = Some {| count := k; resetTime := R |} ->
  (forall ar, ar ∈ arrs -> method (request ar) <> "OPTIONS" ->
              clientIp (request ar) = c -> (arrivedAt ar <= R)%Z) ->
  (forall i ar,
     arrs !! i = Some ar -> method (request ar) <> "OPTIONS" ->
     clientIp (request ar) = c ->
     exists o,
       (serve env arrs s).1 !! i = Some o
       /\ if bool_decide (k + Z.of_nat (earlier c i arrs) < rateLimit)%Z
          then forall r, o = OperationGuard.Returned r -> status r <> 429%Z
          else o = OperationGuard.Returned (tooMany (request ar)))
  /\ exists k', requestCounts (serve env arrs s).2 !! c
                = Some {| count := k'; resetTime := R |}.
Proof.
  induction arrs as [| ar arrs IH]; intros s k Hrec Hin.
  - cbn. split; [intros i ar H; discriminate | eauto].
  - cbn [serve].
    set (s0 := setClock (arrivedAt ar) s).
    assert (Hrec0 : requestCounts s0 !! c = Some {| count := k; resetTime := R |})
      by exact Hrec.
    assert (Hin' : forall ar', ar' ∈ arrs -> method (request ar') <> "OPTIONS" ->
                     clientIp (request ar') = c -> (arrivedAt ar' <= R)%Z).
    { intros ar' Hmem. apply Hin. right. exact Hmem. }
    destruct (String.eqb_spec (method (request ar)) "OPTIONS") as [Hm | Hm].
    + rewrite (handleRequest_preflight env (approval ar) _ s0 Hm).
      destruct (IH s0 k Hrec0 Hin') as [Hverd Hk'].
      destruct (serve env arrs s0) as [os s2]. cbn [fst snd] in *.
      split; [| exact Hk'].
      intros [| i] ar' Hi Hm' Hc.
      * injection Hi as <-. contradiction.
      * rewrite lookup_cons in Hi. destruct (Hverd i ar' Hi Hm' Hc) as (o & Ho & H).
        exists o. rewrite lookup_cons. split; [exact Ho |].
        rewrite earlier_cons. unfold reachesLimiter. rewrite Hm. exact H.
    + pose proof (handleRequest_counts (approval ar) (request ar) s0 Hm) as Hcounts.
      pose proof (handleRequest_rate_limited env (approval ar) (request ar) s0 Hm) as Hrej.
      pose proof (handleRequest_admitted (approval ar) (request ar) s0) as Hadm.
      assert (Hlim : reachesLimiter (request ar) = true).
      { unfold reachesLimiter. apply String.eqb_neq in Hm. rewrite Hm. reflexivity. }
      destruct (decide (clientIp (request ar) = c)) as [Hc | Hc].
      * assert (Ht : (clock s0 <= R)%Z) by (apply Hin; [left | exact Hm | exact Hc]).
        rewrite Hc in Hcounts, Hrej, Hadm.
        destruct (checkRateLimit_in_window c s0 k R Hrec0 Ht) as [Hv Hrec1].
        rewrite <- Hcounts in Hrec1.
        destruct (handleRequest env (approval ar) (request ar) s0) as [o s1] eqn:E.
        cbn [snd] in Hrec1.
        destruct (IH s1 _ Hrec1 Hin') as [Hverd Hk'].
        destruct (serve env arrs s1) as [os s2]. cbn [fst snd] in *.
        split; [| exact Hk'].
        intros [| i] ar' Hi Hm' Hc'.
        -- injection Hi as <-. exists o. split; [reflexivity |].
           unfold earlier. cbn [take List.filter List.length].
           replace (k + Z.of_nat 0)%Z with k by lia.
           destruct (bool_decide (k < rateLimit)%Z) eqn:Ek; rewrite ?Ek in Hv.
           ++ intros r ->. eapply Hadm; [exact Hm | exact Hv | reflexivity].
           ++ specialize (Hrej Hv). injection Hrej as -> _. reflexivity.
        -- rewrite lookup_cons in Hi. destruct (Hverd i ar' Hi Hm' Hc') as (o' & Ho & H).
           exists o'. rewrite lookup_cons. split; [exact Ho |].
           rewrite earlier_cons, Hlim, Hc, String.eqb_refl. cbn [andb].
           match goal with
           | |- if bool_decide ?P then _ else _ =>
               match type of H with
               | if bool_decide ?Q then _ else _ =>
                   replace (bool_decide P) with (bool_decide Q); [exact H |]
               end
           end.
           apply bool_decide_ext.
           destruct (bool_decide_reflect (k < rateLimit)%Z); unfold rateLimit in *; lia.
      * assert (Hrec1 : requestCounts
                          (handleRequest env (approval ar) (request ar) s0).2 !! c
                        = Some {| count := k; resetTime := R |}).
        { rewrite Hcounts, checkRateLimit_other by congruence. exact Hrec0. }
        destruct (handleRequest env (approval ar) (request ar) s0) as [o s1] eqn:E.
        cbn [snd] in Hrec1.
        destruct (IH s1 _ Hrec1 Hin') as [Hverd Hk'].
        destruct (serve env arrs s1) as [os s2]. cbn [fst snd] in *.
        split; [| exact Hk'].
        intros [| i] ar' Hi Hm' Hc'.
        -- injection Hi as <-. contradiction.
        -- rewrite lookup_cons in Hi. destruct (Hverd i ar' Hi Hm' Hc') as (o' & Ho & H).
           exists o'. rewrite lookup_cons. split; [exact Ho |].
           rewrite earlier_cons, Hlim.
           apply String.eqb_neq in Hc. rewrite Hc. exact H.
Qed.

(** A preflight is answered 204 wherever it stands in the sequence. *)
Lemma serve_preflight : forall arrs s i ar,
  arrs !! i = Some ar -> method (request ar) = "OPTIONS" ->
  (serve env arrs s).1 !! i
  = Some (OperationGuard.Returned
            {| status := 204; allowOrigin := corsOrigin (request ar);
               payload := NoBody |}).
Proof.
  induction arrs as [| ar0 arrs IH]; intros s i ar Hi Hm; [discriminate |].
  cbn [serve].
  destruct i as [| i].
  - injection Hi as ->.
    rewrite (handleRequest_preflight env (approval ar) _ _ Hm).
    destruct (serve env arrs _) as [os s2]. reflexivity.
  - rewrite lookup_cons in Hi.
    destruct (handleRequest env (approval ar0) (request ar0) _) as [o s1].
    specialize (IH s1 i ar Hi Hm).
    destruct (serve env arrs s1) as [os s2]. exact IH.
Qed.

End FrameFacts.

(** C7, as the claim states it, fails on preflights: of 101 OPTIONS
    requests that one client sends at the same time the 101st is answered
    204 like the others, not 429, and the client has no record in the rate
    table afterwards. *)
Lemma rate_limit_window_preflights :
  let ar := {| MCPServer.arrivedAt := 1000;
               MCPServer.request :=
                 Sample.request "OPTIONS" "/mcp/call" (Some "10.0.0.7") None;
               MCPServer.approval := Sample.answered true |} in
  let served := MCPServer.serve Sample.collaborators (replicate 101 ar)
                  (Sample.server true true) in
  served.1 !! 100
  = Some (OperationGuard.Returned
            {| MCPServer.status := 204; MCPServer.allowOrigin := None;
               MCPServer.payload := MCPServer.NoBody |})
  /\ MCPServer.requestCounts served.2 !! "10.0.0.7" = None.
Proof.
  split; vm_compute; reflexivity.
Qed.

(** C7 (amended): the budget is kept per client address, the remote
    address of the socket, and counts the requests that reach the rate
    limiter, which are all but the preflights.  From the moment a client
    opens a window, of its counted requests handled up to 60000 ms later
    exactly the first 100 are admitted and every later one is answered
    429, whatever other clients do in between; a preflight is answered 204
    wherever it stands and changes nothing.  A rejected request is
    answered 429 whatever its [Authorization] header and its target, and
    leaves the state of the server untouched, while a request that fails
    authentication has been counted.  The requests of one client leave the
    records of the others alone, and a request of another client that has
    no window open is admitted and opens a window of its own, also after
    the first client has used up its budget.  Once the window has elapsed
    the client has no open window again, so that the same holds anew. *)
Theorem rate_limit_window env c t0 s first rest :
  MCPServer.noOpenWindow c t0 s ->
  MCPServer.clientIp (MCPServer.request first) = c ->
  MCPServer.method (MCPServer.request first) <> "OPTIONS" ->
  MCPServer.arrivedAt first = t0 ->
  (forall ar, ar ∈ rest -> MCPServer.method (MCPServer.request ar) <> "OPTIONS" ->
              MCPServer.clientIp (MCPServer.request ar) = c ->
              (MCPServer.arrivedAt ar <= t0 + 60000)%Z) ->
  let arrs := first :: rest in
  let served := MCPServer.serve env arrs s in
  MCPServer.rateLimit = 100%Z
  /\ (forall req,
        MCPServer.clientIp req
        = match MCPServer.remoteAddress req with
          | Some ip => if String.eqb ip EmptyString then "unknown" else ip
          | None => "unknown"
          end)
  /\ (forall i ar,
        arrs !! i = Some ar ->
        MCPServer.method (MCPServer.request ar) <> "OPTIONS" ->
        MCPServer.clientIp (MCPServer.request ar) = c ->
        exists o,
          served.1 !! i = Some o
          /\ if bool_decide (MCPServer.earlier c i arrs < 100)
             then forall r, o = OperationGuard.Returned r -> MCPServer.status r <> 429%Z
             else o = OperationGuard.Returned (MCPServer.tooMany (MCPServer.request ar)))
  /\ (forall i ar,
        arrs !! i = Some ar ->
        MCPServer.method (MCPServer.request ar) = "OPTIONS" ->
        served.1 !! i
        = Some (OperationGuard.Returned
                  {| MCPServer.status := 204;
                     MCPServer.allowOrigin := MCPServer.corsOrigin (MCPServer.request ar);
                     MCPServer.payload := MCPServer.NoBody |}))
  /\ (forall a req st,
        MCPServer.method req = "OPTIONS" ->
        MCPServer.handleRequest env a req st
        = (OperationGuard.Returned
             {| MCPServer.status := 204;
                MCPServer.allowOrigin := MCPServer.corsOrigin req;
                MCPServer.payload := MCPServer.NoBody |}, st))
  /\ (forall a req st,
        MCPServer.method req <> "OPTIONS" ->
        (MCPServer.checkRateLimit (MCPServer.clientIp req) st).1 = false ->
        MCPServer.handleRequest env a req st
        = (OperationGuard.Returned (MCPServer.tooMany req), st))
  /\ (forall d,
        d <> c ->
        (forall ar, ar ∈ rest -> MCPServer.method (MCPServer.request ar) <> "OPTIONS" ->
                    MCPServer.clientIp (MCPServer.request ar) <> d) ->
        MCPServer.requestCounts served.2 !! d = MCPServer.requestCounts s !! d)
  /\ (forall a req t,
        MCPServer.method req <> "OPTIONS" ->
        MCPServer.clientIp req <> c ->
        MCPServer.noOpenWindow (MCPServer.clientIp req) t s ->
        (forall ar, ar ∈ rest -> MCPServer.method (MCPServer.request ar) <> "OPTIONS" ->
                    MCPServer.clientIp (MCPServer.request ar) <> MCPServer.clientIp req) ->
        let out := MCPServer.handleRequest env a req (MCPServer.setClock t served.2) in
        (forall r, out.1 = OperationGuard.Returned r -> MCPServer.status r <> 429%Z)
        /\ MCPServer.requestCounts out.2 !! MCPServer.clientIp req
           = Some {| MCPServer.count := 1; MCPServer.resetTime := (t + 60000)%Z |})
  /\ (forall t, (t0 + 60000 < t)%Z -> MCPServer.noOpenWindow c t served.2)
  /\ (forall a req st pathname,
        MCPServer.method req = "GET" \/ MCPServer.method req = "POST" ->
        (MCPServer.checkRateLimit (MCPServer.clientIp req) st).1 = true ->
        MCPServer.url req = MCPServer.Ok pathname ->
        pathname <> "/health" ->
        ~ (pathname = "/auth/token" /\ MCPServer.method req = "GET") ->
        MCPServer.authorization req <> Some ("Bearer " +:+ MCPServer.authToken st) ->
        (MCPServer.handleRequest env a req st).2
        = (MCPServer.checkRateLimit (MCPServer.clientIp req) st).2).
Proof.
  intros Hopen Hc Hm0 Ht0 Hin arrs served.
  (* the first request opens the window *)
  set (s0 := MCPServer.setClock t0 s).
  assert (Hopen0 : MCPServer.noOpenWindow c (MCPServer.clock s0) s0) by exact Hopen.
  destruct (checkRateLimit_opens c s0 Hopen0) as [Hv0 Hrec0].
  cbn [MCPServer.clock MCPServer.setClock s0] in Hrec0. fold s0 in Hrec0.
  pose proof (handleRequest_counts env (MCPServer.approval first) (MCPServer.request first)
                s0 Hm0) as Hcounts0.
  pose proof (handleRequest_admitted env (MCPServer.approval first)
                (MCPServer.request first) s0) as Hadm0.
  rewrite Hc in Hcounts0, Hadm0.
  assert (Hother0 : forall d, d <> c ->
            MCPServer.requestCounts
              (MCPServer.handleRequest env (MCPServer.approval first)
                 (MCPServer.request first) s0).2 !! d
            = MCPServer.requestCounts s !! d).
  { intros d Hd. rewrite Hcounts0. apply (checkRateLimit_other c d s0 Hd). }
  assert (Hrec1 : MCPServer.requestCounts
                    (MCPServer.handleRequest env (MCPServer.approval first)
                       (MCPServer.request first) s0).2 !! c
                  = Some {| MCPServer.count := 1;
                            MCPServer.resetTime := (t0 + 60000)%Z |}).
  { rewrite Hcounts0. exact Hrec0. }
  assert (Eserved : served
                    = let '(o, s1) :=
                        MCPServer.handleRequest env (MCPServer.approval first)
                          (MCPServer.request first) s0 in
                      let '(os, s2) := MCPServer.serve env rest s1 in
                      (o :: os, s2)).
  { unfold served, arrs, s0. cbn [MCPServer.serve]. rewrite Ht0. reflexivity. }
  destruct (MCPServer.handleRequest env (MCPServer.approval first)
              (MCPServer.request first) s0) as [o1 s1] eqn:E1.
  cbn [snd] in Hother0, Hrec1.
  destruct (serve_window env c (t0 + 60000)%Z rest s1 1%Z Hrec1 Hin) as [Hverd [k' Hk']].
  assert (Hothers : forall d,
            d <> c ->
            (forall ar, ar ∈ rest -> MCPServer.method (MCPServer.request ar) <> "OPTIONS" ->
                        MCPServer.clientIp (MCPServer.request ar) <> d) ->
            MCPServer.requestCounts served.2 !! d = MCPServer.requestCounts s !! d).
  { intros d Hd Hnone. rewrite Eserved.
    pose proof (serve_other env d rest s1 Hnone) as H.
    destruct (MCPServer.serve env rest s1) as [os s2]. cbn [snd] in *.
    rewrite H. apply Hother0, Hd. }
  split; [reflexivity |]. split; [reflexivity |].
  split; [| split; [| split; [| split; [| split; [| split; [| split]]]]]].
  - intros i ar Hi Hm Hcl. rewrite Eserved.
    destruct (MCPServer.serve env rest s1) as [os s2]. cbn [fst snd] in *.
    destruct i as [| i].
    + injection Hi as <-. exists o1. split; [reflexivity |].
      intros r ->. eapply Hadm0; [exact Hm0 | exact Hv0 | reflexivity].
    + change (rest !! i = Some ar) in Hi.
      destruct (Hverd i ar Hi Hm Hcl) as (o & Ho & H).
      exists o. rewrite lookup_cons. split; [exact Ho |].
      unfold arrs. rewrite earlier_cons.
      assert (Hlim : MCPServer.reachesLimiter (MCPServer.request first) = true).
      { unfold MCPServer.reachesLimiter. apply String.eqb_neq in Hm0. rewrite Hm0.
        reflexivity. }
      rewrite Hlim, Hc, String.eqb_refl. cbn [andb].
      match goal with
      | |- if bool_decide ?P then _ else _ =>
          match type of H with
          | if bool_decide ?Q then _ else _ =>
              replace (bool_decide P) with (bool_decide Q); [exact H |]
          end
      end.
      apply bool_decide_ext. unfold MCPServer.rateLimit. lia.
  - intros i ar Hi Hm. apply serve_preflight; assumption.
  - intros a req st Hm. apply handleRequest_preflight. exact Hm.
  - intros a req st. apply handleRequest_rate_limited.
  - exact Hothers.
  - intros a req t Hm Hne Hopen' Hnone out.
    set (st := MCPServer.setClock t served.2).
    assert (Hopen'' : MCPServer.noOpenWindow (MCPServer.clientIp req)
                        (MCPServer.clock st) st).
    { unfold MCPServer.noOpenWindow, st.
      cbn [MCPServer.clock MCPServer.requestCounts MCPServer.setClock].
      rewrite (Hothers _ Hne Hnone). exact Hopen'. }
    destruct (checkRateLimit_opens _ st Hopen'') as [Hv Hrec].
    split.
    + intros r Hr. unfold out in Hr. fold st in Hr.
      destruct (MCPServer.handleRequest env a req st) as [o s'] eqn:E.
      cbn [fst] in Hr. subst o.
      eapply handleRequest_admitted; [exact Hm | exact Hv | exact E].
    + unfold out. fold st. rewrite (handleRequest_counts env a req st Hm). exact Hrec.
  - intros t Ht. unfold MCPServer.noOpenWindow. rewrite Eserved.
    destruct (MCPServer.serve env rest s1) as [os s2]. cbn [snd] in *.
    rewrite Hk'. exact Ht.
  - intros a req st pathname Hgp Hadm Hu Hh Htok Hauth.
    rewrite (handleRequest_routes env a req st pathname Hadm Hgp Hu).
    unfold MCPServer.tryCatch.
    destruct (checkRateLimit_frame (MCPServer.clientIp req) st) as (Htk & _).
    rewrite route_unauthorized; [reflexivity | exact Hh | exact Htok |].
    apply not_true_is_false. rewrite authorized_spec, Htk. exact Hauth.
Qed.

Lemma rate_limit_window_witness :
  let arrival method address :=
    {| MCPServer.arrivedAt := 1000;
       MCPServer.request := Sample.request method "/mcp/tools" (Some address) None;
       MCPServer.approval := Sample.answered true |} in
  let arrs :=
    replicate 50 (arrival "GET" "127.0.0.1")
    ++ [arrival "OPTIONS" "127.0.0.1"; arrival "GET" "10.0.0.7"]
    ++ replicate 51 (arrival "GET" "127.0.0.1") in
  let served := MCPServer.serve Sample.collaborators arrs (Sample.server true true) in
  (exists o, served.1 !! 101 = Some o
             /\ forall r, o = OperationGuard.Returned r -> MCPServer.status r <> 429%Z)
  /\ served.1 !! 102
     = Some (OperationGuard.Returned
               (MCPServer.tooMany (MCPServer.request (arrival "GET" "127.0.0.1"))))
  /\ (forall r,
        (MCPServer.handleRequest Sample.collaborators (Sample.answered true)
           (MCPServer.request (arrival "GET" "192.168.1.20"))
           (MCPServer.setClock 1000 served.2)).1
        = OperationGuard.Returned r ->
        MCPServer.status r <> 429%Z).
Proof.
  intros arrival arrs served.
  destruct (rate_limit_window Sample.collaborators "127.0.0.1" 1000%Z
              (Sample.server true true) (arrival "GET" "127.0.0.1")
              (replicate 49 (arrival "GET" "127.0.0.1")
               ++ [arrival "OPTIONS" "127.0.0.1"; arrival "GET" "10.0.0.7"]
               ++ replicate 51 (arrival "GET" "127.0.0.1")))
    as (_ & _ & Hverd & _ & _ & _ & _ & Hdiff & _).
  - exact I.
  - reflexivity.
  - discriminate.
  - reflexivity.
  - intros ar Hmem _ _.
    assert (E : MCPServer.arrivedAt ar = 1000%Z).
    { apply elem_of_app in Hmem as [Hmem | Hmem];
        [apply elem_of_replicate in Hmem as [-> _]; reflexivity |].
      apply elem_of_app in Hmem as [Hmem | Hmem];
        [| apply elem_of_replicate in Hmem as [-> _]; reflexivity].
      apply elem_of_cons in Hmem as [-> | Hmem]; [reflexivity |].
      apply list_elem_of_singleton in Hmem as ->. reflexivity. }
    rewrite E. lia.
  - change (arrival "GET" "127.0.0.1"
            :: replicate 49 (arrival "GET" "127.0.0.1")
               ++ [arrival "OPTIONS" "127.0.0.1"; arrival "GET" "10.0.0.7"]
               ++ replicate 51 (arrival "GET" "127.0.0.1")) with arrs in Hverd, Hdiff.
    fold served in Hverd, Hdiff.
    split; [| split].
    + destruct (Hverd 101 (arrival "GET" "127.0.0.1")) as (o & Ho & H);
        [reflexivity | discriminate | reflexivity |].
      exists o. split; [exact Ho |].
      match type of H with
      | (if ?b then _ else _) =>
          assert (E : b = true) by (vm_compute; reflexivity); rewrite E in H
      end.
      exact H.
    + destruct (Hverd 102 (arrival "GET" "127.0.0.1")) as (o & Ho & H);
        [reflexivity | discriminate | reflexivity |].
      match type of H with
      | (if ?b then _ else _) =>
          assert (E : b = false) by (vm_compute; reflexivity); rewrite E in H
      end.
      rewrite Ho, H. reflexivity.
    + apply (Hdiff (Sample.answered true)
               (MCPServer.request (arrival "GET" "192.168.1.20")) 1000%Z).
      * discriminate.
      * discriminate.
      * exact I.
      * intros ar Hmem _.
        assert (E : MCPServer.clientIp (MCPServer.request ar) = "127.0.0.1"
                    \/ MCPServer.clientIp (MCPServer.request ar) = "10.0.0.7").
        { apply elem_of_app in Hmem as [Hmem | Hmem];
            [apply elem_of_replicate in Hmem as [-> _]; left; reflexivity |].
          apply elem_of_app in Hmem as [Hmem | Hmem];
            [| apply elem_of_replicate in Hmem as [-> _]; left; reflexivity].
          apply elem_of_cons in Hmem as [-> | Hmem]; [left; reflexivity |].
          apply list_elem_of_singleton in Hmem as ->. right. reflexivity. }
        destruct E as [-> | ->]; discriminate.
Defined.

(** * Further properties of the code *)

(** ** PathValidator: folders, safe resolution, the prefix test *)

Section PathTailFacts.

Lemma startsWith_char_append c x y :
  x <> EmptyString -> Js.startsWith (String c EmptyString) (x +:+ y)
                      = Js.startsWith (String c EmptyString) x.
Proof. destruct x as [|a x]; [contradiction | reflexivity]. Qed.

Lemma rev_nonempty x : x <> EmptyString -> Js.rev x <> EmptyString.
Proof. intros H E. apply H, rev_empty, E. Qed.

(** Whether a string ends with a slash depends on its last part only. *)
Lemma endsWith_append x n :
  n <> EmptyString -> Js.endsWith "/" (x +:+ n) = Js.endsWith "/" n.
Proof.
  intros H. unfold Js.endsWith. rewrite rev_append.
  change (Js.rev "/") with "/".
  apply startsWith_char_append, rev_nonempty, H.
Qed.

Lemma endsWith_slashfree s : ~ Spec.contains "/" s -> Js.endsWith "/" s = false.
Proof.
  intros H. unfold Js.endsWith. change (Js.rev "/") with "/".
  destruct (Js.startsWith "/" (Js.rev s)) eqn:E; [| reflexivity].
  destruct H. apply startsWith_spec in E as [rest E].
  change "/" with (Js.rev "/"). apply contains_rev.
  exists EmptyString, rest. exact E.
Qed.

Lemma replaceNbsp_append x y :
  Obsidian.replaceNbsp (x +:+ y) = Obsidian.replaceNbsp x +:+ Obsidian.replaceNbsp y.
Proof.
  induction x as [|c x IH]; [reflexivity |].
  rewrite append_cons. cbn [Obsidian.replaceNbsp]. rewrite IH. reflexivity.
Qed.

Lemma rev_cons c x : Js.rev (String c x) = Js.rev x +:+ String c EmptyString.
Proof. change (String c x) with (String c EmptyString +:+ x). apply rev_append. Qed.

Lemma replaceNbsp_rev x : Obsidian.replaceNbsp (Js.rev x) = Js.rev (Obsidian.replaceNbsp x).
Proof.
  induction x as [|c x IH]; [reflexivity |].
  cbn [Obsidian.replaceNbsp]. rewrite !rev_cons, replaceNbsp_append, IH. reflexivity.
Qed.

Lemma normalizePath_nonempty s : Obsidian.normalizePath s <> EmptyString.
Proof.
  unfold Obsidian.normalizePath. cbv zeta.
  destruct (String.eqb_spec (Obsidian.stripSlashes (Obsidian.collapseSlashes false s))
              EmptyString) as [E | E]; [discriminate |].
  destruct (Obsidian.stripSlashes _); [contradiction | discriminate].
Qed.

(** Apart from [/] itself, a normalised path does not end with a slash. *)
Lemma normalizePath_tail s :
  Obsidian.normalizePath s <> "/" -> Js.endsWith "/" (Obsidian.normalizePath s) = false.
Proof.
  unfold Obsidian.normalizePath. cbv zeta.
  destruct (String.eqb_spec (Obsidian.stripSlashes (Obsidian.collapseSlashes false s))
              EmptyString) as [E | E]; [intros []; reflexivity |].
  intros _. unfold Js.endsWith. change (Js.rev "/") with "/".
  rewrite <- replaceNbsp_rev. apply replaceNbsp_head.
  unfold Obsidian.stripSlashes. rewrite rev_involutive. apply strip_head.
Qed.

Lemma stripTrailing_id r :
  Js.startsWith "/" r = false -> PathValidator.stripTrailingSlashesRev r = r.
Proof.
  destruct r as [|c r]; [reflexivity |]. intros H. cbn [PathValidator.stripTrailingSlashesRev].
  change (Ascii.eqb "/" c && true = false) in H.
  rewrite andb_true_r, Ascii.eqb_sym in H. rewrite H. reflexivity.
Qed.

Lemma stripTrailing_head r :
  Js.startsWith "/" (PathValidator.stripTrailingSlashesRev r) = false.
Proof.
  induction r as [|c r IH]; [reflexivity |]. cbn [PathValidator.stripTrailingSlashesRev].
  destruct (Ascii.eqb c "/") eqn:E; [exact IH |].
  change (Ascii.eqb "/" c && true = false).
  rewrite andb_true_r, Ascii.eqb_sym. exact E.
Qed.

End PathTailFacts.

(** [validateFolder] takes the empty path for the root of the vault; any
    other path it accepts exactly when [validate] accepts it, with the
    same error otherwise.  Its result never ends with a slash, and it is
    the sanitized path of [validate], except that [/] becomes the empty
    path. *)
Theorem validateFolder_spec cwd root s :
  PathValidator.validateFolder cwd root EmptyString = PathValidator.Valid EmptyString
  /\ (s <> EmptyString ->
      forall e, PathValidator.validate cwd root s = PathValidator.Invalid e ->
                PathValidator.validateFolder cwd root s = PathValidator.Invalid e)
  /\ (s <> EmptyString ->
      forall sanitized,
        PathValidator.validate cwd root s = PathValidator.Valid sanitized ->
        PathValidator.validateFolder cwd root s
        = PathValidator.Valid (if String.eqb sanitized "/" then EmptyString else sanitized))
  /\ (forall folder,
        PathValidator.validateFolder cwd root s = PathValidator.Valid folder ->
        Js.endsWith "/" folder = false).
Proof.
  split; [reflexivity |].
  assert (Hvalid : s <> EmptyString -> forall sanitized,
             PathValidator.validate cwd root s = PathValidator.Valid sanitized ->
             PathValidator.validateFolder cwd root s
             = PathValidator.Valid (if String.eqb sanitized "/" then EmptyString
                                    else sanitized)).
  { intros Hs sanitized H. unfold PathValidator.validateFolder.
    apply String.eqb_neq in Hs. rewrite Hs, H. f_equal.
    apply validate_valid_inv in H as (_ & _ & _ & _ & ->).
    destruct (String.eqb_spec (Obsidian.normalizePath s) "/") as [E | E].
    - rewrite E. reflexivity.
    - rewrite stripTrailing_id; [apply rev_involutive |].
      apply (normalizePath_tail s E). }
  split; [| split; [exact Hvalid |]].
  - intros Hs e H. unfold PathValidator.validateFolder.
    apply String.eqb_neq in Hs. rewrite Hs, H. reflexivity.
  - intros folder H.
    destruct (String.eqb_spec s EmptyString) as [-> | Hs].
    + injection H as <-. reflexivity.
    + destruct (PathValidator.validate cwd root s) as [sanitized | e] eqn:E.
      * rewrite (Hvalid Hs _ eq_refl) in H. injection H as <-.
        apply validate_valid_inv in E as (_ & _ & _ & _ & ->).
        destruct (String.eqb_spec (Obsidian.normalizePath s) "/") as [E | E];
          [reflexivity | apply normalizePath_tail, E].
      * unfold PathValidator.validateFolder in H.
        apply String.eqb_neq in Hs. rewrite Hs, E in H. discriminate.
Qed.

Lemma validateFolder_spec_witness :
  PathValidator.validateFolder "/" "/vault" "Projects\2026\"
  = PathValidator.Valid "Projects/2026"
  /\ PathValidator.validateFolder "/" "/vault" "../x"
     = PathValidator.Invalid "Path contains dangerous pattern".
Proof.
  destruct (validateFolder_spec "/" "/vault" "Projects\2026\") as (_ & _ & Hv & _).
  destruct (validateFolder_spec "/" "/vault" "../x") as (_ & Hi & _ & _).
  split.
  - rewrite (Hv ltac:(discriminate) "Projects/2026"); [reflexivity |].
    vm_compute. reflexivity.
  - apply Hi; [discriminate |]. vm_compute. reflexivity.
Defined.

Section JoinFacts.

Lemma split_trailing s :
  Js.split "/" (s +:+ "/") = Js.split "/" s ++ [EmptyString].
Proof. apply (split_append "/" s EmptyString). Qed.

(** A slash at the end of a path adds nothing to its normal form. *)
Lemma normalizeString_trailing s b :
  NodePath.normalizeString (s +:+ "/") b = NodePath.normalizeString s b.
Proof.
  unfold NodePath.normalizeString.
  rewrite split_trailing, fold_left_app. reflexivity.
Qed.

(** Under an absolute root, [path.join] and [path.resolve] agree on a
    relative path that does not end with a slash. *)
Lemma join_resolve cwd root n :
  Js.startsWith "/" root = true ->
  n <> EmptyString -> Js.startsWith "/" n = false -> Js.endsWith "/" n = false ->
  NodePath.join [root; n] = NodePath.resolve cwd [root; n].
Proof.
  intros Hroot Hn Hrel Htail.
  rewrite resolve_relative by assumption.
  unfold NodePath.join. cbn [List.filter].
  assert (Er : String.eqb root EmptyString = false)
    by (destruct root; [discriminate | reflexivity]).
  apply String.eqb_neq in Hn as En. rewrite Er, En. cbn [negb Js.join].
  unfold NodePath.normalize.
  assert (Ej : String.eqb (root +:+ "/" +:+ n) EmptyString = false)
    by (destruct root; [discriminate | reflexivity]).
  rewrite Ej.
  assert (Ea : Js.startsWith "/" (root +:+ "/" +:+ n) = true).
  { destruct root as [|c root]; [discriminate | exact Hroot]. }
  rewrite Ea. cbn [negb].
  replace (Js.endsWith "/" (root +:+ "/" +:+ n)) with false.
  2:{ symmetry. rewrite <- append_assoc, endsWith_append by exact Hn. exact Htail. }
  change (root +:+ String "/" (n +:+ String "/" EmptyString))
    with (root +:+ "/" +:+ (n +:+ "/")).
  rewrite <- !append_assoc, normalizeString_trailing.
  destruct (String.eqb_spec (NodePath.normalizeString ((root +:+ "/") +:+ n) false)
              EmptyString) as [-> | _]; reflexivity.
Qed.

Lemma inside_slash root :
  Js.startsWith "/" root = true -> Spec.inside root "/" -> root = "/".
Proof.
  intros Hroot [H | [rest H]]; [auto |].
  unfold PathValidator.vaultWithSep in H.
  destruct root as [|c root]; [discriminate |].
  destruct (Js.endsWith "/" (String c root)).
  - rewrite append_cons in H. injection H as <- H.
    destruct root; [reflexivity | discriminate].
  - rewrite !append_cons in H. injection H as <- H.
    destruct root; discriminate.
Qed.

End JoinFacts.

(** Under an absolute root, [resolveSafe] returns [null] exactly when
    [validate] refuses the path; otherwise it returns the absolute path
    that [validate] checked, which is the root or lies below it. *)
Theorem resolveSafe_spec cwd root s :
  Js.startsWith "/" root = true ->
  (PathValidator.resolveSafe cwd root s = None
   <-> exists e, PathValidator.validate cwd root s = PathValidator.Invalid e)
  /\ (forall absolutePath,
        PathValidator.resolveSafe cwd root s = Some absolutePath ->
        absolutePath = NodePath.resolve cwd [root; Obsidian.normalizePath s]
        /\ Spec.inside root absolutePath).
Proof.
  intros Hroot. unfold PathValidator.resolveSafe.
  destruct (PathValidator.validate cwd root s) as [sanitized | e] eqn:E.
  - apply validate_valid_inv in E as (_ & Hf & Hin & _ & ->).
    assert (En : String.eqb (Obsidian.normalizePath s) EmptyString = false)
      by (apply String.eqb_neq, normalizePath_nonempty).
    rewrite En.
    assert (Ej : NodePath.join [root; Obsidian.normalizePath s]
                 = NodePath.resolve cwd [root; Obsidian.normalizePath s]).
    { destruct (String.eqb_spec (Obsidian.normalizePath s) "/") as [E | E].
      - unfold Spec.denoted in Hin. rewrite E in Hin |- *.
        assert (Hr : NodePath.resolve cwd [root; "/"] = "/").
        { unfold NodePath.resolve. cbn [List.rev app NodePath.resolveLoop].
          reflexivity. }
        rewrite Hr in Hin |- *.
        rewrite (inside_slash root Hroot Hin). reflexivity.
      - destruct (normalizePath_relative s E) as [Hne Hrel].
        apply join_resolve; auto. apply normalizePath_tail, E. }
    split.
    + split; [discriminate | intros [e He]; discriminate].
    + intros absolutePath H. injection H as <-. rewrite Ej. split; [reflexivity | exact Hin].
  - split.
    + split; [eauto | reflexivity].
    + intros absolutePath H. discriminate.
Qed.

Lemma resolveSafe_spec_witness :
  PathValidator.resolveSafe "/home/me" "/vault" "Inbox\today.md" = Some "/vault/Inbox/today.md"
  /\ Spec.inside "/vault" "/vault/Inbox/today.md"
  /\ PathValidator.resolveSafe "/home/me" "/vault" "../etc/passwd" = None.
Proof.
  destruct (resolveSafe_spec "/home/me" "/vault" "Inbox\today.md" eq_refl) as [_ H].
  destruct (resolveSafe_spec "/home/me" "/vault" "../etc/passwd" eq_refl) as [[_ Hn] _].
  assert (E : PathValidator.resolveSafe "/home/me" "/vault" "Inbox\today.md"
              = Some "/vault/Inbox/today.md") by (vm_compute; reflexivity).
  split; [exact E |]. split.
  - apply (H _ E).
  - apply Hn. eexists. vm_compute. reflexivity.
Defined.

Section SiblingFacts.

(** A normalised absolute path resolves to itself. *)
Lemma resolve_absolute cwd segs :
  Forall Spec.name segs ->
  NodePath.resolve cwd [Spec.absolute segs] = Spec.absolute segs.
Proof.
  intros H. unfold NodePath.resolve.
  cbn [List.rev app NodePath.resolveLoop].
  change (String.eqb (Spec.absolute segs) EmptyString) with false. cbv iota.
  change (Js.startsWith "/" (Spec.absolute segs)) with true.
  cbn [NodePath.resolveLoop negb]. cbv iota.
  unfold NodePath.normalizeString.
  change (Spec.absolute segs +:+ "/" +:+ EmptyString)
    with (EmptyString +:+ String "/" (Js.join "/" segs +:+ String "/" EmptyString)).
  rewrite !split_append, !fold_left_app.
  change (Js.split "/" EmptyString) with [EmptyString].
  cbn [fold_left]. rewrite !pushSegment_empty.
  rewrite push_names by exact H.
  rewrite app_nil_r, List.rev_involutive. reflexivity.
Qed.

Lemma join_last sep segs last t :
  Js.join sep (segs ++ [last]) +:+ t = Js.join sep (segs ++ [last +:+ t]).
Proof.
  induction segs as [|p segs IH]; [reflexivity |].
  destruct segs as [|q segs].
  - cbn [app Js.join]. rewrite !append_assoc. reflexivity.
  - change (Js.join sep ((p :: q :: segs) ++ [last]))
      with (p +:+ sep +:+ Js.join sep ((q :: segs) ++ [last])).
    change (Js.join sep ((p :: q :: segs) ++ [last +:+ t]))
      with (p +:+ sep +:+ Js.join sep ((q :: segs) ++ [last +:+ t])).
    rewrite <- IH, !append_assoc. reflexivity.
Qed.

Lemma absolute_last segs last t :
  Spec.absolute (segs ++ [last +:+ t]) = Spec.absolute (segs ++ [last]) +:+ t.
Proof.
  unfold Spec.absolute. rewrite <- join_last, append_assoc. reflexivity.
Qed.

Lemma startsWith_append p s : Js.startsWith p (p +:+ s) = true.
Proof. apply startsWith_spec. exists s. reflexivity. Qed.

Lemma startsWith_cancel p x y :
  Js.startsWith (p +:+ x) (p +:+ y) = Js.startsWith x y.
Proof.
  induction p as [|c p IH]; [reflexivity |].
  rewrite !append_cons. cbn [Js.startsWith]. rewrite Ascii.eqb_refl. exact IH.
Qed.

Lemma endsWith_absolute segs last :
  Spec.name last -> Js.endsWith "/" (Spec.absolute (segs ++ [last])) = false.
Proof.
  intros (Hne & _ & _ & Hs).
  replace (Spec.absolute (segs ++ [last]))
    with (Spec.absolute (segs ++ [EmptyString]) +:+ last).
  - rewrite endsWith_append by exact Hne. apply endsWith_slashfree, Hs.
  - symmetry. apply (absolute_last segs EmptyString last).
Qed.

End SiblingFacts.

(** [isWithinVault] accepts every absolute path that the containment
    test of [validate] accepts, and more: under a root [/a/b] it accepts
    the sibling [/a/bc], which that test refuses. *)
Theorem isWithinVault_prefix cwd segs last t :
  Forall Spec.name segs -> Spec.name last -> Spec.name (last +:+ t) ->
  t <> EmptyString ->
  let root := Spec.absolute (segs ++ [last]) in
  let sibling := Spec.absolute (segs ++ [last +:+ t]) in
  (forall absolutePath,
      PathValidator.withinVault root (NodePath.resolve cwd [absolutePath]) = true ->
      PathValidator.isWithinVault cwd root absolutePath = true)
  /\ PathValidator.isWithinVault cwd root sibling = true
  /\ PathValidator.withinVault root (NodePath.resolve cwd [sibling]) = false.
Proof.
  intros Hsegs Hlast Hnew Ht root sibling.
  assert (Hres : NodePath.resolve cwd [sibling] = root +:+ t).
  { unfold sibling. rewrite resolve_absolute.
    - apply absolute_last.
    - apply Forall_app. split; [exact Hsegs | constructor; [exact Hnew | constructor]]. }
  split; [| split].
  - intros absolutePath H. unfold PathValidator.isWithinVault.
    unfold PathValidator.withinVault in H. apply orb_true_iff in H as [H | H].
    + apply String.eqb_eq in H. rewrite H.
      rewrite <- (append_empty_r root) at 2. apply startsWith_append.
    + apply startsWith_spec in H as [rest H]. rewrite H.
      unfold PathValidator.vaultWithSep.
      destruct (Js.endsWith "/" root).
      * apply startsWith_append.
      * rewrite append_assoc. apply startsWith_append.
  - unfold PathValidator.isWithinVault. rewrite Hres. apply startsWith_append.
  - rewrite Hres. unfold PathValidator.withinVault, PathValidator.vaultWithSep.
    unfold root at 3. rewrite endsWith_absolute by exact Hlast. fold root.
    apply orb_false_iff. split.
    + apply String.eqb_neq. intros E.
      rewrite <- (append_empty_r root) in E at 2.
      apply String.app_inj in E. contradiction.
    + rewrite startsWith_cancel.
      destruct Hnew as (_ & _ & _ & Hs). destruct t as [|c t]; [contradiction |].
      change (Ascii.eqb "/" c && true = false). rewrite andb_true_r.
      apply Ascii.eqb_neq. intros <-. apply Hs.
      exists last, t. reflexivity.
Qed.

Lemma isWithinVault_prefix_witness :
  PathValidator.isWithinVault "/" "/home/me/vault" "/home/me/vault-evil" = true
  /\ PathValidator.withinVault "/home/me/vault"
       (NodePath.resolve "/" ["/home/me/vault-evil"]) = false.
Proof.
  assert (Hname : forall x, x <> EmptyString -> x <> "." -> x <> ".." ->
                            Js.includes "/" x = false -> Spec.name x).
  { intros x H0 H1 H2 H3. repeat split; auto.
    rewrite <- includes_spec, H3. discriminate. }
  destruct (isWithinVault_prefix "/" ["home"; "me"] "vault" "-evil") as (_ & H1 & H2).
  - repeat constructor; apply Hname; try discriminate; reflexivity.
  - apply Hname; try discriminate; reflexivity.
  - apply Hname; try discriminate; reflexivity.
  - discriminate.
  - split; [exact H1 | exact H2].
Defined.

(** ** AuditLogger: reading the buffer *)

Section SliceFacts.

Context {A : Type}.

Lemma slice_last (n : Z) (arr : list A) :
  (0 < n)%Z ->
  exists older,
    arr = older ++ Js.slice (- n) arr
    /\ List.length (Js.slice (- n) arr) = Nat.min (Z.to_nat n) (List.length arr).
Proof.
  intros Hn. unfold Js.slice. cbv zeta.
  assert (E : (- n <? 0)%Z = true) by (apply Z.ltb_lt; lia). rewrite E.
  set (k := Z.to_nat (Z.max (Z.of_nat (List.length arr) + - n) 0)).
  exists (firstn k arr). split.
  - symmetry. apply firstn_skipn.
  - rewrite List.length_skipn. unfold k. lia.
Qed.

Lemma slice_zero (arr : list A) : Js.slice (- 0) arr = arr.
Proof.
  unfold Js.slice. cbv zeta. change (- 0 <? 0)%Z with false. cbv iota.
  replace (Z.to_nat (Z.min (- 0) (Z.of_nat (List.length arr)))) with 0%nat by lia.
  reflexivity.
Qed.

Lemma slice_drop (n : Z) (arr : list A) :
  (n < 0)%Z -> Js.slice (- n) arr = skipn (Z.to_nat (- n)) arr.
Proof.
  intros Hn. unfold Js.slice. cbv zeta.
  assert (E : (- n <? 0)%Z = false) by (apply Z.ltb_ge; lia). rewrite E.
  destruct (Z.le_gt_cases (- n) (Z.of_nat (List.length arr))) as [H | H].
  - rewrite Z.min_l by exact H. reflexivity.
  - rewrite Z.min_r by lia. rewrite Nat2Z.id.
    rewrite !List.skipn_all2 by lia. reflexivity.
Qed.

End SliceFacts.

(** [getRecentLogs(count)] returns the last [count] entries of the buffer,
    or all of them when there are fewer, for a positive [count]; for
    [count] zero it returns the whole buffer, and for a negative [count]
    it drops the oldest [-count] entries instead. *)
Theorem getRecentLogs_spec (a : AuditLogger.t) (count : Z) :
  ((0 < count)%Z ->
   exists older,
     AuditLogger.logs a = older ++ AuditLogger.getRecentLogs (Some count) a
     /\ List.length (AuditLogger.getRecentLogs (Some count) a)
        = Nat.min (Z.to_nat count) (List.length (AuditLogger.logs a)))
  /\ AuditLogger.getRecentLogs (Some 0%Z) a = AuditLogger.logs a
  /\ ((count < 0)%Z ->
      AuditLogger.getRecentLogs (Some count) a
      = skipn (Z.to_nat (- count)) (AuditLogger.logs a))
  /\ AuditLogger.getRecentLogs None a = AuditLogger.getRecentLogs (Some 50%Z) a.
Proof.
  unfold AuditLogger.getRecentLogs. cbn [default].
  split; [apply slice_last |].
  split; [apply slice_zero |].
  split; [apply slice_drop | reflexivity].
Qed.

Lemma getRecentLogs_spec_witness :
  let entry t :=
    AuditLogger.stamp t
      {| AuditLogger.ev_type := AuditLogger.tool_call;
         AuditLogger.ev_tool := Some "read_note"; AuditLogger.ev_path := Js.Undefined;
         AuditLogger.ev_clientId := None; AuditLogger.ev_success := true;
         AuditLogger.ev_error := None; AuditLogger.ev_details := None |} in
  let a :=
    {| AuditLogger.auditLogging := true; AuditLogger.debugMode := false;
       AuditLogger.logs := [entry 1%Z; entry 2%Z; entry 3%Z];
       AuditLogger.console := [] |} in
  List.length (AuditLogger.getRecentLogs (Some 2%Z) a) = 2
  /\ AuditLogger.getRecentLogs (Some (-1)%Z) a = [entry 2%Z; entry 3%Z].
Proof.
  intros entry a.
  destruct (getRecentLogs_spec a 2) as ((older & _ & H) & _).
  { lia. }
  destruct (getRecentLogs_spec a (-1)) as (_ & _ & Hneg & _).
  split; [rewrite H; reflexivity | rewrite Hneg by lia; reflexivity].
Defined.

(** [getLogsForTool(tool, count)] returns entries of that tool only, in
    the order of the buffer: for a positive [count], the last [count] of
    the tool's entries, or all of them when there are fewer. *)
Theorem getLogsForTool_spec (a : AuditLogger.t) (tool : string) (count : Z) :
  (0 < count)%Z ->
  let found := AuditLogger.getLogsForTool tool (Some count) a in
  let ofTool :=
    List.filter (fun entry => bool_decide (AuditLogger.tool entry = Some tool))
      (AuditLogger.logs a) in
  Forall (fun entry => AuditLogger.tool entry = Some tool) found
  /\ (exists older, ofTool = older ++ found)
  /\ List.length found = Nat.min (Z.to_nat count) (List.length ofTool)
  /\ sublist found (AuditLogger.logs a).
Proof.
  intros Hc found ofTool.
  destruct (slice_last count ofTool Hc) as (older & E & Hlen).
  fold found in E, Hlen.
  assert (Hall : Forall (fun entry => AuditLogger.tool entry = Some tool) ofTool).
  { apply Forall_forall. intros entry Hin.
    apply list_elem_of_In, List.filter_In in Hin as [_ Hin].
    apply bool_decide_eq_true in Hin. exact Hin. }
  split; [| split; [| split]].
  - rewrite E in Hall. apply Forall_app in Hall. apply Hall.
  - exists older. exact E.
  - exact Hlen.
  - transitivity ofTool.
    + rewrite E. apply sublist_inserts_l. reflexivity.
    + unfold ofTool. clear. induction (AuditLogger.logs a) as [|x l IH]; [constructor |].
      cbn [List.filter].
      destruct (bool_decide _); [apply sublist_skip | apply sublist_cons]; exact IH.
Qed.

Lemma getLogsForTool_spec_witness :
  let entry tool t :=
    AuditLogger.stamp t
      {| AuditLogger.ev_type := AuditLogger.tool_call;
         AuditLogger.ev_tool := Some tool; AuditLogger.ev_path := Js.Undefined;
         AuditLogger.ev_clientId := None; AuditLogger.ev_success := true;
         AuditLogger.ev_error := None; AuditLogger.ev_details := None |} in
  let a :=
    {| AuditLogger.auditLogging := true; AuditLogger.debugMode := false;
       AuditLogger.logs :=
         [entry "read_note" 1%Z; entry "write_note" 2%Z; entry "read_note" 3%Z;
          entry "read_note" 4%Z];
       AuditLogger.console := [] |} in
  List.length (AuditLogger.getLogsForTool "read_note" (Some 2%Z) a) = 2.
Proof.
  intros entry a.
  destruct (getLogsForTool_spec a "read_note" 2) as (_ & _ & H & _); [lia |].
  rewrite H. reflexivity.
Defined.

(** ** MCPServer: what the tools and the front never do *)

Section ReadOnlyFacts.

Import MCPServer.

Lemma sameApprovals_refl g : sameApprovals g g.
Proof. repeat split. Qed.

Lemma onlyRead_refl s : onlyRead s s.
Proof.
  split; [| apply sameApprovals_refl].
  exists []. rewrite app_nil_r. auto.
Qed.

Lemma onlyRead_trans s1 s2 s3 : onlyRead s1 s2 -> onlyRead s2 s3 -> onlyRead s1 s3.
Proof.
  intros [(n1 & E1 & F1) A1] [(n2 & E2 & F2) A2]. split.
  - exists (n1 ++ n2). split; [rewrite E2, E1, app_assoc; reflexivity |].
    apply Forall_app. auto.
  - unfold sameApprovals in *. intuition congruence.
Qed.

Lemma onlyRead_call c s : mutating c = false -> onlyRead s (addCall c s).
Proof.
  intros H. split; [| apply sameApprovals_refl].
  exists [c]. split; [reflexivity | constructor; [exact H | constructor]].
Qed.

Lemma readOnly_ret {A} (x : A) : ReadOnly (ret x).
Proof. intros s. split; [apply onlyRead_refl | discriminate]. Qed.

Lemma readOnly_throw {A} e : ReadOnly (@throw A e).
Proof. intros s. split; [apply onlyRead_refl | discriminate]. Qed.

Lemma readOnly_bind {A B} (m : M A) (k : A -> M B) :
  ReadOnly m -> (forall x, ReadOnly (k x)) -> ReadOnly (bind m k).
Proof.
  intros Hm Hk s. unfold bind. destruct (Hm s) as [H1 H2].
  destruct (m s) as [[x | e |] s1]; cbn in *.
  - destruct (Hk x s1) as [H3 H4]. split; [| exact H4].
    eapply onlyRead_trans; eauto.
  - split; [exact H1 | discriminate].
  - contradiction.
Qed.

Lemma readOnly_tryCatch {A} (m : M A) (handler : Js.error -> M A) :
  ReadOnly m -> (forall e, ReadOnly (handler e)) -> ReadOnly (tryCatch m handler).
Proof.
  intros Hm Hh s. unfold tryCatch. destruct (Hm s) as [H1 H2].
  destruct (m s) as [[x | e |] s1]; cbn in *.
  - split; [exact H1 | discriminate].
  - destruct (Hh e s1) as [H3 H4]. split; [| exact H4].
    eapply onlyRead_trans; eauto.
  - contradiction.
Qed.

Variable env : Collaborators.

Lemma readOnly_answer {A} c (reply : list Call -> Reply A) :
  mutating c = false -> ReadOnly (answer c reply).
Proof.
  intros H s. unfold answer.
  destruct (reply (calls s)); (split; [apply onlyRead_call, H | discriminate]).
Qed.

Lemma readOnly_lookup p : ReadOnly (vaultGetAbstractFileByPath env p).
Proof. intros s. split; [apply onlyRead_call; reflexivity | discriminate]. Qed.

Lemma readOnly_files : ReadOnly (vaultGetMarkdownFiles env).
Proof. intros s. split; [apply onlyRead_call; reflexivity | discriminate]. Qed.

Lemma readOnly_cache p : ReadOnly (metadataGetFileCache p).
Proof. intros s. split; [apply onlyRead_call; reflexivity | discriminate]. Qed.

Lemma readOnly_log tool path success error :
  ReadOnly (logToolCall tool path success error).
Proof.
  intros s. split; [| discriminate]. split.
  - exists []. cbn. rewrite app_nil_r. auto.
  - repeat split.
Qed.

Lemma readOnly_validated r : ReadOnly (validated r).
Proof.
  intros s. unfold validated.
  destruct (r s); (split; [apply onlyRead_refl | discriminate]).
Qed.

Ltac readOnly :=
  repeat first
    [ apply readOnly_ret | apply readOnly_throw | apply readOnly_log
    | apply readOnly_lookup | apply readOnly_files | apply readOnly_cache
    | apply readOnly_validated
    | apply readOnly_answer; reflexivity
    | apply readOnly_bind; [| intros ?]
    | match goal with
      | |- ReadOnly (match ?x with _ => _ end) => destruct x
      | |- ReadOnly (if ?b then _ else _) => destruct b
      end ].

Lemma readOnly_readNote path includeMetadata :
  ReadOnly (readNote env path includeMetadata).
Proof. unfold readNote, validateWithExtension. readOnly. Qed.

Lemma readOnly_searchVault query mode limit :
  ReadOnly (searchVault env query mode limit).
Proof. unfold searchVault. cbv zeta. readOnly. Qed.

Lemma readOnly_listNotes folder recursive includeMetadata :
  ReadOnly (listNotes env folder recursive includeMetadata).
Proof. unfold listNotes, validateFolder. cbv zeta. readOnly. Qed.

Lemma readOnly_listTasks args : ReadOnly (listTasks env args).
Proof. unfold listTasks. cbv zeta. readOnly. Qed.

Lemma readOnly_executeTool a tool args :
  ~ In tool OperationGuard.WRITE_TOOLS -> ReadOnly (executeTool env a tool args).
Proof.
  intros Htool s. unfold executeTool.
  apply readOnly_tryCatch; [| intros e; readOnly].
  repeat match goal with
         | |- ReadOnly (if String.eqb ?t ?n then _ else _) =>
             destruct (String.eqb_spec t n)
         end;
    try (exfalso; apply Htool; subst tool; cbn; tauto);
    first [ apply readOnly_readNote | apply readOnly_searchVault
          | apply readOnly_listNotes | apply readOnly_listTasks | apply readOnly_ret ].
Qed.

End ReadOnlyFacts.



Section WriteToolFacts.

Import MCPServer.

Variable env : Collaborators.

(** The dispatch runs each of [WRITE_TOOLS] under [executeWithApproval]. *)
Lemma executeTool_write a tool args s :
  In tool OperationGuard.WRITE_TOOLS ->
  exists executor,
    executeTool env a tool args s
    = tryCatch
        (withApproval a
           {| OperationGuard.op_tool := tool;
              OperationGuard.op_path := arg args "path";
              OperationGuard.op_action := arg args "mode";
              OperationGuard.op_timestamp := clock s;
              OperationGuard.op_clientId := None |} executor)
        (fun error =>
           logToolCall tool (arg args "path") false (Some (errorString error)) ;;;
           ret {| content := ErrorText (errorString error); isError := true |}) s.
Proof.
  intros [<- | [<- | [<- | []]]].
  - exists (writeNote env (arg args "path") (arg args "content") (arg args "mode")).
    reflexivity.
  - exists (addTask env args). reflexivity.
  - exists (completeTask env (arg args "taskId")). reflexivity.
Qed.

End WriteToolFacts.

(** When approval is required, a tool of [WRITE_TOOLS] calls no
    collaborator unless the promise of its approval request has the value
    [true]: if the request was denied, timed out or was cancelled, the
    call returns the error [Operation denied by user]; while the request
    is undecided, the call waits. *)
Theorem write_tools_need_approval env a tool args s :
  In tool OperationGuard.WRITE_TOOLS ->
  OperationGuard.requireApproval (MCPServer.operationGuard s) = true ->
  let operation :=
    {| OperationGuard.op_tool := tool;
       OperationGuard.op_path := MCPServer.arg args "path";
       OperationGuard.op_action := MCPServer.arg args "mode";
       OperationGuard.op_timestamp := MCPServer.clock s;
       OperationGuard.op_clientId := None |} in
  let asked :=
    OperationGuard.requestApproval (MCPServer.clock s) (MCPServer.approvalId a)
      operation (MCPServer.operationGuard s) in
  let decided :=
    OperationGuard.promiseValue asked.2 (OperationGuard.run (MCPServer.during a) asked.1) in
  decided <> Some true ->
  let out := MCPServer.executeTool env a tool args s in
  MCPServer.calls out.2 = MCPServer.calls s
  /\ out.1 = match decided with
             | Some _ =>
                 OperationGuard.Returned
                   {| MCPServer.content :=
                        MCPServer.ErrorText "Error: Operation denied by user";
                      MCPServer.isError := true |}
             | None => OperationGuard.Waiting
             end.
Proof.
  intros Htool Hreq operation asked decided Hdecided out.
  destruct (executeTool_write env a tool args s Htool) as [executor E].
  unfold out. rewrite E. clear E out.
  unfold MCPServer.tryCatch, MCPServer.withApproval, OperationGuard.executeWithApproval.
  assert (Er : OperationGuard.requiresApproval (MCPServer.getGuard s) operation = true).
  { unfold OperationGuard.requiresApproval, MCPServer.getGuard. rewrite Hreq.
    cbn [negb OperationGuard.op_tool operation].
    apply existsb_exists. exists tool. split; [exact Htool | apply String.eqb_refl]. }
  fold operation. rewrite Er.
  change (OperationGuard.requestApproval (MCPServer.clock s) (MCPServer.approvalId a)
            operation (MCPServer.getGuard s)) with asked.
  destruct asked as [g h] eqn:Ea. cbn [fst snd] in decided.
  fold decided.
  destruct decided as [[|] |]; [contradiction | |]; split; reflexivity.
Qed.

Lemma write_tools_need_approval_witness :
  let out :=
    MCPServer.executeTool Sample.collaborators (Sample.answered false) "write_note"
      {[ "path" := Js.Str "Projects/a.md"; "content" := Js.Str "text" ]}
      (Sample.server true true) in
  MCPServer.calls out.2 = []
  /\ out.1 = OperationGuard.Returned
               {| MCPServer.content :=
                    MCPServer.ErrorText "Error: Operation denied by user";
                  MCPServer.isError := true |}.
Proof.
  intros out.
  destruct (write_tools_need_approval Sample.collaborators (Sample.answered false)
              "write_note"
              {[ "path" := Js.Str "Projects/a.md"; "content" := Js.Str "text" ]}
              (Sample.server true true)) as [Hcalls Hout].
  - cbn. tauto.
  - reflexivity.
  - vm_compute. discriminate.
  - split; [exact Hcalls |]. fold out in Hout. rewrite Hout. vm_compute. reflexivity.
Defined.

Section SettleFacts.

Import MCPServer.

Lemma settles_ret {A} (x : A) : Settles (ret x).
Proof. intros s. discriminate. Qed.

Lemma settles_throw {A} e : Settles (@throw A e).
Proof. intros s. discriminate. Qed.

Lemma settles_bind {A B} (m : M A) (k : A -> M B) :
  Settles m -> (forall x, Settles (k x)) -> Settles (bind m k).
Proof.
  intros Hm Hk s. unfold bind. specialize (Hm s).
  destruct (m s) as [[x | e |] s1]; cbn in *; [apply Hk | discriminate | contradiction].
Qed.

Variable env : Collaborators.

Lemma settles_answer {A} c (reply : list Call -> Reply A) : Settles (answer c reply).
Proof. intros s. unfold answer. destruct (reply (calls s)); discriminate. Qed.

Lemma settles_lookup p : Settles (vaultGetAbstractFileByPath env p).
Proof. intros s. discriminate. Qed.

Lemma settles_log tool path success error : Settles (logToolCall tool path success error).
Proof. intros s. discriminate. Qed.

Lemma settles_validated r : Settles (validated r).
Proof. intros s. unfold validated. destruct (r s); discriminate. Qed.

Lemma settles_openUri path : Settles (openUri env path).
Proof.
  intros s. unfold openUri, bind, vaultGetName.
  destruct (Utf16.encodeURIComponent _); discriminate.
Qed.

Ltac settles :=
  repeat first
    [ apply settles_ret | apply settles_throw | apply settles_log
    | apply settles_openUri
    | apply settles_lookup | apply settles_validated | apply settles_answer
    | apply settles_bind; [| intros ?]
    | match goal with
      | |- Settles (match ?x with _ => _ end) => destruct x
      | |- Settles (if ?b then _ else _) => destruct b
      end ].

Lemma settles_ensureFolder path : Settles (ensureFolder env path).
Proof. unfold ensureFolder, validateFolder. settles. Qed.

Lemma settles_writeNote path content mode : Settles (writeNote env path content mode).
Proof.
  unfold writeNote, validateWithExtension. cbv zeta.
  repeat first
    [ apply settles_ensureFolder | apply settles_openUri
    | apply settles_ret | apply settles_throw | apply settles_log
    | apply settles_lookup | apply settles_validated | apply settles_answer
    | apply settles_bind; [| intros ?]
    | match goal with
      | |- Settles (ensureFolder _ _) => fail 2
      | |- Settles (match ?x with _ => _ end) => destruct x
      | |- Settles (if ?b then _ else _) => destruct b
      end ].
Qed.

Lemma settles_addTask args : Settles (addTask env args).
Proof. unfold addTask, validateWithExtension. settles. Qed.

Lemma settles_completeTask taskId : Settles (completeTask env taskId).
Proof. unfold completeTask. settles. Qed.

(** The [catch] of [executeTool] turns every exception into a result. *)
Lemma tryCatch_answers {A} (m : M A) (handler : Js.error -> M A) s :
  (forall e s', exists x s'', handler e s' = (OperationGuard.Returned x, s'')) ->
  forall e, (tryCatch m handler s).1 <> OperationGuard.Thrown e.
Proof.
  intros H e. unfold tryCatch. destruct (m s) as [[x | e' |] s1]; cbn; try discriminate.
  destruct (H e' s1) as (x & s'' & ->). discriminate.
Qed.

Lemma executeTool_answers a tool args s e :
  (executeTool env a tool args s).1 <> OperationGuard.Thrown e.
Proof.
  unfold executeTool. apply tryCatch_answers.
  intros e' s'. eexists _, _. reflexivity.
Qed.

(** A tool call waits only on an approval. *)
Lemma executeTool_waits a tool args s :
  (executeTool env a tool args s).1 = OperationGuard.Waiting ->
  In tool OperationGuard.WRITE_TOOLS
  /\ OperationGuard.requireApproval (operationGuard s) = true.
Proof.
  intros H.
  assert (Hin : In tool OperationGuard.WRITE_TOOLS).
  { destruct (In_dec String.string_dec tool OperationGuard.WRITE_TOOLS) as [Hin | Hout];
      [exact Hin |].
    destruct (readOnly_executeTool env a tool args Hout s) as [_ Hw]. contradiction. }
  split; [exact Hin |].
  destruct (OperationGuard.requireApproval (operationGuard s)) eqn:Er; [reflexivity |].
  exfalso. revert H.
  assert (Hexec : forall operation (executor : M ToolResponse) handler,
             Settles executor -> (forall e, Settles (handler e)) ->
             (tryCatch (withApproval a operation executor) handler s).1
             <> OperationGuard.Waiting).
  { intros operation executor handler He Hh.
    unfold tryCatch, withApproval, OperationGuard.executeWithApproval,
      OperationGuard.requiresApproval, getGuard.
    rewrite Er. cbn [negb]. specialize (He s).
    destruct (executor s) as [[x | e |] s1]; cbn in *; [discriminate | apply Hh | exact He]. }
  destruct Hin as [<- | [<- | [<- | []]]]; apply Hexec;
    first [ apply settles_writeNote | apply settles_addTask | apply settles_completeTask
          | intros e; settles ].
Qed.

Lemma route_answers a ip cors pathname req s :
  let out := route env a ip cors pathname req s in
  (forall e, out.1 = OperationGuard.Thrown e ->
             body req = BodyFails e
             \/ (body req = JsonNull
                 /\ e = Js.TypeError "Cannot read properties of null (reading 'tool')"))
  /\ (forall r, out.1 = OperationGuard.Returned r ->
                In (status r) [200; 400; 401; 403; 404]%Z)
  /\ (out.1 = OperationGuard.Waiting ->
      method req = "POST" /\ pathname = "/mcp/call" /\ authorized s req = true
      /\ (body req = BodyPending
          \/ exists tool args,
               body req = Json (Js.Str tool) args
               /\ In tool OperationGuard.WRITE_TOOLS
               /\ OperationGuard.requireApproval (operationGuard s) = true)).
Proof.
  intros out.
  assert (E : route env a ip cors pathname req s = out) by reflexivity.
  clearbody out. revert E. unfold route.
  destruct (String.eqb pathname "/health").
  { intros <-. cbn. split; [discriminate |]. split; [| discriminate].
    intros r [= <-]. cbn. tauto. }
  destruct (String.eqb pathname "/auth/token" && String.eqb (method req) "GET").
  { destruct (isLoopback ip); intros <-; cbn; (split; [discriminate |]);
      (split; [| discriminate]); intros r [= <-]; cbn; tauto. }
  destruct (authorized s req) eqn:Ea; cbn [negb].
  2:{ intros <-. cbn. split; [discriminate |]. split; [| discriminate].
      intros r [= <-]. cbn. tauto. }
  destruct (String.eqb pathname "/mcp/tools" && String.eqb (method req) "GET").
  { intros <-. cbn. split; [discriminate |]. split; [| discriminate].
    intros r [= <-]. cbn. tauto. }
  destruct (String.eqb pathname "/mcp/call" && String.eqb (method req) "POST") eqn:Ec.
  2:{ intros <-. cbn. split; [discriminate |]. split; [| discriminate].
      intros r [= <-]. cbn. tauto. }
  apply andb_true_iff in Ec as [Ep Em].
  apply String.eqb_eq in Ep, Em.
  unfold bind at 1. unfold readJson.
  destruct (body req) as [| e | | | tool args] eqn:Eb.
  - intros <-. cbn. split; [discriminate |]. split; [discriminate |]. auto.
  - intros <-. cbn. split; [intros e' [= <-]; auto |]. split; discriminate.
  - intros <-. cbn. split; [discriminate |]. split; [| discriminate].
    intros r [= <-]. cbn. tauto.
  - intros <-. cbn. split; [intros e' [= <-]; auto |]. split; discriminate.
  - cbn [ret].
    destruct tool as [| | | | tool |];
      try (intros <-; cbn; split; [discriminate |]; split; [| discriminate];
           intros r [= <-]; cbn; tauto).
    destruct (String.eqb tool EmptyString).
    { intros <-. cbn. split; [discriminate |]. split; [| discriminate].
      intros r [= <-]. cbn. tauto. }
    unfold bind.
    pose proof (executeTool_answers a tool args s) as Hthrow.
    pose proof (executeTool_waits a tool args s) as Hwait.
    destruct (executeTool env a tool args s) as [[x | e |] s1]; intros <-; cbn in *.
    + split; [discriminate |]. split; [| discriminate].
      intros r [= <-]. cbn. tauto.
    + destruct (Hthrow e). reflexivity.
    + split; [discriminate |]. split; [discriminate |].
      intros _. destruct (Hwait eq_refl) as [Hin Hreq].
      split; [exact Em |]. split; [exact Ep |]. split; [reflexivity |].
      right. eauto 10.
Qed.

End SettleFacts.



Section OriginFacts.

Import MCPServer.

Variable env : Collaborators.

Lemma route_cors a ip cors cors' o pathname req s :
  route env a ip cors' pathname (withOrigin o req) s
  = (mapOutcome (withAllowOrigin cors') (route env a ip cors pathname req s).1,
     (route env a ip cors pathname req s).2).
Proof.
  unfold route. cbv zeta.
  change (method (withOrigin o req)) with (method req).
  destruct (String.eqb pathname "/health"); [reflexivity |].
  destruct (String.eqb pathname "/auth/token" && String.eqb (method req) "GET").
  { destruct (isLoopback ip); reflexivity. }
  cbv beta.
  change (authorized s (withOrigin o req)) with (authorized s req).
  destruct (negb (authorized s req)); [reflexivity |].
  destruct (String.eqb pathname "/mcp/tools" && String.eqb (method req) "GET");
    [reflexivity |].
  destruct (String.eqb pathname "/mcp/call" && String.eqb (method req) "POST");
    [| reflexivity].
  unfold bind at 1 3 5. unfold readJson.
  change (body (withOrigin o req)) with (body req).
  destruct (body req) as [| e | | | tool args]; try reflexivity.
  cbn [ret].
  destruct tool as [| | | | tool |]; try reflexivity.
  destruct (String.eqb tool EmptyString); [reflexivity |].
  unfold bind. destruct (executeTool env a tool args s) as [[x | e |] s1]; reflexivity.
Qed.

Lemma corsOrigin_spec req x :
  corsOrigin req = Some x
  <-> origin req = Some x /\ x <> EmptyString
      /\ exists allowed, In allowed ALLOWED_ORIGINS /\ Spec.beginsWith allowed x.
Proof.
  unfold corsOrigin. cbv zeta.
  destruct (origin req) as [o |]; unfold default, from_option, id.
  - destruct (String.eqb_spec o EmptyString) as [-> | Ho].
    + cbn. split; [discriminate | intros ([= <-] & H & _); contradiction].
    + cbn [orb negb].
      destruct (existsb _ ALLOWED_ORIGINS) eqn:E; cbn [andb].
      * apply existsb_exists in E as (allowed & Hin & Hs).
        apply startsWith_spec in Hs.
        split; [intros [= <-]; eauto 6 | intros ([= <-] & _); reflexivity].
      * split; [discriminate |]. intros ([= <-] & _ & allowed & Hin & Hs).
        apply startsWith_spec in Hs.
        assert (existsb (fun allowed => Js.startsWith allowed o) ALLOWED_ORIGINS = true)
          by (apply existsb_exists; eauto).
        congruence.
  - cbn. split; [discriminate | intros (H & _); discriminate].
Qed.

End OriginFacts.

(** The [Origin] header decides nothing but the
    [Access-Control-Allow-Origin] header of the response: with any other
    origin, [handleRequest] leaves the same state and answers with the
    same status and body.  The header echoes the origin exactly when the
    origin is not empty and begins with one of [ALLOWED_ORIGINS], so that
    an allowed origin followed by anything is echoed too. *)
Theorem origin_never_blocks env a req o s :
  MCPServer.handleRequest env a (MCPServer.withOrigin o req) s
  = (MCPServer.mapOutcome
       (MCPServer.withAllowOrigin (MCPServer.corsOrigin (MCPServer.withOrigin o req)))
       (MCPServer.handleRequest env a req s).1,
     (MCPServer.handleRequest env a req s).2)
  /\ (forall x,
        MCPServer.corsOrigin req = Some x
        <-> MCPServer.origin req = Some x /\ x <> EmptyString
            /\ exists allowed,
                In allowed MCPServer.ALLOWED_ORIGINS /\ Spec.beginsWith allowed x)
  /\ (forall allowed rest,
        In allowed MCPServer.ALLOWED_ORIGINS ->
        MCPServer.corsOrigin (MCPServer.withOrigin (Some (allowed +:+ rest)) req)
        = Some (allowed +:+ rest)).
Proof.
  split; [| split].
  - unfold MCPServer.handleRequest. cbv zeta.
    change (MCPServer.method (MCPServer.withOrigin o req)) with (MCPServer.method req).
    change (MCPServer.clientIp (MCPServer.withOrigin o req)) with (MCPServer.clientIp req).
    destruct (String.eqb (MCPServer.method req) "OPTIONS"); [reflexivity |].
    destruct (MCPServer.checkRateLimit _ s) as [admitted s1].
    destruct admitted; [| reflexivity]. cbn [negb].
    destruct (_ && _); [reflexivity |].
    unfold MCPServer.routed, MCPServer.bind, MCPServer.parseUrl.
    change (MCPServer.url (MCPServer.withOrigin o req)) with (MCPServer.url req).
    destruct (MCPServer.url req) as [pathname | e]; [| reflexivity].
    cbn [MCPServer.ret]. unfold MCPServer.tryCatch.
    rewrite (route_cors env a _ (MCPServer.corsOrigin req)).
    destruct (MCPServer.route env a _ (MCPServer.corsOrigin req) pathname req s1)
      as [[x | e |] s2]; reflexivity.
  - apply corsOrigin_spec.
  - intros allowed rest Hin. apply corsOrigin_spec. split; [reflexivity |]. split.
    + intros E. destruct allowed; [| discriminate].
      cbn in Hin. intuition discriminate.
    + exists allowed. split; [exact Hin | exists rest; reflexivity].
Qed.

Lemma origin_never_blocks_witness :
  MCPServer.corsOrigin
    (Sample.request "GET" "/health" (Some "10.0.0.7") None) = None
  /\ MCPServer.corsOrigin
       (MCPServer.withOrigin (Some "http://localhost.evil.example")
          (Sample.request "GET" "/health" (Some "10.0.0.7") None))
     = Some "http://localhost.evil.example".
Proof.
  destruct (origin_never_blocks Sample.collaborators (Sample.answered true)
              (Sample.request "GET" "/health" (Some "10.0.0.7") None) None
              (Sample.server true true)) as (_ & _ & H).
  split; [reflexivity |].
  apply (H "http://localhost" ".evil.example"). cbn. tauto.
Defined.

Section WriteNoteFacts.

Import MCPServer.

Variable env : Collaborators.

Lemma validated_valid r sp s :
  r s = PathValidator.Valid sp -> validated r s = (OperationGuard.Returned sp, s).
Proof. unfold validated. intros ->. reflexivity. Qed.

Lemma emits_widen {A} cwd0 vaultPath0 (P Q : Call -> Prop) (m : M A) :
  (forall c, P c -> Q c) -> Emits cwd0 vaultPath0 P m -> Emits cwd0 vaultPath0 Q m.
Proof.
  intros H Hm s Hc Hv. destruct (Hm s Hc Hv) as (? & ? & new & E & F).
  repeat split; auto. exists new. split; [exact E |].
  eapply Forall_impl; eauto.
Qed.

(** [ensureFolder] neither modifies nor creates a note. *)
Lemma emits_ensureFolder_plain cwd0 vaultPath0 path :
  Emits cwd0 vaultPath0
    (fun c => match c with VaultModify _ _ | VaultCreate _ _ => False | _ => True end)
    (ensureFolder env path).
Proof.
  unfold ensureFolder, validateFolder.
  apply emits_bind.
  - intros s Hc Hv. unfold validated. destruct (PathValidator.validateFolderValue _ _ _);
      cbn; (repeat split; auto); exists []; rewrite app_nil_r; auto.
  - intros sanitized. apply emits_bind; [apply emits_lookup; exact I |].
    intros [f |]; [apply emits_ret | apply emits_answer; exact I].
Qed.

(** Lines 583-609 of [writeNote], when the text to write is known: the
    parent folders are made, then the text is written, with [modify] or
    [create], and nothing else is written; when the call returns, the
    text has been written. *)
Lemma writeNote_tail path mode sp existingFile written s1 :
  let w := writeOf sp existingFile written in
  let tail :=
    (let folderPath := Js.substringTo (Js.lastIndexOf "/" sp) sp in
     (if negb (String.eqb folderPath EmptyString) then ensureFolder env folderPath
      else ret tt) ;;;
     match existingFile with
     | Some TFile =>
         answer (VaultModify sp written) (fun h => vault_modify env h sp written)
     | _ =>
         answer (VaultCreate sp written) (fun h => vault_create env h sp written)
     end ;;;
     logToolCall "write_note" path true None ;;;
     uri <- openUri env sp ;;
     ret {| content := NoteWritten sp mode uri; isError := false |}) in
  exists new,
    calls (tail s1).2 = calls s1 ++ new
    /\ Forall (writes w) new
    /\ (forall r, (tail s1).1 = OperationGuard.Returned r -> In w new).
Proof.
  intros w tail. set (out := tail s1).
  assert (E : tail s1 = out) by reflexivity.
  clearbody out. subst tail. cbv zeta in E. revert E.
  set (folder := if negb (String.eqb (Js.substringTo (Js.lastIndexOf "/" sp) sp)
                            EmptyString)
                 then ensureFolder env (Js.substringTo (Js.lastIndexOf "/" sp) sp)
                 else ret tt).
  assert (Hf : exists new, calls (folder s1).2 = calls s1 ++ new
                           /\ Forall (writes w) new).
  { assert (H : Emits (cwd s1) (vaultPath s1) (writes w) folder).
    { unfold folder. destruct (negb _); [| apply emits_ret].
      eapply emits_widen; [| apply emits_ensureFolder_plain].
      intros [] H; try exact I; destruct H. }
    destruct (H s1 eq_refl eq_refl) as (_ & _ & Hnew). exact Hnew. }
  assert (Hw : forall s2,
             exists o,
               (match existingFile with
                | Some TFile =>
                    answer (VaultModify sp written)
                      (fun h => vault_modify env h sp written)
                | _ =>
                    answer (VaultCreate sp written)
                      (fun h => vault_create env h sp written)
                end) s2 = (o, addCall w s2)
               /\ o <> OperationGuard.Waiting).
  { intros s2. unfold w, writeOf, answer.
    destruct existingFile as [[|] |];
      match goal with
      | |- context [match ?r with Ok _ => _ | Throws _ => _ end] => destruct r
      end; eexists; (split; [reflexivity | discriminate]). }
  assert (Hww : writes w w).
  { unfold w, writeOf. destruct existingFile as [[|] |]; reflexivity. }
  unfold bind at 1.
  destruct (folder s1) as [[[] | e |] s2]; cbn [fst snd] in Hf;
    destruct Hf as (newF & Ef & Ff).
  - unfold bind at 1. destruct (Hw s2) as (o & -> & Ho).
    destruct o as [[] | e |]; [| | contradiction].
    + unfold bind, logToolCall, openUri, vaultGetName. cbn.
      destruct (Utf16.encodeURIComponent _); intros <-;
        exists (newF ++ [w; VaultGetName]); cbn; rewrite Ef, <- !app_assoc;
        (split; [reflexivity |]);
        (split;
         [ apply Forall_app; split; [exact Ff |];
           constructor; [exact Hww | constructor; [exact I | constructor]]
         | intros; apply in_or_app; right; left; reflexivity ]).
    + intros <-. exists (newF ++ [w]). cbn. rewrite Ef, <- !app_assoc.
      split; [reflexivity |]. split; [| discriminate].
      apply Forall_app. split; [exact Ff |]. constructor; [exact Hww | constructor].
  - intros <-. exists newF. cbn. split; [exact Ef |]. split; [exact Ff | discriminate].
  - intros <-. exists newF. cbn. split; [exact Ef |]. split; [exact Ff | discriminate].
Qed.

End WriteNoteFacts.

(** [writeNote] in its three modes, for a path that the validator
    accepts.  In mode [create] an existing entry at the path makes the
    call fail with nothing written; in mode [append] a missing note (or a
    folder at the path) makes it fail with nothing written.  In mode
    [append] the note is read first: if the read fails, so does the call,
    and what is then written is the text that [vault.read] returned
    followed by the content, with [vault.modify].  In the other modes the
    content is written, with [vault.modify] when the path holds a note and
    with [vault.create] when it does not.  The call makes no other write
    to a note, and it returns only after that write. *)
Theorem writeNote_modes env path content mode s sp :
  PathValidator.validateWithExtensionValue (MCPServer.cwd s) (MCPServer.vaultPath s) path
  = PathValidator.Valid sp ->
  let found := MCPServer.vault_getAbstractFileByPath env (MCPServer.calls s) sp in
  let looked := MCPServer.addCall (MCPServer.VaultGetAbstractFileByPath sp) s in
  let read := MCPServer.vault_read env (MCPServer.calls looked) sp in
  let out := MCPServer.writeNote env path content mode s in
  let writesOnly written :=
    exists new,
      MCPServer.calls out.2 = MCPServer.calls s ++ new
      /\ Forall (MCPServer.writes (MCPServer.writeOf sp found written)) new
      /\ (forall r, out.1 = OperationGuard.Returned r ->
                    In (MCPServer.writeOf sp found written) new) in
  (Js.isStr "create" mode = true -> is_Some found ->
   out = (OperationGuard.Thrown
            (Js.Error ("Note already exists: " +:+ MCPServer.text path)), looked))
  /\ (Js.isStr "append" mode = true -> found <> Some MCPServer.TFile ->
      out = (OperationGuard.Thrown
               (Js.Error ("Note not found for append: " +:+ MCPServer.text path)),
             looked))
  /\ (Js.isStr "append" mode = true -> found = Some MCPServer.TFile ->
      (forall e, read = MCPServer.Throws e ->
                 out = (OperationGuard.Thrown e,
                        MCPServer.addCall (MCPServer.VaultRead sp) looked))
      /\ (forall existing, read = MCPServer.Ok existing ->
                           writesOnly (MCPServer.Appended existing content)))
  /\ (Js.isStr "append" mode = false ->
      ~ (Js.isStr "create" mode = true /\ is_Some found) ->
      writesOnly (MCPServer.Given content)).
Proof.
  intros Hvalid found looked read out writesOnly.
  assert (Estart : forall k : string -> option MCPServer.AbstractFile
                               -> MCPServer.M MCPServer.ToolResponse,
             MCPServer.bind (MCPServer.validateWithExtension path)
               (fun normalizedPath =>
                  MCPServer.bind (MCPServer.vaultGetAbstractFileByPath env normalizedPath)
                    (k normalizedPath)) s
             = k sp found looked).
  { intros k. unfold MCPServer.bind at 1, MCPServer.validateWithExtension.
    rewrite (validated_valid _ sp s Hvalid). reflexivity. }
  assert (Emode : forall name,
             name = "create" \/ name = "append" ->
             Js.isStr name (Js.orDefault mode (Js.Str "replace")) = Js.isStr name mode).
  { intros name Hname. destruct mode; try reflexivity.
    destruct Hname as [-> | ->]; reflexivity. }
  assert (Eout : out = MCPServer.writeNote env path content mode s) by reflexivity.
  unfold MCPServer.writeNote in Eout. cbv zeta in Eout. rewrite Estart in Eout.
  rewrite !Emode in Eout by auto.
  assert (Hlooked : forall new,
            MCPServer.calls looked ++ new
            = MCPServer.calls s ++ MCPServer.VaultGetAbstractFileByPath sp :: new).
  { intros new. unfold looked. cbn. rewrite <- app_assoc. reflexivity. }
  assert (Hexcl : Js.isStr "append" mode = true -> Js.isStr "create" mode = false).
  { destruct mode as [| | | | m |]; try reflexivity. cbn [Js.isStr]. intros H.
    apply String.eqb_eq in H. subst m. reflexivity. }
  split; [| split; [| split]].
  - intros Hmode Hfound. rewrite Eout, Hmode, (bool_decide_eq_true_2 _ Hfound).
    reflexivity.
  - intros Hmode Hfound. rewrite Eout, Hmode.
    assert (Ec : Js.isStr "create" mode = false) by exact (Hexcl Hmode).
    rewrite Ec. cbn [andb].
    destruct found as [[|] |]; [contradiction | reflexivity | reflexivity].
  - intros Hmode Hfound.
    assert (Ec : Js.isStr "create" mode = false) by exact (Hexcl Hmode).
    rewrite Ec, Hmode, Hfound in Eout. cbn [andb] in Eout.
    unfold MCPServer.bind at 1 2 in Eout. unfold MCPServer.answer at 1 in Eout.
    fold read in Eout.
    split.
    + intros e Hread. rewrite Hread in Eout. exact Eout.
    + intros existing Hread. rewrite Hread in Eout. cbn [MCPServer.ret] in Eout.
      destruct (writeNote_tail env path (Js.orDefault mode (Js.Str "replace")) sp
                  (Some MCPServer.TFile) (MCPServer.Appended existing content)
                  (MCPServer.addCall (MCPServer.VaultRead sp) looked))
        as (new & Ecalls & Fnew & Hin).
      cbv zeta in Ecalls, Hin. rewrite <- Eout in Ecalls, Hin.
      exists (MCPServer.VaultGetAbstractFileByPath sp :: MCPServer.VaultRead sp :: new).
      rewrite Hfound. split; [| split].
      * rewrite Ecalls. cbn. rewrite <- !app_assoc. reflexivity.
      * constructor; [exact I |]. constructor; [exact I | exact Fnew].
      * intros r Hr. right. right. apply (Hin r Hr).
  - intros Hmode Hcreate.
    assert (Ec : Js.isStr "create" mode && bool_decide (is_Some found) = false).
    { apply not_true_is_false. intros H. apply andb_true_iff in H as [H1 H2].
      apply Hcreate. split; [exact H1 |]. apply bool_decide_eq_true_1 in H2. exact H2. }
    rewrite Ec, Hmode in Eout.
    unfold MCPServer.bind at 1 in Eout. cbn [MCPServer.ret] in Eout.
    destruct (writeNote_tail env path (Js.orDefault mode (Js.Str "replace")) sp
                found (MCPServer.Given content) looked)
      as (new & Ecalls & Fnew & Hin).
    cbv zeta in Ecalls, Hin. rewrite <- Eout in Ecalls, Hin.
    exists (MCPServer.VaultGetAbstractFileByPath sp :: new). split; [| split].
    + rewrite Ecalls. apply Hlooked.
    + constructor; [exact I | exact Fnew].
    + intros r Hr. right. apply (Hin r Hr).
Qed.

Lemma writeNote_modes_witness :
  let env :=
    {| MCPServer.vault_getAbstractFileByPath := fun _ _ => Some MCPServer.TFile;
       MCPServer.vault_read := fun _ _ => MCPServer.Ok "old";
       MCPServer.vault_modify := fun _ _ _ => MCPServer.Ok tt;
       MCPServer.vault_create := fun _ _ _ => MCPServer.Ok tt;
       MCPServer.vault_createFolder := fun _ _ => MCPServer.Ok tt;
       MCPServer.vault_getMarkdownFiles := fun _ => [];
       MCPServer.vault_getName := fun _ => Utf16.lit "vault";
       MCPServer.qmd_isAvailable := fun _ => MCPServer.Ok false;
       MCPServer.qmd_search := fun _ _ _ _ => MCPServer.Ok EmptyString;
       MCPServer.tasks_queryTasks := fun _ _ _ _ _ => MCPServer.Ok EmptyString;
       MCPServer.tasks_addTask := fun _ _ _ _ _ _ => MCPServer.Ok EmptyString;
       MCPServer.tasks_completeTask := fun _ _ => MCPServer.Ok EmptyString |} in
  let s := Sample.server true false in
  MCPServer.writeNote env (Js.Str "a.md") (Js.Str "new") (Js.Str "create") s
  = (OperationGuard.Thrown (Js.Error "Note already exists: a.md"),
     MCPServer.addCall (MCPServer.VaultGetAbstractFileByPath "a.md") s)
  /\ In (MCPServer.VaultModify "a.md" (MCPServer.Appended "old" (Js.Str "new")))
       (MCPServer.calls
          (MCPServer.writeNote env (Js.Str "a.md") (Js.Str "new") (Js.Str "append") s).2).
Proof.
  intros env s.
  destruct (writeNote_modes env (Js.Str "a.md") (Js.Str "new") (Js.Str "create") s "a.md")
    as (Hcreate & _ & _); [vm_compute; reflexivity |].
  destruct (writeNote_modes env (Js.Str "a.md") (Js.Str "new") (Js.Str "append") s "a.md")
    as (_ & _ & Happend & _); [vm_compute; reflexivity |].
  split.
  - apply Hcreate; [reflexivity | eexists; reflexivity].
  - destruct Happend as [_ Happend]; [reflexivity | reflexivity |].
    destruct (Happend "old" eq_refl) as (new & E & _ & Hin).
    rewrite E. apply in_or_app. right. eapply Hin. vm_compute. reflexivity.
Defined.

Section FolderFacts.

Import MCPServer.

Lemma length_append (x y : string) :
  String.length (x +:+ y) = String.length x + String.length y.
Proof.
  induction x as [|c x IH]; [reflexivity |].
  rewrite append_cons. cbn [String.length]. rewrite IH. reflexivity.
Qed.

Lemma substring_all (y : string) : String.substring 0 (String.length y) y = y.
Proof. induction y as [|c y IH]; [reflexivity |]. cbn. rewrite IH. reflexivity. Qed.

Lemma sliceFrom_append (x y : string) : Js.sliceFrom (String.length x) (x +:+ y) = y.
Proof.
  unfold Js.sliceFrom. rewrite length_append.
  replace (String.length x + String.length y - String.length x)
    with (String.length y) by lia.
  induction x as [|c x IH]; [apply substring_all |].
  rewrite append_cons. exact IH.
Qed.

(** The filter of [listNotes]: below the root, every note when the
    listing is recursive and the notes without a slash otherwise; below a
    folder, the notes whose path is the folder, a slash and a rest, the
    rest without a slash unless the listing is recursive. *)
Lemma inFolder_spec folderPath recursive filePath :
  inFolder folderPath recursive filePath = true <->
  if String.eqb folderPath EmptyString
  then recursive = true \/ ~ Spec.contains "/" filePath
  else exists rest,
      filePath = folderPath +:+ "/" +:+ rest
      /\ (recursive = true \/ ~ Spec.contains "/" rest).
Proof.
  unfold inFolder. destruct (String.eqb folderPath EmptyString).
  - rewrite orb_true_iff, negb_true_iff, <- includes_spec.
    destruct (Js.includes "/" filePath); intuition congruence.
  - destruct recursive.
    + rewrite startsWith_spec. unfold Spec.beginsWith. split.
      * intros [rest H]. exists rest. rewrite H, append_assoc. auto.
      * intros (rest & H & _). exists rest. rewrite H, append_assoc. reflexivity.
    + rewrite andb_true_iff, negb_true_iff, startsWith_spec. unfold Spec.beginsWith.
      assert (Hslice : forall rest,
                 Js.sliceFrom (String.length folderPath + 1)
                   ((folderPath +:+ "/") +:+ rest) = rest).
      { intros rest.
        replace (String.length folderPath + 1) with (String.length (folderPath +:+ "/"))
          by (rewrite length_append; reflexivity).
        apply sliceFrom_append. }
      split.
      * intros [[rest H] Hno]. exists rest. split; [rewrite H, append_assoc; reflexivity |].
        right. rewrite H, Hslice in Hno. rewrite <- includes_spec, Hno. discriminate.
      * intros (rest & H & [Hr | Hno]); [discriminate |].
        rewrite <- append_assoc in H. split; [eauto |].
        rewrite H, Hslice. rewrite <- includes_spec in Hno.
        destruct (Js.includes "/" rest); [destruct Hno; reflexivity | reflexivity].
Qed.

End FolderFacts.

(** [listNotes], for a folder that the validator accepts: it asks the
    vault for its markdown files once and returns, in the vault's order,
    those inside the sanitized folder: directly inside it, or at any
    depth when the listing is recursive.  A note of a sibling folder
    whose name only begins like the folder's is not listed. *)
Theorem listNotes_folder env folder recursive includeMetadata s folderPath :
  PathValidator.validateFolderValue (MCPServer.cwd s) (MCPServer.vaultPath s)
    (Js.orDefault folder (Js.Str EmptyString)) = PathValidator.Valid folderPath ->
  let files := MCPServer.vault_getMarkdownFiles env (MCPServer.calls s) in
  exists listed s',
    MCPServer.listNotes env folder recursive includeMetadata s
    = (OperationGuard.Returned
         {| MCPServer.content := MCPServer.Notes listed (Js.truthy includeMetadata);
            MCPServer.isError := false |}, s')
    /\ MCPServer.calls s' = MCPServer.calls s ++ [MCPServer.VaultGetMarkdownFiles]
    /\ sublist listed files
    /\ forall filePath,
        In filePath listed <->
        In filePath files
        /\ if String.eqb folderPath EmptyString
           then Js.truthy recursive = true \/ ~ Spec.contains "/" filePath
           else exists rest,
               filePath = folderPath +:+ "/" +:+ rest
               /\ (Js.truthy recursive = true \/ ~ Spec.contains "/" rest).
Proof.
  intros Hvalid files.
  exists (List.filter (MCPServer.inFolder folderPath (Js.truthy recursive)) files).
  eexists. split; [| split; [| split]].
  - unfold MCPServer.listNotes, MCPServer.validateFolder. cbv zeta.
    unfold MCPServer.bind at 1, MCPServer.validated. rewrite Hvalid.
    reflexivity.
  - reflexivity.
  - clear. induction files as [|x l IH]; [constructor |].
    cbn [List.filter]. destruct (MCPServer.inFolder _ _ x);
      [apply sublist_skip | apply sublist_cons]; exact IH.
  - intros filePath. rewrite List.filter_In, inFolder_spec. reflexivity.
Qed.

Lemma listNotes_folder_witness :
  let env :=
    {| MCPServer.vault_getAbstractFileByPath := fun _ _ => None;
       MCPServer.vault_read := fun _ _ => MCPServer.Ok EmptyString;
       MCPServer.vault_modify := fun _ _ _ => MCPServer.Ok tt;
       MCPServer.vault_create := fun _ _ _ => MCPServer.Ok tt;
       MCPServer.vault_createFolder := fun _ _ => MCPServer.Ok tt;
       MCPServer.vault_getMarkdownFiles :=
         fun _ => ["a.md"; "work/b.md"; "work/sub/c.md"; "workshop/d.md"];
       MCPServer.vault_getName := fun _ => Utf16.lit "vault";
       MCPServer.qmd_isAvailable := fun _ => MCPServer.Ok false;
       MCPServer.qmd_search := fun _ _ _ _ => MCPServer.Ok EmptyString;
       MCPServer.tasks_queryTasks := fun _ _ _ _ _ => MCPServer.Ok EmptyString;
       MCPServer.tasks_addTask := fun _ _ _ _ _ _ => MCPServer.Ok EmptyString;
       MCPServer.tasks_completeTask := fun _ _ => MCPServer.Ok EmptyString |} in
  exists listed s',
    MCPServer.listNotes env (Js.Str "work") (Js.Bool false) Js.Undefined
      (Sample.server true false)
    = (OperationGuard.Returned
         {| MCPServer.content := MCPServer.Notes listed false;
            MCPServer.isError := false |}, s')
    /\ listed = ["work/b.md"].
Proof.
  intros env.
  destruct (listNotes_folder env (Js.Str "work") (Js.Bool false) Js.Undefined
              (Sample.server true false) "work") as (listed & s' & E & _);
    [vm_compute; reflexivity |].
  exists listed, s'. split; [exact E |].
  vm_compute in E. injection E as E _. symmetry. exact E.
Defined.

Section ReturnFacts.

Import MCPServer.

Context {A : Type} (Q : A -> Prop).

Lemma returns_ret (x : A) : Q x -> Returns Q (ret x).
Proof. intros H s y [= <-]. exact H. Qed.

Lemma returns_throw e : Returns Q (@throw A e).
Proof. intros s y. discriminate. Qed.

Lemma returns_bind {B} (m : M B) (k : B -> M A) :
  (forall x, Returns Q (k x)) -> Returns Q (bind m k).
Proof.
  intros Hk s y. unfold bind.
  destruct (m s) as [[x | e |] s1]; cbn; [apply Hk | discriminate | discriminate].
Qed.

Lemma returns_tryCatch (m : M A) (handler : Js.error -> M A) :
  Returns Q m -> (forall e, Returns Q (handler e)) -> Returns Q (tryCatch m handler).
Proof.
  intros Hm Hh s y. unfold tryCatch. specialize (Hm s).
  destruct (m s) as [[x | e |] s1]; cbn in *; [exact (Hm y) | apply Hh | discriminate].
Qed.

End ReturnFacts.

Section DispatchFacts.

Import MCPServer.

Variable env : Collaborators.

Lemma returns_withApproval a operation (executor : M ToolResponse) :
  Returns known executor -> Returns known (withApproval a operation executor).
Proof.
  intros H s y. unfold withApproval, OperationGuard.executeWithApproval.
  destruct (OperationGuard.requiresApproval _ _); [| apply H].
  destruct (OperationGuard.requestApproval _ _ _ _) as [g h].
  destruct (OperationGuard.promiseValue _ _) as [[|] |]; cbn; try discriminate.
  apply H.
Qed.

Ltac returns :=
  repeat first
    [ apply returns_throw
    | apply returns_ret; intros ?; discriminate
    | apply returns_bind; intros ?
    | match goal with
      | |- Returns _ (match ?x with _ => _ end) => destruct x
      | |- Returns _ (if ?b then _ else _) => destruct b
      end ].

Lemma returns_readNote path includeMetadata :
  Returns known (readNote env path includeMetadata).
Proof. unfold readNote. returns. Qed.

Lemma returns_writeNote path content mode :
  Returns known (writeNote env path content mode).
Proof. unfold writeNote. cbv zeta. returns. Qed.

Lemma returns_searchVault query mode limit :
  Returns known (searchVault env query mode limit).
Proof. unfold searchVault. cbv zeta. returns. Qed.

Lemma returns_listNotes folder recursive includeMetadata :
  Returns known (listNotes env folder recursive includeMetadata).
Proof. unfold listNotes. cbv zeta. returns. Qed.

Lemma returns_listTasks args : Returns known (listTasks env args).
Proof. unfold listTasks. cbv zeta. returns. Qed.

Lemma returns_addTask args : Returns known (addTask env args).
Proof. unfold addTask. returns. Qed.

Lemma returns_completeTask taskId : Returns known (completeTask env taskId).
Proof. unfold completeTask. returns. Qed.

End DispatchFacts.

(** The dispatch knows exactly the tools that [getToolDefinitions]
    advertises: a call of any other name returns the error
    [Unknown tool] and changes nothing, not even the audit log; a call of
    an advertised tool never returns that error. *)
Theorem dispatch_matches_tool_list env a tool args s :
  (~ In tool MCPServer.toolNames ->
   MCPServer.executeTool env a tool args s
   = (OperationGuard.Returned
        {| MCPServer.content := MCPServer.ErrorText ("Unknown tool: " +:+ tool);
           MCPServer.isError := true |}, s))
  /\ (In tool MCPServer.toolNames ->
      forall r, (MCPServer.executeTool env a tool args s).1 = OperationGuard.Returned r ->
                MCPServer.known r).
Proof.
  split.
  - intros Hout. unfold MCPServer.executeTool.
    repeat match goal with
           | |- context [if String.eqb tool ?n then _ else _] =>
               destruct (String.eqb_spec tool n) as [-> | _];
                 [exfalso; apply Hout; cbn; tauto |]
           end.
    reflexivity.
  - intros Hin r. revert s r.
    change (MCPServer.Returns MCPServer.known (MCPServer.executeTool env a tool args)).
    intros s. unfold MCPServer.executeTool.
    apply returns_tryCatch.
    + repeat match goal with
             | |- MCPServer.Returns _ (if String.eqb tool ?n then _ else _) =>
                 destruct (String.eqb_spec tool n) as [-> | ?]
             end;
        first [ apply returns_readNote | apply returns_searchVault
              | apply returns_listNotes | apply returns_listTasks
              | apply returns_withApproval;
                first [apply returns_writeNote | apply returns_addTask
                      | apply returns_completeTask]
              | exfalso; cbn in Hin; intuition congruence ].
    + intros e. apply returns_bind. intros _. apply returns_ret.
      intros t. unfold MCPServer.errorString, Js.errorString.
      destruct e as [m | m | m | m | m | m]; cbn [Js.name Js.message];
        destruct (String.eqb m EmptyString); discriminate.
Qed.

Lemma dispatch_matches_tool_list_witness :
  MCPServer.executeTool Sample.collaborators (Sample.answered true) "delete_vault" ∅
    (Sample.server true true)
  = (OperationGuard.Returned
       {| MCPServer.content := MCPServer.ErrorText "Unknown tool: delete_vault";
          MCPServer.isError := true |}, Sample.server true true).
Proof.
  destruct (dispatch_matches_tool_list Sample.collaborators (Sample.answered true)
              "delete_vault" ∅ (Sample.server true true)) as [H _].
  apply H. cbn. intros H'. repeat destruct H' as [H' | H']; try discriminate. exact H'.
Defined.

(** ** OperationGuard: cancellation and the audit trail of approvals *)

(** [cancelAll], in any state that the guard reaches: afterwards no
    approval is pending, the promise of every approval that was pending
    has the value [false], and the promises decided before keep their
    value. *)
Theorem cancelAll_denies_pending requireApproval logger evs now :
  NoDup (OperationGuard.requestIds evs) ->
  let g := OperationGuard.run evs (OperationGuard.create requireApproval logger) in
  let g' := OperationGuard.cancelAll now g in
  OperationGuard.pendingApprovals g' = ∅
  /\ (forall id pending,
        OperationGuard.pendingApprovals g !! id = Some pending ->
        OperationGuard.promiseValue (OperationGuard.pa_timeout pending) g = None
        /\ OperationGuard.promiseValue (OperationGuard.pa_timeout pending) g' = Some false)
  /\ (forall h value,
        OperationGuard.promiseValue h g = Some value ->
        OperationGuard.promiseValue h g' = Some value).
Proof.
  intros Hids g g'.
  destruct (run_spec evs (OperationGuard.create requireApproval logger)
              (create_consistent _ _) Hids
              (fun i _ => unused_create requireApproval logger i))
    as (Hg & _).
  fold g in Hg.
  destruct (cancelAll_spec now g Hg) as (Hg' & Htimers & _ & Hpending & new & Hnew & Hfalse).
  fold g' in Hg', Htimers, Hpending, Hnew.
  split; [exact Hpending |]. split.
  - intros id pending Hp.
    destruct (OperationGuard.c_pending g Hg id pending Hp) as (Hid & tm & Htm & Htid).
    pose proof (OperationGuard.c_once g Hg _ tm Htm) as Hbefore.
    rewrite Htid, Hp in Hbefore.
    assert (Htm' : OperationGuard.timers g' !! OperationGuard.pa_timeout pending = Some tm)
      by (rewrite Htimers; exact Htm).
    pose proof (OperationGuard.c_once g' Hg' _ tm Htm') as Hafter.
    rewrite Htid, Hpending, lookup_empty in Hafter. destruct Hafter as [r Hr].
    unfold OperationGuard.promiseValue. rewrite Hbefore, Hr. split; [reflexivity |].
    cbn. f_equal.
    rewrite (settlementsOf_app _ g new g' Hnew), Hbefore in Hr. cbn [app] in Hr.
    assert (Hin : r ∈ filter (fun s => OperationGuard.st_promise s
                                       = OperationGuard.pa_timeout pending) new)
      by (rewrite Hr; apply list_elem_of_singleton; reflexivity).
    apply list_elem_of_filter in Hin as [_ Hin].
    rewrite Forall_forall in Hfalse. apply Hfalse, Hin.
  - intros h value Hv. unfold OperationGuard.promiseValue in *.
    rewrite (settlementsOf_app _ g new g' Hnew).
    destruct (OperationGuard.settlementsOf h g) as [|r l]; [discriminate |].
    exact Hv.
Qed.

Lemma cancelAll_denies_pending_witness :
  let g :=
    OperationGuard.run [OperationGuard.Request 1000 "1000-k3x9" Sample.operation]
      (OperationGuard.create true (AuditLogger.create true false)) in
  OperationGuard.promiseValue 0 g = None
  /\ OperationGuard.promiseValue 0 (OperationGuard.cancelAll 2000 g) = Some false.
Proof.
  intros g.
  destruct (cancelAll_denies_pending true (AuditLogger.create true false)
              [OperationGuard.Request 1000 "1000-k3x9" Sample.operation] 2000)
    as (_ & H & _).
  - vm_compute. repeat constructor. apply not_elem_of_nil.
  - apply (H "1000-k3x9"
             {| OperationGuard.pa_id := "1000-k3x9";
                OperationGuard.pa_operation := Sample.operation;
                OperationGuard.pa_timeout := 0;
                OperationGuard.pa_seq := 0 |}).
    vm_compute. reflexivity.
Defined.

Section TrailFacts.

Import OperationGuard.

Lemma logged_log everything now event a :
  AuditLogger.Logged everything a ->
  AuditLogger.Logged (everything ++ [AuditLogger.stamp now event])
    (AuditLogger.log now event a).
Proof.
  intros [Hon (dropped & E & Hfew)].
  destruct (log_fifo now event a Hon) as (d & Ed & Hd).
  split.
  - unfold AuditLogger.log. rewrite Hon. reflexivity.
  - exists (dropped ++ d). split.
    + rewrite E, <- !app_assoc, Ed. reflexivity.
    + intros Hlen.
      assert (Hl : List.length (AuditLogger.logs a) + 1
                   = List.length d + List.length (AuditLogger.logs (AuditLogger.log now event a))).
      { rewrite <- !List.length_app, <- Ed, List.length_app. reflexivity. }
      unfold AuditLogger.maxLogSize in *.
      assert (List.length d = 0) by lia.
      destruct d; [| discriminate]. rewrite app_nil_r. apply Hfew. lia.
Qed.

Lemma loggedDecisions_app l1 l2 :
  AuditLogger.loggedDecisions (l1 ++ l2)
  = AuditLogger.loggedDecisions l1 ++ AuditLogger.loggedDecisions l2.
Proof.
  unfold AuditLogger.loggedDecisions. rewrite List.filter_app, List.map_app. reflexivity.
Qed.

Lemma loggedRequests_app l1 l2 :
  AuditLogger.loggedRequests (l1 ++ l2)
  = AuditLogger.loggedRequests l1 ++ AuditLogger.loggedRequests l2.
Proof. unfold AuditLogger.loggedRequests. apply List.filter_app. Qed.

Lemma trail_request now id operation g :
  Trail g -> Trail (requestApproval now id operation g).1.
Proof.
  intros (everything & Hl & Hd & Hr).
  eexists. split; [| split].
  - cbn. apply logged_log. exact Hl.
  - rewrite loggedDecisions_app. cbn. rewrite app_nil_r. exact Hd.
  - rewrite loggedRequests_app, List.length_app. cbn. lia.
Qed.

Lemma trail_settle now operation approved h by_ g :
  Trail g -> Trail (resolvePromise h approved by_ (logResponse now operation approved g)).
Proof.
  intros (everything & Hl & Hd & Hr).
  eexists. split; [| split].
  - cbn. apply logged_log. exact Hl.
  - rewrite loggedDecisions_app. cbn. rewrite List.map_app, Hd. reflexivity.
  - rewrite loggedRequests_app, List.length_app. cbn. lia.
Qed.

Lemma trail_frame g g' :
  auditLogger g' = auditLogger g -> settlements g' = settlements g ->
  created g' = created g -> Trail g -> Trail g'.
Proof.
  intros E1 E2 E3 (everything & Hl & Hd & Hr). exists everything.
  rewrite E1, E2, E3. auto.
Qed.

Lemma trail_resolve now pending approved g :
  Trail g -> Trail (resolve now pending approved g).
Proof.
  intros H. unfold resolve. cbv zeta. apply trail_settle.
  eapply trail_frame; [| | | exact H]; reflexivity.
Qed.

Lemma trail_onTimeout now h tm g : Trail g -> Trail (onTimeout now h tm g).
Proof.
  intros H. unfold onTimeout. destruct (pendingApprovals g !! tm_id tm); [| exact H].
  cbv zeta. apply trail_settle.
  eapply trail_frame; [| | | exact H]; reflexivity.
Qed.

Lemma trail_cancelAll now g : Trail g -> Trail (cancelAll now g).
Proof.
  intros H. unfold cancelAll.
  eapply trail_frame with (g := fold_left (cancelOne now) _ g); try reflexivity.
  generalize (entries g). intros l.
  revert g H. induction l as [|entry l IH]; intros g H; [exact H |].
  cbn [fold_left]. apply IH. unfold cancelOne. apply trail_resolve.
  eapply trail_frame; [| | | exact H]; reflexivity.
Qed.

Lemma trail_step g ev : Trail g -> Trail (step g ev).
Proof.
  intros H. destruct ev as [now id operation | now id approved | now h | now]; cbn [step].
  - apply trail_request, H.
  - unfold onRespond. destruct (pendingApprovals g !! id); [apply trail_resolve, H | exact H].
  - destruct (timers g !! h) as [tm |]; [| exact H].
    destruct (tm_deadline tm <=? now)%Z; [apply trail_onTimeout, H | exact H].
  - apply trail_cancelAll, H.
Qed.

Lemma trail_run evs g : Trail g -> Trail (run evs g).
Proof.
  revert g. induction evs as [|ev evs IH]; intros g H; [exact H |].
  cbn [run fold_left]. apply IH, trail_step, H.
Qed.

End TrailFacts.

(** With audit logging on, the guard logs every approval decision once:
    along any sequence of requests, answers, timer callbacks and
    cancellations, the decisions in the buffer are, in order, the last
    values passed to the promises' [resolve] functions; while the buffer
    holds fewer than 1000 entries they are all of them, and the buffer
    holds one request entry for each promise created. *)
Theorem approval_decisions_logged requireApproval debugMode evs :
  let g :=
    OperationGuard.run evs
      (OperationGuard.create requireApproval (AuditLogger.create true debugMode)) in
  let entries := AuditLogger.logs (OperationGuard.auditLogger g) in
  let decided := map OperationGuard.st_value (OperationGuard.settlements g) in
  (exists older, decided = older ++ AuditLogger.loggedDecisions entries)
  /\ (List.length entries < 1000 ->
      decided = AuditLogger.loggedDecisions entries
      /\ OperationGuard.created g = List.length (AuditLogger.loggedRequests entries)).
Proof.
  intros g entries decided.
  assert (H : OperationGuard.Trail g).
  { apply trail_run. exists []. split; [| split]; try reflexivity.
    split; [reflexivity |]. exists []. split; [reflexivity | reflexivity]. }
  destruct H as (everything & [_ (dropped & E & Hfew)] & Hd & Hr).
  fold entries in E, Hfew. fold decided in Hd.
  split.
  - exists (AuditLogger.loggedDecisions dropped).
    rewrite Hd, E. apply loggedDecisions_app.
  - intros Hlen. rewrite (Hfew Hlen) in E. cbn [app] in E. subst everything.
    split; [exact Hd | exact Hr].
Qed.

(** ** MCPServer: the session token and the rate table *)

Section TokenFacts.

Import MCPServer.

Variable env : Collaborators.

Lemma handleRequest_token a req s :
  authToken (handleRequest env a req s).2 = authToken s.
Proof.
  unfold handleRequest. cbv zeta.
  destruct (String.eqb (method req) "OPTIONS"); [reflexivity |].
  destruct (checkRateLimit_frame (clientIp req) s) as (Ht & _).
  destruct (checkRateLimit (clientIp req) s) as [admitted s1]. cbn [snd] in Ht.
  destruct admitted; [| exact Ht]. cbn [negb].
  destruct (_ && _); [exact Ht |].
  destruct (framed_routed env a (clientIp req) (corsOrigin req) req s1) as (_ & Hr & _).
  rewrite Hr. exact Ht.
Qed.

Lemma serve_token arrs : forall s, authToken (serve env arrs s).2 = authToken s.
Proof.
  induction arrs as [|ar arrs IH]; intros s; [reflexivity |].
  cbn [serve].
  pose proof (handleRequest_token (approval ar) (request ar) (setClock (arrivedAt ar) s))
    as H.
  destruct (handleRequest env (approval ar) (request ar) (setClock (arrivedAt ar) s))
    as [o s1].
  specialize (IH s1). destruct (serve env arrs s1) as [os s2].
  cbn [snd] in *. rewrite IH, H. reflexivity.
Qed.

Lemma route_authorized a ip cors pathname req s r s' :
  authorized s req = true ->
  route env a ip cors pathname req s = (OperationGuard.Returned r, s') ->
  status r <> 401%Z.
Proof.
  intros Hauth. unfold route. cbv zeta.
  destruct (String.eqb pathname "/health"); [intros [= <- _]; discriminate |].
  destruct (_ && _).
  { destruct (isLoopback ip); intros [= <- _]; discriminate. }
  rewrite Hauth. cbn [negb].
  destruct (_ && _); [intros [= <- _]; discriminate |].
  destruct (_ && _); [| intros [= <- _]; discriminate].
  unfold bind at 1. unfold readJson.
  destruct (body req) as [| e | | | tool args]; try discriminate;
    try (intros [= <- _]; discriminate).
  cbn [ret].
  destruct tool as [| | | | tool |]; try (intros [= <- _]; discriminate).
  destruct (String.eqb tool EmptyString); [intros [= <- _]; discriminate |].
  unfold bind. destruct (executeTool env a tool args s) as [[x | e |] s1];
    try discriminate.
  intros [= <- _]. discriminate.
Qed.

Lemma handleRequest_authorized a req s r :
  authorized s req = true ->
  (handleRequest env a req s).1 = OperationGuard.Returned r ->
  status r <> 401%Z.
Proof.
  intros Hauth. unfold handleRequest. cbv zeta.
  destruct (String.eqb (method req) "OPTIONS"); [intros [= <-]; discriminate |].
  destruct (checkRateLimit_frame (clientIp req) s) as (Ht & _).
  destruct (checkRateLimit (clientIp req) s) as [admitted s1]. cbn [snd] in Ht.
  destruct admitted; [| intros [= <-]; discriminate]. cbn [negb].
  destruct (_ && _); [intros [= <-]; discriminate |].
  unfold routed, bind, parseUrl.
  destruct (url req) as [pathname | e0]; [| discriminate].
  cbn [ret]. unfold tryCatch.
  assert (Hauth1 : authorized s1 req = true).
  { unfold authorized in *. rewrite Ht. exact Hauth. }
  pose proof (route_authorized a (clientIp req) (corsOrigin req) pathname req s1) as Hr.
  destruct (route env a _ _ pathname req s1) as [[x | e |] s2]; cbn.
  - intros [= <-]. eapply Hr; eauto.
  - intros [= <-]. discriminate.
  - discriminate.
Qed.

Lemma handleRequest_issues a req s r :
  method req = "GET" -> url req = Ok "/auth/token" ->
  (handleRequest env a req s).1 = OperationGuard.Returned r ->
  status r = 200%Z ->
  payload r = Token (authToken s) /\ isLoopback (clientIp req) = true.
Proof.
  intros Hm Hp. unfold handleRequest. cbv zeta. rewrite Hm.
  change (String.eqb "GET" "OPTIONS") with false. cbv iota.
  destruct (checkRateLimit_frame (clientIp req) s) as (Ht & _).
  destruct (checkRateLimit (clientIp req) s) as [admitted s1]. cbn [snd] in Ht.
  destruct admitted; [| intros [= <-]; discriminate]. cbn [negb].
  change (String.eqb "GET" "POST") with false.
  change (String.eqb "GET" "GET") with true. cbn [negb andb].
  unfold routed, bind, parseUrl. rewrite Hp. cbn [ret].
  unfold tryCatch. rewrite (route_token env a _ _ req s1 Hm).
  destruct (isLoopback (clientIp req)); cbn.
  - intros [= <-] _. cbn. rewrite Ht. auto.
  - intros [= <-]. discriminate.
Qed.

End TokenFacts.

(** The session token: handling requests never changes it; [GET
    /auth/token], when it is answered 200, returns it, and only to a
    loopback address; and a request that carries the token returned is
    never answered 401, whatever the server handled in between. *)
Theorem token_round_trip env a req s r between a' req' now :
  MCPServer.method req = "GET" -> MCPServer.url req = MCPServer.Ok "/auth/token" ->
  (MCPServer.handleRequest env a req s).1 = OperationGuard.Returned r ->
  MCPServer.status r = 200%Z ->
  let later := (MCPServer.serve env between (MCPServer.handleRequest env a req s).2).2 in
  MCPServer.isLoopback (MCPServer.clientIp req) = true
  /\ MCPServer.payload r = MCPServer.Token (MCPServer.authToken s)
  /\ MCPServer.authToken later = MCPServer.authToken s
  /\ (MCPServer.authorization req' = Some ("Bearer " +:+ MCPServer.authToken s) ->
      forall r',
        (MCPServer.handleRequest env a' req' (MCPServer.setClock now later)).1
        = OperationGuard.Returned r' ->
        MCPServer.status r' <> 401%Z).
Proof.
  intros Hm Hp Hr H200 later.
  destruct (handleRequest_issues env a req s r Hm Hp Hr H200) as [Hpay Hloop].
  assert (Hlater : MCPServer.authToken later = MCPServer.authToken s).
  { unfold later. rewrite serve_token. apply handleRequest_token. }
  split; [exact Hloop |]. split; [exact Hpay |]. split; [exact Hlater |].
  intros Hauth r'. apply handleRequest_authorized.
  apply authorized_spec. cbn. rewrite Hlater. exact Hauth.
Qed.

Lemma token_round_trip_witness :
  let s := Sample.server true true in
  let tokenRequest := Sample.request "GET" "/auth/token" (Some "127.0.0.1") None in
  let toolsRequest :=
    Sample.request "GET" "/mcp/tools" (Some "10.0.0.7") (Some "Bearer 3f2c9a1e-token") in
  exists r r',
    (MCPServer.handleRequest Sample.collaborators (Sample.answered true) tokenRequest s).1
    = OperationGuard.Returned r
    /\ MCPServer.payload r = MCPServer.Token "3f2c9a1e-token"
    /\ (MCPServer.handleRequest Sample.collaborators (Sample.answered true) toolsRequest
          (MCPServer.setClock 2000
             (MCPServer.handleRequest Sample.collaborators (Sample.answered true)
                tokenRequest s).2)).1
       = OperationGuard.Returned r'
    /\ MCPServer.status r' <> 401%Z.
Proof.
  intros s tokenRequest toolsRequest.
  eexists _, _. split; [vm_compute; reflexivity |].
  destruct (token_round_trip Sample.collaborators (Sample.answered true) tokenRequest s
              _ [] (Sample.answered true) toolsRequest 2000
              eq_refl eq_refl eq_refl eq_refl) as (_ & Hpay & _ & Hlater).
  split; [exact Hpay |].
  split; [vm_compute; reflexivity |].
  eapply Hlater; [reflexivity |]. vm_compute. reflexivity.
Defined.

Section RateTableFacts.

Import MCPServer.

Lemma checkRateLimit_table client s :
  counted s ->
  let s' := (checkRateLimit client s).2 in
  counted s'
  /\ forall c, is_Some (requestCounts s' !! c)
               <-> c = client \/ is_Some (requestCounts s !! c).
Proof.
  intros Hs. unfold checkRateLimit. cbv zeta.
  assert (Hins : forall record,
             (1 <= count record <= rateLimit)%Z ->
             counted (setRequestCounts (<[client := record]> (requestCounts s)) s)
             /\ forall c, is_Some (requestCounts
                                     (setRequestCounts (<[client := record]> (requestCounts s)) s)
                                   !! c)
                          <-> c = client \/ is_Some (requestCounts s !! c)).
  { intros record Hr. split.
    - intros c r. cbn. destruct (decide (c = client)) as [-> | Hne].
      + rewrite lookup_insert_eq. intros [= <-]. exact Hr.
      + rewrite lookup_insert_ne by congruence. apply Hs.
    - intros c. cbn. destruct (decide (c = client)) as [-> | Hne].
      + rewrite lookup_insert_eq. split; [auto | eauto].
      + rewrite lookup_insert_ne by congruence.
        split; [auto | intros [? | ?]; [contradiction | auto]]. }
  destruct (requestCounts s !! client) as [record |] eqn:E.
  - destruct (resetTime record <? clock s)%Z.
    + apply Hins. cbn. unfold rateLimit. lia.
    + destruct (rateLimit <=? count record)%Z eqn:El.
      * cbn. split; [exact Hs |]. intros c. split; [auto |].
        intros [-> | H]; [rewrite E; eauto | exact H].
      * apply Hins. cbn. apply Z.leb_gt in El. specialize (Hs _ _ E). lia.
  - apply Hins. cbn. unfold rateLimit. lia.
Qed.

Variable env : Collaborators.

Lemma handleRequest_table a req s :
  counted s ->
  let s' := (handleRequest env a req s).2 in
  counted s'
  /\ forall c, is_Some (requestCounts s' !! c)
               <-> is_Some (requestCounts s !! c)
                   \/ (method req <> "OPTIONS" /\ clientIp req = c).
Proof.
  intros Hs s'.
  destruct (String.eqb_spec (method req) "OPTIONS") as [Hm | Hm].
  - assert (E : s' = s).
    { unfold s', handleRequest. cbv zeta. rewrite Hm. reflexivity. }
    rewrite E. split; [exact Hs |]. intros c. split; [auto |].
    intros [H | [H _]]; [exact H | contradiction].
  - pose proof (handleRequest_counts env a req s Hm) as E. fold s' in E.
    destruct (checkRateLimit_table (clientIp req) s Hs) as [Hc Hd].
    split.
    + intros c r. rewrite E. apply Hc.
    + intros c. rewrite E, Hd. split.
      * intros [-> | H]; auto.
      * intros [H | [_ <-]]; auto.
Qed.

End RateTableFacts.

(** The rate table along any sequence of requests: every record counts
    at least one request and at most 100, and no record is ever removed:
    the table holds a record for each client address that has sent a
    request other than a preflight, also for those answered 429. *)
Theorem rate_table_grows env arrs s :
  MCPServer.counted s ->
  let s' := (MCPServer.serve env arrs s).2 in
  MCPServer.counted s'
  /\ forall client,
      is_Some (MCPServer.requestCounts s' !! client)
      <-> is_Some (MCPServer.requestCounts s !! client)
          \/ exists ar,
              In ar arrs
              /\ MCPServer.method (MCPServer.request ar) <> "OPTIONS"
              /\ MCPServer.clientIp (MCPServer.request ar) = client.
Proof.
  revert s. induction arrs as [|ar arrs IH]; intros s Hs.
  - cbn. split; [exact Hs |]. intros client. split; [auto |].
    intros [H | (ar & [] & _)]. exact H.
  - cbn [MCPServer.serve].
    destruct (handleRequest_table env (MCPServer.approval ar) (MCPServer.request ar)
                (MCPServer.setClock (MCPServer.arrivedAt ar) s) Hs) as [Hc Hd].
    destruct (MCPServer.handleRequest env (MCPServer.approval ar) (MCPServer.request ar)
                (MCPServer.setClock (MCPServer.arrivedAt ar) s)) as [o s1].
    cbn [snd] in Hc, Hd.
    destruct (IH s1 Hc) as [Hc' Hd'].
    destruct (MCPServer.serve env arrs s1) as [os s2]. cbn [snd] in *.
    split; [exact Hc' |].
    intros client. rewrite Hd', Hd. cbn [MCPServer.requestCounts MCPServer.setClock].
    split.
    + intros [[H | [Hm Hip]] | (ar' & Hin & Hm & Hip)].
      * left. exact H.
      * right. exists ar. split; [left; reflexivity | auto].
      * right. exists ar'. split; [right; exact Hin | auto].
    + intros [H | (ar' & [<- | Hin] & Hm & Hip)].
      * left. left. exact H.
      * left. right. auto.
      * right. exists ar'. auto.
Qed.

Lemma rate_table_grows_witness :
  let arrival t :=
    {| MCPServer.arrivedAt := t;
       MCPServer.request := Sample.request "GET" "/health" (Some "10.0.0.7") None;
       MCPServer.approval := Sample.answered true |} in
  is_Some (MCPServer.requestCounts
             (MCPServer.serve Sample.collaborators [arrival 1000%Z; arrival 70000%Z]
                (Sample.server true true)).2 !! "10.0.0.7").
Proof.
  intros arrival.
  destruct (rate_table_grows Sample.collaborators [arrival 1000%Z; arrival 70000%Z]
              (Sample.server true true)) as [_ H].
  - intros client record E. cbn in E. rewrite lookup_empty in E. discriminate.
  - apply H. right. exists (arrival 1000%Z). split; [left; reflexivity |].
    split; [discriminate | reflexivity].
Defined.

(** ** ApprovalModal, readBody, TasksAdapter and QMDClient *)

Section ModalFacts.

Import ApprovalModal.

(** Once the modal has responded, nothing makes it call back again. *)
Lemma responded_run evs m : responded m = true -> run evs m = m.
Proof.
  intros H. induction evs as [|ev evs IH]; [reflexivity |].
  cbn [run fold_left]. replace (step m ev) with m; [exact IH |].
  destruct ev; unfold step, respond, close, onClose; rewrite H; reflexivity.
Qed.

End ModalFacts.

(** The approval modal calls its callback at most once, whatever the user
    does and in whatever order: with the answer of the first click, or
    with a denial when the modal is closed before any click.  So the
    promise of the request for which [requestApproval] opened the modal
    gets the answer of the first click, a denial if the modal was closed
    first, and no value from the modal while the user has done nothing. *)
Theorem modal_answers_once requireApproval logger evs0 now id operation evs now' :
  NoDup (OperationGuard.requestIds evs0) ->
  let m := ApprovalModal.run evs ApprovalModal.create in
  let answer :=
    match evs with
    | [] => None
    | ApprovalModal.ClickAllow :: _ => Some true
    | ApprovalModal.ClickDeny :: _ | ApprovalModal.Dismiss :: _ => Some false
    end in
  let g := OperationGuard.run evs0 (OperationGuard.create requireApproval logger) in
  let asked := OperationGuard.requestApproval now id operation g in
  ApprovalModal.callbacks m = option_list answer
  /\ ApprovalModal.responded m = negb (bool_decide (evs = []))
  /\ OperationGuard.promiseValue asked.2
       (OperationGuard.run (ApprovalModal.answers now' id evs) asked.1)
     = answer.
Proof.
  intros Hids m answer g asked.
  assert (H : ApprovalModal.callbacks m = option_list answer
              /\ ApprovalModal.responded m = negb (bool_decide (evs = []))).
  { unfold m, answer. destruct evs as [|ev evs]; [split; reflexivity |].
    cbn [ApprovalModal.run fold_left].
    change (fold_left ApprovalModal.step evs
              (ApprovalModal.step ApprovalModal.create ev))
      with (ApprovalModal.run evs (ApprovalModal.step ApprovalModal.create ev)).
    rewrite responded_run by (destruct ev; reflexivity).
    destruct ev; split; reflexivity. }
  destruct H as [Hc Hr]. split; [exact Hc |]. split; [exact Hr |].
  destruct (run_spec evs0 (OperationGuard.create requireApproval logger)
              (create_consistent _ _) Hids
              (fun i _ => unused_create requireApproval logger i)) as (Hg & _).
  fold g in Hg.
  assert (Hnone : OperationGuard.settlementsOf (OperationGuard.created g) asked.1 = [])
    by (apply (OperationGuard.c_none g Hg); lia).
  assert (Hp : OperationGuard.pendingApprovals asked.1 !! id
               = Some {| OperationGuard.pa_id := id;
                         OperationGuard.pa_operation := operation;
                         OperationGuard.pa_timeout := OperationGuard.created g;
                         OperationGuard.pa_seq :=
                           match OperationGuard.pendingApprovals g !! id with
                           | Some present => OperationGuard.pa_seq present
                           | None => OperationGuard.created g
                           end |})
    by (cbn; apply lookup_insert_eq).
  assert (Hh : asked.2 = OperationGuard.created g) by reflexivity.
  clearbody asked. destruct asked as [g1 h]. cbn [fst snd] in *. subst h.
  unfold ApprovalModal.answers. fold m. rewrite Hc.
  unfold OperationGuard.promiseValue.
  destruct answer as [value |].
  - change (option_list (Some value)) with [value].
    cbn [map OperationGuard.run fold_left OperationGuard.step].
    unfold OperationGuard.onRespond. rewrite Hp.
    rewrite (settlementsOf_app _ g1
               [{| OperationGuard.st_promise := OperationGuard.created g;
                   OperationGuard.st_value := value;
                   OperationGuard.st_by := OperationGuard.ByResolve |}])
      by reflexivity.
    rewrite Hnone. cbn [app]. rewrite filter_cons_True by reflexivity. reflexivity.
  - change (option_list None) with (@nil bool).
    cbn [map OperationGuard.run fold_left]. rewrite Hnone. reflexivity.
Qed.

Lemma modal_answers_once_witness :
  let asked :=
    OperationGuard.requestApproval 1000 "1000-k3x9" Sample.operation
      (OperationGuard.create true (AuditLogger.create true false)) in
  OperationGuard.promiseValue asked.2
    (OperationGuard.run
       (ApprovalModal.answers 2000 "1000-k3x9"
          [ApprovalModal.Dismiss; ApprovalModal.ClickAllow]) asked.1)
  = Some false.
Proof.
  destruct (modal_answers_once true (AuditLogger.create true false) [] 1000 "1000-k3x9"
              Sample.operation [ApprovalModal.Dismiss; ApprovalModal.ClickAllow] 2000)
    as (_ & _ & H); [constructor | exact H].
Defined.

Section ReadBodyFacts.

Import MCPServer.

(** A settled promise keeps its state. *)
Lemma settled_stream evs : forall rd r,
  rb_promise rd = Some r -> rb_promise (fold_left onStream evs rd) = Some r.
Proof.
  induction evs as [|ev evs IH]; intros rd r H; [exact H |].
  cbn [fold_left]. apply IH.
  destruct ev as [chunk | | e]; unfold onStream, onData, onEnd, onError, settle.
  - destruct (rb_rejected rd); [exact H |]. cbv zeta.
    destruct (_ <? _)%Z; cbn; rewrite H; cbn; congruence.
  - destruct (negb _); [rewrite H |]; exact H.
  - destruct (negb _); [rewrite H |]; exact H.
Qed.

Lemma length_append_le body chunk :
  String.length body <= String.length (body +:+ chunk).
Proof.
  induction body as [|c body IH]; [cbn; lia |].
  rewrite append_cons. cbn [String.length]. lia.
Qed.

(** While the body stays within the limit, the chunks accumulate. *)
Lemma stream_data chunks : forall body,
  (Z.of_nat (String.length (body +:+ received chunks)) <= maxSize)%Z ->
  fold_left onStream (map Data chunks) (reading body)
  = reading (body +:+ received chunks).
Proof.
  induction chunks as [|chunk chunks IH]; intros body H.
  - cbn [map fold_left received]. rewrite append_empty_r. reflexivity.
  - cbn [map fold_left received onStream]. unfold onData.
    cbn [rb_rejected rb_body reading]. cbv zeta.
    cbn [received] in H. rewrite <- append_assoc in H.
    assert (E : (maxSize <? Z.of_nat (String.length (body +:+ chunk)))%Z = false).
    { apply Z.ltb_ge.
      pose proof (length_append_le (body +:+ chunk) (received chunks)). lia. }
    rewrite E. cbv iota.
    change {| rb_body := body +:+ chunk; rb_rejected := false;
              rb_destroyed := rb_destroyed (reading body);
              rb_promise := rb_promise (reading body) |}
      with (reading (body +:+ chunk)).
    rewrite (IH (body +:+ chunk) H), append_assoc. reflexivity.
Qed.

Lemma stream_accepted evs : forall body b,
  (Z.of_nat (String.length body) <= maxSize)%Z ->
  rb_promise (fold_left onStream evs (reading body)) = Some (Ok b) ->
  exists chunks rest,
    evs = map Data chunks ++ End :: rest
    /\ b = body +:+ received chunks
    /\ (Z.of_nat (String.length b) <= maxSize)%Z.
Proof.
  induction evs as [|ev evs IH]; intros body b Hlen H; [discriminate |].
  cbn [fold_left] in H. destruct ev as [chunk | | e].
  - unfold onStream, onData in H. cbn [rb_rejected rb_body reading] in H. cbv zeta in H.
    destruct (maxSize <? Z.of_nat (String.length (body +:+ chunk)))%Z eqn:E.
    + rewrite (settled_stream evs _ (Throws (Js.Error "Request body too large"))) in H
        by reflexivity.
      discriminate.
    + apply Z.ltb_ge in E. cbn [rb_destroyed rb_promise] in H.
      destruct (IH (body +:+ chunk) b E H) as (chunks & rest & -> & -> & Hb).
      exists (chunk :: chunks), rest. split; [reflexivity |].
      split; [cbn [received]; rewrite append_assoc; reflexivity | exact Hb].
  - unfold onStream, onEnd, settle in H. cbn in H.
    rewrite (settled_stream evs _ (Ok body)) in H by reflexivity.
    injection H as <-. exists [], evs. split; [reflexivity |].
    split; [cbn; rewrite append_empty_r; reflexivity | exact Hlen].
  - unfold onStream, onError, settle in H. cbn in H.
    rewrite (settled_stream evs _ (Throws e)) in H by reflexivity.
    discriminate.
Qed.

End ReadBodyFacts.

(** [readBody] resolves exactly when the stream ends after chunks whose
    total length is within [maxSize], and then with these chunks in
    order; it never resolves with a longer body.  The chunk that takes
    the body over the limit rejects the promise with
    [Request body too large], whatever follows; and a promise that is
    settled keeps its state. *)
Theorem readBody_limit evs :
  (forall body,
      MCPServer.readBody evs = Some (MCPServer.Ok body)
      <-> exists chunks rest,
          evs = map MCPServer.Data chunks ++ MCPServer.End :: rest
          /\ body = MCPServer.received chunks
          /\ (Z.of_nat (String.length body) <= MCPServer.maxSize)%Z)
  /\ (forall chunks chunk rest,
        evs = map MCPServer.Data chunks ++ MCPServer.Data chunk :: rest ->
        (Z.of_nat (String.length (MCPServer.received chunks)) <= MCPServer.maxSize)%Z ->
        (MCPServer.maxSize
         < Z.of_nat (String.length (MCPServer.received chunks +:+ chunk)))%Z ->
        MCPServer.readBody evs = Some (MCPServer.Throws (Js.Error "Request body too large")))
  /\ (forall result more,
        MCPServer.readBody evs = Some result ->
        MCPServer.readBody (evs ++ more) = Some result).
Proof.
  unfold MCPServer.readBody. split; [| split].
  - intros body. split.
    + intros H. apply (stream_accepted evs EmptyString body); [| exact H].
      unfold MCPServer.maxSize. cbn. lia.
    + intros (chunks & rest & -> & -> & Hlen).
      rewrite fold_left_app.
      change MCPServer.reader with (MCPServer.reading EmptyString).
      rewrite stream_data by exact Hlen.
      cbn [fold_left MCPServer.onStream]. apply settled_stream. reflexivity.
  - intros chunks chunk rest -> Hunder Hover.
    rewrite fold_left_app.
    change MCPServer.reader with (MCPServer.reading EmptyString).
    rewrite stream_data by exact Hunder.
    cbn [fold_left MCPServer.onStream]. apply settled_stream.
    unfold MCPServer.onData. cbn [MCPServer.rb_rejected MCPServer.rb_body MCPServer.reading].
    cbv zeta. change (EmptyString +:+ MCPServer.received chunks)
      with (MCPServer.received chunks).
    apply Z.ltb_lt in Hover. rewrite Hover. reflexivity.
  - intros result more H. rewrite fold_left_app. apply settled_stream, H.
Qed.

Lemma readBody_limit_witness :
  MCPServer.readBody
    [MCPServer.Data "{"; MCPServer.Data "}"; MCPServer.End;
     MCPServer.StreamError (Js.Error "reset")]
  = Some (MCPServer.Ok "{}").
Proof.
  destruct (readBody_limit
              [MCPServer.Data "{"; MCPServer.Data "}"; MCPServer.End;
               MCPServer.StreamError (Js.Error "reset")]) as (H & _ & _).
  apply H. exists ["{"; "}"], [MCPServer.StreamError (Js.Error "reset")].
  split; [reflexivity |]. split; [reflexivity |]. vm_compute. discriminate.
Defined.

Section QueryFacts.

Lemma ltb_irrefl_eq a b : Utf16.ltb a b = false -> Utf16.ltb b a = false -> a = b.
Proof.
  revert b. induction a as [|x a IH]; intros [|y b]; cbn [Utf16.ltb];
    try discriminate; [reflexivity |].
  intros H1 H2. apply orb_false_iff in H1 as [H1 H1'], H2 as [H2 H2'].
  apply N.ltb_ge in H1, H2. assert (x = y) as -> by lia.
  rewrite N.eqb_refl in H1', H2'. cbn [andb] in H1', H2'.
  rewrite (IH b H1' H2'). reflexivity.
Qed.

End QueryFacts.

(** [matchesQuery]: the empty query matches every task.  A task that
    matches respects the status asked for; under [overdue] it is not
    completed and has a due date before today; and when [dueBefore] and
    [dueAfter] are both today (the [dueToday] of [list_tasks]) it is due
    today or has no due date: a task without a due date passes every
    filter on the due date except [overdue]. *)
Theorem matchesQuery_filters task query today :
  TasksAdapter.matchesQuery task TasksAdapter.anyTask today = true
  /\ (TasksAdapter.matchesQuery task query today = true ->
      (Js.isStr "incomplete" (TasksAdapter.q_status query) = true ->
       TasksAdapter.completed task = false)
      /\ (Js.isStr "complete" (TasksAdapter.q_status query) = true ->
          TasksAdapter.completed task = true)
      /\ (Js.truthy (TasksAdapter.q_overdue query) = true ->
          TasksAdapter.completed task = false
          /\ exists due,
              TasksAdapter.dueDate task = Some due /\ due <> []
              /\ Utf16.ltb due today = true)
      /\ (today <> [] ->
          TasksAdapter.q_dueBefore query = Some today ->
          TasksAdapter.q_dueAfter query = Some today ->
          TasksAdapter.given (TasksAdapter.dueDate task) = false
          \/ TasksAdapter.dueDate task = Some today))
  /\ (TasksAdapter.given (TasksAdapter.dueDate task) = false ->
      forall dueBefore dueAfter,
        TasksAdapter.matchesQuery task
          {| TasksAdapter.q_status := Js.Undefined;
             TasksAdapter.q_dueBefore := dueBefore;
             TasksAdapter.q_dueAfter := dueAfter;
             TasksAdapter.q_overdue := Js.Undefined;
             TasksAdapter.q_priority := None;
             TasksAdapter.q_tags := None;
             TasksAdapter.q_inNote := None;
             TasksAdapter.q_limit := Js.Undefined |} today = true).
Proof.
  split; [reflexivity |]. split.
  - unfold TasksAdapter.matchesQuery. intros H.
    destruct (Js.isStr "incomplete" _ && _) eqn:E1; [discriminate |].
    destruct (Js.isStr "complete" _ && _) eqn:E2; [discriminate |].
    destruct (Js.truthy _ && _) eqn:E3; [discriminate |].
    destruct (TasksAdapter.given (TasksAdapter.q_dueBefore query) && _ && _) eqn:E4;
      [discriminate |].
    destruct (TasksAdapter.given (TasksAdapter.q_dueAfter query) && _ && _) eqn:E5;
      [discriminate |].
    clear H. split; [| split; [| split]].
    + intros Hs. rewrite Hs in E1. exact E1.
    + intros Hs. rewrite Hs in E2. cbn in E2. apply negb_false_iff in E2. exact E2.
    + intros Ho. rewrite Ho in E3. cbn [andb] in E3.
      apply orb_false_iff in E3 as [E3 Hc]. apply orb_false_iff in E3 as [Hg Hb].
      apply negb_false_iff in Hg, Hb. split; [exact Hc |].
      destruct (TasksAdapter.dueDate task) as [due |]; [| discriminate].
      exists due. split; [reflexivity |]. split; [| exact Hb].
      destruct due; [discriminate | discriminate].
    + intros Ht Hb Ha. rewrite Hb in E4. rewrite Ha in E5.
      assert (Eg : TasksAdapter.given (Some today) = true).
      { destruct today; [contradiction | reflexivity]. }
      rewrite Eg in E4, E5. cbn [andb] in E4, E5.
      destruct (TasksAdapter.dueDate task) as [due |] eqn:Ed; [| left; reflexivity].
      destruct (TasksAdapter.given (Some due)); [| left; reflexivity].
      cbn [andb TasksAdapter.before] in E4, E5.
      right. f_equal. apply ltb_irrefl_eq; assumption.
  - intros Hg dueBefore dueAfter. unfold TasksAdapter.matchesQuery.
    cbn [TasksAdapter.q_status TasksAdapter.q_overdue TasksAdapter.q_dueBefore
         TasksAdapter.q_dueAfter TasksAdapter.q_priority TasksAdapter.q_tags
         Js.isStr Js.truthy andb].
    rewrite Hg, !andb_false_r. reflexivity.
Qed.

Lemma matchesQuery_filters_witness :
  let task due :=
    {| TasksAdapter.id := Utf16.lit "Inbox.md:3";
       TasksAdapter.description := Utf16.lit "call back";
       TasksAdapter.completed := false; TasksAdapter.dueDate := due;
       TasksAdapter.scheduledDate := None; TasksAdapter.startDate := None;
       TasksAdapter.doneDate := None; TasksAdapter.priority := None;
       TasksAdapter.recurrence := None; TasksAdapter.tags := [];
       TasksAdapter.filePath := Utf16.lit "Inbox.md"; TasksAdapter.lineNumber := 3;
       TasksAdapter.rawLine := Utf16.lit "- [ ] call back" |} in
  let dueToday :=
    {| TasksAdapter.q_status := Js.Undefined;
       TasksAdapter.q_dueBefore := Some (Utf16.lit "2026-11-03");
       TasksAdapter.q_dueAfter := Some (Utf16.lit "2026-11-03");
       TasksAdapter.q_overdue := Js.Undefined;
       TasksAdapter.q_priority := None; TasksAdapter.q_tags := None;
       TasksAdapter.q_inNote := None; TasksAdapter.q_limit := Js.Undefined |} in
  TasksAdapter.matchesQuery (task None) dueToday (Utf16.lit "2026-11-03") = true
  /\ TasksAdapter.matchesQuery (task (Some (Utf16.lit "2026-11-04"))) dueToday
       (Utf16.lit "2026-11-03") = false.
Proof.
  intros task dueToday.
  destruct (matchesQuery_filters (task None) dueToday (Utf16.lit "2026-11-03"))
    as (_ & _ & H).
  split; [apply H; reflexivity | reflexivity].
Defined.

(** ** MCPServer: the audit of tool calls *)

Section AuditFacts.

Import OperationGuard MCPServer.

Lemma toolCalls_app l1 l2 : toolCalls (l1 ++ l2) = toolCalls l1 ++ toolCalls l2.
Proof. unfold toolCalls. rewrite List.filter_app, List.map_app. reflexivity. Qed.

Lemma handed_refl g : handed [] g g.
Proof. intros everything H. rewrite app_nil_r. exact H. Qed.

Lemma handed_trans n1 n2 g1 g2 g3 :
  handed n1 g1 g2 -> handed n2 g2 g3 -> handed (n1 ++ n2) g1 g3.
Proof. intros H1 H2 everything H. rewrite app_assoc. apply H2, H1, H. Qed.

Lemma handed_same g g' : auditLogger g' = auditLogger g -> handed [] g g'.
Proof. intros E everything H. rewrite app_nil_r, E. exact H. Qed.

Lemma handed_log now event g :
  handed [AuditLogger.stamp now event] g (withLogger (AuditLogger.log now event) g).
Proof. intros everything H. cbn. apply logged_log, H. Qed.

Lemma quiet_refl s : quiet s s.
Proof. exists []. split; [apply handed_refl | reflexivity]. Qed.

Lemma quiet_trans s1 s2 s3 : quiet s1 s2 -> quiet s2 s3 -> quiet s1 s3.
Proof.
  intros (n1 & H1 & T1) (n2 & H2 & T2).
  exists (n1 ++ n2). split; [eapply handed_trans; eauto |].
  rewrite toolCalls_app, T1, T2. reflexivity.
Qed.

Lemma quiet_same s s' :
  auditLogger (operationGuard s') = auditLogger (operationGuard s) -> quiet s s'.
Proof. intros E. exists []. split; [apply handed_same, E | reflexivity]. Qed.

Lemma quiet_ret {A} (x : A) : Quiet (ret x).
Proof. intros s. apply quiet_refl. Qed.

Lemma quiet_throw {A} e : Quiet (@throw A e).
Proof. intros s. apply quiet_refl. Qed.

Lemma quiet_bind {A B} (m : M A) (k : A -> M B) :
  Quiet m -> (forall x, Quiet (k x)) -> Quiet (bind m k).
Proof.
  intros Hm Hk s. unfold bind. specialize (Hm s).
  destruct (m s) as [[x | e |] s1]; cbn in *; try exact Hm.
  eapply quiet_trans; [exact Hm | apply Hk].
Qed.

Variable env : Collaborators.

Lemma quiet_answer {A} c (reply : list Call -> Reply A) : Quiet (answer c reply).
Proof.
  intros s. unfold answer. destruct (reply (calls s)); apply quiet_same; reflexivity.
Qed.

Lemma quiet_lookup p : Quiet (vaultGetAbstractFileByPath env p).
Proof. intros s. apply quiet_same; reflexivity. Qed.

Lemma quiet_files : Quiet (vaultGetMarkdownFiles env).
Proof. intros s. apply quiet_same; reflexivity. Qed.

Lemma quiet_cache p : Quiet (metadataGetFileCache p).
Proof. intros s. apply quiet_same; reflexivity. Qed.

Lemma quiet_validated r : Quiet (validated r).
Proof. intros s. unfold validated. destruct (r s); apply quiet_refl. Qed.

Ltac quiet :=
  repeat first
    [ apply quiet_ret | apply quiet_throw | apply quiet_answer
    | apply quiet_lookup | apply quiet_files | apply quiet_cache
    | apply quiet_validated
    | apply quiet_bind; [| intros ?]
    | match goal with
      | |- Quiet (match ?x with _ => _ end) => destruct x
      | |- Quiet (if ?b then _ else _) => destruct b
      end ].

Lemma quiet_ensureFolder path : Quiet (ensureFolder env path).
Proof. unfold ensureFolder, validateFolder. quiet. Qed.

(** A quiet step before an audited handler. *)
Lemma audited_bind {A} tool path (m : M A) (k : A -> M ToolResponse) :
  Quiet m -> (forall x, Audited tool path (k x)) -> Audited tool path (bind m k).
Proof.
  intros Hm Hk s. unfold bind. destruct (Hm s) as (n1 & H1 & T1).
  destruct (m s) as [[x | e |] s1]; cbn [fst snd] in *.
  - destruct (Hk x s1) as (n2 & H2 & T2).
    exists (n1 ++ n2). split; [eapply handed_trans; eauto |].
    rewrite toolCalls_app, T1. exact T2.
  - exists n1. auto.
  - exists n1. auto.
Qed.

Lemma audited_throw tool path e : Audited tool path (throw e).
Proof. intros s. exists []. split; [apply handed_refl | left; reflexivity]. Qed.

(** The success of a handler: its entry, and then a result or, from the
    link, an error. *)
Lemma audited_log tool path (k : M ToolResponse) :
  Final k -> Audited tool path (logToolCall tool path true None ;;; k).
Proof.
  intros Hk s. unfold bind, logToolCall. cbn [fst snd].
  set (s1 := setGuard _ s).
  destruct (Hk s1) as [(n & H & T) Hr].
  exists ([AuditLogger.stamp (clock s) (toolCallEvent tool path true None)] ++ n). split.
  - apply (handed_trans [_] n _ (operationGuard s1)); [| exact H].
    apply (handed_log (clock s) (toolCallEvent tool path true None)).
  - rewrite toolCalls_app, T.
    destruct (k s1).1 as [r | e |]; [| right; reflexivity | destruct Hr].
    destruct Hr as (Hu & He & Hn). rewrite Hu. split; [reflexivity | auto].
Qed.

Lemma final_ret r :
  unavailable r = false -> isError r = false -> errorOf r = None -> Final (ret r).
Proof. intros Hu He Hn s. split; [apply quiet_refl | cbn; auto]. Qed.

(** The result with the link, which [writeNote] and [addTask] build
    after they have logged. *)
Lemma final_link path (result : string -> ToolResponse) :
  (forall uri, unavailable (result uri) = false /\ isError (result uri) = false
               /\ errorOf (result uri) = None) ->
  Final (uri <- openUri env path ;; ret (result uri)).
Proof.
  intros H s. unfold bind, openUri, vaultGetName. cbn.
  destruct (Utf16.encodeURIComponent _); cbn.
  - split; [apply quiet_same; reflexivity | apply H].
  - split; [apply quiet_same; reflexivity | exact I].
Qed.

Ltac audited :=
  repeat first
    [ apply audited_throw
    | apply audited_log; apply final_ret; reflexivity
    | apply audited_bind;
      [ first [ apply quiet_answer | apply quiet_lookup | apply quiet_files
              | apply quiet_cache | apply quiet_validated | apply quiet_ensureFolder
              | quiet ]
      | intros ? ]
    | match goal with
      | |- Audited _ _ (match ?x with _ => _ end) => destruct x
      | |- Audited _ _ (if ?b then _ else _) => destruct b
      end ].

Lemma audited_readNote path includeMetadata :
  Audited "read_note" path (readNote env path includeMetadata).
Proof.
  unfold readNote, validateWithExtension.
  apply audited_bind; [apply quiet_validated | intros sanitized].
  apply audited_bind; [apply quiet_lookup | intros file].
  destruct file as [[|] |]; try apply audited_throw.
  apply audited_bind; [apply quiet_answer | intros text].
  apply audited_log. intros s. unfold bind.
  destruct (Js.truthy includeMetadata); cbn; (split; [| repeat split]).
  - apply quiet_same; reflexivity.
  - apply quiet_refl.
Qed.

Lemma audited_writeNote path content mode :
  Audited "write_note" path (writeNote env path content mode).
Proof.
  unfold writeNote, validateWithExtension. cbv zeta.
  apply audited_bind; [apply quiet_validated | intros sanitized].
  apply audited_bind; [apply quiet_lookup | intros existingFile].
  destruct (_ && _); [apply audited_throw |].
  apply audited_bind.
  { destruct (Js.isStr "append" _); [| apply quiet_ret].
    destruct existingFile as [[|] |]; try apply quiet_throw.
    apply quiet_bind; [apply quiet_answer | intros ?; apply quiet_ret]. }
  intros written. apply audited_bind.
  { destruct (negb _); [apply quiet_ensureFolder | apply quiet_ret]. }
  intros _. apply audited_bind.
  { destruct existingFile as [[|] |]; apply quiet_answer. }
  intros _. apply audited_log.
  apply (final_link sanitized (fun uri => {| content := NoteWritten sanitized _ uri;
                                             isError := false |})).
  intros uri. repeat split.
Qed.

Lemma audited_searchVault query mode limit :
  Audited "search_vault" Js.Undefined (searchVault env query mode limit).
Proof.
  unfold searchVault. cbv zeta.
  apply audited_bind; [apply quiet_answer | intros available].
  destruct available; cbn [negb].
  - apply audited_bind; [apply quiet_answer | intros results].
    apply audited_log. apply final_ret; reflexivity.
  - intros s. exists [].
    split; [apply handed_refl |]. cbn. split; [reflexivity | discriminate].
Qed.

Lemma audited_listNotes folder recursive includeMetadata :
  Audited "list_notes" (Js.orDefault folder (Js.Str EmptyString))
    (listNotes env folder recursive includeMetadata).
Proof.
  unfold listNotes, validateFolder. cbv zeta.
  apply audited_bind; [apply quiet_validated | intros folderPath].
  apply audited_bind; [apply quiet_files | intros files].
  apply audited_log. apply final_ret; reflexivity.
Qed.

Lemma audited_listTasks args : Audited "list_tasks" Js.Undefined (listTasks env args).
Proof.
  unfold listTasks. cbv zeta.
  apply audited_bind; [apply quiet_answer | intros tasks].
  apply audited_log. apply final_ret; reflexivity.
Qed.

Lemma audited_addTask args :
  Audited "add_task" (arg args "notePath") (addTask env args).
Proof.
  unfold addTask, validateWithExtension.
  apply audited_bind; [apply quiet_validated | intros sanitized].
  apply audited_bind; [apply quiet_answer | intros task].
  apply audited_log.
  apply (final_link sanitized (fun uri => {| content := TaskAdded task uri;
                                             isError := false |})).
  intros uri. repeat split.
Qed.

Lemma audited_completeTask taskId :
  Audited "complete_task" taskId (completeTask env taskId).
Proof.
  unfold completeTask.
  apply audited_bind; [apply quiet_answer | intros task].
  apply audited_log. apply final_ret; reflexivity.
Qed.

Lemma handed_settle now operation approved h by_ g g0 :
  auditLogger g0 = auditLogger g ->
  exists new,
    handed new g (resolvePromise h approved by_ (logResponse now operation approved g0))
    /\ toolCalls new = [].
Proof.
  intros E. eexists. split; [| shelve].
  intros everything H. cbn. rewrite E. apply logged_log, H.
  Unshelve. reflexivity.
Qed.

Lemma handed_resolve now pending approved g g0 :
  auditLogger g0 = auditLogger g ->
  exists new, handed new g (resolve now pending approved g0) /\ toolCalls new = [].
Proof. intros E. unfold resolve. cbv zeta. apply handed_settle. exact E. Qed.

Lemma handed_cancelAll now g :
  exists new, handed new g (cancelAll now g) /\ toolCalls new = [].
Proof.
  unfold cancelAll.
  assert (H : forall l g0, exists new,
             handed new g0 (fold_left (cancelOne now) l g0) /\ toolCalls new = []).
  { induction l as [|entry l IH]; intros g0.
    - exists []. split; [apply handed_refl | reflexivity].
    - cbn [fold_left].
      destruct (handed_resolve now entry.2 false g0
                  (clearTimeout (pa_timeout entry.2) g0) eq_refl) as (n1 & H1 & T1).
      destruct (IH (cancelOne now g0 entry)) as (n2 & H2 & T2).
      exists (n1 ++ n2). split; [eapply handed_trans; eauto |].
      rewrite toolCalls_app, T1, T2. reflexivity. }
  destruct (H (entries g) g) as (new & Hn & T).
  exists new. split; [| exact T]. intros everything Hl. apply (Hn everything Hl).
Qed.

Lemma handed_request now id operation g :
  exists new, handed new g (requestApproval now id operation g).1 /\ toolCalls new = [].
Proof.
  eexists. split; [| shelve].
  intros everything H. cbn. apply logged_log, H.
  Unshelve. reflexivity.
Qed.

Lemma handed_step g ev : exists new, handed new g (step g ev) /\ toolCalls new = [].
Proof.
  assert (Hsame : exists new, handed new g g /\ toolCalls new = []).
  { exists []. split; [apply handed_refl | reflexivity]. }
  destruct ev as [now id operation | now id approved | now h | now]; cbn [step].
  - apply handed_request.
  - unfold onRespond. destruct (pendingApprovals g !! id); [| exact Hsame].
    apply handed_resolve. reflexivity.
  - destruct (timers g !! h) as [tm |]; [| exact Hsame].
    destruct (tm_deadline tm <=? now)%Z; [| exact Hsame].
    unfold onTimeout. destruct (pendingApprovals g !! tm_id tm); [| exact Hsame].
    cbv zeta. apply handed_settle. reflexivity.
  - apply handed_cancelAll.
Qed.

Lemma handed_run evs g : exists new, handed new g (run evs g) /\ toolCalls new = [].
Proof.
  revert g. induction evs as [|ev evs IH]; intros g.
  - exists []. split; [apply handed_refl | reflexivity].
  - cbn [run fold_left]. destruct (handed_step g ev) as (n1 & H1 & T1).
    destruct (IH (step g ev)) as (n2 & H2 & T2).
    exists (n1 ++ n2). split; [eapply handed_trans; eauto |].
    rewrite toolCalls_app, T1, T2. reflexivity.
Qed.

(** Asking for approval logs no tool call. *)
Lemma audited_withApproval a operation tool path m :
  Audited tool path m -> Audited tool path (withApproval a operation m).
Proof.
  intros Hm s. unfold withApproval, executeWithApproval.
  destruct (requiresApproval (getGuard s) operation); [| apply Hm].
  destruct (handed_request (clock s) (approvalId a) operation (getGuard s))
    as (n1 & H1 & T1).
  destruct (requestApproval (clock s) (approvalId a) operation (getGuard s))
    as [g h]. cbn [fst] in H1. cbv zeta.
  destruct (handed_run (during a) g) as (n2 & H2 & T2).
  assert (Hq : handed (n1 ++ n2) (operationGuard s)
                 (operationGuard (resume a (run (during a) g) s))).
  { eapply handed_trans; [exact H1 | exact H2]. }
  assert (Tq : toolCalls (n1 ++ n2) = []).
  { rewrite toolCalls_app, T1, T2. reflexivity. }
  destruct (promiseValue h (run (during a) g)) as [[|] |].
  - destruct (Hm (resume a (run (during a) g) s)) as (n3 & H3 & T3).
    exists ((n1 ++ n2) ++ n3).
    split; [eapply handed_trans; eauto |].
    rewrite toolCalls_app, Tq. exact T3.
  - exists (n1 ++ n2). split; [exact Hq | left; exact Tq].
  - exists (n1 ++ n2). auto.
Qed.

Lemma audited_dispatch a operation tool args :
  existsb (String.eqb tool) toolNames = true ->
  Audited tool (successPath tool args)
    (if String.eqb tool "read_note" then
       readNote env (arg args "path") (arg args "includeMetadata")
     else if String.eqb tool "write_note" then
       withApproval a operation
         (writeNote env (arg args "path") (arg args "content") (arg args "mode"))
     else if String.eqb tool "search_vault" then
       searchVault env (arg args "query") (arg args "mode") (arg args "limit")
     else if String.eqb tool "list_notes" then
       listNotes env (arg args "folder") (arg args "recursive")
         (arg args "includeMetadata")
     else if String.eqb tool "list_tasks" then listTasks env args
     else if String.eqb tool "add_task" then
       withApproval a operation (addTask env args)
     else if String.eqb tool "complete_task" then
       withApproval a operation (completeTask env (arg args "taskId"))
     else
       ret {| content := ErrorText ("Unknown tool: " +:+ tool); isError := true |}).
Proof.
  intros Hk. unfold successPath. cbn [existsb toolNames] in Hk.
  destruct (String.eqb_spec tool "read_note") as [-> |];
    [apply audited_readNote |].
  destruct (String.eqb_spec tool "write_note") as [-> |];
    [apply audited_withApproval, audited_writeNote |].
  destruct (String.eqb_spec tool "search_vault") as [-> |];
    [apply audited_searchVault |].
  destruct (String.eqb_spec tool "list_notes") as [-> |];
    [apply audited_listNotes |].
  destruct (String.eqb_spec tool "list_tasks") as [-> |];
    [apply audited_listTasks |].
  destruct (String.eqb_spec tool "add_task") as [-> |];
    [apply audited_withApproval, audited_addTask |].
  destruct (String.eqb_spec tool "complete_task") as [-> |];
    [apply audited_withApproval, audited_completeTask |].
  discriminate.
Qed.

End AuditFacts.



(** ** The matcher *)

Section MatcherFacts.

Import Utf16 RegExp.

Context {R : Type}.
Variable ignoreCase : bool.
Variable input : text.

Local Abbreviation matcher := (@RegExp.matcher R ignoreCase input).

(** A match hands to its continuation what is left of the input. *)
Lemma matcher_suffix r s caps k x :
  matcher r s caps k = Some x ->
  exists s' caps', s' `suffix_of` s /\ k s' caps' = Some x.
Proof.
  revert s caps k.
  induction r as [| c | negated ranges | r1 IH1 r2 IH2 | r1 IH1 r2 IH2 | r1 IH1
                 | n r1 IH1 | |]; intros s caps k H; cbn [RegExp.matcher] in H.
  - exists s, caps. split; [reflexivity | exact H].
  - destruct s as [|y s]; [discriminate |].
    destruct (sameUnit ignoreCase c y); [| discriminate].
    exists s, caps. split; [apply suffix_cons_r; reflexivity | exact H].
  - destruct s as [|y s]; [discriminate |].
    destruct (xorb _ _); [| discriminate].
    exists s, caps. split; [apply suffix_cons_r; reflexivity | exact H].
  - apply IH1 in H as (s1 & caps1 & Hs1 & H).
    apply IH2 in H as (s2 & caps2 & Hs2 & H).
    exists s2, caps2. split; [etrans; eassumption | exact H].
  - destruct (RegExp.matcher ignoreCase input r1 s caps k) eqn:E1.
    + injection H as ->. apply IH1 in E1. exact E1.
    + apply IH2 in H. exact H.
  - revert H. generalize (List.length s) at 1. intros fuel. revert s caps.
    induction fuel as [|fuel IHf]; intros s caps H.
    + exists s, caps. split; [reflexivity | exact H].
    + match type of H with
      | match ?m with _ => _ end = _ => destruct m eqn:E1
      end.
      * injection H as ->. apply IH1 in E1 as (s1 & caps1 & Hs1 & E1).
        destruct (List.length s1 <? List.length s)%nat; [| discriminate].
        apply IHf in E1 as (s2 & caps2 & Hs2 & E1).
        exists s2, caps2. split; [etrans; eassumption | exact E1].
      * exists s, caps. split; [reflexivity | exact H].
  - apply IH1 in H as (s1 & caps1 & Hs1 & H). eauto.
  - destruct (_ =? _)%nat; [| discriminate].
    exists s, caps. split; [reflexivity | exact H].
  - destruct s; [| discriminate].
    exists [], caps. split; [reflexivity | exact H].
Qed.

(** A continuation that accepts nothing. *)
Lemma matcher_none r s caps k :
  (forall s' caps', s' `suffix_of` s -> k s' caps' = None) ->
  matcher r s caps k = None.
Proof.
  intros Hk. destruct (matcher r s caps k) as [x |] eqn:E; [| reflexivity].
  apply matcher_suffix in E as (s' & caps' & Hs & E). rewrite Hk in E by exact Hs.
  discriminate.
Qed.

(** The star of a class: one code unit of the class and the star
    again, or else the continuation. *)
Lemma star_class negated ranges x s caps k :
  matcher (Star (Class negated ranges)) (x :: s) caps k
  = if xorb negated (inClass ignoreCase ranges x)
    then match matcher (Star (Class negated ranges)) s caps k with
         | Some result => Some result
         | None => k (x :: s) caps
         end
    else k (x :: s) caps.
Proof.
  cbn [RegExp.matcher groups foldr List.length].
  destruct (xorb negated (inClass ignoreCase ranges x)); [| reflexivity].
  replace (List.length s <? S (List.length s))%nat with true
    by (symmetry; apply Nat.ltb_lt; lia).
  reflexivity.
Qed.

Lemma star_nil r caps k : matcher (Star r) [] caps k = k [] caps.
Proof. reflexivity. Qed.

(** The star of a class takes code units of the class. *)
Lemma star_class_inv negated ranges s caps k x :
  matcher (Star (Class negated ranges)) s caps k = Some x ->
  exists taken s',
    s = taken ++ s'
    /\ Forall (fun c => xorb negated (inClass ignoreCase ranges c) = true) taken
    /\ k s' caps = Some x.
Proof.
  induction s as [|c s IH].
  - rewrite star_nil. intros H. exists [], []. auto.
  - rewrite star_class. destruct (xorb _ _) eqn:Ec.
    + destruct (matcher (Star _) s caps k) eqn:E.
      * intros H. injection H as ->.
        destruct (IH eq_refl) as (taken & s' & -> & Ht & Hk).
        exists (c :: taken), s'. split; [reflexivity |]. split; [| exact Hk].
        constructor; assumption.
      * intros H. exists [], (c :: s). auto.
    + intros H. exists [], (c :: s). auto.
Qed.

(** The star of a class finds what its continuation accepts after code
    units of the class. *)
Lemma star_class_some negated ranges taken s caps k :
  Forall (fun c => xorb negated (inClass ignoreCase ranges c) = true) taken ->
  is_Some (k s caps) ->
  is_Some (matcher (Star (Class negated ranges)) (taken ++ s) caps k).
Proof.
  intros Ht Hk. induction Ht as [|c taken Hc Ht IH]; cbn [app].
  - destruct s as [|c s]; [exact Hk |].
    rewrite star_class. destruct (xorb _ _); [| exact Hk].
    destruct (matcher (Star _) s caps k); [eauto | exact Hk].
  - rewrite star_class, Hc. destruct IH as [x ->]. eauto.
Qed.

End MatcherFacts.

Section ExecFacts.

Import Utf16 RegExp.

Variable ignoreCase : bool.

Lemma matcher_seq {R} input r1 r2 s caps (k : text -> Captures -> option R) :
  RegExp.matcher ignoreCase input (Seq r1 r2) s caps k
  = RegExp.matcher ignoreCase input r1 s caps
      (fun s' caps' => RegExp.matcher ignoreCase input r2 s' caps' k).
Proof. reflexivity. Qed.

Lemma matcher_group {R} input n r s caps (k : text -> Captures -> option R) :
  RegExp.matcher ignoreCase input (Group n r) s caps k
  = RegExp.matcher ignoreCase input r s caps
      (fun s' caps' =>
         k s' (<[n := firstn (List.length s - List.length s') s]> caps')).
Proof. reflexivity. Qed.

Lemma matcher_char {R} input c x s caps (k : text -> Captures -> option R) :
  RegExp.matcher ignoreCase input (Char c) (x :: s) caps k
  = if sameUnit ignoreCase c x then k s caps else None.
Proof. reflexivity. Qed.

Lemma matcher_class {R} input negated ranges x s caps
    (k : text -> Captures -> option R) :
  RegExp.matcher ignoreCase input (Class negated ranges) (x :: s) caps k
  = if xorb negated (inClass ignoreCase ranges x) then k s caps else None.
Proof. reflexivity. Qed.

Lemma char_inv {R} input c s caps (k : text -> Captures -> option R) x :
  RegExp.matcher ignoreCase input (Char c) s caps k = Some x ->
  exists y s', s = y :: s' /\ sameUnit ignoreCase c y = true /\ k s' caps = Some x.
Proof.
  destruct s as [|y s]; [discriminate |]. rewrite matcher_char.
  destruct (sameUnit ignoreCase c y) eqn:E; [| discriminate]. eauto.
Qed.

Lemma class_inv {R} input negated ranges s caps (k : text -> Captures -> option R) x :
  RegExp.matcher ignoreCase input (Class negated ranges) s caps k = Some x ->
  exists y s',
    s = y :: s' /\ xorb negated (inClass ignoreCase ranges y) = true
    /\ k s' caps = Some x.
Proof.
  destruct s as [|y s]; [discriminate |]. rewrite matcher_class.
  destruct (xorb _ _) eqn:E; [| discriminate]. eauto.
Qed.

(** A pattern that begins with [^] matches at the start only. *)
Lemma search_bol_none r input done s :
  List.length s < List.length input ->
  search ignoreCase (Seq Bol r) input done s = None.
Proof.
  revert done. induction s as [|c s IH]; intros done Hlen; cbn [search RegExp.matcher].
  - destruct (Nat.eqb_spec (List.length (@nil N)) (List.length input)) as [E |];
      [rewrite E in Hlen; lia | reflexivity].
  - destruct (Nat.eqb_spec (List.length (c :: s)) (List.length input)) as [E |];
      [rewrite E in Hlen; lia |].
    apply IH. cbn [List.length] in Hlen. lia.
Qed.

Lemma exec_anchored r s :
  exec ignoreCase (Seq Bol r) s
  = match
      RegExp.matcher ignoreCase s r s ∅ (fun s' caps => Some (s', caps))
    with
    | Some (s', caps) =>
        Some {| RegExp.before := []; matched := firstn (List.length s - List.length s') s;
                captures := caps; after := s' |}
    | None => None
    end.
Proof.
  unfold exec. destruct s as [|c s]; cbn [search].
  - rewrite matcher_seq. cbn [RegExp.matcher List.length Nat.eqb].
    destruct (RegExp.matcher _ _ r _ _ _) as [[s' caps] |]; reflexivity.
  - rewrite matcher_seq.
    change (RegExp.matcher ignoreCase (c :: s) Bol (c :: s) ∅ ?k)
      with (if (List.length (c :: s) =? List.length (c :: s))%nat
            then k (c :: s) ∅ else None).
    rewrite Nat.eqb_refl.
    destruct (RegExp.matcher _ _ r _ _ _) as [[s' caps] |]; [reflexivity |].
    apply search_bol_none. cbn [List.length]. lia.
Qed.

End ExecFacts.

(** ** TasksAdapter: the lines that are tasks *)

Section TaskLineFacts.

Import Utf16 RegExp TasksAdapter.

Lemma space_blank c :
  xorb false (inClass false whiteSpace c) = true <-> isWhiteSpace c = true.
Proof. unfold inClass, isWhiteSpace. cbn [xorb andb]. rewrite orb_false_r. reflexivity. Qed.

Lemma any_oneLine c :
  xorb true (inClass false lineTerminators c) = true <-> isLineTerminator c = false.
Proof.
  unfold inClass, isLineTerminator. cbn [xorb andb]. rewrite orb_false_r.
  apply negb_true_iff.
Qed.

Lemma sameUnit_exact a b : sameUnit false a b = true <-> a = b.
Proof. unfold sameUnit. cbn [andb]. rewrite orb_false_r. apply N.eqb_eq. Qed.

Lemma checkbox_units box :
  xorb false (inClass false [(32, 32); (120, 120); (88, 88)]%N box) = true <->
  box = 32%N \/ box = 120%N \/ box = 88%N.
Proof.
  unfold inClass, inRanges, inRange. cbn [xorb andb existsb fst snd].
  rewrite !orb_false_r, !orb_true_iff, !andb_true_iff, !N.leb_le. lia.
Qed.

(** The match of [TASK_PATTERN] on a line. *)
Lemma task_match line rest caps :
  RegExp.matcher false line
    (seq [Group 1 (Star space); Char 45; Star space; Char 91;
          Group 2 (Class false [(32, 32); (120, 120); (88, 88)]%N); Char 93;
          Star space; Group 3 (Plus any); Eol])
    line ∅ (fun s' caps => Some (s', caps)) = Some (rest, caps) ->
  exists indent gap box gap' content,
    line = indent ++ lit "-" ++ gap ++ lit "[" ++ [box] ++ lit "]" ++ gap' ++ content
    /\ blank indent /\ blank gap /\ blank gap'
    /\ (box = 32 \/ box = 120 \/ box = 88)%N
    /\ content <> [] /\ oneLine content
    /\ caps !! 2 = Some [box] /\ caps !! 3 = Some content.
Proof.
  cbn [seq foldr]. intros H.
  rewrite matcher_seq, matcher_group in H.
  apply star_class_inv in H as (indent & s1 & E1 & Hindent & H).
  rewrite matcher_seq in H.
  apply char_inv in H as (y1 & s2 & -> & Ey1 & H). apply sameUnit_exact in Ey1 as <-.
  rewrite matcher_seq in H.
  apply star_class_inv in H as (gap & s3 & E3 & Hgap & H).
  rewrite matcher_seq in H.
  apply char_inv in H as (y2 & s4 & -> & Ey2 & H). apply sameUnit_exact in Ey2 as <-.
  rewrite matcher_seq, matcher_group in H.
  apply class_inv in H as (box & s5 & -> & Hbox & H).
  rewrite matcher_seq in H.
  apply char_inv in H as (y3 & s6 & -> & Ey3 & H). apply sameUnit_exact in Ey3 as <-.
  rewrite matcher_seq in H.
  apply star_class_inv in H as (gap' & s7 & -> & Hgap' & H).
  rewrite matcher_seq, matcher_group in H. unfold Plus in H. rewrite matcher_seq in H.
  apply class_inv in H as (a & s8 & -> & Ha & H).
  apply star_class_inv in H as (taken & s9 & -> & Htaken & H).
  rewrite matcher_seq in H. cbn [RegExp.matcher] in H.
  destruct s9 as [|? ?]; [| discriminate].
  injection H as <- <-.
  exists indent, gap, box, gap', (a :: taken ++ []).
  split; [subst line s2; reflexivity |].
  split; [eapply Forall_impl; [exact Hindent | intros c; apply space_blank] |].
  split; [eapply Forall_impl; [exact Hgap | intros c; apply space_blank] |].
  split; [eapply Forall_impl; [exact Hgap' | intros c; apply space_blank] |].
  split; [apply checkbox_units, Hbox |].
  split; [discriminate |].
  split.
  { rewrite app_nil_r. constructor; [apply any_oneLine, Ha |].
    eapply Forall_impl; [exact Htaken | intros c; apply any_oneLine]. }
  split.
  - rewrite lookup_insert_ne by discriminate. rewrite lookup_insert_eq.
    f_equal.
    match goal with
    | |- take ?n _ = _ => replace n with 1 by (cbn [List.length]; lia)
    end.
    reflexivity.
  - rewrite lookup_insert_eq. do 2 f_equal. apply firstn_all.
Qed.

(** The lines that [TASK_PATTERN] matches. *)
Lemma task_match_some line indent gap box gap' content :
  line = indent ++ lit "-" ++ gap ++ lit "[" ++ [box] ++ lit "]" ++ gap' ++ content ->
  blank indent -> blank gap -> blank gap' ->
  (box = 32 \/ box = 120 \/ box = 88)%N ->
  content <> [] -> oneLine content ->
  is_Some
    (RegExp.matcher false line
       (seq [Group 1 (Star space); Char 45; Star space; Char 91;
             Group 2 (Class false [(32, 32); (120, 120); (88, 88)]%N); Char 93;
             Star space; Group 3 (Plus any); Eol])
       line ∅ (fun s' caps => Some (s', caps))).
Proof.
  intros E Hindent Hgap Hgap' Hbox Hne Hline.
  cbn [seq foldr]. rewrite matcher_seq, matcher_group. rewrite E at 2.
  apply star_class_some.
  { eapply Forall_impl; [exact Hindent | intros c; apply space_blank]. }
  rewrite matcher_seq. cbn [lit list_ascii_of_string map app].
  change (N_of_ascii "-") with 45%N. rewrite matcher_char.
  change (sameUnit false 45 45) with true. cbv iota.
  rewrite matcher_seq. apply star_class_some.
  { eapply Forall_impl; [exact Hgap | intros c; apply space_blank]. }
  rewrite matcher_seq. change (N_of_ascii "[") with 91%N. rewrite matcher_char.
  change (sameUnit false 91 91) with true. cbv iota.
  rewrite matcher_seq, matcher_group, matcher_class.
  apply checkbox_units in Hbox. rewrite Hbox.
  rewrite matcher_seq. change (N_of_ascii "]") with 93%N. rewrite matcher_char.
  change (sameUnit false 93 93) with true. cbv iota.
  rewrite matcher_seq. apply star_class_some.
  { eapply Forall_impl; [exact Hgap' | intros c; apply space_blank]. }
  rewrite matcher_seq, matcher_group. unfold Plus, any. rewrite matcher_seq.
  destruct content as [|a taken]; [contradiction |].
  apply Forall_cons in Hline as [Ha Htaken].
  rewrite matcher_class. apply any_oneLine in Ha. rewrite Ha.
  rewrite <- (app_nil_r taken) at 1. apply star_class_some.
  { eapply Forall_impl; [exact Htaken | intros c; apply any_oneLine]. }
  rewrite matcher_seq. cbn [RegExp.matcher]. eauto.
Qed.

Lemma task_exec line :
  exec false TASK_PATTERN line
  = match
      RegExp.matcher false line
        (seq [Group 1 (Star space); Char 45; Star space; Char 91;
              Group 2 (Class false [(32, 32); (120, 120); (88, 88)]%N); Char 93;
              Star space; Group 3 (Plus any); Eol])
        line ∅ (fun s' caps => Some (s', caps))
    with
    | Some (s', caps) =>
        Some {| RegExp.before := [];
                matched := firstn (List.length line - List.length s') line;
                captures := caps; after := s' |}
    | None => None
    end.
Proof. apply exec_anchored. Qed.

(** White space before a code unit that is none: the place is fixed. *)
Lemma blank_split a a' x r r' :
  blank a -> blank a' -> isWhiteSpace x = false ->
  a ++ x :: r = a' ++ x :: r' -> a = a' /\ r = r'.
Proof.
  intros Ha. revert a'. induction Ha as [|c a Hc Ha IH]; intros a' Ha' Hx E.
  - destruct Ha' as [|c' a' Hc' Ha']; cbn [app] in E.
    + injection E as <-. auto.
    + injection E as <- _. congruence.
  - destruct Ha' as [|c' a' Hc' Ha']; cbn [app] in E.
    + injection E as -> _. congruence.
    + injection E as <- E. destruct (IH a' Ha' Hx E) as [-> ->]. auto.
Qed.

(** A task comes from a line of the shape of [TASK_PATTERN]. *)
Lemma parseTask_inv line filePath lineNumber task :
  parseTask line filePath lineNumber = Some task ->
  exists indent gap box gap' content,
    line = indent ++ lit "-" ++ gap ++ lit "[" ++ [box] ++ lit "]" ++ gap' ++ content
    /\ blank indent /\ blank gap /\ blank gap'
    /\ (box = 32 \/ box = 120 \/ box = 88)%N
    /\ content <> [] /\ oneLine content
    /\ task = taskOf line filePath lineNumber [box] content.
Proof.
  intros H. unfold parseTask in H. rewrite task_exec in H.
  destruct (RegExp.matcher _ _ _ _ _ _) as [[rest caps] |] eqn:E; [| discriminate].
  apply task_match in E
    as (indent & gap & box & gap' & content & El & H1 & H2 & H3 & Hbox & Hne & Hline
        & Hc2 & Hc3).
  exists indent, gap, box, gap', content.
  repeat (split; [assumption |]).
  injection H as <-. cbn [RegExp.captures]. rewrite Hc2, Hc3. reflexivity.
Qed.

(** A line of the shape of [TASK_PATTERN] gives a task; its content
    ends the line. *)
Lemma parseTask_some line filePath lineNumber indent gap box gap' content :
  line = indent ++ lit "-" ++ gap ++ lit "[" ++ [box] ++ lit "]" ++ gap' ++ content ->
  blank indent -> blank gap -> blank gap' ->
  (box = 32 \/ box = 120 \/ box = 88)%N ->
  content <> [] -> oneLine content ->
  exists content',
    parseTask line filePath lineNumber
    = Some (taskOf line filePath lineNumber [box] content')
    /\ content' `suffix_of` (gap' ++ content).
Proof.
  intros El Hindent Hgap Hgap' Hbox Hne Hline.
  destruct (task_match_some line indent gap box gap' content El Hindent Hgap Hgap'
              Hbox Hne Hline) as [[rest caps] E].
  assert (Hs : is_Some (parseTask line filePath lineNumber)).
  { unfold parseTask. rewrite task_exec, E. eauto. }
  destruct Hs as [task Ep].
  destruct (parseTask_inv _ _ _ _ Ep)
    as (indent' & gap2 & box' & gap2' & content' & El' & H1 & H2 & H3 & Hbox' & _ & _
        & ->).
  rewrite El in El'. cbn [lit list_ascii_of_string map app] in El'.
  apply blank_split in El' as [_ El']; [| assumption | assumption | reflexivity].
  apply blank_split in El' as [_ El']; [| assumption | assumption | reflexivity].
  injection El' as -> El'.
  exists content'. split; [rewrite Ep, El; reflexivity |].
  exists gap2'. exact El'.
Qed.

Lemma completed_box box :
  (box = 32 \/ box = 120 \/ box = 88)%N ->
  bool_decide (toLowerCase [box] = lit "x") = negb (box =? 32)%N.
Proof. intros [-> | [-> | ->]]; reflexivity. Qed.

End TaskLineFacts.

(** [parseTask] takes the lines that are a hyphen, a checkbox with a
    space, an [x] or an [X] in it, and a content of at least one code
    unit without line terminator, with optional white space before each
    of the three; it returns [null] for every other line.  The task is
    completed when the checkbox holds no space; its raw line is the
    line, and its id the path, a colon and the number of the line.  In
    particular a line that ends in a line terminator, as the lines of a
    file with CR LF line ends do, is no task. *)
Theorem parseTask_shape line filePath lineNumber :
  (forall task,
     TasksAdapter.parseTask line filePath lineNumber = Some task ->
     exists indent gap box gap' content,
       line = indent ++ Utf16.lit "-" ++ gap ++ Utf16.lit "[" ++ [box]
              ++ Utf16.lit "]" ++ gap' ++ content
       /\ Utf16.blank indent /\ Utf16.blank gap /\ Utf16.blank gap'
       /\ (box = 32 \/ box = 120 \/ box = 88)%N
       /\ content <> [] /\ Utf16.oneLine content)
  /\ (forall indent gap box gap' content,
       line = indent ++ Utf16.lit "-" ++ gap ++ Utf16.lit "[" ++ [box]
              ++ Utf16.lit "]" ++ gap' ++ content ->
       Utf16.blank indent -> Utf16.blank gap -> Utf16.blank gap' ->
       (box = 32 \/ box = 120 \/ box = 88)%N ->
       content <> [] -> Utf16.oneLine content ->
       exists task,
         TasksAdapter.parseTask line filePath lineNumber = Some task
         /\ TasksAdapter.completed task = negb (box =? 32)%N
         /\ TasksAdapter.rawLine task = line
         /\ TasksAdapter.id task = filePath ++ Utf16.lit ":" ++ Utf16.ofZ lineNumber)
  /\ (forall c,
       last line = Some c -> Utf16.isLineTerminator c = true ->
       TasksAdapter.parseTask line filePath lineNumber = None).
Proof.
  split; [| split].
  - intros task H. destruct (parseTask_inv _ _ _ _ H)
      as (indent & gap & box & gap' & content & H1 & H2 & H3 & H4 & H5 & H6 & H7 & _).
    exists indent, gap, box, gap', content. auto 10.
  - intros indent gap box gap' content El Hindent Hgap Hgap' Hbox Hne Hline.
    destruct (parseTask_some line filePath lineNumber indent gap box gap' content El
                Hindent Hgap Hgap' Hbox Hne Hline) as (content' & Ep & _).
    eexists. split; [exact Ep |].
    split; [apply completed_box, Hbox |]. split; reflexivity.
  - intros c Hlast Hc.
    destruct (TasksAdapter.parseTask line filePath lineNumber) as [task |] eqn:Ep; [| reflexivity].
    destruct (parseTask_inv _ _ _ _ Ep)
      as (indent & gap & box & gap' & content & El & _ & _ & _ & _ & Hne & Hline & _).
    exfalso. rewrite El, !app_assoc in Hlast.
    destruct (exists_last Hne) as (front & d & ->).
    rewrite app_assoc, last_snoc in Hlast. injection Hlast as ->.
    apply Forall_app in Hline as [_ Hd]. apply Forall_cons in Hd as [Hd _].
    unfold Utf16.isLineTerminator in *. congruence.
Qed.

Lemma parseTask_shape_witness :
  (exists task,
     TasksAdapter.parseTask (Utf16.lit "  - [X] pay rent") (Utf16.lit "Inbox.md") 4
     = Some task
     /\ TasksAdapter.completed task = true
     /\ TasksAdapter.id task = Utf16.lit "Inbox.md:4")
  /\ TasksAdapter.parseTask (Utf16.lit "- [ ] pay rent" ++ [13%N]) (Utf16.lit "Inbox.md") 4
     = None.
Proof.
  destruct (parseTask_shape (Utf16.lit "  - [X] pay rent") (Utf16.lit "Inbox.md") 4)
    as (_ & Hsome & _).
  destruct (parseTask_shape (Utf16.lit "- [ ] pay rent" ++ [13%N])
              (Utf16.lit "Inbox.md") 4) as (_ & _ & Hnone).
  split.
  - destruct (Hsome (Utf16.lit "  ") (Utf16.lit " ") 88%N (Utf16.lit " ")
                (Utf16.lit "pay rent")) as (task & E & Hc & _ & Hid);
      [reflexivity | repeat constructor | repeat constructor | repeat constructor
      | auto | discriminate | repeat constructor |].
    exists task. auto.
  - apply (Hnone 13%N); reflexivity.
Defined.

(** ** TasksAdapter: the dates of a line *)

Section DateFacts.

Import Utf16 RegExp TasksAdapter.

Lemma search_none ignoreCase r input done s :
  (forall s', s' `suffix_of` s ->
     RegExp.matcher ignoreCase input r s' ∅ (fun s' caps => Some (s', caps)) = None) ->
  search ignoreCase r input done s = None.
Proof.
  revert done. induction s as [|c s IH]; intros done H; cbn [search].
  - rewrite H by reflexivity. reflexivity.
  - rewrite H by reflexivity. apply IH. intros s' Hs. apply H.
    apply suffix_cons_r, Hs.
Qed.

Lemma tidy_tail x s : tidy (x :: s) = true -> tidy s = true.
Proof. cbn [tidy]. intros H. apply andb_true_iff in H as [_ H]. exact H. Qed.

Lemma tidy_suffix s s' : tidy s = true -> s' `suffix_of` s -> tidy s' = true.
Proof.
  intros H [front ->]. induction front as [|x front IH]; [exact H |].
  apply IH. eapply tidy_tail. exact H.
Qed.

Lemma tidy_colon s : tidy s = true -> Forall (fun c => c <> 58%N) s.
Proof.
  induction s as [|x s IH]; intros H; constructor.
  - cbn [tidy] in H. apply andb_true_iff in H as [H _].
    apply andb_true_iff in H as [H _]. apply negb_true_iff, N.eqb_neq in H. exact H.
  - apply IH. eapply tidy_tail. exact H.
Qed.

Lemma tidy_digit x y s :
  tidy (x :: y :: s) = true -> (128 <= x)%N -> inRanges digits y = false.
Proof.
  cbn [tidy]. intros H Hx. apply andb_true_iff in H as [H _].
  apply andb_true_iff in H as [_ H]. apply negb_true_iff, andb_false_iff in H as [H | H].
  - apply N.leb_gt in H. lia.
  - exact H.
Qed.

Lemma tidy_app_space a b :
  tidy a = true -> tidy b = true -> tidy (a ++ 32%N :: b) = true.
Proof.
  intros Ha Hb. induction a as [|x a IH]; cbn [app].
  - cbn [tidy]. rewrite Hb. destruct b; reflexivity.
  - pose proof (tidy_tail _ _ Ha) as Ha'. specialize (IH Ha').
    cbn [tidy] in Ha |- *. rewrite IH, andb_true_r.
    apply andb_true_iff in Ha as [Ha _]. apply andb_true_iff in Ha as [Hx Hy].
    rewrite Hx. cbn [andb]. destruct a as [|y a]; cbn [app].
    + change (inRanges digits 32) with false. rewrite andb_false_r. reflexivity.
    + exact Hy.
Qed.

Lemma plain_tidy s : plain s -> tidy s = true.
Proof.
  induction 1 as [|x s Hx Hs IH]; [reflexivity |].
  cbn [tidy]. rewrite IH, andb_true_r. unfold plainUnit in Hx.
  apply andb_true_iff in Hx as [Hx _]. apply andb_true_iff in Hx as [H128 Hc].
  rewrite Hc. cbn [andb]. destruct s as [|y s]; [reflexivity |].
  apply N.ltb_lt in H128. replace (128 <=? x)%N with false; [reflexivity |].
  symmetry. apply N.leb_gt. exact H128.
Qed.

(** Under the [i] flag a code unit beyond ASCII, and the colon, match
    themselves only, and a digit matches the digits. *)
Lemma sameUnit_wide a x : (128 <= a)%N -> sameUnit true a x = true -> x = a.
Proof.
  unfold sameUnit, swapCase. intros Ha. cbn [andb].
  replace (a <=? 90)%N with false by (symmetry; apply N.leb_gt; lia).
  replace (a <=? 122)%N with false by (symmetry; apply N.leb_gt; lia).
  rewrite !andb_false_r, orb_diag. intros Hx. apply N.eqb_eq in Hx. auto.
Qed.

Lemma sameUnit_colon x : sameUnit true 58 x = true -> x = 58%N.
Proof.
  unfold sameUnit. change (swapCase 58) with 58%N. cbn [andb].
  rewrite orb_diag. intros Hx. apply N.eqb_eq in Hx. auto.
Qed.

Lemma inClass_digits y : inClass true digits y = inRanges digits y.
Proof.
  unfold inClass. cbn [andb]. destruct (inRanges digits y) eqn:E; [reflexivity |].
  cbn [orb]. unfold inRanges, inRange, digits, swapCase in *.
  cbn [existsb fst snd] in *. rewrite orb_false_r in *.
  destruct (N.leb_spec 65 y); destruct (N.leb_spec y 90); cbn [andb].
  - apply andb_false_iff. right. apply N.leb_gt. lia.
  - destruct (N.leb_spec 97 y); destruct (N.leb_spec y 122); cbn [andb]; try exact E.
    apply andb_false_iff. right. apply N.leb_gt. lia.
  - destruct (N.leb_spec 97 y); destruct (N.leb_spec y 122); cbn [andb]; try exact E.
    lia.
  - destruct (N.leb_spec 97 y); destruct (N.leb_spec y 122); cbn [andb]; try exact E.
    lia.
Qed.

Lemma last_default {A} (l : list A) x d d' :
  List.last (x :: l) d = List.last (x :: l) d'.
Proof.
  revert x. induction l as [|y l IH]; intros x; [reflexivity |].
  change (List.last (y :: l) d = List.last (y :: l) d'). apply IH.
Qed.

Section Dates.

Context {R : Type}.
Variable input : text.
Variable K : text -> Captures -> option R.

(** A date begins with a digit. *)
Lemma date_head s caps x :
  RegExp.matcher true input (seq [Group 1 date]) s caps K = Some x ->
  exists y s', s = y :: s' /\ inRanges digits y = true.
Proof.
  cbn [seq foldr]. rewrite matcher_seq, matcher_group. unfold date.
  cbn [seq foldr Times]. rewrite !matcher_seq. unfold digit. intros H.
  apply class_inv in H as (y & s' & -> & Hy & _).
  cbn [xorb] in Hy. rewrite inClass_digits in Hy. eauto.
Qed.

Lemma lit_cons a e s caps (k : text -> Captures -> option R) :
  RegExp.matcher true input (Lit (a :: e)) s caps k
  = RegExp.matcher true input (Char a) s caps
      (fun s' caps' => RegExp.matcher true input (Lit e) s' caps' k).
Proof. reflexivity. Qed.

(** No date after an emoji that a digit does not follow. *)
Lemma emoji_date_none e prev s caps :
  tidy (prev :: s) = true -> (128 <= List.last e prev)%N ->
  RegExp.matcher true input (Lit e) s caps
    (fun s' caps' => RegExp.matcher true input (seq [Group 1 date]) s' caps' K)
  = None.
Proof.
  revert prev s. induction e as [|a e IH]; intros prev s Ht Hlast.
  - change (Lit []) with Empty. cbn [RegExp.matcher].
    destruct (RegExp.matcher _ _ _ _ _ _) eqn:E; [| reflexivity].
    apply date_head in E as (y & s' & -> & Hy).
    rewrite (tidy_digit _ _ _ Ht Hlast) in Hy. discriminate.
  - rewrite lit_cons. destruct s as [|x s]; [reflexivity |]. rewrite matcher_char.
    destruct (sameUnit true a x) eqn:Ex; [| reflexivity].
    apply (IH x); [eapply tidy_tail; exact Ht |].
    destruct e as [|b e].
    + cbn [List.last] in Hlast |- *. rewrite (sameUnit_wide _ _ Hlast Ex). exact Hlast.
    + rewrite (last_default e b x prev). exact Hlast.
Qed.

(** No field without a colon. *)
Lemma field_none name rest s caps (k : text -> Captures -> option R) :
  Forall (fun c => c <> 58%N) s ->
  RegExp.matcher true input (seq (Lit name :: Char 58 :: rest)) s caps k = None.
Proof.
  intros Hs. cbn [seq foldr]. rewrite matcher_seq. apply matcher_none.
  intros s' caps' Hsuffix. rewrite matcher_seq.
  destruct s' as [|x s']; [reflexivity |]. rewrite matcher_char.
  destruct (sameUnit true 58 x) eqn:Ex; [| reflexivity].
  apply sameUnit_colon in Ex as ->. exfalso.
  destruct Hsuffix as [front ->]. apply Forall_app in Hs as [_ Hs].
  apply Forall_cons in Hs as [Hs _]. contradiction.
Qed.

End Dates.

(** A tidy text holds no date of the patterns. *)
Lemma date_none emoji name s :
  emoji <> [] -> (128 <= List.last emoji 0)%N -> tidy s = true ->
  exec true (datePattern emoji name) s = None.
Proof.
  intros Hne Hwide Ht. unfold exec. apply search_none. intros s' Hs.
  pose proof (tidy_suffix _ _ Ht Hs) as Ht'.
  unfold datePattern.
  change (seq [Alt ?a ?b; Group 1 date]) with (Seq (Alt a b) (seq [Group 1 date])).
  rewrite matcher_seq. cbn [RegExp.matcher].
  rewrite (emoji_date_none s ((fun s' caps => Some (s', caps))) emoji 0%N s' ∅).
  - apply field_none, tidy_colon, Ht'.
  - cbn [tidy]. rewrite Ht'. destruct s'; reflexivity.
  - destruct emoji; [contradiction | exact Hwide].
Qed.

Lemma capture_none emoji name s :
  emoji <> [] -> (128 <= List.last emoji 0)%N -> tidy s = true ->
  capture true (datePattern emoji name) 1 s = None.
Proof. intros. unfold capture. rewrite date_none by assumption. reflexivity. Qed.

(** The line of a task with plain texts. *)
Lemma formatTask_line task done :
  formatTask task done
  = lit "-" ++ lit " " ++ lit "[" ++ [if done then 120%N else 32%N] ++ lit "]" ++ []
    ++ (32%N :: drop 6 (formatTask task done)).
Proof. unfold formatTask. destruct done; reflexivity. Qed.

(** What holds of plain texts, of the emoji and of the checkbox, and
    of two texts with a space between them when it holds of both, holds
    of the line of a plain task. *)
Lemma formatTask_all (P : text -> Prop) task (done : bool) :
  (forall a b, P a -> P b -> P (a ++ 32%N :: b)) ->
  (forall s, plain s -> P s) ->
  P (if done then lit "- [x]" else lit "- [ ]") ->
  Forall P [highestEmoji; highEmoji; mediumEmoji; lowEmoji; lowestEmoji; dueEmoji;
            scheduledEmoji; startEmoji; recurrenceEmoji] ->
  plainTask task ->
  P (formatTask task done).
Proof.
  intros Happ Hplain Hbox Hemoji (Hd & Hdue & Hsch & Hstart & Hrec & Htags).
  assert (Hjoin : forall p parts, P p -> Forall P parts -> P (join (lit " ") (p :: parts))).
  { intros p parts Hp Hparts. revert p Hp.
    induction Hparts as [|q parts Hq Hparts IH]; intros p Hp; [exact Hp |].
    change (join (lit " ") (p :: q :: parts))
      with (p ++ 32%N :: join (lit " ") (q :: parts)).
    apply Happ; [exact Hp | apply IH, Hq]. }
  assert (Hfield : forall emoji o,
            P emoji -> plain (default [] o) ->
            Forall P (if given o then [emoji ++ lit " " ++ default [] o] else [])).
  { intros emoji o He Ho. destruct (given o); constructor; [| constructor].
    apply Happ; [exact He | apply Hplain, Ho]. }
  apply Forall_cons in Hemoji as [E1 Hemoji]. apply Forall_cons in Hemoji as [E2 Hemoji].
  apply Forall_cons in Hemoji as [E3 Hemoji]. apply Forall_cons in Hemoji as [E4 Hemoji].
  apply Forall_cons in Hemoji as [E5 Hemoji]. apply Forall_cons in Hemoji as [E6 Hemoji].
  apply Forall_cons in Hemoji as [E7 Hemoji]. apply Forall_cons in Hemoji as [E8 Hemoji].
  apply Forall_cons in Hemoji as [E9 _].
  unfold formatTask. apply Hjoin; [exact Hbox |].
  constructor; [apply Hplain, Hd |].
  repeat apply Forall_app_2.
  - destruct (t_tags task) as [[|t ts] |]; try constructor; [| constructor].
    cbn [default] in Htags.
    change (map (fun t => lit "#" ++ t) (t :: ts))
      with ((lit "#" ++ t) :: map (fun t => lit "#" ++ t) ts).
    apply Forall_cons in Htags as [Ht Hts].
    apply Hjoin.
    + apply Hplain. constructor; [reflexivity | exact Ht].
    + apply Forall_map. eapply Forall_impl; [exact Hts |].
      intros p Hp. apply Hplain. constructor; [reflexivity | exact Hp].
  - destruct (t_priority task) as [[| | | |] |]; repeat constructor; assumption.
  - apply Hfield; assumption.
  - apply Hfield; assumption.
  - apply Hfield; assumption.
  - apply Hfield; assumption.
Qed.

Lemma formatTask_tidy task done : plainTask task -> tidy (formatTask task done) = true.
Proof.
  apply (formatTask_all (fun s => tidy s = true)).
  - apply tidy_app_space.
  - apply plain_tidy.
  - destruct done; reflexivity.
  - repeat constructor.
Qed.

(** The code units of the line of a plain task. *)
Lemma formatTask_units (Q : N -> Prop) task done :
  (forall c, plainUnit c = true -> Q c) ->
  Forall Q [55357; 56634; 9195; 56636; 56637; 9196; 56517; 9203; 57067; 56577]%N ->
  plainTask task ->
  Forall Q (formatTask task done).
Proof.
  intros Hplain HQ.
  assert (Hin : forall c,
            c ∈ [55357; 56634; 9195; 56636; 56637; 9196; 56517; 9203; 57067; 56577]%N ->
            Q c).
  { apply Forall_forall, HQ. }
  apply (formatTask_all (Forall Q)).
  - intros a b Ha Hb. apply Forall_app. split; [exact Ha |].
    constructor; [apply Hplain; reflexivity | exact Hb].
  - intros s Hs. eapply Forall_impl; [exact Hs | exact Hplain].
  - destruct done; repeat constructor; apply Hplain; reflexivity.
  - repeat constructor; apply Hin; set_solver.
Qed.

Lemma formatTask_oneLine task done : plainTask task -> oneLine (formatTask task done).
Proof.
  apply formatTask_units.
  - intros c Hc. unfold plainUnit in Hc. apply andb_true_iff in Hc as [_ Hc].
    apply negb_true_iff in Hc. exact Hc.
  - repeat constructor.
Qed.

(** The task that [parseTask] reads from the line of a plain task. *)
Lemma parseTask_formatTask task done filePath lineNumber :
  plainTask task ->
  exists content,
    parseTask (formatTask task done) filePath lineNumber
    = Some (taskOf (formatTask task done) filePath lineNumber
              [if done then 120%N else 32%N] content)
    /\ tidy content = true.
Proof.
  intros Hplain. pose proof (formatTask_tidy task done Hplain) as Ht.
  pose proof (formatTask_oneLine task done Hplain) as Hl.
  destruct (parseTask_some (formatTask task done) filePath lineNumber
              [] (lit " ") (if done then 120%N else 32%N) []
              (32%N :: drop 6 (formatTask task done)))
    as (content & Ep & Hs).
  - apply formatTask_line.
  - constructor.
  - repeat constructor.
  - constructor.
  - destruct done; auto.
  - discriminate.
  - constructor; [reflexivity |]. apply Forall_drop, Hl.
  - exists content. split; [exact Ep |].
    apply (tidy_suffix (formatTask task done)); [exact Ht |].
    etrans; [exact Hs |]. rewrite (formatTask_line task done) at 2.
    cbn [lit list_ascii_of_string map app]. do 5 apply suffix_cons_r. reflexivity.
Qed.

End DateFacts.

(** [parseTask] reads no date from a line that [formatTask] wrote: the
    emoji of a date is followed by a space there, and the patterns take
    a date directly after its emoji only.  For a task with plain texts
    (ASCII without colon or line break) the line is a task with the
    completion it was written with, and without due, scheduled, start
    and done date; so no query for overdue tasks matches it, whatever
    the day. *)
Theorem formatTask_dates_unread task done filePath lineNumber :
  TasksAdapter.plainTask task ->
  exists parsed,
    TasksAdapter.parseTask (TasksAdapter.formatTask task done) filePath lineNumber
    = Some parsed
    /\ TasksAdapter.completed parsed = done
    /\ TasksAdapter.dueDate parsed = None
    /\ TasksAdapter.scheduledDate parsed = None
    /\ TasksAdapter.startDate parsed = None
    /\ TasksAdapter.doneDate parsed = None
    /\ forall query today,
         Js.truthy (TasksAdapter.q_overdue query) = true ->
         TasksAdapter.matchesQuery parsed query today = false.
Proof.
  intros Hplain.
  destruct (parseTask_formatTask task done filePath lineNumber Hplain)
    as (content & Ep & Ht).
  assert (Hdates :
            RegExp.capture true TasksAdapter.DATE_due 1 content = None
            /\ RegExp.capture true TasksAdapter.DATE_scheduled 1 content = None
            /\ RegExp.capture true TasksAdapter.DATE_start 1 content = None
            /\ RegExp.capture true TasksAdapter.DATE_done 1 content = None).
  { unfold TasksAdapter.DATE_due, TasksAdapter.DATE_scheduled, TasksAdapter.DATE_start,
      TasksAdapter.DATE_done.
    rewrite !capture_none by (try exact Ht; try discriminate; cbn; lia).
    auto. }
  destruct Hdates as (Hdue & Hsch & Hstart & Hdone).
  eexists. split; [exact Ep |].
  split; [destruct done; reflexivity |].
  cbn [TasksAdapter.dueDate TasksAdapter.scheduledDate TasksAdapter.startDate
       TasksAdapter.doneDate TasksAdapter.taskOf].
  repeat (split; [assumption |]).
  intros query today Hq. unfold TasksAdapter.matchesQuery.
  cbn [TasksAdapter.dueDate TasksAdapter.taskOf]. rewrite Hq, Hdue.
  cbn [TasksAdapter.given negb orb andb].
  destruct (Js.isStr "incomplete" _ && _); [reflexivity |].
  destruct (Js.isStr "complete" _ && _); reflexivity.
Qed.

Lemma formatTask_dates_unread_witness :
  let task :=
    {| TasksAdapter.t_description := Utf16.lit "Buy milk";
       TasksAdapter.t_dueDate := Some (Utf16.lit "2026-11-10");
       TasksAdapter.t_scheduledDate := None; TasksAdapter.t_startDate := None;
       TasksAdapter.t_priority := Some TasksAdapter.high; TasksAdapter.t_recurrence := None;
       TasksAdapter.t_tags := Some [Utf16.lit "home"] |} in
  exists parsed,
    TasksAdapter.parseTask (TasksAdapter.formatTask task false) (Utf16.lit "Inbox.md") 7
    = Some parsed
    /\ TasksAdapter.completed parsed = false
    /\ TasksAdapter.dueDate parsed = None.
Proof.
  intros task.
  destruct (formatTask_dates_unread task false (Utf16.lit "Inbox.md") 7)
    as (parsed & Ep & Hc & Hd & _).
  - unfold TasksAdapter.plainTask, TasksAdapter.plain. cbn.
    repeat split; repeat constructor.
  - exists parsed. auto.
Defined.

(** ** TasksAdapter: adding and completing a task *)

Section LinesFacts.

Import Utf16.

Lemma text_split_cons sep s : exists h t, split sep s = h :: t.
Proof.
  induction s as [|c s (h & t & IH)]; cbn [split]; [eauto |].
  destruct (c =? sep)%N; [eauto |]. rewrite IH. eauto.
Qed.

Lemma text_split_app sep a b : split sep (a ++ sep :: b) = split sep a ++ split sep b.
Proof.
  induction a as [|c a IH]; cbn [app split].
  - rewrite N.eqb_refl. reflexivity.
  - destruct (c =? sep)%N; [rewrite IH; reflexivity |].
    rewrite IH. destruct (text_split_cons sep a) as (h & t & ->). reflexivity.
Qed.

Lemma text_split_whole sep s : Forall (fun c => c <> sep) s -> split sep s = [s].
Proof.
  induction 1 as [|c s Hc Hs IH]; [reflexivity |].
  cbn [split]. rewrite IH. apply N.eqb_neq in Hc. rewrite Hc. reflexivity.
Qed.

Lemma text_join_split sep s : join [sep] (split sep s) = s.
Proof.
  induction s as [|c s IH]; [reflexivity |]. cbn [split].
  destruct (c =? sep)%N eqn:E.
  - apply N.eqb_eq in E as ->. destruct (text_split_cons sep s) as (h & t & Es).
    rewrite Es in *. change (join [sep] ([] :: h :: t)) with (sep :: join [sep] (h :: t)).
    rewrite IH. reflexivity.
  - destruct (text_split_cons sep s) as (h & t & Es). rewrite Es in *.
    destruct t as [|h' t].
    + cbn [join] in *. rewrite IH. reflexivity.
    + change (join [sep] ((c :: h) :: h' :: t)) with (c :: join [sep] (h :: h' :: t)).
      rewrite IH. reflexivity.
Qed.

Lemma text_join_snoc sep h t l :
  join [sep] ((h :: t) ++ [l]) = join [sep] (h :: t) ++ sep :: l.
Proof.
  revert h. induction t as [|h' t IH]; intros h; [reflexivity |].
  change (join [sep] ((h :: h' :: t) ++ [l]))
    with (h ++ sep :: join [sep] ((h' :: t) ++ [l])).
  rewrite IH.
  change (join [sep] (h :: h' :: t)) with (h ++ sep :: join [sep] (h' :: t)).
  rewrite <- app_assoc. reflexivity.
Qed.

Lemma includes_unit c s : includes [c] s = true <-> c ∈ s.
Proof.
  induction s as [|x s IH]; cbn [includes startsWith].
  - split; [discriminate | intros H; inversion H].
  - rewrite andb_true_r, orb_true_iff, IH, N.eqb_eq, elem_of_cons. reflexivity.
Qed.

End LinesFacts.

Section NumberFacts.

Import Utf16 TasksAdapter.

Local Abbreviation value :=
  (fold_left (fun (n : Z) (d : N) => (10 * n + Z.of_N (d - 48))%Z)).

Lemma digits_of_uint d :
  Forall (fun c => inRanges RegExp.digits c = true)
    (lit (NilEmpty.string_of_uint d)).
Proof. induction d; constructor; try reflexivity; assumption. Qed.

Lemma value_acc d acc :
  value (lit (NilEmpty.string_of_uint d)) (Z.pos acc) = Z.pos (Pos.of_uint_acc d acc).
Proof.
  revert acc.
  induction d; intros acc;
    cbn [NilEmpty.string_of_uint lit list_ascii_of_string map fold_left Pos.of_uint_acc];
    [reflexivity | ..];
    rewrite <- IHd; f_equal; cbn; lia.
Qed.

Lemma value_of_uint d :
  value (lit (NilEmpty.string_of_uint d)) 0%Z = Z.of_N (Pos.of_uint d).
Proof.
  induction d;
    cbn [NilEmpty.string_of_uint lit list_ascii_of_string map fold_left Pos.of_uint];
    [reflexivity | exact IHd | ..]; apply (value_acc d).
Qed.

Lemma leading_all ranges s :
  Forall (fun c => inRanges ranges c = true) s -> leading ranges s = s.
Proof. induction 1 as [|c s Hc Hs IH]; [reflexivity |]. cbn. rewrite Hc, IH. reflexivity. Qed.

Lemma digit_cases c :
  inRanges RegExp.digits c = true ->
  (c = 48 \/ c = 49 \/ c = 50 \/ c = 51 \/ c = 52 \/ c = 53 \/ c = 54 \/ c = 55
   \/ c = 56 \/ c = 57)%N.
Proof.
  unfold inRanges, inRange, RegExp.digits. cbn [existsb fst snd].
  rewrite orb_false_r, andb_true_iff, !N.leb_le. lia.
Qed.

Lemma parseInt_digits c s :
  inRanges RegExp.digits c = true ->
  Forall (fun c => inRanges RegExp.digits c = true) s ->
  parseInt (Some (c :: s)) = Some (value (c :: s) 0%Z).
Proof.
  intros Hc Hs. pose proof (leading_all _ _ Hs) as Hl.
  apply digit_cases in Hc.
  repeat destruct Hc as [-> | Hc]; try subst c;
    unfold parseInt; cbn [trimStart]; cbv beta iota;
    match goal with
    | |- context [isWhiteSpace ?c] => change (isWhiteSpace c) with false
    end;
    cbv iota; cbn [leading];
    match goal with
    | |- context [inRanges RegExp.digits ?c] =>
        change (inRanges RegExp.digits c) with true
    end;
    cbv iota; rewrite Hl; reflexivity.
Qed.

Lemma ofZ_pos p : ofZ (Z.pos p) = lit (NilEmpty.string_of_uint (Pos.to_uint p)).
Proof.
  unfold ofZ. change (Z.to_int (Z.pos p)) with (Decimal.Pos (Pos.to_uint p)).
  unfold NilZero.string_of_int, NilZero.string_of_uint.
  pose proof (DecimalPos.Unsigned.of_to p) as Hp.
  destruct (Pos.to_uint p); [discriminate | reflexivity ..].
Qed.

Lemma ofZ_digits n :
  (0 < n)%Z -> Forall (fun c => inRanges RegExp.digits c = true) (ofZ n).
Proof.
  intros Hn. destruct n as [| p |]; try lia. rewrite ofZ_pos. apply digits_of_uint.
Qed.

(** The number of a line is read back from its decimal form. *)
Lemma parseInt_ofZ n : (0 < n)%Z -> parseInt (Some (ofZ n)) = Some n.
Proof.
  intros Hn. pose proof (ofZ_digits n Hn) as Hd.
  destruct n as [| p |]; try lia. rewrite ofZ_pos in *.
  pose proof (value_of_uint (Pos.to_uint p)) as Hv.
  rewrite (DecimalPos.Unsigned.of_to p) in Hv.
  destruct (lit (NilEmpty.string_of_uint (Pos.to_uint p))) as [|c s].
  - discriminate.
  - apply Forall_cons in Hd as [Hc Hs].
    etrans; [apply (parseInt_digits c s Hc Hs) |]. rewrite Hv. reflexivity.
Qed.

End NumberFacts.

Section CompleteFacts.

Import Utf16 RegExp TasksAdapter.

(** The first [- [ ]] of a line after its indentation. *)
Lemma search_checkbox input done indent rest :
  blank indent ->
  search false (Lit (lit "- [ ]")) input done (indent ++ lit "- [ ]" ++ rest)
  = Some {| RegExp.before := done ++ indent; matched := lit "- [ ]"; captures := ∅;
            after := rest |}.
Proof.
  intros Hindent. revert done.
  induction Hindent as [|c indent Hc Hindent IH]; intros done.
  - cbn. rewrite app_nil_r. do 2 f_equal.
    replace (S (S (S (S (S (List.length rest))))) - List.length rest) with 5 by lia.
    reflexivity.
  - cbn [app search]. change (Lit (lit "- [ ]")) with (Seq (Char 45) (Lit (lit " [ ]"))).
    rewrite matcher_seq, matcher_char.
    assert (E : sameUnit false 45 c = false).
    { unfold sameUnit. cbn [andb]. rewrite orb_false_r. apply N.eqb_neq. intros <-.
      discriminate. }
    rewrite E, IH, <- app_assoc. reflexivity.
Qed.

Lemma replace_checkbox indent rest :
  blank indent ->
  RegExp.replace false (Lit (lit "- [ ]")) (lit "- [x]") (indent ++ lit "- [ ]" ++ rest)
  = indent ++ lit "- [x]" ++ rest.
Proof.
  intros Hindent. unfold RegExp.replace, exec. rewrite search_checkbox by exact Hindent.
  reflexivity.
Qed.

(** [completeTask] on the line of an open task. *)
Lemma completeTask_line content today taskId filePath lineStr more n indent rest :
  split 58 taskId = filePath :: lineStr :: more ->
  parseInt (Some lineStr) = Some n ->
  (1 <= n)%Z ->
  split 10 content !! Z.to_nat (n - 1) = Some (indent ++ lit "- [ ]" ++ rest) ->
  blank indent -> rest <> [] -> oneLine rest -> oneLine today ->
  let marked := indent ++ lit "- [x]" ++ rest in
  let line :=
    if includes doneEmoji marked then marked
    else marked ++ lit " " ++ doneEmoji ++ lit " " ++ today in
  exists content',
    completeTask true content today taskId
    = Writes filePath (join [10%N] (<[Z.to_nat (n - 1) := line]> (split 10 content)))
        (Some (taskOf line filePath n [120%N] content')).
Proof.
  intros Eid En Hn Eline Hindent Hne Hrest Htoday marked line.
  unfold completeTask. rewrite Eid. cbn [hd lookup list_lookup negb].
  rewrite En. cbv zeta.
  pose proof (lookup_lt_Some _ _ _ Eline) as Hlen.
  replace ((n - 1 <? 0)%Z) with false by (symmetry; apply Z.ltb_ge; lia).
  replace ((Z.of_nat (List.length (split 10 content)) <=? n - 1)%Z) with false
    by (symmetry; apply Z.leb_gt; lia).
  cbn [orb]. rewrite Eline. unfold default, from_option, Datatypes.id.
  destruct (parseTask_some (indent ++ lit "- [ ]" ++ rest) filePath n
              indent (lit " ") 32%N [] rest) as (c0 & Ep & _);
    [reflexivity | exact Hindent | repeat constructor | constructor | auto | exact Hne
    | exact Hrest |].
  rewrite Ep.
  assert (El : completeLine today (indent ++ lit "- [ ]" ++ rest) = line).
  { unfold completeLine. rewrite replace_checkbox by exact Hindent. fold marked.
    unfold line. destruct (includes doneEmoji marked); reflexivity. }
  rewrite El.
  destruct (parseTask_some line filePath n indent (lit " ") 120%N []
              (if includes doneEmoji marked then rest
               else rest ++ lit " " ++ doneEmoji ++ lit " " ++ today))
    as (content' & Ep' & _).
  - unfold line, marked. destruct (includes doneEmoji _); [reflexivity |].
    rewrite <- !app_assoc. reflexivity.
  - exact Hindent.
  - repeat constructor.
  - constructor.
  - auto.
  - destruct (includes doneEmoji marked); [exact Hne |].
    destruct rest; [contradiction | discriminate].
  - destruct (includes doneEmoji marked); [exact Hrest |].
    apply Forall_app. split; [exact Hrest |].
    repeat (constructor; [reflexivity |]). exact Htoday.
  - exists content'. rewrite Ep'. reflexivity.
Qed.

End CompleteFacts.

(** [completeTask] marks the line that the id names.  When that line of
    the file is an open task ([- [ ]] after white space, and then a
    content), the file is written back with this line alone changed:
    its checkbox holds an [x], and the emoji of completion and the date
    of the day end it, unless the line had the emoji before; the task
    returned is read from the new line and is completed. *)
Theorem completeTask_marks content today taskId filePath lineStr more n indent rest :
  Utf16.split 58 taskId = filePath :: lineStr :: more ->
  TasksAdapter.parseInt (Some lineStr) = Some n ->
  (1 <= n)%Z ->
  Utf16.split 10 content !! Z.to_nat (n - 1)
  = Some (indent ++ Utf16.lit "- [ ]" ++ rest) ->
  Utf16.blank indent -> rest <> [] -> Utf16.oneLine rest -> Utf16.oneLine today ->
  let marked := indent ++ Utf16.lit "- [x]" ++ rest in
  let line :=
    if Utf16.includes TasksAdapter.doneEmoji marked then marked
    else marked ++ Utf16.lit " " ++ TasksAdapter.doneEmoji ++ Utf16.lit " " ++ today in
  exists task,
    TasksAdapter.completeTask true content today taskId
    = TasksAdapter.Writes filePath
        (Utf16.join [10%N] (<[Z.to_nat (n - 1) := line]> (Utf16.split 10 content)))
        (Some task)
    /\ TasksAdapter.completed task = true
    /\ TasksAdapter.rawLine task = line
    /\ TasksAdapter.lineNumber task = n.
Proof.
  intros Eid En Hn Eline Hindent Hne Hrest Htoday marked line.
  destruct (completeTask_line content today taskId filePath lineStr more n indent rest
              Eid En Hn Eline Hindent Hne Hrest Htoday) as (content' & E).
  eexists. split; [exact E |]. repeat split.
Qed.

Lemma completeTask_marks_witness :
  let content :=
    Utf16.lit "# Inbox" ++ [10%N] ++ Utf16.lit "  - [ ] call back" ++ [10%N]
    ++ Utf16.lit "- [ ] write" in
  exists task,
    TasksAdapter.completeTask true content (Utf16.lit "2026-11-03") (Utf16.lit "Inbox.md:2")
    = TasksAdapter.Writes (Utf16.lit "Inbox.md")
        (Utf16.lit "# Inbox" ++ [10%N] ++ Utf16.lit "  - [x] call back "
         ++ TasksAdapter.doneEmoji ++ Utf16.lit " 2026-11-03" ++ [10%N]
         ++ Utf16.lit "- [ ] write")
        (Some task)
    /\ TasksAdapter.completed task = true.
Proof.
  intros content.
  destruct (completeTask_marks content (Utf16.lit "2026-11-03") (Utf16.lit "Inbox.md:2")
              (Utf16.lit "Inbox.md") (Utf16.lit "2") [] 2 (Utf16.lit "  ")
              (Utf16.lit " call back"))
    as (task & E & Hc & _).
  - reflexivity.
  - reflexivity.
  - lia.
  - reflexivity.
  - repeat constructor.
  - discriminate.
  - repeat constructor.
  - repeat constructor.
  - exists task. split; [exact E | exact Hc].
Defined.

Section AddFacts.

Import Utf16 RegExp TasksAdapter.

Lemma oneLine_feed s : oneLine s -> Forall (fun c => c <> 10%N) s.
Proof.
  intros H. eapply Forall_impl; [exact H |]. intros c Hc ->. discriminate.
Qed.

Lemma digits_colon s :
  Forall (fun c => inRanges digits c = true) s -> Forall (fun c => c <> 58%N) s.
Proof.
  intros H. eapply Forall_impl; [exact H |]. intros c Hc ->. discriminate.
Qed.

End AddFacts.

(** A task that [addTask] has added is completed by its id.  For a task
    with plain texts and a note whose path has no colon, [addTask]
    writes the note with the line of the task after its content, and
    the id of the task it returns names that line: [completeTask] with
    this id writes the note with the same content before the line, and
    the line with an [x] in its checkbox, the emoji of completion and
    the date of the day. *)
Theorem addTask_then_completeTask content task notePath today :
  TasksAdapter.plainTask task ->
  Forall (fun c => c <> 58%N) notePath ->
  Utf16.oneLine today ->
  exists added completed,
    TasksAdapter.addTask true content task notePath
    = TasksAdapter.Writes notePath (content ++ [10%N] ++ TasksAdapter.formatTask task false)
        (Some added)
    /\ TasksAdapter.completed added = false
    /\ TasksAdapter.completeTask true (content ++ [10%N] ++ TasksAdapter.formatTask task false) today
         (TasksAdapter.id added)
       = TasksAdapter.Writes notePath
           (content ++ [10%N] ++ TasksAdapter.formatTask task true ++ Utf16.lit " "
            ++ TasksAdapter.doneEmoji ++ Utf16.lit " " ++ today)
           (Some completed)
    /\ TasksAdapter.completed completed = true.
Proof.
  intros Hplain Hpath Htoday.
  set (taskLine := TasksAdapter.formatTask task false).
  set (new := content ++ [10%N] ++ taskLine).
  set (n := Z.of_nat (List.length (Utf16.split 10 new))).
  pose proof (formatTask_oneLine task false Hplain) as Hl. fold taskLine in Hl.
  assert (Elines : Utf16.split 10 new = Utf16.split 10 content ++ [taskLine]).
  { unfold new. cbn [app]. rewrite text_split_app.
    rewrite (text_split_whole 10 taskLine) by apply oneLine_feed, Hl. reflexivity. }
  assert (En : n = (Z.of_nat (List.length (Utf16.split 10 content)) + 1)%Z).
  { unfold n. rewrite Elines, List.length_app. cbn [List.length]. lia. }
  destruct (parseTask_formatTask task false notePath n Hplain) as (c0 & Ep & _).
  fold taskLine in Ep.
  assert (Hrest : taskLine = [] ++ Utf16.lit "- [ ]" ++ drop 5 taskLine).
  { unfold taskLine, TasksAdapter.formatTask. reflexivity. }
  assert (Hmarked : TasksAdapter.formatTask task true = [] ++ Utf16.lit "- [x]" ++ drop 5 taskLine).
  { unfold taskLine, TasksAdapter.formatTask. reflexivity. }
  destruct (completeTask_line new today
              (notePath ++ Utf16.lit ":" ++ Utf16.ofZ n) notePath (Utf16.ofZ n) [] n
              [] (drop 5 taskLine)) as (c1 & Ec).
  - cbn [Utf16.lit list_ascii_of_string map app]. change (N_of_ascii ":") with 58%N.
    rewrite text_split_app, (text_split_whole 58 notePath) by exact Hpath.
    rewrite (text_split_whole 58 (Utf16.ofZ n)); [reflexivity |].
    apply digits_colon, ofZ_digits. lia.
  - apply parseInt_ofZ. lia.
  - lia.
  - rewrite Elines, <- Hrest.
    replace (Z.to_nat (n - 1)) with (List.length (Utf16.split 10 content) + 0) by lia.
    rewrite lookup_app_r by lia.
    replace (List.length (Utf16.split 10 content) + 0
             - List.length (Utf16.split 10 content)) with 0 by lia.
    reflexivity.
  - constructor.
  - rewrite Hrest in Hl. cbn [app Utf16.lit list_ascii_of_string map] in Hl.
    unfold taskLine, TasksAdapter.formatTask. discriminate.
  - rewrite Hrest in Hl. apply Forall_app in Hl as [_ Hl].
    apply Forall_app in Hl as [_ Hl]. exact Hl.
  - exact Htoday.
  - rewrite <- Hmarked in Ec.
    assert (Hdone : Utf16.includes TasksAdapter.doneEmoji (TasksAdapter.formatTask task true) = false).
    { apply not_true_is_false. intros H. apply includes_unit in H.
      pose proof (formatTask_units (fun c => c <> 9989%N) task true) as Hu.
      assert (Hall : Forall (fun c => c <> 9989%N) (TasksAdapter.formatTask task true)).
      { apply Hu; [| repeat constructor; discriminate | exact Hplain].
        intros c Hc ->. discriminate. }
      rewrite Forall_forall in Hall. exact (Hall _ H eq_refl). }
    rewrite Hdone in Ec.
    eexists. eexists. split; [| split; [| split]].
    + unfold TasksAdapter.addTask. cbn [negb]. cbv zeta. fold taskLine. fold new. fold n.
      rewrite Ep. reflexivity.
    + reflexivity.
    + cbn [TasksAdapter.id TasksAdapter.taskOf]. rewrite Ec. f_equal.
      rewrite Elines.
      replace (Z.to_nat (n - 1)) with (List.length (Utf16.split 10 content) + 0) by lia.
      rewrite insert_app_r. cbn [insert list_insert].
      destruct (text_split_cons 10 content) as (h & t & Es). rewrite Es.
      rewrite text_join_snoc, <- Es, text_join_split. reflexivity.
    + reflexivity.
Qed.

Lemma addTask_then_completeTask_witness :
  let task :=
    {| TasksAdapter.t_description := Utf16.lit "Buy milk";
       TasksAdapter.t_dueDate := Some (Utf16.lit "2026-11-10");
       TasksAdapter.t_scheduledDate := None; TasksAdapter.t_startDate := None;
       TasksAdapter.t_priority := None; TasksAdapter.t_recurrence := None;
       TasksAdapter.t_tags := None |} in
  exists added completed,
    TasksAdapter.addTask true (Utf16.lit "# Inbox") task (Utf16.lit "Inbox.md")
    = TasksAdapter.Writes (Utf16.lit "Inbox.md")
        (Utf16.lit "# Inbox" ++ [10%N] ++ Utf16.lit "- [ ] Buy milk " ++ TasksAdapter.dueEmoji
         ++ Utf16.lit " 2026-11-10")
        (Some added)
    /\ TasksAdapter.id added = Utf16.lit "Inbox.md:2"
    /\ TasksAdapter.completeTask true
         (Utf16.lit "# Inbox" ++ [10%N] ++ Utf16.lit "- [ ] Buy milk " ++ TasksAdapter.dueEmoji
          ++ Utf16.lit " 2026-11-10")
         (Utf16.lit "2026-11-03") (TasksAdapter.id added)
       = TasksAdapter.Writes (Utf16.lit "Inbox.md")
           (Utf16.lit "# Inbox" ++ [10%N] ++ Utf16.lit "- [x] Buy milk " ++ TasksAdapter.dueEmoji
            ++ Utf16.lit " 2026-11-10 " ++ TasksAdapter.doneEmoji ++ Utf16.lit " 2026-11-03")
           (Some completed).
Proof.
  intros task.
  destruct (addTask_then_completeTask (Utf16.lit "# Inbox") task (Utf16.lit "Inbox.md")
              (Utf16.lit "2026-11-03"))
    as (added & completed & Ea & _ & Ec & _).
  - unfold TasksAdapter.plainTask, TasksAdapter.plain. cbn. repeat split; repeat constructor.
  - repeat constructor; discriminate.
  - repeat constructor.
  - exists added, completed. split; [exact Ea |]. split.
    + vm_compute in Ea. injection Ea as <-. reflexivity.
    + exact Ec.
Defined.

(** ** TasksAdapter: the priority of a task *)

Section PriorityFacts.

Import Utf16 RegExp TasksAdapter.

Lemma search_some ignoreCase r input done s mt :
  search ignoreCase r input done s = Some mt ->
  exists s',
    s' `suffix_of` s
    /\ RegExp.matcher ignoreCase input r s' ∅ (fun s' caps => Some (s', caps))
       = Some (after mt, captures mt).
Proof.
  revert done. induction s as [|c s IH]; intros done; cbn [search].
  - destruct (RegExp.matcher _ _ _ _ _ _) as [[s' caps] |] eqn:E; [| discriminate].
    intros H. injection H as <-. exists []. split; [reflexivity | exact E].
  - destruct (RegExp.matcher _ _ _ _ _ _) as [[s' caps] |] eqn:E.
    + intros H. injection H as <-. exists (c :: s). split; [reflexivity | exact E].
    + intros H. apply IH in H as (s' & Hs & H). exists s'.
      split; [apply suffix_cons_r, Hs | exact H].
Qed.

Section Literals.

Context {R : Type}.
Variable ignoreCase : bool.
Variable input : text.

Lemma lit_step a name s caps (k : text -> Captures -> option R) :
  RegExp.matcher ignoreCase input (Lit (a :: name)) s caps k
  = RegExp.matcher ignoreCase input (Char a) s caps
      (fun s' caps' => RegExp.matcher ignoreCase input (Lit name) s' caps' k).
Proof. reflexivity. Qed.

(** A literal takes its code units, up to case under the [i] flag. *)
Lemma lit_inv name s caps (k : text -> Captures -> option R) x :
  RegExp.matcher ignoreCase input (Lit name) s caps k = Some x ->
  exists taken s',
    s = taken ++ s'
    /\ Forall2 (fun a b => sameUnit ignoreCase a b = true) name taken
    /\ k s' caps = Some x.
Proof.
  revert s. induction name as [|a name IH]; intros s H.
  - exists [], s. split; [reflexivity |]. split; [constructor | exact H].
  - rewrite lit_step in H. apply char_inv in H as (y & s1 & -> & Hy & H).
    apply IH in H as (taken & s' & -> & Ht & H).
    exists (y :: taken), s'. split; [reflexivity |]. split; [| exact H].
    constructor; assumption.
Qed.

Lemma lit_some name taken s caps (k : text -> Captures -> option R) :
  Forall2 (fun a b => sameUnit ignoreCase a b = true) name taken ->
  RegExp.matcher ignoreCase input (Lit name) (taken ++ s) caps k = k s caps.
Proof.
  induction 1 as [|a b name taken Hab Hrest IH]; [reflexivity |].
  rewrite lit_step. cbn [app]. rewrite matcher_char, Hab. exact IH.
Qed.

End Literals.

(** The text that a literal of small letters takes under the [i] flag. *)
Lemma lower_taken name taken :
  Forall (fun a => (97 <= a <= 122)%N) name ->
  Forall2 (fun a b => sameUnit true a b = true) name taken ->
  toLowerCase taken = name.
Proof.
  intros Hname H. induction H as [|a b name taken Hab Hrest IH]; [reflexivity |].
  apply Forall_cons in Hname as [Ha Hname]. cbn [toLowerCase map]. f_equal.
  - unfold sameUnit, swapCase in Hab. cbn [andb] in Hab.
    replace ((65 <=? a) && (a <=? 90))%N with false in Hab
      by (symmetry; apply andb_false_iff; right; apply N.leb_gt; lia).
    replace ((97 <=? a) && (a <=? 122))%N with true in Hab
      by (symmetry; apply andb_true_iff; split; apply N.leb_le; lia).
    unfold lowerUnit. apply orb_true_iff in Hab as [Hab | Hab]; apply N.eqb_eq in Hab.
    + subst b.
      replace ((65 <=? a) && (a <=? 90))%N with false
        by (symmetry; apply andb_false_iff; right; apply N.leb_gt; lia).
      reflexivity.
    + subst b.
      replace ((65 <=? a - 32) && (a - 32 <=? 90))%N with true
        by (symmetry; apply andb_true_iff; split; apply N.leb_le; lia).
      lia.
  - apply IH, Hname.
Qed.

(** The group of a literal. *)
Lemma group_lit input name s caps x :
  Forall (fun a => (97 <= a <= 122)%N) name ->
  RegExp.matcher true input (Lit name) s caps
    (fun s' caps' =>
       Some (s', <[1 := firstn (List.length s - List.length s') s]> caps'))
  = Some x ->
  exists taken, x.2 !! 1 = Some taken /\ toLowerCase taken = name.
Proof.
  intros Hname H. apply lit_inv in H as (taken & s' & -> & Ht & H).
  injection H as <-. exists taken. cbn [snd]. rewrite lookup_insert_eq.
  split; [| apply lower_taken; assumption].
  f_equal. rewrite List.length_app.
  replace (List.length taken + List.length s' - List.length s')
    with (List.length taken) by lia.
  rewrite firstn_app, firstn_all, Nat.sub_diag. cbn [firstn]. apply app_nil_r.
Qed.

(** The inline field gives one of four priorities: the alternative
    [low] is tried before [lowest], and nothing follows the group. *)
Lemma field_priority content name :
  capture true PRIORITY_PATTERN 1 content = Some name ->
  toLowerCase name ∈ [lit "highest"; lit "high"; lit "medium"; lit "low"].
Proof.
  unfold capture, exec. destruct (search _ _ _ _ _) as [mt |] eqn:E; [| discriminate].
  cbn [mbind option_bind]. intros Hname.
  apply search_some in E as (s & _ & E).
  unfold PRIORITY_PATTERN in E. cbn [seq foldr] in E.
  do 4 (rewrite matcher_seq in E; apply matcher_suffix in E as (? & ? & _ & E)).
  rewrite matcher_seq, matcher_group in E.
  assert (Hsmall : forall w,
            w ∈ ["highest"; "high"; "medium"; "low"; "lowest"] ->
            Forall (fun a => (97 <= a <= 122)%N) (lit w)).
  { intros w Hw. repeat (apply elem_of_cons in Hw as [-> | Hw]);
      [.. | inversion Hw]; repeat constructor; cbn; lia. }
  cbn [RegExp.matcher] in E.
  repeat match type of E with
         | match ?m with _ => _ end = _ => destruct m as [r |] eqn:?
         end.
  all: match goal with
       | H : RegExp.matcher true _ (Lit (lit "lowest")) _ _ _ = Some _ |- _ =>
           idtac
       | H : RegExp.matcher true _ (Lit (lit ?w)) _ _ _ = Some _ |- _ =>
           apply group_lit in H as (taken & Ht & Hl); [| apply Hsmall; set_solver];
           injection E as ->; cbn [snd] in Ht;
           rewrite Ht in Hname; injection Hname as <-; rewrite Hl; set_solver
       end.
  (* the alternative [lowest] *)
  exfalso.
  match goal with
  | H : RegExp.matcher true _ (Lit (lit "lowest")) _ _ _ = Some _ |- _ =>
      apply lit_inv in H as (taken & s' & -> & Ht & _)
  end.
  match goal with
  | H : RegExp.matcher true _ (Lit (lit "low")) _ _ _ = None |- _ => rename H into Hlow
  end.
  cbn [lit list_ascii_of_string map] in Ht.
  apply Forall2_cons_inv_l in Ht as (b1 & t1 & H1 & Ht & ->).
  apply Forall2_cons_inv_l in Ht as (b2 & t2 & H2 & Ht & ->).
  apply Forall2_cons_inv_l in Ht as (b3 & t3 & H3 & Ht & ->).
  change (b1 :: b2 :: b3 :: t3) with ([b1; b2; b3] ++ t3) in Hlow.
  rewrite <- app_assoc in Hlow.
  rewrite (lit_some true _ (lit "low") [b1; b2; b3]) in Hlow; [discriminate |].
  repeat constructor; assumption.
Qed.

(** The priority that the emoji give. *)
Lemma emoji_priority content name :
  emojiPriority content = Some name ->
  exists p, name = priorityName p /\ includes (PRIORITY_EMOJI p) content = true.
Proof.
  unfold emojiPriority. destruct (List.find _ _) as [entry |] eqn:E; [| discriminate].
  intros H. injection H as <-. apply find_some in E as [Hin Hinc].
  unfold EMOJI_TO_PRIORITY in Hin. apply in_map_iff in Hin as (p & <- & _).
  exists p. split; [reflexivity | exact Hinc].
Qed.

Lemma includes_elem sub c s : c ∈ sub -> includes sub s = true -> c ∈ s.
Proof.
  intros Hc. induction s as [|x s IH]; cbn [includes].
  - destruct sub; [inversion Hc | discriminate].
  - intros H. apply orb_true_iff in H as [H | H].
    + clear IH. revert c x s Hc H.
      induction sub as [|a sub IHs]; intros c x s Hc H; [inversion Hc |].
      cbn [startsWith] in H. apply andb_true_iff in H as [Ha H].
      apply N.eqb_eq in Ha as <-. apply elem_of_cons in Hc as [-> | Hc].
      * left.
      * right. destruct s as [|y s]; [destruct sub; [inversion Hc | discriminate] |].
        apply (IHs c y s Hc H).
    + right. apply IH, H.
Qed.

End PriorityFacts.

(** The priority of a task is one of the five names of the type, or
    [undefined].  It is [lowest] only by the emoji of that priority, and
    only when the line holds no inline field: the field overrides the
    emoji, and [priority:: lowest] gives [low], because the pattern
    tries [low] before [lowest]. *)
Theorem parseTask_priority line filePath lineNumber task :
  TasksAdapter.parseTask line filePath lineNumber = Some task ->
  (TasksAdapter.priority task = None
   \/ exists p, TasksAdapter.priority task = Some (TasksAdapter.priorityName p))
  /\ (TasksAdapter.priority task
      = Some (TasksAdapter.priorityName TasksAdapter.lowest) ->
      Utf16.includes TasksAdapter.lowestEmoji line = true).
Proof.
  intros H. apply parseTask_inv in H
    as (indent & gap & box & gap' & content & El & _ & _ & _ & _ & _ & _ & ->).
  cbn [TasksAdapter.priority TasksAdapter.taskOf].
  destruct (RegExp.capture true TasksAdapter.PRIORITY_PATTERN 1 content)
    as [name |] eqn:Ef.
  - apply field_priority in Ef. split.
    + right. repeat (apply elem_of_cons in Ef as [-> | Ef]); [.. | inversion Ef].
      * exists TasksAdapter.highest. reflexivity.
      * exists TasksAdapter.high. reflexivity.
      * exists TasksAdapter.medium. reflexivity.
      * exists TasksAdapter.low. reflexivity.
    + intros Hl. injection Hl as Hl. rewrite Hl in Ef. exfalso.
      repeat (apply elem_of_cons in Ef as [Ef | Ef]); try discriminate. inversion Ef.
  - destruct (TasksAdapter.emojiPriority content) as [name |] eqn:Ee.
    + apply emoji_priority in Ee as (p & -> & Hinc). split; [right; eauto |].
      intros Hl. injection Hl as Hl.
      assert (p = TasksAdapter.lowest) as -> by (destruct p; try discriminate; reflexivity).
      apply includes_unit. apply (includes_elem _ 9196%N) in Hinc; [| set_solver].
      rewrite El. rewrite !elem_of_app. auto 10.
    + split; [left; reflexivity | discriminate].
Qed.

Lemma parseTask_priority_witness :
  exists task,
    TasksAdapter.parseTask
      (Utf16.lit "- [ ] water plants [priority:: lowest] " ++ TasksAdapter.lowestEmoji)
      (Utf16.lit "Home.md") 1
    = Some task
    /\ TasksAdapter.priority task = Some (Utf16.lit "low").
Proof.
  destruct (TasksAdapter.parseTask
              (Utf16.lit "- [ ] water plants [priority:: lowest] "
               ++ TasksAdapter.lowestEmoji) (Utf16.lit "Home.md") 1)
    as [task |] eqn:E; [| vm_compute in E; discriminate].
  exists task. split; [reflexivity |].
  destruct (parseTask_priority _ _ _ _ E) as [[Hn | [p Hp]] _].
  - vm_compute in E. injection E as <-. discriminate.
  - rewrite Hp. vm_compute in E. injection E as <-. cbn in Hp.
    destruct p; try discriminate. reflexivity.
Defined.

(** ** TasksAdapter: the form of the dates *)

Section DateShapeFacts.

Import Utf16 RegExp TasksAdapter.

Lemma digit_inv {R} input s caps (k : text -> Captures -> option R) x :
  RegExp.matcher true input digit s caps k = Some x ->
  exists y s', s = y :: s' /\ inRanges digits y = true /\ k s' caps = Some x.
Proof.
  intros H. apply class_inv in H as (y & s' & -> & Hy & H).
  cbn [xorb] in Hy. rewrite inClass_digits in Hy. eauto.
Qed.

Lemma hyphen_inv {R} input s caps (k : text -> Captures -> option R) x :
  RegExp.matcher true input (Char 45) s caps k = Some x ->
  exists s', s = 45%N :: s' /\ k s' caps = Some x.
Proof.
  intros H. apply char_inv in H as (y & s' & -> & Hy & H).
  unfold sameUnit in Hy. change (swapCase 45) with 45%N in Hy. cbn [andb] in Hy.
  rewrite orb_diag in Hy. apply N.eqb_eq in Hy as <-. eauto.
Qed.

Lemma matcher_empty {R} ignoreCase input s caps (k : text -> Captures -> option R) :
  RegExp.matcher ignoreCase input Empty s caps k = k s caps.
Proof. reflexivity. Qed.

(** The date that a pattern of [DATE_PATTERNS] captures. *)
Lemma capture_date emoji name content d :
  capture true (datePattern emoji name) 1 content = Some d -> dateShaped d = true.
Proof.
  unfold capture, exec. destruct (search _ _ _ _ _) as [mt |] eqn:E; [| discriminate].
  cbn [mbind option_bind]. intros Hd.
  apply search_some in E as (s & _ & E).
  unfold datePattern in E. cbn [seq foldr] in E.
  rewrite matcher_seq in E. apply matcher_suffix in E as (s1 & caps1 & _ & E).
  rewrite matcher_seq, matcher_group in E. unfold date in E.
  cbn [seq foldr Times] in E. rewrite !matcher_seq in E.
  apply digit_inv in E as (y1 & s2 & -> & Hy1 & E). rewrite ?matcher_seq in E.
  apply digit_inv in E as (y2 & s3 & -> & Hy2 & E). rewrite ?matcher_seq in E.
  apply digit_inv in E as (y3 & s4 & -> & Hy3 & E). rewrite ?matcher_seq in E.
  apply digit_inv in E as (y4 & s5 & -> & Hy4 & E).
  rewrite matcher_empty, ?matcher_seq in E.
  apply hyphen_inv in E as (s6 & -> & E). rewrite ?matcher_seq in E.
  apply digit_inv in E as (m1 & s7 & -> & Hm1 & E). rewrite ?matcher_seq in E.
  apply digit_inv in E as (m2 & s8 & -> & Hm2 & E).
  rewrite matcher_empty, ?matcher_seq in E.
  apply hyphen_inv in E as (s9 & -> & E). rewrite ?matcher_seq in E.
  apply digit_inv in E as (d1 & s10 & -> & Hd1 & E). rewrite ?matcher_seq in E.
  apply digit_inv in E as (d2 & s11 & -> & Hd2 & E).
  rewrite !matcher_empty in E.
  injection E as _ Ec. rewrite <- Ec, lookup_insert_eq in Hd. injection Hd as <-.
  cbn [List.length].
  replace (S (S (S (S (S (S (S (S (S (S (List.length s11)))))))))) - List.length s11)
    with 10 by lia.
  cbn [firstn dateShaped forallb].
  rewrite Hy1, Hy2, Hy3, Hy4, Hm1, Hm2, Hd1, Hd2. reflexivity.
Qed.

End DateShapeFacts.

(** The dates of a task have the form of a date: every due, scheduled,
    start and done date that [parseTask] returns is ten code units,
    four digits, two digits and two digits with hyphens between them.
    None of them is the empty string, so a date is missing in a
    condition exactly when it is [undefined]. *)
Theorem parseTask_dates_shaped line filePath lineNumber task d :
  TasksAdapter.parseTask line filePath lineNumber = Some task ->
  Some d ∈ [TasksAdapter.dueDate task; TasksAdapter.scheduledDate task;
            TasksAdapter.startDate task; TasksAdapter.doneDate task] ->
  TasksAdapter.dateShaped d = true /\ TasksAdapter.given (Some d) = true.
Proof.
  intros H Hd. apply parseTask_inv in H
    as (indent & gap & box & gap' & content & _ & _ & _ & _ & _ & _ & _ & ->).
  cbn [TasksAdapter.dueDate TasksAdapter.scheduledDate TasksAdapter.startDate
       TasksAdapter.doneDate TasksAdapter.taskOf] in Hd.
  assert (Hs : TasksAdapter.dateShaped d = true).
  { repeat (apply elem_of_cons in Hd as [Hd | Hd]); [.. | inversion Hd];
      symmetry in Hd; eapply capture_date; exact Hd. }
  split; [exact Hs |]. destruct d; [discriminate | reflexivity].
Qed.

Lemma parseTask_dates_shaped_witness :
  exists task,
    TasksAdapter.parseTask
      (Utf16.lit "- [ ] pay rent due: 2026-11-30 and more") (Utf16.lit "Home.md") 2
    = Some task
    /\ TasksAdapter.dueDate task = Some (Utf16.lit "2026-11-30")
    /\ TasksAdapter.dateShaped (Utf16.lit "2026-11-30") = true.
Proof.
  destruct (TasksAdapter.parseTask
              (Utf16.lit "- [ ] pay rent due: 2026-11-30 and more")
              (Utf16.lit "Home.md") 2) as [task |] eqn:E;
    [| vm_compute in E; discriminate].
  exists task. split; [reflexivity |].
  assert (Hd : TasksAdapter.dueDate task = Some (Utf16.lit "2026-11-30")).
  { vm_compute in E. injection E as <-. reflexivity. }
  split; [exact Hd |].
  apply (parseTask_dates_shaped _ _ _ task _ E). rewrite <- Hd. left.
Defined.

(** ** QMDClient: titles and the text output *)

Section TitleFacts.

Import Utf16 QMDClient.

Lemma text_startsWith_app p s : startsWith p (p ++ s) = true.
Proof. induction p as [|c p IH]; [reflexivity |]. cbn. rewrite N.eqb_refl. exact IH. Qed.

Lemma text_startsWith_inv p s : startsWith p s = true -> exists r, s = p ++ r.
Proof.
  revert s. induction p as [|c p IH]; intros s H; [exists s; reflexivity |].
  destruct s as [|x s]; [discriminate |]. cbn [startsWith] in H.
  apply andb_true_iff in H as [Hc H]. apply N.eqb_eq in Hc as ->.
  destruct (IH s H) as [r ->]. exists r. reflexivity.
Qed.

Lemma text_endsWith_app p s : endsWith p (s ++ p) = true.
Proof. unfold endsWith. rewrite rev_app_distr. apply text_startsWith_app. Qed.

Lemma stripMd_md name : stripMd (name ++ lit ".md") = name.
Proof.
  unfold stripMd. rewrite text_endsWith_app, List.length_app.
  replace (List.length name + List.length (lit ".md") - 3) with (List.length name + 0)
    by (cbn; lia).
  rewrite firstn_app_2. cbn [firstn]. apply app_nil_r.
Qed.

Lemma split_segments sep s : Forall (Forall (fun c => c <> sep)) (split sep s).
Proof.
  induction s as [|c s IH]; [repeat constructor |]. cbn [split].
  destruct (N.eqb_spec c sep) as [-> | Hc]; [constructor; [constructor | exact IH] |].
  destruct (text_split_cons sep s) as (h & t & E). rewrite E in IH |- *.
  apply Forall_cons in IH as [Hh Ht]. constructor; [| exact Ht].
  constructor; assumption.
Qed.

Lemma last_segment sep s : Forall (fun c => c <> sep) (List.last (split sep s) []).
Proof.
  pose proof (split_segments sep s) as H.
  destruct (text_split_cons sep s) as (h & t & E). rewrite E in H |- *.
  destruct (exists_last (l := h :: t)) as (front & x & Ex); [discriminate |].
  rewrite Ex in H |- *. rewrite List.last_last.
  apply Forall_app in H as [_ H]. apply Forall_cons in H as [H _]. exact H.
Qed.

Lemma last_split_app sep s name :
  Forall (fun c => c <> sep) name ->
  List.last (split sep (s ++ sep :: name)) [] = name.
Proof.
  intros H. rewrite text_split_app, (text_split_whole sep name H).
  apply List.last_last.
Qed.

Lemma extractTitle_path filePath :
  filePath <> [] ->
  extractTitle filePath = stripMd (List.last (split 47 filePath) []).
Proof. destruct filePath; [contradiction | reflexivity]. Qed.

End TitleFacts.

(** [extractTitle]: the title of a path is its last segment without a
    final [.md]: for [dir/name.md] it is [name]; it never contains a
    slash; the title of the empty path is empty. *)
Theorem extractTitle_spec dir name filePath :
  Forall (fun c => c <> 47%N) name ->
  QMDClient.extractTitle (dir ++ Utf16.lit "/" ++ name ++ Utf16.lit ".md") = name
  /\ QMDClient.extractTitle (name ++ Utf16.lit ".md") = name
  /\ Forall (fun c => c <> 47%N) (QMDClient.extractTitle filePath)
  /\ QMDClient.extractTitle [] = [].
Proof.
  intros Hname.
  assert (Hmd : Forall (fun c => c <> 47%N) (name ++ Utf16.lit ".md")).
  { apply Forall_app. split; [exact Hname | repeat constructor; discriminate]. }
  split; [| split; [| split]].
  - rewrite extractTitle_path by (destruct dir; discriminate).
    change (Utf16.lit "/" ++ ?x) with (47%N :: x).
    rewrite last_split_app by exact Hmd. apply stripMd_md.
  - rewrite extractTitle_path by (destruct name; discriminate).
    rewrite (text_split_whole 47 _ Hmd). cbn [List.last]. apply stripMd_md.
  - unfold QMDClient.extractTitle. destruct filePath as [|c rest]; [constructor |].
    unfold QMDClient.stripMd. destruct (Utf16.endsWith _ _).
    + apply Forall_take, last_segment.
    + apply last_segment.
  - reflexivity.
Qed.

Lemma extractTitle_spec_witness :
  QMDClient.extractTitle (Utf16.lit "Projects/2026/plan.md") = Utf16.lit "plan".
Proof.
  destruct (extractTitle_spec (Utf16.lit "Projects/2026") (Utf16.lit "plan") [])
    as (H & _).
  - repeat constructor; discriminate.
  - exact H.
Defined.

Section TextOutputFacts.

Import Utf16 RegExp QMDClient.

Lemma alt_inv {R} ignoreCase input r1 r2 s caps (k : text -> Captures -> option R) x :
  RegExp.matcher ignoreCase input (Alt r1 r2) s caps k = Some x ->
  RegExp.matcher ignoreCase input r1 s caps k = Some x
  \/ RegExp.matcher ignoreCase input r2 s caps k = Some x.
Proof.
  cbn [RegExp.matcher]. destruct (RegExp.matcher ignoreCase input r1 s caps k).
  - intros H. left. exact H.
  - intros H. right. exact H.
Qed.

Lemma matcher_alt {R} ignoreCase input r1 r2 s caps (k : text -> Captures -> option R) :
  RegExp.matcher ignoreCase input (Alt r1 r2) s caps k
  = match RegExp.matcher ignoreCase input r1 s caps k with
    | Some result => Some result
    | None => RegExp.matcher ignoreCase input r2 s caps k
    end.
Proof. reflexivity. Qed.

Lemma matcher_char_nil {R} ignoreCase input c caps (k : text -> Captures -> option R) :
  RegExp.matcher ignoreCase input (Char c) [] caps k = None.
Proof. reflexivity. Qed.

Lemma eol_inv {R} ignoreCase input s caps (k : text -> Captures -> option R) x :
  RegExp.matcher ignoreCase input Eol s caps k = Some x -> s = [] /\ k [] caps = Some x.
Proof. destruct s; [auto | discriminate]. Qed.

(** The star of a class stops where it has stopped before. *)
Lemma star_class_until {R} ignoreCase input negated ranges taken s caps
    (k : text -> Captures -> option R) :
  Forall (fun c => xorb negated (inClass ignoreCase ranges c) = true) taken ->
  is_Some (k s caps) ->
  RegExp.matcher ignoreCase input (Star (Class negated ranges)) s caps k = k s caps ->
  RegExp.matcher ignoreCase input (Star (Class negated ranges)) (taken ++ s) caps k
  = k s caps.
Proof.
  intros Ht [x Hk] Hs. induction Ht as [|c taken Hc Ht IH]; [exact Hs |].
  cbn [app]. rewrite star_class, Hc, IH, Hk. reflexivity.
Qed.

Lemma lit_exact name taken :
  Forall2 (fun a b => sameUnit false a b = true) name taken -> taken = name.
Proof.
  induction 1 as [|a b name taken Hab Hrest IH]; [reflexivity |].
  apply sameUnit_exact in Hab as ->. rewrite IH. reflexivity.
Qed.

Lemma includes_suffix sub s s' :
  includes sub s = false -> s' `suffix_of` s -> startsWith sub s' = false.
Proof.
  intros H [front ->]. induction front as [|c front IH]; cbn [app includes] in H.
  - destruct s'; apply orb_false_iff in H as [H _]; exact H.
  - apply orb_false_iff in H as [_ H]. apply IH, H.
Qed.

Lemma any_unit c : xorb true (inClass false lineTerminators c) = true <-> isLineTerminator c = false.
Proof. apply any_oneLine. Qed.

(** What [LINE_PATTERN] matches. *)
Lemma line_match line rest caps :
  RegExp.matcher false line
    (seq [Group 1 (seq [Plus any; Lit (lit ".md")]); Opt (Char 58); Star space;
          Group 2 (Star any); Eol])
    line ∅ (fun s' caps => Some (s', caps)) = Some (rest, caps) ->
  exists stem tail found,
    line = stem ++ lit ".md" ++ tail
    /\ stem <> [] /\ oneLine stem
    /\ caps !! 1 = Some (stem ++ lit ".md")
    /\ caps !! 2 = Some found
    /\ found `suffix_of` tail /\ oneLine found.
Proof.
  cbn [seq foldr]. intros H.
  rewrite matcher_seq, matcher_group in H. unfold Plus, any in H.
  rewrite !matcher_seq in H.
  apply class_inv in H as (a & s1 & E1 & Ha & H).
  apply star_class_inv in H as (taken & s2 & -> & Htaken & H).
  rewrite matcher_seq in H.
  apply lit_inv in H as (md & tail & -> & Hmd & H). apply lit_exact in Hmd as ->.
  rewrite !matcher_empty, matcher_seq in H.
  assert (Hrest : exists tail',
            tail' `suffix_of` tail
            /\ RegExp.matcher false line
                 (Seq (Star space) (Seq (Group 2 (Star (Class true lineTerminators)))
                                      (Seq Eol Empty)))
                 tail'
                 (<[1 := firstn (List.length line - List.length tail) line]> ∅)
                 (fun s' caps => Some (s', caps)) = Some (rest, caps)).
  { apply alt_inv in H as [H | H].
    - apply char_inv in H as (y & tail' & -> & _ & H). exists tail'.
      split; [apply suffix_cons_r; reflexivity | exact H].
    - rewrite matcher_empty in H. exists tail. split; [reflexivity | exact H]. }
  destruct Hrest as (tail' & Htail' & Hr). clear H.
  rewrite matcher_seq in Hr.
  apply star_class_inv in Hr as (blank & s3 & -> & _ & Hr).
  rewrite matcher_seq, matcher_group in Hr.
  apply star_class_inv in Hr as (found & s4 & -> & Hfound & Hr).
  rewrite matcher_seq in Hr. apply eol_inv in Hr as [-> Hr].
  rewrite matcher_empty in Hr. injection Hr as <- <-.
  exists (a :: taken), tail, (found ++ []).
  split; [rewrite E1; reflexivity |].
  split; [discriminate |].
  split.
  { constructor; [apply any_unit, Ha |].
    eapply Forall_impl; [exact Htaken | intros c; apply any_unit]. }
  split.
  { rewrite lookup_insert_ne by discriminate. rewrite lookup_insert_eq. f_equal.
    rewrite E1. change (a :: taken ++ lit ".md" ++ tail)
      with ((a :: taken) ++ lit ".md" ++ tail).
    rewrite (app_assoc (a :: taken)), List.length_app.
    replace (List.length ((a :: taken) ++ lit ".md") + List.length tail
             - List.length tail)
      with (List.length ((a :: taken) ++ lit ".md") + 0) by lia.
    rewrite firstn_app_2. cbn [firstn]. rewrite app_nil_r. reflexivity. }
  split.
  { rewrite lookup_insert_eq. f_equal. cbn [List.length]. rewrite Nat.sub_0_r.
    apply firstn_all. }
  split.
  { rewrite app_nil_r in Htail' |- *. etrans; [| exact Htail'].
    exists blank. reflexivity. }
  rewrite app_nil_r. eapply Forall_impl; [exact Hfound | intros c; apply any_unit].
Qed.

Lemma line_exec line :
  exec false LINE_PATTERN line
  = match
      RegExp.matcher false line
        (seq [Group 1 (seq [Plus any; Lit (lit ".md")]); Opt (Char 58); Star space;
              Group 2 (Star any); Eol])
        line ∅ (fun s' caps => Some (s', caps))
    with
    | Some (s', caps) =>
        Some {| RegExp.before := [];
                matched := firstn (List.length line - List.length s') line;
                captures := caps; after := s' |}
    | None => None
    end.
Proof. apply exec_anchored. Qed.

Lemma trimStart_split s :
  exists blank,
    s = blank ++ trimStart s
    /\ Forall (fun c => isWhiteSpace c = true) blank
    /\ match trimStart s with
       | c :: _ => isWhiteSpace c = false
       | [] => True
       end.
Proof.
  induction s as [|c s (blank & E & Hb & Hh)].
  - exists []. repeat split; constructor.
  - cbn [trimStart]. destruct (isWhiteSpace c) eqn:Ec.
    + exists (c :: blank). split; [cbn [app]; rewrite <- E; reflexivity |].
      split; [constructor; assumption | exact Hh].
    + exists []. split; [reflexivity |]. split; [constructor | exact Ec].
Qed.

Lemma oneLine_trimStart s : oneLine s -> oneLine (trimStart s).
Proof.
  intros H. destruct (trimStart_split s) as (blank & E & _ & _). rewrite E in H.
  apply Forall_app in H as [_ H]. exact H.
Qed.

(** The rest of a line after its path. *)
Lemma line_rest line tail caps :
  oneLine tail ->
  RegExp.matcher false line
    (Seq (Star space) (Seq (Group 2 (Star any)) (Seq Eol Empty))) tail caps
    (fun s' caps => Some (s', caps))
  = Some ([], <[2 := trimStart tail]> caps).
Proof.
  intros Hl. destruct (trimStart_split tail) as (blank & E & Hb & Hh).
  pose proof (oneLine_trimStart tail Hl) as Hf.
  assert (Hk : RegExp.matcher false line (Seq (Group 2 (Star any)) (Seq Eol Empty))
                 (trimStart tail) caps (fun s' caps => Some (s', caps))
               = Some ([], <[2 := trimStart tail]> caps)).
  { rewrite matcher_seq, matcher_group. unfold any.
    rewrite <- (app_nil_r (trimStart tail)) at 1.
    rewrite star_class_until.
    - rewrite matcher_seq. cbn [RegExp.matcher]. do 3 f_equal.
      rewrite Nat.sub_0_r. apply firstn_all.
    - eapply Forall_impl; [exact Hf | intros c; apply any_unit].
    - rewrite matcher_seq. cbn [RegExp.matcher]. eauto.
    - reflexivity. }
  rewrite matcher_seq. rewrite E at 1. unfold space. rewrite star_class_until.
  - exact Hk.
  - eapply Forall_impl; [exact Hb | intros c; apply space_blank].
  - rewrite Hk. eauto.
  - destruct (trimStart tail) as [|c r]; [reflexivity |].
    rewrite star_class. cbn [xorb]. unfold inClass. cbn [andb]. rewrite orb_false_r.
    unfold isWhiteSpace in Hh. rewrite Hh. reflexivity.
Qed.

(** The path of a line goes up to its last [.md]. *)
Lemma line_match_last stem tail :
  stem <> [] -> oneLine (stem ++ lit ".md" ++ tail) ->
  includes (lit ".md") (lit "md" ++ tail) = false ->
  let line := stem ++ lit ".md" ++ tail in
  RegExp.matcher false line
    (seq [Group 1 (seq [Plus any; Lit (lit ".md")]); Opt (Char 58); Star space;
          Group 2 (Star any); Eol])
    line ∅ (fun s' caps => Some (s', caps))
  = Some ([], <[2 := trimStart match tail with
                                | 58%N :: tail' => tail'
                                | _ => tail
                                end]>
                (<[1 := stem ++ lit ".md"]> ∅)).
Proof.
  intros Hne Hl Hlast line.
  apply Forall_app in Hl as [Hstem Htail]. apply Forall_app in Htail as [_ Htail].
  destruct stem as [|a stem]; [contradiction |].
  apply Forall_cons in Hstem as [Ha Hstem].
  cbn [seq foldr]. rewrite matcher_seq, matcher_group. unfold Plus, any.
  rewrite !matcher_seq. unfold line at 2. cbn [app]. rewrite matcher_class.
  apply any_unit in Ha. rewrite Ha.
  set (k := fun (s' : text) (caps' : Captures) =>
              RegExp.matcher false line (Seq (Lit (lit ".md")) Empty) s' caps' _).
  assert (Hk : k (lit ".md" ++ tail) ∅
               = Some ([], <[2 := trimStart match tail with
                                             | 58%N :: tail' => tail'
                                             | _ => tail
                                             end]>
                             (<[1 := (a :: stem) ++ lit ".md"]> ∅))).
  { unfold k. rewrite matcher_seq, (lit_some false line (lit ".md") (lit ".md")).
    2:{ repeat constructor. }
    rewrite matcher_empty, matcher_seq.
    assert (Ecap : firstn (List.length line - List.length tail) line
                   = (a :: stem) ++ lit ".md").
    { unfold line. rewrite (app_assoc (a :: stem)), List.length_app.
      replace (List.length ((a :: stem) ++ lit ".md") + List.length tail
               - List.length tail)
        with (List.length ((a :: stem) ++ lit ".md") + 0) by lia.
      rewrite firstn_app_2. cbn [firstn]. apply app_nil_r. }
    rewrite Ecap. unfold Opt. rewrite matcher_alt.
    destruct tail as [|c tail'].
    - rewrite matcher_char_nil, matcher_empty. apply (line_rest line []). constructor.
    - rewrite matcher_char. destruct (N.eqb_spec 58 c) as [<- | Hc].
      + change (sameUnit false 58 58) with true. cbv iota.
        apply Forall_cons in Htail as [_ Htail].
        rewrite (line_rest line tail') by exact Htail. reflexivity.
      + assert (Ec : sameUnit false 58 c = false).
        { apply not_true_is_false. intros Ec. apply sameUnit_exact in Ec. congruence. }
        rewrite Ec, matcher_empty, (line_rest line (c :: tail')) by exact Htail.
        do 3 f_equal. destruct c as [|p]; [reflexivity |].
        repeat (destruct p as [p | p |]; try reflexivity); congruence. }
  rewrite star_class_until.
  - exact Hk.
  - eapply Forall_impl; [exact Hstem | intros c; apply any_unit].
  - rewrite Hk. eauto.
  - cbn [lit list_ascii_of_string map app]. change (N_of_ascii ".") with 46%N.
    rewrite star_class. change (xorb true (inClass false lineTerminators 46)) with true.
    cbv iota. rewrite matcher_none; [reflexivity |].
    intros s' caps' Hs. unfold k.
    destruct (RegExp.matcher _ _ _ _ _ _) eqn:E; [| reflexivity].
    rewrite matcher_seq in E. apply lit_inv in E as (md & r & -> & Hmd & _).
    apply lit_exact in Hmd as ->.
    pose proof (includes_suffix _ _ _ Hlast Hs) as Hf.
    rewrite text_startsWith_app in Hf. discriminate.
Qed.

End TextOutputFacts.

(** [parseTextOutput]: every result has a path that ends in [.md] and
    begins a line of the output, the title of that path, the score 1
    and a snippet without line break.  The path goes up to the last
    [.md] of its line: a line such as [a.md: see b.md] gives the path
    [a.md: see b.md] and an empty snippet.  The snippet is what follows
    the path, without one colon and without white space at its
    start. *)
Theorem parseTextOutput_paths stdout :
  (forall r,
     r ∈ QMDClient.parseTextOutput stdout ->
     exists stem line,
       QMDClient.path r = stem ++ Utf16.lit ".md"
       /\ stem <> [] /\ Utf16.oneLine stem
       /\ line ∈ Utf16.split 10 (Utf16.trim stdout)
       /\ QMDClient.path r `prefix_of` line
       /\ QMDClient.title r = QMDClient.extractTitle (QMDClient.path r)
       /\ QMDClient.score r = 1%Z
       /\ Utf16.oneLine (QMDClient.snippet r))
  /\ (forall stem tail,
       stdout = stem ++ Utf16.lit ".md" ++ tail ->
       Utf16.trim stdout = stdout -> stem <> [] -> Utf16.oneLine stdout ->
       Utf16.includes (Utf16.lit ".md") (Utf16.lit "md" ++ tail) = false ->
       QMDClient.parseTextOutput stdout
       = [{| QMDClient.path := stem ++ Utf16.lit ".md";
             QMDClient.score := 1;
             QMDClient.snippet :=
               Utf16.trimStart match tail with
                               | 58%N :: tail' => tail'
                               | _ => tail
                               end;
             QMDClient.title := QMDClient.extractTitle (stem ++ Utf16.lit ".md") |}]).
Proof.
  split.
  - intros r Hr. unfold QMDClient.parseTextOutput in Hr.
    apply list_elem_of_omap in Hr as (line & Hline & Hres).
    apply list_elem_of_In, List.filter_In in Hline as [Hline _].
    apply list_elem_of_In in Hline.
    unfold QMDClient.resultOf in Hres. rewrite line_exec in Hres.
    destruct (RegExp.matcher _ _ _ _ _ _) as [[rest caps] |] eqn:E; [| discriminate].
    apply line_match in E
      as (stem & tail & found & El & Hne & Hstem & Hc1 & Hc2 & _ & Hfound).
    injection Hres as <-. cbn [RegExp.captures QMDClient.path QMDClient.title
                               QMDClient.score QMDClient.snippet].
    rewrite Hc1, Hc2. cbn [default from_option Datatypes.id].
    exists stem, line. split; [reflexivity |]. split; [exact Hne |].
    split; [exact Hstem |]. split; [exact Hline |].
    split; [exists tail; rewrite El, app_assoc; reflexivity |].
    split; [reflexivity |]. split; [reflexivity | exact Hfound].
  - intros stem tail -> Htrim Hne Hl Hlast.
    unfold QMDClient.parseTextOutput. rewrite Htrim.
    rewrite (text_split_whole 10) by apply oneLine_feed, Hl.
    cbn [List.filter]. rewrite Htrim.
    destruct (bool_decide_reflect (stem ++ Utf16.lit ".md" ++ tail = [])) as [E |].
    { destruct stem; [contradiction | discriminate]. }
    cbn [negb omap list_omap]. unfold QMDClient.resultOf.
    rewrite line_exec, (line_match_last stem tail Hne Hl Hlast).
    cbn [RegExp.captures]. rewrite lookup_insert_ne by discriminate.
    rewrite !lookup_insert_eq. reflexivity.
Qed.

Lemma parseTextOutput_paths_witness :
  QMDClient.parseTextOutput (Utf16.lit "notes/a.md: see b.md")
  = [{| QMDClient.path := Utf16.lit "notes/a.md: see b.md"; QMDClient.score := 1;
        QMDClient.snippet := [];
        QMDClient.title := Utf16.lit "a.md: see b" |}].
Proof.
  destruct (parseTextOutput_paths (Utf16.lit "notes/a.md: see b.md")) as [_ H].
  apply (H (Utf16.lit "notes/a.md: see b") []);
    [reflexivity | reflexivity | discriminate | repeat constructor | reflexivity].
Defined.
